(** * hft-reader-writer: columnar day files and block-compressed day files

    A shallow embedding of the storage engine's C++ sources
    ([schemas.h], [block_codec.h], [block_writer.h], [block_reader.h])
    and the properties its specification states about them.

    Conventions of the embedding.
    - A [w]-bit unsigned integer is a [Z] in [[0, 2^w)]; every C++
      operation that can wrap is followed by an explicit reduction
      ([u8], [u32], [u64]).  A signed 32-bit integer is a [Z] in
      [[-2^31, 2^31)], obtained with [to_i32].
    - A byte buffer ([std::vector<uint8_t>], a mapped file) is a
      [list Z] of bytes; a [const uint8_t*] is the list of the bytes
      readable from the pointer onwards.
    - Behaviour that C++ leaves undefined (a read or a write outside
      the buffer, a store through a null column pointer) is an explicit
      fault of the model, never a silent value. *)

From Stdlib Require Import String Ascii.
From Stdlib Require Import ZArith List Lia Bool.
From Stdlib Require Import Sorting.Sorted Sorting.Permutation.
From coqutil Require Import Z.bitblast.
Import ListNotations.

Local Open Scope Z_scope.

(* ================================================================== *)
(** * Machine integers *)
(* ================================================================== *)

Module Ints.

Definition wrap (w x : Z) : Z := x mod 2 ^ w.

Definition u8 (x : Z) : Z := wrap 8 x.
Definition u16 (x : Z) : Z := wrap 16 x.
Definition u32 (x : Z) : Z := wrap 32 x.
Definition u64 (x : Z) : Z := wrap 64 x.

  (** [static_cast<int32_t>]: reduction modulo 2^32 into the signed range. *)
Definition to_i32 (x : Z) : Z :=
    let y := u32 x in if y <? 2 ^ 31 then y else y - 2 ^ 32.

Definition UINT32_MAX : Z := 2 ^ 32 - 1.

Definition is_u8 (x : Z) : Prop := 0 <= x < 2 ^ 8.
Definition is_u32 (x : Z) : Prop := 0 <= x < 2 ^ 32.
Definition is_u64 (x : Z) : Prop := 0 <= x < 2 ^ 64.
Definition is_i32 (x : Z) : Prop := - 2 ^ 31 <= x < 2 ^ 31.

  (** Little-endian image of the low [k] bytes of [v] (the host order
      of the x86-64 targets of the repository), and its inverse. *)
Fixpoint le_bytes (k : nat) (v : Z) : list Z :=
    match k with
    | O => []
    | S k' => Z.land v 255 :: le_bytes k' (Z.shiftr v 8)
    end.

Fixpoint le_value (bs : list Z) : Z :=
    match bs with
    | [] => 0
    | b :: bs' => Z.lor b (Z.shiftl (le_value bs') 8)
    end.

End Ints.
Import Ints.

(* ================================================================== *)
(** * block_codec.h : L2TBlockCodec *)
(* ================================================================== *)

Module Codec.

  (** ** Scalar helpers *)

  (** [__builtin_clzll] on a non-zero 64-bit value. *)
Definition clzll (y : Z) : Z := 63 - Z.log2 y.

Definition ceil_log2_u64 (x : Z) : Z :=
    if x <=? 1 then 1 else u64 (u32 (64 - u32 (clzll (x - 1)))).

  (** [(uint32_t(v) << 1) ^ uint32_t(v >> 31)]; [v >> 31] is the
      arithmetic shift of a signed value. *)
Definition zigzag_enc32 (v : Z) : Z :=
    Z.lxor (u32 (Z.shiftl (u32 v) 1)) (u32 (Z.shiftr v 31)).

  (** [int32_t((v >> 1) ^ -(v & 1))], the negation taken in uint32. *)
Definition zigzag_dec32 (v : Z) : Z :=
    to_i32 (Z.lxor (Z.shiftr v 1) (u32 (- Z.land v 1))).

  (** ** Outcomes

      A call returns, throws a [std::runtime_error], or runs into
      behaviour that C++ leaves undefined. *)

Inductive error : Set := BlockTooSmall | BadMagic | PriceOverflow.

Inductive outcome (A : Type) : Type :=
  | Ok (a : A)
  | Throw (e : error)
  | Undefined.
  Arguments Ok {A} a.
  Arguments Throw {A} e.
  Arguments Undefined {A}.

Definition bind {A B : Type} (m : outcome A) (k : A -> outcome B) : outcome B :=
    match m with
    | Ok a => k a
    | Throw e => Throw e
    | Undefined => Undefined
    end.

Definition of_option {A : Type} (o : option A) : outcome A :=
    match o with
    | Some a => Ok a
    | None => Undefined
    end.

  (** ** Buffers *)

  (** [std::vector::resize]: truncate, or extend with zero bytes. *)
Definition resize (buf : list Z) (k : nat) : list Z :=
    firstn k buf ++ repeat 0 (k - length buf).

  (** [memcpy(buf.data() + off, bs, |bs|)]; writing past the end of the
      buffer is undefined. *)
Definition store (buf : list Z) (off : nat) (bs : list Z) : option (list Z) :=
    if (off + length bs <=? length buf)%nat
    then Some (firstn off buf ++ bs ++ skipn (off + length bs) buf)
    else None.

  (** [memcpy(dst, src, k)] out of a read-only buffer; reading past the
      end is undefined. *)
Definition load (src : list Z) (k : nat) : option (list Z) :=
    if (k <=? length src)%nat then Some (firstn k src) else None.

  (** ** Bit packing of integer columns *)

  (** The inner [while (bits >= 8)] loop of [bitpack_u32] and
      [bitpack_u64]: the low byte of the accumulator is emitted while
      eight bits or more are pending.  Each turn removes eight pending
      bits, so [bits] turns of fuel are more than the loop can use. *)
Fixpoint drain (fuel : nat) (acc bits : Z) : list Z * Z * Z :=
    match fuel with
    | O => ([], acc, bits)
    | S f =>
        if 8 <=? bits
        then let '(bs, acc', bits') := drain f (Z.shiftr acc 8) (bits - 8) in
             (Z.land acc 255 :: bs, acc', bits')
        else ([], acc, bits)
    end.

  (** The [for] loop shared by [bitpack_u32] and [bitpack_u64] and the
      trailing partial byte.  [acc] is a [uint64_t]: the bits of
      [v << bits] that do not fit in 64 bits are lost. *)
Fixpoint pack_loop (bw mask : Z) (vals : list Z) (acc bits : Z) : list Z :=
    match vals with
    | [] => if 0 <? bits then [Z.land acc 255] else []
    | x :: rest =>
        let v := Z.land x mask in
        let acc1 := Z.lor acc (u64 (Z.shiftl v bits)) in
        let bits1 := bits + bw in
        let '(bs, acc2, bits2) := drain (Z.to_nat bits1) acc1 bits1 in
        bs ++ pack_loop bw mask rest acc2 bits2
    end.

  (** [(bw == full) ? all-ones : (1ull << bw) - 1ull]. *)
Definition mask_of (full bw : Z) : Z :=
    if bw =? full then 2 ^ full - 1 else u64 (u64 (Z.shiftl 1 bw) - 1).

  (** The mask is [1ull << bw], undefined from 64 bits on: the model
      stands for [bitpack_u32] at widths below 64 and for
      [bitpack_u64] at widths up to 64 (where the mask is all ones).
      [vals] carries its own length [n]. *)
Definition bitpack_u32 (vals : list Z) (bw : Z) (out : list Z) : list Z :=
    if (bw =? 0) || (Z.of_nat (length vals) =? 0) then out
    else out ++ pack_loop bw (mask_of 32 bw) vals 0 0.

Definition bitpack_u64 (vals : list Z) (bw : Z) (out : list Z) : list Z :=
    if (bw =? 0) || (Z.of_nat (length vals) =? 0) then out
    else out ++ pack_loop bw (mask_of 64 bw) vals 0 0.

  (** The inner [while (bits < bw)] loop of the unpackers: bytes are
      fed into the accumulator until [bw] bits are buffered.  It reads
      [src[idx++]]; the model carries the bytes from [src + idx] on.
      Each turn adds eight bits, so [bw] turns of fuel suffice. *)
Fixpoint refill (fuel : nat) (src : list Z) (acc bits bw : Z)
    : option (list Z * Z * Z) :=
    match fuel with
    | O => Some (src, acc, bits)
    | S f =>
        if bits <? bw
        then match src with
             | b :: src' =>
                 refill f src' (Z.lor acc (u64 (Z.shiftl b bits))) (bits + 8) bw
             | [] => None
             end
        else Some (src, acc, bits)
    end.

  (** The [for] loop of the unpackers; [cast] is the conversion to the
      element type of [out]. *)
Fixpoint unpack_loop (cast : Z -> Z) (n : nat) (src : list Z)
                       (acc bits bw mask : Z) : option (list Z) :=
    match n with
    | O => Some []
    | S n' =>
        match refill (Z.to_nat bw) src acc bits bw with
        | None => None
        | Some (src', acc', bits') =>
            match unpack_loop cast n' src' (Z.shiftr acc' bw) (bits' - bw) bw mask with
            | None => None
            | Some out => Some (cast (Z.land acc' mask) :: out)
            end
        end
    end.

  (** [bitunpack_u64].  For [bw >= 64] the function shifts a 64-bit
      word by 64 or more ([acc >>= bw], [1ull << bw]), which is
      undefined: the model faults there. *)
Definition bitunpack_u64 (src : list Z) (n : nat) (bw : Z) : option (list Z) :=
    if (bw =? 0) || (Z.of_nat n =? 0) then Some (repeat 0 n)
    else if 64 <=? bw then None
    else unpack_loop (fun x => x) n src 0 0 bw (mask_of 64 bw).

  (** [bitunpack_u32].  The zero-width branch fills [out] but does not
      return, so the loop runs all the same; with [bw = 0] it reads
      nothing and stores zeros again.  [1ull << bw] is undefined from
      64 on. *)
Definition bitunpack_u32 (src : list Z) (n : nat) (bw : Z) : option (list Z) :=
    if 64 <=? bw then None
    else unpack_loop u32 n src 0 0 bw (mask_of 32 bw).

  (** ** Bit packing of the one-bit columns *)

  (** The tail loop of [bitpack_u8]: [b |= (src[i] & 1) << bit]. *)
Fixpoint pack_tail (src : list Z) (bit b : Z) : Z :=
    match src with
    | [] => b
    | x :: src' => pack_tail src' (bit + 1) (u8 (Z.lor b (Z.shiftl (Z.land x 1) bit)))
    end.

Fixpoint bitpack_u8_bytes (src : list Z) : list Z :=
    match src with
    | a0 :: a1 :: a2 :: a3 :: a4 :: a5 :: a6 :: a7 :: rest =>
        u8 (Z.lor (Z.lor (Z.lor (Z.lor (Z.lor (Z.lor (Z.lor
              (Z.shiftl (Z.land a0 1) 0)
              (Z.shiftl (Z.land a1 1) 1))
              (Z.shiftl (Z.land a2 1) 2))
              (Z.shiftl (Z.land a3 1) 3))
              (Z.shiftl (Z.land a4 1) 4))
              (Z.shiftl (Z.land a5 1) 5))
              (Z.shiftl (Z.land a6 1) 6))
              (Z.shiftl (Z.land a7 1) 7))
        :: bitpack_u8_bytes rest
    | [] => []
    | _ => [pack_tail src 0 0]
    end.

Definition bitpack_u8 (src : list Z) (out : list Z) : list Z :=
    out ++ bitpack_u8_bytes src.

  (** [out[i + k] = b >> k & 1] for the first [k] bits of [b]. *)
Definition byte_bits (b : Z) (k : nat) : list Z :=
    map (fun j => Z.land (Z.shiftr b (Z.of_nat j)) 1) (seq 0 k).

Fixpoint bitunpack_u8 (src : list Z) (n : nat) {struct n} : option (list Z) :=
    match n with
    | S (S (S (S (S (S (S (S n'))))))) =>
        match src with
        | b :: src' =>
            match bitunpack_u8 src' n' with
            | Some out => Some (byte_bits b 8 ++ out)
            | None => None
            end
        | [] => None
        end
    | O => Some []
    | _ =>
        match src with
        | b :: _ => Some (byte_bits b n)
        | [] => None
        end
    end.

  (** ** Rows and the block header *)

  (** [Schema::Row] as the codec uses it.  No row struct of [schemas.h]
      has all the members the codec touches; the record lists exactly
      those: [encode_block] reads [ts_ns], [price], [size], [side] and
      [type], [decode_block] writes [ts_ts], [size], [side] and [type].
      [size] is a [float], kept as its 32-bit image. *)
Record Row : Set := mkRow {
    ts_ns : Z;
    ts_ts : Z;
    price : Z;
    size : Z;
    side : Z;
    type : ascii
  }.

  (** A value-initialised row, as [std::vector::resize] creates it. *)
Definition zero_row : Row := mkRow 0 0 0 0 0 zero.

Definition row_ok (r : Row) : Prop :=
    is_u64 (ts_ns r) /\ is_u64 (ts_ts r) /\ is_u32 (price r) /\
    is_u32 (size r) /\ is_u8 (side r).

Record BlockHeader : Set := mkHeader {
    magic : list Z;
    version : Z;
    flags : Z;
    n_rows : Z;
    base_ts : Z;
    base_px : Z;
    ts_scale_ns : Z;
    ts_bw : Z;
    px_bw : Z;
    reserved0 : Z;
    off_ts : Z;
    len_ts : Z;
    off_px : Z;
    len_px : Z;
    off_sz : Z;
    len_sz : Z;
    off_side : Z;
    len_side : Z;
    off_type : Z;
    len_type : Z
  }.

  (** [sizeof(BlockHeader)] under [#pragma pack(1)]:
      8 + 2 + 2 + 4 + 8 + 4 + 4 + 1 + 1 + 2 + 10 * 4. *)
Definition HDR_SIZE : Z := 76.

  (** The object representation of a header: members in declaration
      order, no padding. *)
Definition header_bytes (h : BlockHeader) : list Z :=
    firstn 8 (magic h ++ repeat 0 8)
    ++ le_bytes 2 (version h) ++ le_bytes 2 (flags h)
    ++ le_bytes 4 (n_rows h) ++ le_bytes 8 (base_ts h)
    ++ le_bytes 4 (base_px h) ++ le_bytes 4 (ts_scale_ns h)
    ++ le_bytes 1 (ts_bw h) ++ le_bytes 1 (px_bw h)
    ++ le_bytes 2 (reserved0 h)
    ++ le_bytes 4 (off_ts h) ++ le_bytes 4 (len_ts h)
    ++ le_bytes 4 (off_px h) ++ le_bytes 4 (len_px h)
    ++ le_bytes 4 (off_sz h) ++ le_bytes 4 (len_sz h)
    ++ le_bytes 4 (off_side h) ++ le_bytes 4 (len_side h)
    ++ le_bytes 4 (off_type h) ++ le_bytes 4 (len_type h).

  (** The member of [k] bytes at byte offset [off]. *)
Definition field (src : list Z) (off k : nat) : Z :=
    le_value (firstn k (skipn off src)).

  (** [memcpy(&hdr, src, sizeof(BlockHeader))]. *)
Definition read_header (src : list Z) : option BlockHeader :=
    match load src (Z.to_nat HDR_SIZE) with
    | None => None
    | Some b =>
        Some {| magic := firstn 8 b;
                version := field b 8 2;
                flags := field b 10 2;
                n_rows := field b 12 4;
                base_ts := field b 16 8;
                base_px := field b 24 4;
                ts_scale_ns := field b 28 4;
                ts_bw := field b 32 1;
                px_bw := field b 33 1;
                reserved0 := field b 34 2;
                off_ts := field b 36 4;
                len_ts := field b 40 4;
                off_px := field b 44 4;
                len_px := field b 48 4;
                off_sz := field b 52 4;
                len_sz := field b 56 4;
                off_side := field b 60 4;
                len_side := field b 64 4;
                off_type := field b 68 4;
                len_type := field b 72 4 |}
    end.

  (** ** encode_block *)

  (** The running maxima [max_dt] and [max_dxz]. *)
Definition max_of (l : list Z) : Z := fold_left Z.max l 0.

  (** The loop that copies the [size] members into the resized buffer,
      row [i] at [p + i * sizeof(float)]. *)
Fixpoint store_sizes (rows : list Row) (buf : list Z) (at_ : nat) : option (list Z) :=
    match rows with
    | [] => Some buf
    | r :: rows' =>
        match store buf at_ (le_bytes 4 (size r)) with
        | Some buf' => store_sizes rows' buf' (at_ + 4)
        | None => None
        end
    end.

Definition T_char : ascii := "T"%char.
Definition L_char : ascii := "L"%char.

  (** [hdr.ts_scale_ns], set by its default member initialiser. *)
Definition TS_SCALE_NS : Z := 1000000.

  (** The four columns that the first loop of [encode_block] fills. *)
Definition ts_deltas (b_ts : Z) (rows : list Row) : list Z :=
    map (fun r => u32 (u64 (ts_ns r - b_ts) / TS_SCALE_NS)) rows.

Definition px_zigzags (b_px : Z) (rows : list Row) : list Z :=
    map (fun r => zigzag_enc32 (to_i32 (price r - b_px))) rows.

Definition side_bytes (rows : list Row) : list Z := map side rows.

Definition type_bits (rows : list Row) : list Z :=
    map (fun r => if Ascii.eqb (type r) T_char then 1 else 0) rows.

  (** [static_cast<uint8_t>(ceil_log2_u64(max + 1))]. *)
Definition width_of (col : list Z) : Z :=
    u8 (ceil_log2_u64 (u64 (max_of col + 1))).

  (** [encode_block(rows, n, out)] with [n] the length of [rows]
      (below 2^32, as its type [uint32_t] says); the result is the new
      content of [out]. *)
Definition encode_block (rows : list Row) (out : list Z) : outcome (list Z) :=
    match rows with
    | [] => Ok out
    | r0 :: _ =>
        let n := Z.of_nat (length rows) in
        let b_ts := ts_ns r0 in
        let b_px := price r0 in
        let ts_delta := ts_deltas b_ts rows in
        let px_delta_zigzag := px_zigzags b_px rows in
        let h_ts_bw := width_of ts_delta in
        let h_px_bw := width_of px_delta_zigzag in
        let start := u32 (Z.of_nat (length out)) in
        let hdr_size := HDR_SIZE in
        let out1 := resize out (Z.to_nat (u32 (start + hdr_size))) in
        let h_off_ts := hdr_size in
        let out2 := bitpack_u64 ts_delta h_ts_bw out1 in
        let h_len_ts := u32 (Z.of_nat (length out2) - Z.of_nat (length out1)) in
        let h_off_px := u32 (h_off_ts + h_len_ts) in
        let out3 := bitpack_u32 px_delta_zigzag h_px_bw out2 in
        let h_len_px := u32 (Z.of_nat (length out3) - Z.of_nat (length out2)) in
        let h_off_sz := u32 (h_off_px + h_len_px) in
        let h_len_sz := u32 (n * 4) in
        let before := length out3 in
        let out4 := resize out3 (before + Z.to_nat h_len_sz) in
        bind (of_option (store_sizes rows out4 before)) (fun out5 =>
        let h_off_side := u32 (h_off_sz + h_len_sz) in
        let out6 := bitpack_u8 (side_bytes rows) out5 in
        let h_len_side := u32 (Z.of_nat (length out6) - Z.of_nat (length out5)) in
        let h_off_type := u32 (h_off_side + h_len_side) in
        let out7 := bitpack_u8 (type_bits rows) out6 in
        let h_len_type := u32 (Z.of_nat (length out7) - Z.of_nat (length out6)) in
        let hdr :=
          {| magic := repeat 0 8; version := 1; flags := 0; n_rows := n;
             base_ts := b_ts; base_px := b_px; ts_scale_ns := TS_SCALE_NS;
             ts_bw := h_ts_bw; px_bw := h_px_bw; reserved0 := 0;
             off_ts := h_off_ts; len_ts := h_len_ts;
             off_px := h_off_px; len_px := h_len_px;
             off_sz := h_off_sz; len_sz := h_len_sz;
             off_side := h_off_side; len_side := h_len_side;
             off_type := h_off_type; len_type := h_len_type |} in
        of_option (store out7 (Z.to_nat start) (header_bytes hdr)))
    end.

  (** ** decode_block *)

  Section Decode.

    (** [check_magic] is called by [decode_block] and defined nowhere
        in the sources: it is a parameter of the model. *)
    Variable check_magic : BlockHeader -> bool.

    (** [rows_out.resize(n)]: truncate, or extend with value-initialised
        rows; the rows already there keep their content. *)
Definition resize_rows (n : nat) (rows_out : list Row) : list Row :=
  firstn n rows_out ++ repeat zero_row (n - length rows_out).

    (** [src + off]. *)
Definition advance (src : list Z) (off : Z) : list Z :=
      skipn (Z.to_nat off) src.

    (** The row loop.  The four unpacked columns have [n_rows]
        elements each, like [rows_out] after its [resize]; [p_sz]
        holds the bytes from [p_sz + i * sizeof(float)] on.
        In [hdr.base_px + dx] the [int32_t] operand is converted to
        [uint32_t] and the sum is taken modulo 2^32 before it is
        widened into the [uint64_t] [px]. *)
Fixpoint decode_rows (h : BlockHeader) (ts_delta px_dz side_col type_col : list Z)
                         (p_sz : list Z) (rows : list Row) {struct rows}
      : outcome (list Row) :=
      match rows, ts_delta, px_dz, side_col, type_col with
      | r :: rows', u :: ts_delta', z :: px_dz', s :: side_col', t :: type_col' =>
          let ts := u64 (base_ts h + u64 (u * ts_scale_ns h)) in
          let dx := zigzag_dec32 z in
          let px := u64 (u32 (base_px h + dx)) in
          if (px <? 0) || (UINT32_MAX <? px) then Throw PriceOverflow
          else
            bind (of_option (load p_sz 4)) (fun fsz =>
            bind (decode_rows h ts_delta' px_dz' side_col' type_col'
                              (skipn 4 p_sz) rows') (fun rs =>
            Ok ({| ts_ns := ts_ns r;
                   ts_ts := ts;
                   price := price r;
                   size := le_value fsz;
                   side := s;
                   type := if t =? 1 then T_char else L_char |} :: rs)))
      | _, _, _, _, _ => Ok []
      end.

    (** [std::max] over the five column ends, each a [uint32_t] sum. *)
Definition end_off (h : BlockHeader) : Z :=
      Z.max (u32 (off_ts h + len_ts h))
        (Z.max (u32 (off_px h + len_px h))
          (Z.max (u32 (off_sz h + len_sz h))
            (Z.max (u32 (off_side h + len_side h))
                   (u32 (off_type h + len_type h))))).

    (** [decode_block(src, src_len, rows_out)]: the bytes consumed and
        the new content of [rows_out]. *)
Definition decode_block (src : list Z) (src_len : Z) (rows_out : list Row)
      : outcome (Z * list Row) :=
      if src_len <? HDR_SIZE then Throw BlockTooSmall
      else
        bind (of_option (read_header src)) (fun hdr =>
        if negb (check_magic hdr) then Throw BadMagic
        else if n_rows hdr =? 0 then Ok (HDR_SIZE, rows_out)
        else
          let n := Z.to_nat (n_rows hdr) in
          let rows1 := resize_rows n rows_out in
          bind (if ts_bw hdr =? 0 then Ok (repeat 0 n)
                else of_option (bitunpack_u64 (advance src (off_ts hdr)) n (ts_bw hdr)))
               (fun ts_delta =>
          bind (if px_bw hdr =? 0 then Ok (repeat 0 n)
                else of_option (bitunpack_u32 (advance src (len_px hdr)) n (px_bw hdr)))
               (fun px_dz =>
          bind (of_option (bitunpack_u8 (advance src (off_side hdr)) n)) (fun side_col =>
          bind (of_option (bitunpack_u8 (advance src (off_type hdr)) n)) (fun type_col =>
          let p_sz := advance src (off_sz hdr) in
          bind (decode_rows hdr ts_delta px_dz side_col type_col p_sz rows1) (fun rows2 =>
          Ok (Z.max (end_off hdr) HDR_SIZE, rows2))))))).

  End Decode.

  (** ** The layout of an encoded block

      Names for the parts of the buffer that [encode_block] builds, in
      the order it appends them; [encode_block_shape] below proves that
      these are its output. *)

Definition low_bit (x : Z) : Z := Z.land x 1.

Definition size_bytes (rows : list Row) : list Z :=
    flat_map (fun r => le_bytes 4 (size r)) rows.

Definition ts_column (rows : list Row) : list Z :=
    let c := ts_deltas (ts_ns (hd zero_row rows)) rows in
    bitpack_u64 c (width_of c) [].

Definition px_column (rows : list Row) : list Z :=
    let c := px_zigzags (price (hd zero_row rows)) rows in
    bitpack_u32 c (width_of c) [].

Definition side_column (rows : list Row) : list Z :=
    bitpack_u8_bytes (side_bytes rows).

Definition type_column (rows : list Row) : list Z :=
    bitpack_u8_bytes (type_bits rows).

Definition block_body (rows : list Row) : list Z :=
    ts_column rows ++ px_column rows ++ size_bytes rows
    ++ side_column rows ++ type_column rows.

Definition len32 (l : list Z) : Z := u32 (Z.of_nat (length l)).

Definition block_header (rows : list Row) : BlockHeader :=
    let r0 := hd zero_row rows in
    let o_px := u32 (HDR_SIZE + len32 (ts_column rows)) in
    let o_sz := u32 (o_px + len32 (px_column rows)) in
    let l_sz := u32 (Z.of_nat (length rows) * 4) in
    let o_side := u32 (o_sz + l_sz) in
    let o_type := u32 (o_side + len32 (side_column rows)) in
    {| magic := repeat 0 8; version := 1; flags := 0;
       n_rows := Z.of_nat (length rows);
       base_ts := ts_ns r0; base_px := price r0; ts_scale_ns := TS_SCALE_NS;
       ts_bw := width_of (ts_deltas (ts_ns r0) rows);
       px_bw := width_of (px_zigzags (price r0) rows);
       reserved0 := 0;
       off_ts := HDR_SIZE; len_ts := len32 (ts_column rows);
       off_px := o_px; len_px := len32 (px_column rows);
       off_sz := o_sz; len_sz := l_sz;
       off_side := o_side; len_side := len32 (side_column rows);
       off_type := o_type; len_type := len32 (type_column rows) |}.

  (** What the row loop of [decode_block] makes of an unpacked type
      bit, and the [float] images it reads from the size column. *)
Definition decoded_type (t : Z) : ascii := if t =? 1 then T_char else L_char.

Fixpoint size_words (n : nat) (p_sz : list Z) : list Z :=
    match n with
    | O => []
    | S n' => le_value (firstn 4 p_sz) :: size_words n' (skipn 4 p_sz)
    end.

  (** ** The bit stream of a packed column

      [stream bw vals] is the integer whose base-[2^bw] digits are
      [vals], least significant first: the bit stream the packers lay
      out, read as one little-endian number.  [digits] reads such
      digits back.  [fits bw] says that a value of [bw] bits, shifted
      by the bits still pending in the accumulator, stays within 64
      bits at every position of the stream. *)

Definition bytes_ok (l : list Z) : Prop := Forall (fun b => 0 <= b < 256) l.

Fixpoint stream (bw : Z) (vals : list Z) : Z :=
  match vals with
  | [] => 0
  | x :: rest => x + 2 ^ bw * stream bw rest
  end.

Fixpoint digits (bw : Z) (n : nat) (p : Z) : list Z :=
  match n with
  | O => []
  | S n' => p mod 2 ^ bw :: digits bw n' (p / 2 ^ bw)
  end.

Definition fits (bw : Z) : Prop := forall k : Z, (k * bw) mod 8 + bw <= 64.

  (** ** Sample inputs *)

  (** Two trades 5 ms apart, the second one tick higher; sizes are the
      [float] images of 0.5 and 0.25. *)
Definition sample_rows : list Row :=
  [ mkRow 1000000000 0 10000 1056964608 1 T_char;
    mkRow 1005000000 0 10003 1048576000 0 L_char ].

Definition sample_block : list Z :=
  Eval vm_compute in
    match encode_block sample_rows [] with
    | Ok b => b
    | _ => []
    end.

  (** What [decode_block] makes of [sample_block], given an empty
      [rows_out] and a [check_magic] that accepts it. *)
Definition sample_decoded : list Row :=
  Eval vm_compute in
    match decode_block (fun _ => true) sample_block
                       (Z.of_nat (length sample_block)) [] with
    | Ok (_, rs) => rs
    | _ => []
    end.

  (** Three rows whose sides are not all 0 or 1, and their block. *)
Definition odd_rows : list Row :=
  [ mkRow 1000000000 0 10000 1056964608 3 T_char;
    mkRow 1005000000 0 10003 1048576000 2 L_char;
    mkRow 1007000000 0 9999 1048576000 255 T_char ].

Definition odd_block : list Z :=
  Eval vm_compute in
    match encode_block odd_rows [] with
    | Ok b => b
    | _ => []
    end.

  (** 2^30 - 1 equal rows of side 0 whose [size] has all its bits
      set: the size column alone takes 2^32 - 4 bytes. *)
Definition wide_row : Row := mkRow 0 0 0 (2 ^ 32 - 1) 0 L_char.

Definition oversized_rows : list Row := repeat wide_row (Z.to_nat (2 ^ 30 - 1)).

  (** A hand-made block of one row whose price column holds the
      zigzag code 1 (delta -1) over [base_px = 0].  The price column
      starts at byte 77 and is declared 77 bytes long, so that
      [src + len_px] and [src + off_px] are the same place. *)
Definition underflow_header : BlockHeader :=
  {| magic := repeat 0 8; version := 1; flags := 0; n_rows := 1;
     base_ts := 0; base_px := 0; ts_scale_ns := TS_SCALE_NS;
     ts_bw := 1; px_bw := 1; reserved0 := 0;
     off_ts := 76; len_ts := 1;
     off_px := 77; len_px := 77;
     off_sz := 154; len_sz := 4;
     off_side := 158; len_side := 1;
     off_type := 159; len_type := 1 |}.

Definition underflow_block : list Z :=
  header_bytes underflow_header
  ++ [0] ++ (1 :: repeat 0 76) ++ [0; 0; 0; 0] ++ [0] ++ [0].

  (** The price a block promises for a row: [base_px] plus the
      zigzag-decoded delta, as an integer. *)
Definition reconstructed_price (h : BlockHeader) (z : Z) : Z :=
  base_px h + zigzag_dec32 z.

  (** Every member of a header within the range of its C++ type. *)
Definition header_ok (h : BlockHeader) : Prop :=
    length (magic h) = 8%nat /\
    0 <= version h < 2 ^ 16 /\ 0 <= flags h < 2 ^ 16 /\
    0 <= n_rows h < 2 ^ 32 /\ 0 <= base_ts h < 2 ^ 64 /\
    0 <= base_px h < 2 ^ 32 /\ 0 <= ts_scale_ns h < 2 ^ 32 /\
    0 <= ts_bw h < 2 ^ 8 /\ 0 <= px_bw h < 2 ^ 8 /\
    0 <= reserved0 h < 2 ^ 16 /\
    0 <= off_ts h < 2 ^ 32 /\ 0 <= len_ts h < 2 ^ 32 /\
    0 <= off_px h < 2 ^ 32 /\ 0 <= len_px h < 2 ^ 32 /\
    0 <= off_sz h < 2 ^ 32 /\ 0 <= len_sz h < 2 ^ 32 /\
    0 <= off_side h < 2 ^ 32 /\ 0 <= len_side h < 2 ^ 32 /\
    0 <= off_type h < 2 ^ 32 /\ 0 <= len_type h < 2 ^ 32.

End Codec.
Import Codec.

(* ================================================================== *)
(** * schemas.h : the schema registry and the column-file header *)
(* ================================================================== *)

Module Schemas.

  (** A schema as the writer and the reader use it: [COLS],
      [MAGIC] (the bytes of the C string, its terminating NUL
      included), [VERSION], [col_size], [hour_from_row], and the two
      marshalling functions.
      [write_row_to_cols(r, c, i)] stores one element into each column
      at index [i]; [row_stores r] lists those stores in source order,
      each as the column and the object representation of the element.
      [read_row_from_cols(r, c, i)] is [row_loads fetch], where
      [fetch col w] yields the [w] bytes of element [i] of column
      [col].  A [float] member is kept as its 32-bit image. *)
Record Schema : Type := mkSchema {
  Row : Type;
  COLS : nat;
  MAGIC : list Z;
  VERSION : Z;
  col_size : Z -> Z;
  hour_from_row : Row -> Z;
  row_stores : Row -> list (nat * list Z);
  row_loads : (nat -> nat -> list Z) -> Row
}.

  (** [(ts_ns / 1e9 / 3600) * 3600], the body shared by every
      [hour_from_row]. *)
Definition hour_of_ts (ts : Z) : Z :=
  let s := ts / 1000000000 in u64 ((s / 3600) * 3600).

  (** The bytes of a string literal. *)
Definition c_string (s : string) : list Z :=
  map (fun c => Z.of_nat (nat_of_ascii c)) (list_ascii_of_string s) ++ [0].

Module L2.
Record Row : Set := mkRow { ts_ns : Z; price : Z; qty : Z; side : Z }.
Definition COL_TS : nat := 0.
Definition COL_PX : nat := 1.
Definition COL_QTY : nat := 2.
Definition COL_SIDE : nat := 3.
Definition col_size (i : Z) : Z :=
  if i =? Z.of_nat COL_TS then 8
  else if i =? Z.of_nat COL_PX then 4
  else if i =? Z.of_nat COL_QTY then 4
  else 1.
Definition in_range (r : Row) : Prop :=
  is_u64 (ts_ns r) /\ is_u32 (price r) /\ is_u32 (qty r) /\ is_u8 (side r).
Definition schema : Schema :=
  mkSchema Row 4
    (c_string ("L2COL" ++ String "010" EmptyString))
    1
    col_size
    (fun r => hour_of_ts (ts_ns r))
    (fun r =>
       [ (COL_TS, le_bytes 8 (ts_ns r)); (COL_PX, le_bytes 4 (price r));
         (COL_QTY, le_bytes 4 (qty r)); (COL_SIDE, le_bytes 1 (side r)) ])
    (fun fetch =>
       {| ts_ns := le_value (fetch COL_TS 8%nat);
          price := le_value (fetch COL_PX 4%nat);
          qty := le_value (fetch COL_QTY 4%nat);
          side := le_value (fetch COL_SIDE 1%nat) |}).
End L2.

Module L3.
Record Row : Set := mkRow {
  id : Z; ts_ns : Z; price : Z; size : Z; action : Z; side : Z }.
Definition COL_ID : nat := 0.
Definition COL_TS : nat := 1.
Definition COL_PX : nat := 2.
Definition COL_SZ : nat := 3.
Definition COL_ACT : nat := 4.
Definition COL_SIDE : nat := 5.
Definition col_size (i : Z) : Z :=
  if i <=? Z.of_nat COL_TS then 8
  else if i <=? Z.of_nat COL_SZ then 4
  else 1.
Definition in_range (r : Row) : Prop :=
  is_u64 (id r) /\ is_u64 (ts_ns r) /\ is_u32 (price r) /\ is_u32 (size r) /\
  is_u8 (action r) /\ is_u8 (side r).
Definition schema : Schema :=
  mkSchema Row 6
    (c_string ("L3COL" ++ String "010" EmptyString))
    1
    col_size
    (fun r => hour_of_ts (ts_ns r))
    (fun r =>
       [ (COL_ID, le_bytes 8 (id r)); (COL_TS, le_bytes 8 (ts_ns r));
         (COL_PX, le_bytes 4 (price r)); (COL_SZ, le_bytes 4 (size r));
         (COL_ACT, le_bytes 1 (action r)); (COL_SIDE, le_bytes 1 (side r)) ])
    (fun fetch =>
       {| id := le_value (fetch COL_ID 8%nat);
          ts_ns := le_value (fetch COL_TS 8%nat);
          price := le_value (fetch COL_PX 4%nat);
          size := le_value (fetch COL_SZ 4%nat);
          action := le_value (fetch COL_ACT 1%nat);
          side := le_value (fetch COL_SIDE 1%nat) |}).
End L3.

Module Imbalance.
Record Row : Set := mkRow { imbalance : Z; ts_ns : Z }.
Definition col_size (i : Z) : Z := if i =? 0 then 4 else 8.
Definition in_range (r : Row) : Prop := is_u32 (imbalance r) /\ is_u64 (ts_ns r).
Definition schema : Schema :=
  mkSchema Row 2
    (c_string ("IMBAL" ++ String "010" EmptyString))
    1
    col_size
    (fun r => hour_of_ts (ts_ns r))
    (fun r =>
       [ (0%nat, le_bytes 4 (imbalance r)); (1%nat, le_bytes 8 (ts_ns r)) ])
    (fun fetch =>
       {| imbalance := le_value (fetch 0%nat 4%nat);
          ts_ns := le_value (fetch 1%nat 8%nat) |}).
End Imbalance.

Module Vwap.
Record Row : Set := mkRow { vwap : Z; ts_ns : Z }.
Definition col_size (i : Z) : Z := if i =? 0 then 4 else 8.
Definition in_range (r : Row) : Prop := is_u32 (vwap r) /\ is_u64 (ts_ns r).
Definition schema : Schema :=
  mkSchema Row 2
    (c_string ("VWAP" ++ String "010" EmptyString))
    1
    col_size
    (fun r => hour_of_ts (ts_ns r))
    (fun r =>
       [ (0%nat, le_bytes 4 (vwap r)); (1%nat, le_bytes 8 (ts_ns r)) ])
    (fun fetch =>
       {| vwap := le_value (fetch 0%nat 4%nat);
          ts_ns := le_value (fetch 1%nat 8%nat) |}).
End Vwap.

Module Voi.
Record Row : Set := mkRow { mid_price : Z; voi : Z; ts_ns : Z }.
Definition COL_MID : nat := 0.
Definition COL_VOI : nat := 1.
Definition COL_TS : nat := 2.
Definition COL_COUNT : nat := 3.
Definition col_size (i : Z) : Z :=
  if i =? Z.of_nat COL_TS then 8
  else if i =? Z.of_nat COL_MID then 4
  else if i =? Z.of_nat COL_VOI then 4
  else 0.
Definition in_range (r : Row) : Prop :=
  is_u32 (mid_price r) /\ is_u32 (voi r) /\ is_u64 (ts_ns r).
Definition schema : Schema :=
  mkSchema Row COL_COUNT
    (c_string ("VOIEVT" ++ String "010" EmptyString))
    1
    col_size
    (fun r => hour_of_ts (ts_ns r))
    (fun r =>
       [ (COL_MID, le_bytes 4 (mid_price r)); (COL_VOI, le_bytes 4 (voi r));
         (COL_TS, le_bytes 8 (ts_ns r)) ])
    (fun fetch =>
       {| mid_price := le_value (fetch COL_MID 4%nat);
          voi := le_value (fetch COL_VOI 4%nat);
          ts_ns := le_value (fetch COL_TS 8%nat) |}).
End Voi.

  (** The schemas for which [schemas.h] instantiates the header (its
      five [static_assert]s). *)
Definition registry : list Schema :=
  [L2.schema; L3.schema; Imbalance.schema; Vwap.schema; Voi.schema].

  (** ** Marshalling, column by column *)

  (** The bytes [write_row_to_cols] stores into column [c]. *)
Definition stored_bytes (S : Schema) (r : Row S) (c : nat) : list Z :=
  match find (fun p => Nat.eqb (fst p) c) (row_stores S r) with
  | Some (_, bs) => bs
  | None => []
  end.

  (** [write_row_to_cols] stores into every column, once, and
      [read_row_from_cols] makes the row of one element per column,
      read at the size [col_size] declares. *)
Definition columnwise (S : Schema) : Prop :=
  (forall r, NoDup (map fst (row_stores S r))) /\
  (forall r c, (c < COLS S)%nat -> In c (map fst (row_stores S r))) /\
  (forall fetch fetch' : nat -> nat -> list Z,
     (forall c, (c < COLS S)%nat ->
        fetch c (Z.to_nat (col_size S (Z.of_nat c)))
        = fetch' c (Z.to_nat (col_size S (Z.of_nat c)))) ->
     row_loads S fetch = row_loads S fetch').

  (** A row that [read_row_from_cols] gets back from the bytes
      [write_row_to_cols] stored. *)
Definition marshals (S : Schema) (r : Row S) : Prop :=
  row_loads S (fun c _ => stored_bytes S r c) = r.

  (** ** Struct layout

      The layout rule of the x86-64 C++ ABI for a standard-layout
      struct: each member goes to the next offset that is a multiple
      of its alignment, and the size of the struct is the end of the
      last member rounded up to the alignment of the struct.  Every
      member here is a scalar or an array of scalars, whose alignment
      is the size of the scalar. *)
Record member : Set := mkMember { m_name : string; m_elem : Z; m_count : Z }.

Definition align_to (x a : Z) : Z := (x + a - 1) / a * a.

Fixpoint place (ms : list member) (off : Z) : Z :=
  match ms with
  | [] => off
  | m :: ms' => place ms' (align_to off (m_elem m) + m_elem m * m_count m)
  end.

  (** The offset each member is placed at. *)
Fixpoint offsets (ms : list member) (off : Z) : list Z :=
  match ms with
  | [] => []
  | m :: ms' =>
      let o := align_to off (m_elem m) in
      o :: offsets ms' (o + m_elem m * m_count m)
  end.

Definition struct_align (alignas_ : Z) (ms : list member) : Z :=
  fold_left (fun a m => Z.max a (m_elem m)) ms alignas_.

Definition sizeof_struct (alignas_ : Z) (ms : list member) : Z :=
  align_to (place ms 0) (struct_align alignas_ ms).

  (** The length of the trailing [pad] array of [ColFileHeaderT]. *)
Definition pad_len (cols : Z) : Z :=
  256 - 6 - 2 - 2 - 2 - 4 - 16 - 8 - 8 - 8 - (8 * cols) - (8 * cols).

  (** The members of [ColFileHeaderT<Schema>], [alignas(64)]. *)
Definition header_members (cols : Z) : list member :=
  [ mkMember "magic" 1 6; mkMember "header_size" 2 1; mkMember "version" 2 1;
    mkMember "pad16" 2 1; mkMember "_pad32" 4 1; mkMember "product" 1 16;
    mkMember "hour_epoch_start" 8 1; mkMember "rows" 8 1; mkMember "capacity" 8 1;
    mkMember "col_off" 8 cols; mkMember "col_sz" 8 cols;
    mkMember "pad" 1 (pad_len cols) ].

Definition sizeof_header (S : Schema) : Z :=
  sizeof_struct 64 (header_members (Z.of_nat (COLS S))).

  (** A header value and its object representation. *)
Record Header : Set := mkHeader {
  magic : list Z;
  header_size : Z;
  version : Z;
  pad16 : Z;
  _pad32 : Z;
  product : list Z;
  hour_epoch_start : Z;
  rows : Z;
  capacity : Z;
  col_off : list Z;
  col_sz : list Z
}.

  (** [memset(&hdr_, 0, sizeof(hdr_))]. *)
Definition zero_header (cols : nat) : Header :=
  mkHeader (repeat 0 6) 0 0 0 0 (repeat 0 16) 0 0 0 (repeat 0 cols) (repeat 0 cols).

  (** An array member of exactly [k] elements. *)
Definition fit (k : nat) (l : list Z) : list Z := firstn k (l ++ repeat 0 k).

Definition header_image (cols : nat) (h : Header) : list Z :=
  fit 6 (magic h) ++ le_bytes 2 (header_size h) ++ le_bytes 2 (version h)
  ++ le_bytes 2 (pad16 h) ++ le_bytes 4 (_pad32 h) ++ fit 16 (product h)
  ++ le_bytes 8 (hour_epoch_start h) ++ le_bytes 8 (rows h) ++ le_bytes 8 (capacity h)
  ++ flat_map (le_bytes 8) (fit cols (col_off h))
  ++ flat_map (le_bytes 8) (fit cols (col_sz h))
  ++ repeat 0 (Z.to_nat (pad_len (Z.of_nat cols))).

  (** The [k] 64-bit words that start at byte [off]. *)
Fixpoint words64 (k : nat) (b : list Z) : list Z :=
  match k with
  | O => []
  | S k' => le_value (firstn 8 b) :: words64 k' (skipn 8 b)
  end.

  (** [memcpy(&hdr_, base, sizeof(Header))] for 256 bytes [b]. *)
Definition header_of_image (cols : nat) (b : list Z) : Header :=
  {| magic := firstn 6 b;
     header_size := field b 6 2;
     version := field b 8 2;
     pad16 := field b 10 2;
     _pad32 := field b 12 4;
     product := firstn 16 (skipn 16 b);
     hour_epoch_start := field b 32 8;
     rows := field b 40 8;
     capacity := field b 48 8;
     col_off := words64 cols (skipn 56 b);
     col_sz := words64 cols (skipn (56 + 8 * cols) b) |}.

  (** A header whose members are within the ranges of their types,
      the arrays at their declared lengths. *)
Definition header_wf (cols : nat) (h : Header) : Prop :=
  length (magic h) = 6%nat /\
  0 <= header_size h < 2 ^ 16 /\ 0 <= version h < 2 ^ 16 /\
  0 <= pad16 h < 2 ^ 16 /\ 0 <= _pad32 h < 2 ^ 32 /\
  length (product h) = 16%nat /\
  is_u64 (hour_epoch_start h) /\ is_u64 (rows h) /\ is_u64 (capacity h) /\
  length (col_off h) = cols /\ Forall is_u64 (col_off h) /\
  length (col_sz h) = cols /\ Forall is_u64 (col_sz h).

End Schemas.

(* ================================================================== *)
(** * Decimal formatting and calendar dates *)
(* ================================================================== *)

Module Dates.

Definition digit_char (d : Z) : ascii := ascii_of_nat (48 + Z.to_nat d).

  (** The [k] low decimal digits of [n], most significant first. *)
Fixpoint decimal (k : nat) (n : Z) (acc : string) : string :=
  match k with
  | O => acc
  | S k' => decimal k' (n / 10) (String (digit_char (n mod 10)) acc)
  end.

  (** The number of decimal digits of [n], for [n] below [10 ^ fuel]. *)
Fixpoint num_digits (fuel : nat) (n : Z) : nat :=
  match fuel with
  | O => 1
  | S f => if n <? 10 then 1 else S (num_digits f (n / 10))
  end.

  (** [printf("%0<width>u", n)] for a number of at most 20 digits. *)
Definition zero_padded (width : nat) (n : Z) : string :=
  decimal (Nat.max width (num_digits 20 n)) n EmptyString.

  (** The civil date of a day number counted from 1970-01-01, in the
      proleptic Gregorian calendar. *)
Definition civil_from_days (days : Z) : Z * Z * Z :=
  let z := days + 719468 in
  let era := z / 146097 in
  let doe := z - era * 146097 in
  let yoe := (doe - doe / 1460 + doe / 36524 - doe / 146096) / 365 in
  let y := yoe + era * 400 in
  let doy := doe - (365 * yoe + yoe / 4 - yoe / 100) in
  let mp := (5 * doy + 2) / 153 in
  let d := doy - (153 * mp + 2) / 5 + 1 in
  let m := if mp <? 10 then mp + 3 else mp - 9 in
  (if m <=? 2 then y + 1 else y, m, d).

  (** The writer's [date_string] in a process whose time zone is UTC. *)
Definition utc_date_string (epoch_s : Z) : string :=
  let '(y, m, d) := civil_from_days (epoch_s / 86400) in
  (zero_padded 4 y ++ zero_padded 2 m ++ zero_padded 2 d)%string.

End Dates.

(* ================================================================== *)
(** * The columnar writer: WriterT *)
(* ================================================================== *)

Module Writer.
Import Schemas.

  (** ** Files

      A file is its size and its bytes by offset; bytes that were never
      written read as zero, as [posix_fallocate] leaves them.  This
      keeps a day file of [2 * rows_per_hr] rows, more than half a
      gigabyte for L2, within reach of evaluation. *)
Record File : Type := mkFile { f_size : Z; f_data : Z -> Z }.

Definition empty_file : File := mkFile 0 (fun _ => 0).

  (** [posix_fallocate(fd, 0, bytes)]: the file is at least [bytes]
      long afterwards; what it held is kept. *)
Definition fallocate (f : File) (bytes : Z) : File :=
  mkFile (Z.max (f_size f) bytes) (f_data f).

  (** A store of the bytes [bs] at offset [off] through a shared
      mapping of the file. *)
Definition poke (f : File) (off : Z) (bs : list Z) : File :=
  mkFile (f_size f)
         (fun o => if (off <=? o) && (o <? off + Z.of_nat (length bs))
                   then nth (Z.to_nat (o - off)) bs 0
                   else f_data f o).

Definition peek (f : File) (off : Z) (n : nat) : list Z :=
  map (fun k => f_data f (off + Z.of_nat k)) (seq 0 n).

Definition Disk : Type := string -> option File.

Definition disk_put (d : Disk) (path : string) (f : File) : Disk :=
  fun p => if String.eqb p path then Some f else d p.

  (** ** System calls

      What the system calls of one turn of the worker loop return:
      [create_directories], [open], [posix_fallocate] and [mmap].
      [munmap], [msync] and [close] have their results ignored by the
      code. *)
Record Sys : Set := mkSys {
  mkdir_ok : bool;
  open_ok : bool;
  prealloc_ok : bool;
  mmap_ok : bool
}.

Definition all_ok : Sys := mkSys true true true true.

  (** ** State *)

  (** [base_]: null, the address of a live mapping, or an address whose
      mapping was removed by [munmap]. *)
Inductive Base : Set := Null | Live | Stale.

Record State (S : Schema) : Type := mkState {
  fd_ : option string;
  base_ : Base;
  map_bytes_ : Z;
  hdr_ : Header;
  col_off_ : list Z;
  col_sz_ : list Z;
  col_ptrs_ : list (option Z);
  rows_ : Z;
  dropped_ : Z;
  capacity_ : Z;
  day_start_ : Z;
  since_fsync : Z;
  disk : Disk
}.
Arguments fd_ {S}. Arguments base_ {S}. Arguments map_bytes_ {S}.
Arguments hdr_ {S}. Arguments col_off_ {S}. Arguments col_sz_ {S}.
Arguments col_ptrs_ {S}. Arguments rows_ {S}. Arguments dropped_ {S}.
Arguments capacity_ {S}. Arguments day_start_ {S}. Arguments since_fsync {S}.
Arguments disk {S}.

  (** A step of the writer ends in a state, or in undefined behaviour
      (a store through a null or dangling pointer). *)
Inductive Result (A : Type) : Type := Done (a : A) | Fault.
Arguments Done {A} a.
Arguments Fault {A}.

Fixpoint sumZ (l : list Z) : Z :=
  match l with
  | [] => 0
  | x :: l' => x + sumZ l'
  end.

Section WithSchema.

  Variable S : Schema.

  (** [WriterOpt]. *)
  Variable base_dir : string.
  Variable product_name : string.
  Variable fsync_every_rows : Z.

  (** [date_string]: [localtime_r] and [snprintf("%04d%02d%02d")];
      it depends on the time zone of the process and is a parameter. *)
  Variable date_string : Z -> string.

Definition rows_per_hr : Z := 2 ^ 24.
Definition HEADER_SZ : Z := 256.

Definition day_from_hour (hour_s : Z) : Z := u64 (hour_s - hour_s mod 86400).

Definition cols : list nat := seq 0 (COLS S).

  (** The members as their constructors initialise them. *)
Definition init (d : Disk) : State S :=
  {| fd_ := None; base_ := Null; map_bytes_ := 0;
     hdr_ := zero_header (COLS S);
     col_off_ := repeat 0 (COLS S); col_sz_ := repeat 0 (COLS S);
     col_ptrs_ := repeat None (COLS S);
     rows_ := 0; dropped_ := 0; capacity_ := rows_per_hr;
     day_start_ := 2 ^ 64 - 1; since_fsync := 0; disk := d |}.

Definition set_disk (st : State S) (d : Disk) : State S :=
  mkState S (fd_ st) (base_ st) (map_bytes_ st) (hdr_ st) (col_off_ st) (col_sz_ st)
          (col_ptrs_ st) (rows_ st) (dropped_ st) (capacity_ st) (day_start_ st)
          (since_fsync st) d.

  (** The file behind [fd_]. *)
Definition open_file (st : State S) : option File :=
  match fd_ st with
  | Some p => disk st p
  | None => None
  end.

  (** A store through a pointer into the mapping, [base_ + off]. *)
Definition mapped_store (st : State S) (off : Z) (bs : list Z) : Result (State S) :=
  match base_ st, fd_ st with
  | Live, Some p =>
      match disk st p with
      | Some f =>
          if (0 <=? off) && (off + Z.of_nat (length bs) <=? map_bytes_ st)
          then Done (set_disk st (disk_put (disk st) p (poke f off bs)))
          else Fault
      | None => Fault
      end
  | _, _ => Fault
  end.

  (** [col_sz_[i] = cap * col_size(i)] for every column. *)
Definition col_bytes (cap : Z) : list Z :=
  map (fun i => u64 (cap * col_size S (Z.of_nat i))) cols.

Definition sum_u64 (l : list Z) : Z := fold_left (fun a x => u64 (a + x)) l 0.

  (** The running [off] of the loops that lay the columns out. *)
Fixpoint col_offsets (off : Z) (szs : list Z) : list Z :=
  match szs with
  | [] => []
  | sz :: szs' => off :: col_offsets (u64 (off + sz)) szs'
  end.

Definition elem_sizes : list Z := map (fun i => col_size S (Z.of_nat i)) cols.

  (** [snprintf(hdr_.product, 16, "%s", product)] into a zeroed array. *)
Definition product_field : list Z :=
  fit 16 (firstn 15 (map (fun c => Z.of_nat (nat_of_ascii c))
                         (list_ascii_of_string product_name))).

  (** [update_rows_in_header]; the result of [msync] is of no use to
      any caller. *)
Definition update_rows_in_header (st : State S) : Result (State S) :=
  match base_ st with
  | Null => Done st
  | _ =>
      let h := hdr_ st in
      let h' := mkHeader (magic h) (header_size h) (version h) (pad16 h) (_pad32 h)
                         (product h) (hour_epoch_start h) (rows_ st) (capacity h)
                         (col_off h) (col_sz h) in
      let st1 := mkState S (fd_ st) (base_ st) (map_bytes_ st) h' (col_off_ st)
                         (col_sz_ st) (col_ptrs_ st) (rows_ st) (dropped_ st)
                         (capacity_ st) (day_start_ st) (since_fsync st) (disk st) in
      mapped_store st1 0 (header_image (COLS S) h')
  end.

Definition close_file (st : State S) : State S :=
  match base_ st with
  | Null => st
  | _ =>
      mkState S None Null 0 (zero_header (COLS S))
              (repeat 0 (COLS S)) (repeat 0 (COLS S)) (repeat None (COLS S))
              0 (dropped_ st) (capacity_ st) (day_start_ st) (since_fsync st) (disk st)
  end.

Definition day_path (day_s : Z) : string :=
  ((base_dir ++ "/" ++ product_name) ++ "/" ++ date_string day_s ++ ".bin")%string.

  (** [open_day_file]: the state it leaves and what it returns. *)
Definition open_day_file (sys : Sys) (st : State S) (day_s : Z)
  : Result (State S * bool) :=
  let cap := u64 (rows_per_hr * 2) in
  let szs := col_bytes cap in
  let file_bytes := u64 (HEADER_SZ + sum_u64 szs) in
  let st1 := mkState S (fd_ st) (base_ st) (map_bytes_ st) (hdr_ st) (col_off_ st)
                     szs (col_ptrs_ st) (rows_ st) (dropped_ st) cap
                     (day_start_ st) (since_fsync st) (disk st) in
  if negb (mkdir_ok sys) then Done (st1, false)
  else
    let path := day_path day_s in
    if negb (open_ok sys) then
      Done (mkState S None (base_ st1) (map_bytes_ st1) (hdr_ st1) (col_off_ st1)
                    (col_sz_ st1) (col_ptrs_ st1) (rows_ st1) (dropped_ st1)
                    (capacity_ st1) (day_start_ st1) (since_fsync st1) (disk st1), false)
    else
      let f0 := match disk st path with Some f => f | None => empty_file end in
      if negb (prealloc_ok sys) then
        Done (mkState S None (base_ st1) (map_bytes_ st1) (hdr_ st1) (col_off_ st1)
                      (col_sz_ st1) (col_ptrs_ st1) (rows_ st1) (dropped_ st1)
                      (capacity_ st1) (day_start_ st1) (since_fsync st1)
                      (disk_put (disk st) path f0), false)
      else
        let f1 := fallocate f0 file_bytes in
        if negb (mmap_ok sys) then
          Done (mkState S None Null file_bytes (hdr_ st1) (col_off_ st1)
                        (col_sz_ st1) (col_ptrs_ st1) (rows_ st1) (dropped_ st1)
                        (capacity_ st1) (day_start_ st1) (since_fsync st1)
                        (disk_put (disk st) path f1), false)
        else
          let offs := col_offsets HEADER_SZ szs in
          let h := mkHeader (firstn 6 (MAGIC S)) (u16 HEADER_SZ) (VERSION S) 0 0
                            product_field (day_start_ st) 0 cap offs elem_sizes in
          let st2 := mkState S (Some path) Live file_bytes h offs szs
                             (map Some offs) 0 (dropped_ st) cap
                             (day_start_ st) (since_fsync st)
                             (disk_put (disk st) path f1) in
          match mapped_store st2 0 (header_image (COLS S) h) with
          | Done st3 => Done (st3, true)
          | Fault => Fault
          end.

Definition set_day_start (st : State S) (d : Z) : State S :=
  mkState S (fd_ st) (base_ st) (map_bytes_ st) (hdr_ st) (col_off_ st) (col_sz_ st)
          (col_ptrs_ st) (rows_ st) (dropped_ st) (capacity_ st) d
          (since_fsync st) (disk st).

Definition rotate_to_day (sys : Sys) (st : State S) (day_s : Z)
  : Result (State S * bool) :=
  if day_start_ st =? day_s then Done (st, true)
  else
    match update_rows_in_header st with
    | Fault => Fault
    | Done st1 => open_day_file sys (set_day_start (close_file st1) day_s) day_s
    end.

  (** [grow_file].  [munmap] comes first: from there on [base_] and the
      column pointers dangle until they are set again. *)
Definition grow_file (sys : Sys) (st : State S) : Result (State S * bool) :=
  let new_capacity := u64 (capacity_ st * 2) in
  let szs := col_bytes new_capacity in
  let new_file_bytes := u64 (HEADER_SZ + sum_u64 szs) in
  let unmapped := match base_ st with Null => Null | _ => Stale end in
  match (if prealloc_ok sys then open_file st else None), fd_ st with
  | Some f, Some path =>
      let f1 := fallocate f new_file_bytes in
      let d1 := disk_put (disk st) path f1 in
      if negb (mmap_ok sys) then
        Done (mkState S (fd_ st) Null new_file_bytes (hdr_ st) (col_off_ st) szs
                      (col_ptrs_ st) (rows_ st) (dropped_ st) (capacity_ st)
                      (day_start_ st) (since_fsync st) d1, false)
      else
        let offs := col_offsets HEADER_SZ szs in
        let h := hdr_ st in
        let h' := mkHeader (magic h) (header_size h) (version h) (pad16 h) (_pad32 h)
                           (product h) (hour_epoch_start h) (rows h) new_capacity
                           offs elem_sizes in
        let st2 := mkState S (fd_ st) Live new_file_bytes h' offs szs (map Some offs)
                           (rows_ st) (dropped_ st) new_capacity (day_start_ st)
                           (since_fsync st) d1 in
        match mapped_store st2 0 (header_image (COLS S) h') with
        | Done st3 => Done (st3, true)
        | Fault => Fault
        end
  | _, _ =>
      Done (mkState S (fd_ st) unmapped (map_bytes_ st) (hdr_ st) (col_off_ st) szs
                    (col_ptrs_ st) (rows_ st) (dropped_ st) (capacity_ st)
                    (day_start_ st) (since_fsync st) (disk st), false)
  end.

  (** [Schema::write_row_to_cols(row, col_ptrs_, idx)]: element [idx]
      of each column, through the cached column pointers. *)
Fixpoint write_stores (stores : list (nat * list Z)) (idx : Z) (st : State S)
  : Result (State S) :=
  match stores with
  | [] => Done st
  | (c, bs) :: stores' =>
      match nth c (col_ptrs_ st) None with
      | None => Fault
      | Some p =>
          match mapped_store st (p + idx * Z.of_nat (length bs)) bs with
          | Done st' => write_stores stores' idx st'
          | Fault => Fault
          end
      end
  end.

Definition write_row_to_cols (row : Row S) (idx : Z) (st : State S) : Result (State S) :=
  write_stores (row_stores S row) idx st.

Definition set_counters (st : State S) (r d sf : Z) : State S :=
  mkState S (fd_ st) (base_ st) (map_bytes_ st) (hdr_ st) (col_off_ st) (col_sz_ st)
          (col_ptrs_ st) r d (capacity_ st) (day_start_ st) sf (disk st).

Definition drop_row (st : State S) : State S :=
  set_counters st (rows_ st) (u64 (dropped_ st + 1)) (since_fsync st).

  (** The tail of a turn of the loop, from [rows_.fetch_add(1)] on. *)
Definition append_row (sys : Sys) (st : State S) (row : Row S) : Result (State S) :=
  let idx := rows_ st in
  let st1 := set_counters st (u64 (idx + 1)) (dropped_ st) (since_fsync st) in
  let grown :=
    if capacity_ st1 <=? idx then grow_file sys st1 else Done (st1, true) in
  match grown with
  | Fault => Fault
  | Done (st2, false) =>
      Done (drop_row (set_counters st2 (capacity_ st2) (dropped_ st2) (since_fsync st2)))
  | Done (st2, true) =>
      match write_row_to_cols row idx st2 with
      | Fault => Fault
      | Done st3 =>
          if fsync_every_rows =? 0 then Done st3
          else
            let sf := u32 (since_fsync st3 + 1) in
            if fsync_every_rows <=? sf then
              match update_rows_in_header st3 with
              | Fault => Fault
              | Done st4 => Done (set_counters st4 (rows_ st4) (dropped_ st4) 0)
              end
            else Done (set_counters st3 (rows_ st3) (dropped_ st3) sf)
      end
  end.

  (** One turn of the loop of [run] for a dequeued [row]. *)
Definition step (sys : Sys) (st : State S) (row : Row S) : Result (State S) :=
  let h := hour_from_row S row in
  let d := day_from_hour h in
  if negb (d =? day_start_ st) then
    match rotate_to_day sys st d with
    | Fault => Fault
    | Done (st1, false) => Done (drop_row st1)
    | Done (st1, true) => append_row sys st1 row
    end
  else append_row sys st row.

  (** [run] over the rows the queue delivers, each with the results
      of the system calls of its turn, and the final
      [update_rows_in_header]. *)
Fixpoint run_loop (input : list (Sys * Row S)) (st : State S) : Result (State S) :=
  match input with
  | [] => Done st
  | (sys, row) :: input' =>
      match step sys st row with
      | Fault => Fault
      | Done st' => run_loop input' st'
      end
  end.

Definition run (input : list (Sys * Row S)) (st : State S) : Result (State S) :=
  match run_loop input st with
  | Fault => Fault
  | Done st' => update_rows_in_header st'
  end.

  (** Reading element [idx] of every column back through the cached
      column pointers, [Schema::read_row_from_cols(r, col_ptrs_, idx)]. *)
Definition read_row_from_cols (st : State S) (idx : Z) : option (Row S) :=
  match open_file st, base_ st with
  | Some f, Live =>
      if forallb (fun c => match nth c (col_ptrs_ st) None with
                           | Some _ => true | None => false end) cols
      then Some (row_loads S (fun c w =>
                   match nth c (col_ptrs_ st) None with
                   | Some p => peek f (p + idx * Z.of_nat w) w
                   | None => []
                   end))
      else None
  | _, _ => None
  end.

  (** ** Layout invariants

      Notions used to state what the operations keep. *)

  (** The sum of the element sizes of the columns before column [c],
      and of all columns. *)
Definition width_before (c : nat) : Z := sumZ (firstn c elem_sizes).
Definition row_width : Z := sumZ elem_sizes.

  (** A state with a live mapping of the file [p], laid out for [cap]
      rows, as [open_day_file] and [grow_file] leave it. *)
Definition live_at (st : State S) (p : string) (cap : Z) : Prop :=
  base_ st = Live /\ fd_ st = Some p /\ (exists f, disk st p = Some f) /\
  capacity_ st = cap /\
  map_bytes_ st = HEADER_SZ + cap * row_width /\
  col_ptrs_ st = map Some (col_offsets HEADER_SZ (col_bytes cap)).

  (** No mapping, or a live mapping of the open file. *)
Definition healthy (st : State S) : Prop :=
  base_ st = Null \/ exists p cap, live_at st p cap.

Definition same_counters (st st' : State S) : Prop :=
  rows_ st' = rows_ st /\ dropped_ st' = dropped_ st /\
  day_start_ st' = day_start_ st /\ since_fsync st' = since_fsync st.

  (** The capacity [open_day_file] starts a day with. *)
Definition first_capacity : Z := rows_per_hr * 2.

Definition some_call_fails (sys : Sys) : Prop :=
  mkdir_ok sys && open_ok sys && prealloc_ok sys && mmap_ok sys = false.

  (** Where element [j] of column [c] lies in a file laid out for
      [cap] rows, the bytes a file holds there, and the row that the
      elements at index [j] make. *)
Definition cell (cap : Z) (c : nat) (j : Z) : Z :=
  HEADER_SZ + cap * width_before c + j * col_size S (Z.of_nat c).

Definition cell_bytes (f : File) (cap : Z) (c : nat) (j : Z) : list Z :=
  peek f (cell cap c j) (Z.to_nat (col_size S (Z.of_nat c))).

Definition row_at (f : File) (cap : Z) (j : Z) : Row S :=
  row_loads S (fun c _ => cell_bytes f cap c j).

  (** The file after the stores of a row at index [idx]. *)
Fixpoint poke_all (f : File) (cap idx : Z) (stores : list (nat * list Z)) : File :=
  match stores with
  | [] => f
  | (c, bs) :: stores' => poke_all (poke f (cell cap c idx) bs) cap idx stores'
  end.

  (** [hdr_.rows = r]. *)
Definition with_rows (h : Header) (r : Z) : Header :=
  mkHeader (magic h) (header_size h) (version h) (pad16 h) (_pad32 h)
           (product h) (hour_epoch_start h) r (capacity h) (col_off h) (col_sz h).

  (** The header of the file of day [d], laid out for [cap] rows
      and counting [r] of them. *)
Definition day_header (d cap r : Z) : Header :=
  mkHeader (firstn 6 (MAGIC S)) (u16 HEADER_SZ) (VERSION S) 0 0 product_field
           d r cap (col_offsets HEADER_SZ (col_bytes cap)) elem_sizes.

End WithSchema.

  (** What the writer relies on in a schema: at most 12 columns (the
      header has room for no more), element sizes of at most 8 bytes,
      and [write_row_to_cols] storing into existing columns elements
      of the size [col_size] declares. *)
Definition schema_ok (S : Schema) : Prop :=
  (COLS S <= 12)%nat /\
  (forall c, (c < COLS S)%nat -> 0 <= col_size S (Z.of_nat c) <= 8) /\
  (forall r c bs, In (c, bs) (row_stores S r) ->
     (c < COLS S)%nat /\ Z.of_nat (length bs) = col_size S (Z.of_nat c)).

End Writer.

Module WriterSamples.
Import Schemas Writer.

  (** An L2 writer for product BTC under /data, no periodic sync, in a
      process whose time zone is UTC, and two rows: one of
      1970-01-02, one of 1970-01-01 ([qty] is the image of 0.5). *)
Definition l2_step : Sys -> State L2.schema -> L2.Row -> Result (State L2.schema) :=
  step L2.schema "/data" "BTC" 0 Dates.utc_date_string.

Definition fresh : State L2.schema := init L2.schema (fun _ => None).

Definition late_row : L2.Row := L2.mkRow (86400 * 1000000000 + 5) 10000 1056964608 1.

Definition early_row : L2.Row := L2.mkRow 7 9999 1056964608 0.

Definition open_fails : Sys := mkSys true false true true.

End WriterSamples.

(* ================================================================== *)
(** * Day-file lists: BlockReaderT, ReaderT and the block writer's paths *)
(* ================================================================== *)

Module Listing.

  (** ** Strings, paths and the directory tree *)

Definition chars (s : string) : list ascii := list_ascii_of_string s.

Definition code (c : ascii) : Z := Z.of_nat (nat_of_ascii c).

Definition is_digit (c : ascii) : bool := (48 <=? code c) && (code c <=? 57).

Definition dot : ascii := "."%char.
Definition slash : ascii := "/"%char.

  (** The suffix of a file name from its last dot on, if it has one. *)
Fixpoint from_last_dot (l : list ascii) : option (list ascii) :=
  match l with
  | [] => None
  | c :: l' =>
      match from_last_dot l' with
      | Some e => Some e
      | None => if Ascii.eqb c dot then Some (c :: l') else None
      end
  end.

  (** [path::extension()] of a file name: empty for "." and "..", and
      when the only dot is the first character. *)
Definition extension (name : string) : string :=
  match chars name with
  | [] => EmptyString
  | c :: l' =>
      if String.eqb name ".." then EmptyString
      else match from_last_dot l' with
           | Some e => string_of_list_ascii e
           | None => EmptyString
           end
  end.

Definition last_char (s : string) : option ascii := last (map Some (chars s)) None.

  (** [fs::path(a) / b] on a POSIX host: [b] replaces [a] when it is
      absolute; otherwise a separator is added unless [a] is empty or
      ends with one. *)
Definition path_join (a b : string) : string :=
  match chars b with
  | c :: _ => if Ascii.eqb c slash then b
              else match last_char a with
                   | None => b
                   | Some l => if Ascii.eqb l slash then (a ++ b)%string
                               else (a ++ "/" ++ b)%string
                   end
  | [] => match last_char a with
          | None => b
          | Some l => if Ascii.eqb l slash then a else (a ++ "/")%string
          end
  end.

  (** An entry of a directory: [e.path().filename()] and
      [e.is_regular_file()]. *)
Record dir_entry : Set := mkEntry { e_name : string; e_regular : bool }.

  (** The directory tree: the entries of a directory in the order
      [directory_iterator] yields them; [None] when [fs::exists]
      is false. *)
Definition Tree : Type := string -> option (list dir_entry).

  (** ** std::from_chars for uint32_t, base 10 *)

Inductive errc : Set := errc_ok | invalid_argument | result_out_of_range.

Fixpoint take_digits (l : list ascii) : list ascii :=
  match l with
  | c :: l' => if is_digit c then c :: take_digits l' else []
  | [] => []
  end.

Definition digits_value (ds : list ascii) : Z :=
  fold_left (fun acc c => acc * 10 + (code c - 48)) ds 0.

  (** The number of characters consumed, the error code, and the
      value stored (the old value [old] stays on an error). *)
Definition from_chars_u32 (l : list ascii) (old : Z) : nat * errc * Z :=
  match take_digits l with
  | [] => (0%nat, invalid_argument, old)
  | ds =>
      let v := digits_value ds in
      if UINT32_MAX <? v then (length ds, result_out_of_range, old)
      else (length ds, errc_ok, v)
  end.

  (** ** The options and the result *)

Record Opt : Set := mkOpt {
  base_dir : string;
  product : string;
  date_from : Z;
  date_to : Z
}.

Record DayFile : Set := mkDayFile { yyyymmdd : Z; path : string }.

  (** [std::sort] with the comparator [a.yyyymmdd < b.yyyymmdd].  The
      order of files with equal dates is unspecified in C++; the model
      keeps their order, and nothing below depends on it. *)
Fixpoint insert_day (f : DayFile) (l : list DayFile) : list DayFile :=
  match l with
  | [] => [f]
  | g :: l' => if yyyymmdd f <? yyyymmdd g then f :: l else g :: insert_day f l'
  end.

Fixpoint sort_days (l : list DayFile) : list DayFile :=
  match l with
  | [] => []
  | f :: l' => insert_day f (sort_days l')
  end.

  (** [name.substr(pos, n)] for [pos <= name.size()]. *)
Definition substr (l : list ascii) (pos n : nat) : list ascii := firstn n (skipn pos l).

  (** The order the lists are sorted in, and the suffix of the names
      both readers look for. *)
Definition day_le (a b : DayFile) : Prop := yyyymmdd a <= yyyymmdd b.

Definition bin_suffix : list ascii := chars ".bin".

End Listing.

Module BlockReader.
Import Listing.

  (** [parse_yyyymmdd]: the eight characters that end four characters
      before the end of the name, all of them digits. *)
Definition parse_yyyymmdd (name : string) : option Z :=
  let l := chars name in
  if (length l <? 12)%nat then None
  else
    let stem := substr l (length l - 12) 8 in
    match from_chars_u32 stem 0 with
    | (p, ec, val) =>
        match ec with
        | errc_ok => if (p =? 8)%nat then Some val else None
        | _ => None
        end
    end.

  (** The body of the loop over the directory: what one entry adds
      to [files_]. *)
Definition keep_entry (opt : Opt) (dir : string) (e : dir_entry) : list DayFile :=
  if negb (e_regular e) then []
  else if negb (String.eqb (extension (e_name e)) ".bin") then []
  else match parse_yyyymmdd (e_name e) with
       | None => []
       | Some d =>
           if (d <? date_from opt) || (date_to opt <? d) then []
           else [mkDayFile d (path_join dir (e_name e))]
       end.

Definition build_day_file_list (tree : Tree) (opt : Opt) : list DayFile :=
  let dir := path_join (base_dir opt) (product opt) in
  match tree dir with
  | None => []
  | Some entries => sort_days (flat_map (keep_entry opt dir) entries)
  end.

Definition days_ (files : list DayFile) : list Z := map yyyymmdd files.
Definition paths_only_ (files : list DayFile) : list string := map path files.

End BlockReader.

Module Reader.
Import Listing.

  (** [ReaderT::parse_yyyymmdd]: exactly eight digits and ".bin". *)
Definition parse_yyyymmdd (fname : string) : option Z :=
  let l := chars fname in
  if negb (length l =? 12)%nat then None
  else if negb (String.eqb (string_of_list_ascii (skipn 8 l)) ".bin") then None
  else if negb (forallb is_digit (firstn 8 l)) then None
  else
    match from_chars_u32 (firstn 8 l) 0 with
    | (_, errc_ok, v) => Some v
    | _ => None
    end.

Definition product_dir (opt : Opt) : string :=
  if String.eqb (product opt) "" then base_dir opt
  else path_join (base_dir opt) (product opt).

Definition keep_entry (opt : Opt) (dir : string) (e : dir_entry) : list DayFile :=
  if negb (e_regular e) then []
  else match parse_yyyymmdd (e_name e) with
       | None => []
       | Some d =>
           if (d <? date_from opt) || (date_to opt <? d) then []
           else [mkDayFile d (path_join dir (e_name e))]
       end.

Definition build_day_file_list (tree : Tree) (opt : Opt) : list DayFile :=
  let root := product_dir opt in
  match tree root with
  | None => []
  | Some entries => sort_days (flat_map (keep_entry opt root) entries)
  end.

  (** ** map_file

      What [map_file] leaves in the reader when it returns true: the
      length of the mapping, the header copied out of it, and the
      members set from the header. *)
Record Mapped : Set := mkMapped {
  map_bytes_ : Z;
  hdr_ : Schemas.Header;
  rows_ : Z;
  col_ptrs_ : list Z;
  col_sz_ : list Z
}.

  (** A byte of the first page of the mapping: past the end of the file
      the page reads as zero. *)
Definition page_byte (f : Writer.File) (o : Z) : Z :=
  if o <? Writer.f_size f then Writer.f_data f o else 0.

Definition header_bytes_of (f : Writer.File) : list Z :=
  map (fun k => page_byte f (Z.of_nat k)) (seq 0 256).

  (** [memcmp(a, b, n) == 0] for two arrays of the same length. *)
Fixpoint bytes_eqb (a b : list Z) : bool :=
  match a, b with
  | [], [] => true
  | x :: a', y :: b' => (x =? y) && bytes_eqb a' b'
  | _, _ => false
  end.

  (** [map_file(p)] for the file [f] that [p] names, if any; [open_ok]
      and [mmap_ok] are the results of [open] with [fstat], and of
      [mmap].  [None] is the return value false. *)
Definition map_file (S : Schemas.Schema) (open_ok mmap_ok : bool)
                    (f : option Writer.File) : option Mapped :=
  match f with
  | None => None
  | Some f =>
      if negb open_ok then None
      else if Writer.f_size f <=? 0 then None
      else if negb mmap_ok then None
      else
        let hdr := Schemas.header_of_image (Schemas.COLS S) (header_bytes_of f) in
        if negb (bytes_eqb (Schemas.magic hdr) (firstn 6 (Schemas.MAGIC S))) then None
        else Some (mkMapped (Writer.f_size f) hdr (Schemas.rows hdr)
                            (Schemas.col_off hdr) (Schemas.col_sz hdr))
  end.

  (** [Schema::read_row_from_cols(r, seg.col_ptrs, j)] on the segment
      that [visit_single_segment] hands out.  A read that ends past
      the mapping is undefined (it faults beyond the last page). *)
Definition read_row (S : Schemas.Schema) (f : Writer.File) (m : Mapped) (j : Z)
  : option (Schemas.Row S) :=
  if forallb (fun c =>
                let o := nth c (col_ptrs_ m) 0 + j * Schemas.col_size S (Z.of_nat c) in
                (0 <=? o) && (o + Schemas.col_size S (Z.of_nat c) <=? map_bytes_ m))
             (seq 0 (Schemas.COLS S))
  then Some (Schemas.row_loads S
               (fun c w => Writer.peek f (nth c (col_ptrs_ m) 0 + j * Z.of_nat w) w))
  else None.

  (** ** HugeBuff and the stage *)

Record HugeBuff : Set := mkBuff { ptr : bool; len : Z; huge_tlb : bool }.

Definition null_buff : HugeBuff := mkBuff false 0 false.

Definition two_mb : Z := 2 * 1024 * 1024.

  (** [HugeBuff::alloc(bytes)]; [huge_ok] and [plain_ok] are the
      results of the two calls of [mmap]. *)
Definition alloc (huge_ok plain_ok : bool) (bytes : Z) : HugeBuff :=
  let want := Z.land (u64 (bytes + (two_mb - 1))) (u64 (Z.lnot (two_mb - 1))) in
  if huge_ok then mkBuff true want true
  else if plain_ok then mkBuff true bytes false
  else null_buff.

  (** [Stage]: the slab, the start of each column as an offset into
      the slab, and the bytes of the slab. *)
Record Stage : Type := mkStage {
  slab : HugeBuff;
  cols : list Z;
  capacity_rows : Z;
  mem : Z -> Z
}.

Definition fresh_stage (S : Schemas.Schema) : Stage :=
  mkStage null_buff (repeat 0 (Schemas.COLS S)) 0 (fun _ => 0).

  (** [Stage::ensure(rows)].  A new slab is an anonymous mapping: it
      reads as zero. *)
Definition ensure (S : Schemas.Schema) (huge_ok plain_ok : bool) (st : Stage) (rows : Z)
  : Stage :=
  let need := Writer.sum_u64 (Writer.col_bytes S rows) in
  if negb (ptr (slab st)) || (len (slab st) <? need) then
    mkStage (alloc huge_ok plain_ok need)
            (Writer.col_offsets 0 (Writer.col_bytes S rows)) rows (fun _ => 0)
  else st.

  (** [memcpy(dst, src, n)] from the mapping of [f] into the slab. *)
Definition copy_in (f : Writer.File) (src dst n : Z) (m : Z -> Z) : Z -> Z :=
  fun o => if (dst <=? o) && (o <? dst + n) then Writer.f_data f (src + (o - dst)) else m o.

  (** The loop of [stage_curr_file] over the columns.  A copy that
      leaves the mapping or the slab, or goes to a slab that could
      not be allocated, is undefined. *)
Fixpoint stage_cols (S : Schemas.Schema) (f : Writer.File) (m : Mapped)
                    (cs : list nat) (st : Stage) : Writer.Result Stage :=
  match cs with
  | [] => Writer.Done st
  | c :: cs' =>
      let bytes := u64 (rows_ m * u64 (Schemas.col_size S (Z.of_nat c))) in
      let src := nth c (col_ptrs_ m) 0 in
      let dst := nth c (cols st) 0 in
      if ptr (slab st) && (dst + bytes <=? len (slab st))
         && (0 <=? src) && (src + bytes <=? map_bytes_ m)
      then stage_cols S f m cs'
             (mkStage (slab st) (cols st) (capacity_rows st)
                      (copy_in f src dst bytes (mem st)))
      else Writer.Fault
  end.

  (** The segment handed to the visitor: [col_ptrs] and [rows]. *)
Record Segment : Set := mkSegment { seg_cols : list Z; seg_rows : Z }.

  (** [stage_curr_file(out)]: the new stage, and the segment when it
      returns true. *)
Definition stage_curr_file (S : Schemas.Schema) (huge_ok plain_ok : bool)
                           (f : Writer.File) (m : option Mapped) (st : Stage)
  : Writer.Result (Stage * option Segment) :=
  match m with
  | None => Writer.Done (st, None)
  | Some m =>
      if rows_ m =? 0 then Writer.Done (st, None)
      else
        let st1 := ensure S huge_ok plain_ok st (rows_ m) in
        match stage_cols S f m (seq 0 (Schemas.COLS S)) st1 with
        | Writer.Done st2 => Writer.Done (st2, Some (mkSegment (cols st2) (rows_ m)))
        | Writer.Fault => Writer.Fault
        end
  end.


  (** The bytes of the slab after the copies of [stage_curr_file]
      for the columns [cs], in that order, to the column starts
      [dsts]. *)
Fixpoint copy_all (S : Schemas.Schema) (f : Writer.File) (m : Mapped) (dsts : list Z)
                  (cs : list nat) (mem : Z -> Z) : Z -> Z :=
  match cs with
  | [] => mem
  | c :: cs' =>
      copy_all S f m dsts cs'
        (copy_in f (nth c (col_ptrs_ m) 0) (nth c dsts 0)
                 (rows_ m * Schemas.col_size S (Z.of_nat c)) mem)
  end.

  (** A stage whose columns are laid out for its [capacity_rows] in
      a slab that has room for them: what [ensure] leaves when it
      allocates. *)
Definition laid_out (S : Schemas.Schema) (st : Stage) : Prop :=
  ptr (slab st) = true ->
  cols st = Writer.col_offsets 0 (Writer.col_bytes S (capacity_rows st)) /\
  0 <= capacity_rows st < 2 ^ 56 /\
  capacity_rows st * Writer.row_width S <= len (slab st).

  (** The columns of the mapped file lie in the mapping. *)
Definition columns_mapped (S : Schemas.Schema) (m : Mapped) : Prop :=
  forall c, (c < Schemas.COLS S)%nat ->
    0 <= nth c (col_ptrs_ m) 0 /\
    nth c (col_ptrs_ m) 0 + rows_ m * Schemas.col_size S (Z.of_nat c) <= map_bytes_ m.

End Reader.

Module BlockWriter.

  (** [date_string]: [snprintf(buf, 10, "%08u")], which keeps at most
      nine characters. *)
Definition date_string (yyyymmdd : Z) : string :=
  string_of_list_ascii (firstn 9 (list_ascii_of_string (Dates.zero_padded 8 yyyymmdd))).

  (** The directory and the path that [open_day_file] creates. *)
Definition day_dir (base_dir product : string) : string :=
  (base_dir ++ "/" ++ product ++ "-BLOCKS")%string.

Definition day_path (base_dir product : string) (yyyymmdd : Z) : string :=
  (day_dir base_dir product ++ "/" ++ date_string yyyymmdd ++ ".blocks")%string.

  (** ** Constants and the header of a day file *)

Definition SYNC_INTERVAL : Z := 64 * 2 ^ 20.
Definition MAP_WINDOW : Z := 256 * 2 ^ 20.
Definition FALLOCATE_CHUNK : Z := 2 ^ 30.

  (** [DayFileHeader], packed: 24 bytes. *)
Record DayFileHeader : Set := mkDayHeader {
  rows_total : Z;
  bytes_total : Z;
  yyyymmdd : Z;
  blocks_total : Z
}.

Definition DAY_HEADER_SZ : Z := 24.

Definition day_header_bytes (h : DayFileHeader) : list Z :=
  le_bytes 8 (rows_total h) ++ le_bytes 8 (bytes_total h)
  ++ le_bytes 4 (yyyymmdd h) ++ le_bytes 4 (blocks_total h).

  (** [memcpy(&hdr_, base_, sizeof(hdr_))]. *)
Definition day_header_of_bytes (bs : list Z) : DayFileHeader :=
  mkDayHeader (le_value (firstn 8 bs)) (le_value (firstn 8 (skipn 8 bs)))
              (le_value (firstn 4 (skipn 16 bs))) (le_value (firstn 4 (skipn 20 bs))).

  (** [worst_case_block_bytes]: [18 * n_rows] is a product of an
      [int] and a [uint32_t], taken modulo 2^32 before it is added
      to the [size_t] operands. *)
Definition worst_case_block_bytes (n_rows : Z) : Z :=
  u64 (u64 (Codec.HDR_SIZE + u32 (18 * n_rows)) + 16).

  (** [align_up(x, a)]; a division by zero is undefined. *)
Definition align_up (x a : Z) : option Z :=
  if a =? 0 then None else Some (u64 (u64 (x + u64 (a - 1)) / a * a)).

  (** ** Files

      [ftruncate] and [pwrite] on the files of [Writer]; a file that
      grows again reads as zero where it was cut. *)
Definition truncate (f : Writer.File) (n : Z) : Writer.File :=
  Writer.mkFile n (fun o => if o <? n then Writer.f_data f o else 0).

Definition pwrite (f : Writer.File) (off : Z) (bs : list Z) : Writer.File :=
  Writer.mkFile (Z.max (Writer.f_size f) (off + Z.of_nat (length bs)))
                (Writer.f_data (Writer.poke f off bs)).

  (** What the system calls of one call of a member function return:
      [create_directory], [open], [posix_fallocate], [mmap], [mremap],
      [ftruncate] and [pwrite]; calls of the same kind within one
      member call get the same result.  The results of [msync],
      [fdatasync], [munmap], [close], [posix_fadvise] and [madvise]
      are ignored by the code. *)
Record Sys : Set := mkSys {
  mkdir_ok : bool;
  open_ok : bool;
  fallocate_ok : bool;
  mmap_ok : bool;
  mremap_ok : bool;
  ftruncate_ok : bool;
  pwrite_ok : bool
}.

Definition all_ok : Sys := mkSys true true true true true true true.

  (** ** State

      The members of [BlockWriterT] that the code reads, and the
      disk.  [fd_] is the path the descriptor was opened on, or
      [None] for -1; [map_base_] says whether the pointer is
      non-null.  [blocks_since_fsync_] is never read. *)
Record State : Type := mkState {
  fd_ : option string;
  path_ : string;
  allocated_bytes_ : Z;
  curr_day_ : Z;
  header_ : DayFileHeader;
  rows_total_ : Z;
  bytes_total_ : Z;
  bytes_since_sync_ : Z;
  map_base_ : bool;
  map_len_ : Z;
  file_off_ : Z;
  buf_ : list Codec.Row;
  block_buf_ : list Z;
  disk : Writer.Disk
}.

  (** A call returns, throws a [std::runtime_error] and leaves the
      object in the state it had at the [throw], or has no defined
      result: its behaviour is undefined, or a store through the
      mapping is answered with SIGBUS. *)
Inductive Outcome : Type :=
  | Returns (st : State)
  | Throws (st : State)
  | Undefined.

Definition and_then (o : Outcome) (k : State -> Outcome) : Outcome :=
  match o with
  | Returns st => k st
  | other => other
  end.

Definition init (d : Writer.Disk) : State :=
  {| fd_ := None; path_ := ""; allocated_bytes_ := 0; curr_day_ := 0;
     header_ := mkDayHeader 0 0 0 0; rows_total_ := 0; bytes_total_ := 0;
     bytes_since_sync_ := 0; map_base_ := false; map_len_ := 0; file_off_ := 0;
     buf_ := []; block_buf_ := []; disk := d |}.

Definition is_open (st : State) : bool :=
  match fd_ st with
  | Some _ => true
  | None => false
  end.

  (** The file behind a descriptor opened on [p]. *)
Definition file_of (st : State) (p : string) : Writer.File :=
  match disk st p with
  | Some f => f
  | None => Writer.empty_file
  end.

Definition set_fd (st : State) (fd : option string) : State :=
  mkState fd (path_ st) (allocated_bytes_ st) (curr_day_ st) (header_ st)
          (rows_total_ st) (bytes_total_ st) (bytes_since_sync_ st) (map_base_ st)
          (map_len_ st) (file_off_ st) (buf_ st) (block_buf_ st) (disk st).

Definition set_path (st : State) (p : string) : State :=
  mkState (fd_ st) p (allocated_bytes_ st) (curr_day_ st) (header_ st)
          (rows_total_ st) (bytes_total_ st) (bytes_since_sync_ st) (map_base_ st)
          (map_len_ st) (file_off_ st) (buf_ st) (block_buf_ st) (disk st).

Definition set_allocated (st : State) (a : Z) : State :=
  mkState (fd_ st) (path_ st) a (curr_day_ st) (header_ st)
          (rows_total_ st) (bytes_total_ st) (bytes_since_sync_ st) (map_base_ st)
          (map_len_ st) (file_off_ st) (buf_ st) (block_buf_ st) (disk st).

Definition set_curr_day (st : State) (d : Z) : State :=
  mkState (fd_ st) (path_ st) (allocated_bytes_ st) d (header_ st)
          (rows_total_ st) (bytes_total_ st) (bytes_since_sync_ st) (map_base_ st)
          (map_len_ st) (file_off_ st) (buf_ st) (block_buf_ st) (disk st).

Definition set_header (st : State) (h : DayFileHeader) : State :=
  mkState (fd_ st) (path_ st) (allocated_bytes_ st) (curr_day_ st) h
          (rows_total_ st) (bytes_total_ st) (bytes_since_sync_ st) (map_base_ st)
          (map_len_ st) (file_off_ st) (buf_ st) (block_buf_ st) (disk st).

Definition set_map (st : State) (base : bool) (len : Z) : State :=
  mkState (fd_ st) (path_ st) (allocated_bytes_ st) (curr_day_ st) (header_ st)
          (rows_total_ st) (bytes_total_ st) (bytes_since_sync_ st) base
          len (file_off_ st) (buf_ st) (block_buf_ st) (disk st).

Definition set_buf (st : State) (b : list Codec.Row) : State :=
  mkState (fd_ st) (path_ st) (allocated_bytes_ st) (curr_day_ st) (header_ st)
          (rows_total_ st) (bytes_total_ st) (bytes_since_sync_ st) (map_base_ st)
          (map_len_ st) (file_off_ st) b (block_buf_ st) (disk st).

Definition set_block_buf (st : State) (b : list Z) : State :=
  mkState (fd_ st) (path_ st) (allocated_bytes_ st) (curr_day_ st) (header_ st)
          (rows_total_ st) (bytes_total_ st) (bytes_since_sync_ st) (map_base_ st)
          (map_len_ st) (file_off_ st) (buf_ st) b (disk st).

Definition set_disk (st : State) (d : Writer.Disk) : State :=
  mkState (fd_ st) (path_ st) (allocated_bytes_ st) (curr_day_ st) (header_ st)
          (rows_total_ st) (bytes_total_ st) (bytes_since_sync_ st) (map_base_ st)
          (map_len_ st) (file_off_ st) (buf_ st) (block_buf_ st) d.

  (** The loop of [ensure_chunk] that adds windows to [new_len];
      [fuel] bounds its turns.  When the sum leaves 64 bits no
      length of the sequence reaches [min_len] and the loop does not
      end. *)
Fixpoint grow_len (fuel : nat) (new_len min_len : Z) : option Z :=
  if new_len <? min_len then
    match fuel with
    | O => None
    | S fuel' =>
        if 2 ^ 64 <=? new_len + MAP_WINDOW then None
        else grow_len fuel' (new_len + MAP_WINDOW) min_len
    end
  else Some new_len.

Section WithOptions.

  (** [BlockWriterOpt]; [fsync_every_blocks] is never read. *)
  Variable base_dir : string.
  Variable product : string.
  Variable block_rows : Z.

  (** [sysconf(_SC_PAGESIZE)]. *)
  Variable page : Z.

  (** The end of the last page of a file. *)
Definition pages_end (f : Writer.File) : Z :=
  (Writer.f_size f + page - 1) / page * page.

  (** [memcpy(map_base_ + off, bs, n)] into a shared mapping of
      [map_len] bytes of the file [f].  Outside the mapping the store
      is undefined, and so it is on a page that lies beyond the end
      of the file (SIGBUS); what is stored between the end of the file
      and the end of its last page does not reach the file. *)
Definition store_mapped (f : Writer.File) (map_len off : Z) (bs : list Z)
  : option Writer.File :=
  let n := Z.of_nat (length bs) in
  if n =? 0 then Some f
  else if (0 <=? off) && (off + n <=? map_len) && (off + n <=? pages_end f) then
    Some (Writer.mkFile (Writer.f_size f)
            (fun o => if o <? Writer.f_size f
                      then Writer.f_data (Writer.poke f off bs) o
                      else Writer.f_data f o))
  else None.

Definition open_day_file (sys : Sys) (st : State) (d : Z) : Outcome :=
  if negb (mkdir_ok sys) then Throws st
  else
    let path := day_path base_dir product d in
    let st1 := set_path st path in
    if negb (open_ok sys) then Throws (set_fd st1 None)
    else
      let f0 := file_of st path in
      match align_up (u64 (DAY_HEADER_SZ + MAP_WINDOW)) FALLOCATE_CHUNK with
      | None => Undefined
      | Some first_round =>
          if negb (fallocate_ok sys) then
            Throws (set_disk (set_fd st1 None) (Writer.disk_put (disk st) path f0))
          else
            let f1 := Writer.fallocate f0 first_round in
            let st2 := set_disk (set_allocated st1 first_round)
                                (Writer.disk_put (disk st) path f1) in
            match align_up (u64 (DAY_HEADER_SZ + MAP_WINDOW)) (u64 page) with
            | None => Undefined
            | Some aligned =>
                let init_map_len := Z.max aligned MAP_WINDOW in
                if negb (mmap_ok sys) then Throws (set_fd st2 None)
                else
                  let h := mkDayHeader 0 0 d 0 in
                  match store_mapped f1 init_map_len 0 (day_header_bytes h) with
                  | None => Undefined
                  | Some f2 =>
                      Returns
                        {| fd_ := Some path; path_ := path;
                           allocated_bytes_ := first_round;
                           curr_day_ := curr_day_ st; header_ := h;
                           rows_total_ := rows_total_ st;
                           bytes_total_ := bytes_total_ st;
                           bytes_since_sync_ := bytes_since_sync_ st;
                           map_base_ := true; map_len_ := init_map_len;
                           file_off_ := DAY_HEADER_SZ;
                           buf_ := buf_ st; block_buf_ := block_buf_ st;
                           disk := Writer.disk_put (disk st) path f2 |}
                  end
            end
      end.

  (** [ensure_allocated]; [posix_fallocate] fails on a descriptor
      that is not open and on a length that is not positive as an
      [off_t]. *)
Definition ensure_allocated (sys : Sys) (st : State) (required_len : Z) : Outcome :=
  if required_len <=? allocated_bytes_ st then Returns st
  else
    match align_up required_len FALLOCATE_CHUNK with
    | None => Undefined
    | Some rounded =>
        match fd_ st with
        | Some p =>
            if fallocate_ok sys && (0 <? rounded) && (rounded <? 2 ^ 63) then
              Returns (set_disk (set_allocated st rounded)
                         (Writer.disk_put (disk st) p
                            (Writer.fallocate (file_of st p) rounded)))
            else Throws st
        | None => Throws st
        end
    end.

  (** [ensure_chunk]; [mremap] of a null address fails. *)
Definition ensure_chunk (sys : Sys) (st : State) (need : Z) : Outcome :=
  let min_len := u64 (file_off_ st + need) in
  if map_base_ st && (min_len <=? map_len_ st) then Returns st
  else
    and_then (ensure_allocated sys st min_len) (fun st1 =>
      match grow_len (Z.to_nat ((min_len - map_len_ st1) / MAP_WINDOW + 1))
                     (map_len_ st1) min_len with
      | None => Undefined
      | Some new_len =>
          if mremap_ok sys && map_base_ st1 then Returns (set_map st1 true new_len)
          else Throws st1
      end).

  (** [append_rows_as_block(rows, n)] for the [n] rows [rows]. *)
Definition append_rows_as_block (sys : Sys) (st : State) (rows : list Codec.Row)
  : Outcome :=
  let n := Z.of_nat (length rows) in
  match Codec.encode_block rows [] with
  | Codec.Ok blk =>
      let sz := Z.of_nat (length blk) in
      and_then (ensure_chunk sys (set_block_buf st blk) sz) (fun st1 =>
        match fd_ st1, map_base_ st1 with
        | Some p, true =>
            match store_mapped (file_of st1 p) (map_len_ st1) (file_off_ st1) blk with
            | None => Undefined
            | Some f' =>
                let since := u64 (bytes_since_sync_ st1 + sz) in
                let h := header_ st1 in
                Returns
                  {| fd_ := fd_ st1; path_ := path_ st1;
                     allocated_bytes_ := allocated_bytes_ st1;
                     curr_day_ := curr_day_ st1;
                     header_ := mkDayHeader (rows_total h) (bytes_total h) (yyyymmdd h)
                                            (u32 (blocks_total h + 1));
                     rows_total_ := u64 (rows_total_ st1 + n);
                     bytes_total_ := u64 (bytes_total_ st1 + sz);
                     bytes_since_sync_ := if SYNC_INTERVAL <=? since then 0 else since;
                     map_base_ := true; map_len_ := map_len_ st1;
                     file_off_ := u64 (file_off_ st1 + sz);
                     buf_ := buf_ st1; block_buf_ := block_buf_ st1;
                     disk := Writer.disk_put (disk st1) p f' |}
            end
        | _, _ => Undefined
        end)
  | Codec.Throw _ => Throws st
  | Codec.Undefined => Undefined
  end.

  (** [flush_block]: the block has the first
      [static_cast<uint32_t>(buf_.size())] rows of the buffer. *)
Definition flush_block (sys : Sys) (st : State) : Outcome :=
  match buf_ st with
  | [] => Returns st
  | _ :: _ =>
      if negb (is_open st) then Returns st
      else
        let n := u32 (Z.of_nat (length (buf_ st))) in
        and_then (append_rows_as_block sys st (firstn (Z.to_nat n) (buf_ st)))
                 (fun st1 => Returns (set_buf st1 []))
  end.

Definition write_row (sys : Sys) (st : State) (r : Codec.Row) : Outcome :=
  let st1 := set_buf st (buf_ st ++ [r]) in
  if block_rows <=? Z.of_nat (length (buf_ st1)) then flush_block sys st1
  else Returns st1.

  (** [write_block(rows, n)] for the [n] rows [rows]. *)
Definition write_block (sys : Sys) (st : State) (rows : list Codec.Row) : Outcome :=
  match rows with
  | [] => Returns st
  | _ :: _ =>
      if negb (is_open st) then Throws st
      else
        and_then (match buf_ st with
                  | [] => Returns st
                  | _ :: _ => flush_block sys st
                  end)
                 (fun st1 => append_rows_as_block sys st1 rows)
  end.

  (** [close]; [ftruncate] fails on a length that is negative as an
      [off_t]. *)
Definition close (sys : Sys) (st : State) : Outcome :=
  match fd_ st with
  | None => Returns st
  | Some _ =>
      and_then (flush_block sys st) (fun st1 =>
        match fd_ st1 with
        | None => Undefined
        | Some p =>
            let st2 := if map_base_ st1 then set_map st1 false 0 else st1 in
            let h := mkDayHeader (rows_total_ st2) (bytes_total_ st2)
                                 (yyyymmdd (header_ st2)) (blocks_total (header_ st2)) in
            let f1 := if ftruncate_ok sys && (file_off_ st2 <? 2 ^ 63)
                      then truncate (file_of st2 p) (file_off_ st2)
                      else file_of st2 p in
            let st3 := set_disk (set_allocated (set_header st2 h) 0)
                                (Writer.disk_put (disk st2) p f1) in
            if negb (pwrite_ok sys) then Throws (set_fd st3 None)
            else
              Returns
                {| fd_ := None; path_ := ""; allocated_bytes_ := 0; curr_day_ := 0;
                   header_ := h; rows_total_ := 0; bytes_total_ := 0;
                   bytes_since_sync_ := 0; map_base_ := false; map_len_ := 0;
                   file_off_ := 0; buf_ := []; block_buf_ := block_buf_ st3;
                   disk := Writer.disk_put (disk st2) p
                             (pwrite f1 0 (day_header_bytes h)) |}
        end)
  end.

Definition begin_day (sys : Sys) (st : State) (d : Z) : Outcome :=
  if curr_day_ st =? d then Returns st
  else
    and_then (flush_block sys st) (fun st1 =>
    and_then (close sys st1) (fun st2 =>
    and_then (open_day_file sys st2 d) (fun st3 =>
    Returns (set_curr_day st3 d)))).

  (** The calls a client makes, each with the results of its system
      calls; an exception ends the sequence. *)
Inductive Call : Type :=
  | BeginDay (d : Z)
  | WriteRow (r : Codec.Row)
  | WriteBlock (rows : list Codec.Row)
  | Close.

Definition call (sys : Sys) (st : State) (c : Call) : Outcome :=
  match c with
  | BeginDay d => begin_day sys st d
  | WriteRow r => write_row sys st r
  | WriteBlock rows => write_block sys st rows
  | Close => close sys st
  end.

Fixpoint calls (cs : list (Sys * Call)) (st : State) : Outcome :=
  match cs with
  | [] => Returns st
  | (sys, c) :: cs' => and_then (call sys st c) (calls cs')
  end.

  (** The length of the first mapping of a day file. *)
Definition first_map_len : Z :=
  Z.max ((DAY_HEADER_SZ + MAP_WINDOW + page - 1) / page * page) MAP_WINDOW.

End WithOptions.

  (** The block that [encode_block] makes of [rows] in an empty
      buffer. *)
Definition encoded (rows : list Codec.Row) : list Z :=
  match Codec.encode_block rows [] with
  | Codec.Ok b => b
  | _ => []
  end.

  (** A writer that has the file [p] of day [d] open and mapped, after
      the blocks [blks], of [n] rows in all, were appended to it. *)
Definition writing (st : State) (p : string) (d : Z) (blks : list (list Z)) (n : Z)
  : Prop :=
  fd_ st = Some p /\ map_base_ st = true /\ curr_day_ st = d /\
  DAY_HEADER_SZ + MAP_WINDOW <= map_len_ st /\
  header_ st = mkDayHeader 0 0 d (Z.of_nat (length blks)) /\
  rows_total_ st = n /\
  bytes_total_ st = Z.of_nat (length (concat blks)) /\
  file_off_ st = DAY_HEADER_SZ + Z.of_nat (length (concat blks)) /\
  exists f, disk st p = Some f /\ FALLOCATE_CHUNK <= Writer.f_size f /\
            Writer.peek f DAY_HEADER_SZ (length (concat blks)) = concat blks.

End BlockWriter.

Module DaySamples.
Import Schemas Writer WriterSamples.

  (** A second row of 1970-01-02, and the two rows as the queue
      delivers them with working system calls. *)
Definition later_row : L2.Row := L2.mkRow (86400 * 1000000000 + 9) 10001 1048576000 0.

Definition one_day : list (Sys * L2.Row) := [(all_ok, late_row); (all_ok, later_row)].

Definition l2_run : list (Sys * L2.Row) -> State L2.schema -> Result (State L2.schema) :=
  run L2.schema "/data" "BTC" 0 Dates.utc_date_string.

  (** An L2 writer with a live mapping of a file laid out for four
      rows, [r] of them written. *)
Definition small_path : string := "/data/BTC/19700102.bin".

Definition small_file : File := mkFile (256 + 4 * 17) (fun _ => 0).

Definition small_state (r : Z) : State L2.schema :=
  mkState L2.schema (Some small_path) Live (256 + 4 * 17)
          (day_header L2.schema "BTC" 86400 4 r)
          (col_offsets 256 (col_bytes L2.schema 4)) (col_bytes L2.schema 4)
          (map Some (col_offsets 256 (col_bytes L2.schema 4)))
          r 0 4 86400 0
          (fun p => if String.eqb p small_path then Some small_file else None).

Definition prealloc_fails : Sys := mkSys true true false true.

  (** A mapped L2 file of two rows laid out for two, and a stage
      whose slab of one huge page was laid out for one row. *)
Definition two_row_file : File := mkFile (256 + 2 * 17) (fun o => o mod 251).

Definition two_row_map : Reader.Mapped :=
  Reader.mkMapped (256 + 2 * 17) (day_header L2.schema "BTC" 86400 2 2) 2
                  (col_offsets 256 (col_bytes L2.schema 2)) (elem_sizes L2.schema).

Definition one_row_stage : Reader.Stage :=
  Reader.mkStage (Reader.mkBuff true Reader.two_mb true)
                 (col_offsets 0 (col_bytes L2.schema 1)) 1 (fun _ => 0).

End DaySamples.

Module BlockSamples.
Import BlockWriter.

  (** A day file of one chunk, and a block writer whose mapping
      extends one page of 4096 bytes beyond the end of that file, ten
      bytes before the end of the file. *)
Definition chunk_path : string := "/data/BTC-BLOCKS/20240102.blocks".

Definition chunk_file : Writer.File := Writer.mkFile (2 ^ 30) (fun _ => 0).

Definition chunk_state : State :=
  {| fd_ := Some chunk_path; path_ := chunk_path; allocated_bytes_ := 2 ^ 30;
     curr_day_ := 20240102; header_ := mkDayHeader 0 0 20240102 1;
     rows_total_ := 1; bytes_total_ := 2 ^ 30 - 34;
     bytes_since_sync_ := 0; map_base_ := true; map_len_ := 2 ^ 30 + 4096;
     file_off_ := 2 ^ 30 - 10; buf_ := []; block_buf_ := [];
     disk := Writer.disk_put (fun _ => None) chunk_path chunk_file |}.

  (** Two runs of equal rows: the first is encoded into 1044000076
      bytes, the second into 29743276. *)
Definition long_run : list Codec.Row :=
  repeat Codec.wide_row (Z.to_nat (8 * 29000000)).

Definition short_run : list Codec.Row :=
  repeat Codec.wide_row (Z.to_nat (8 * 826200)).

End BlockSamples.

(* ================================================================== *)
(** * Properties *)
(* ================================================================== *)

Section Equalities.

  (** Inversions that leave the components of the equation alone. *)
Lemma pair_eq_inv {A B} (a a' : A) (b b' : B) : (a, b) = (a', b') -> a = a' /\ b = b'.
  Proof. intros H. split; [exact (f_equal fst H) | exact (f_equal snd H)]. Qed.

Lemma Some_inj {A} (a b : A) : Some a = Some b -> a = b.
  Proof. intros H. exact (f_equal (fun o => match o with Some x => x | None => a end) H). Qed.

End Equalities.

Section IntFacts.

Lemma u32_small x : 0 <= x < 2 ^ 32 -> u32 x = x.
  Proof. intros H. unfold u32, wrap. now apply Z.mod_small. Qed.

Lemma u64_small x : 0 <= x < 2 ^ 64 -> u64 x = x.
  Proof. intros H. unfold u64, wrap. now apply Z.mod_small. Qed.

Lemma u8_small x : 0 <= x < 2 ^ 8 -> u8 x = x.
  Proof. intros H. unfold u8, wrap. now apply Z.mod_small. Qed.

Lemma u32_range x : 0 <= u32 x < 2 ^ 32.
  Proof. unfold u32, wrap. apply Z.mod_pos_bound. lia. Qed.

Lemma u64_range x : 0 <= u64 x < 2 ^ 64.
  Proof. unfold u64, wrap. apply Z.mod_pos_bound. lia. Qed.

  (** Exclusive-or with the all-ones word is the complement. *)
Lemma lxor_ones_compl w a :
    0 <= w -> 0 <= a < 2 ^ w -> Z.lxor a (2 ^ w - 1) = 2 ^ w - 1 - a.
  Proof.
    intros Hw Ha.
    replace (2 ^ w - 1) with (Z.ones w) by (rewrite Z.ones_equiv; lia).
    assert (E : Z.ones w - a = Z.land (Z.lnot a) (Z.ones w)).
    { rewrite Z.land_ones by lia. rewrite Z.ones_equiv. unfold Z.lnot.
      apply Z.mod_unique with (q := -1); lia. }
    rewrite E. apply Z.bits_inj'. intros i Hi.
    rewrite Z.land_spec, Z.lxor_spec, Z.lnot_spec by lia.
    destruct (Z.ltb_spec i w).
    - rewrite Z.ones_spec_low by lia.
      now destruct (Z.testbit a i).
    - rewrite Z.ones_spec_high by lia.
      destruct (Z.eq_dec a 0) as [-> | Hnz]; [now rewrite Z.bits_0 |].
      assert (Hlog : Z.log2 a < i).
      { assert (Z.log2 a < w) by (apply Z.log2_lt_pow2; lia). lia. }
      rewrite (Z.bits_above_log2 a i) by lia.
      reflexivity.
  Qed.

End IntFacts.

Section Zigzag.

Lemma zigzag_enc32_nonneg x :
    0 <= x < 2 ^ 31 -> zigzag_enc32 x = 2 * x.
  Proof.
    intros H. unfold zigzag_enc32.
    rewrite (u32_small x) by lia.
    rewrite Z.shiftl_mul_pow2 by lia.
    rewrite Z.shiftr_div_pow2 by lia.
    rewrite (Z.div_small x) by lia.
    rewrite (u32_small 0) by lia.
    rewrite Z.lxor_0_r. rewrite u32_small; lia.
  Qed.

Lemma zigzag_enc32_neg x :
    - 2 ^ 31 <= x < 0 -> zigzag_enc32 x = - 2 * x - 1.
  Proof.
    intros H. unfold zigzag_enc32.
    assert (E1 : u32 x = x + 2 ^ 32).
    { unfold u32, wrap. symmetry. apply Z.mod_unique with (q := -1); lia. }
    rewrite E1.
    rewrite Z.shiftl_mul_pow2 by lia.
    assert (E2 : u32 ((x + 2 ^ 32) * 2 ^ 1) = 2 * x + 2 ^ 32).
    { unfold u32, wrap. symmetry. apply Z.mod_unique with (q := 1); lia. }
    rewrite E2.
    rewrite Z.shiftr_div_pow2 by lia.
    assert (E3 : x / 2 ^ 31 = -1).
    { symmetry. apply Z.div_unique with (r := x + 2 ^ 31); lia. }
    rewrite E3.
    assert (E4 : u32 (-1) = 2 ^ 32 - 1) by reflexivity.
    rewrite E4.
    rewrite lxor_ones_compl; lia.
  Qed.

Lemma zigzag_dec32_even k :
    0 <= k < 2 ^ 31 -> zigzag_dec32 (2 * k) = k.
  Proof.
    intros H. unfold zigzag_dec32.
    assert (E0 : Z.land (2 * k) 1 = 0).
    { change 1 with (Z.ones 1). rewrite Z.land_ones by lia.
      change (2 ^ 1) with 2. rewrite Z.mul_comm. apply Z.mod_mul. lia. }
    rewrite E0. change (u32 (- 0)) with 0. rewrite Z.lxor_0_r.
    rewrite Z.shiftr_div_pow2 by lia. change (2 ^ 1) with 2.
    rewrite Z.mul_comm, Z.div_mul by lia.
    unfold to_i32. rewrite u32_small by lia.
    destruct (Z.ltb_spec k (2 ^ 31)); lia.
  Qed.

Lemma zigzag_dec32_odd k :
    0 <= k < 2 ^ 31 -> zigzag_dec32 (2 * k + 1) = - k - 1.
  Proof.
    intros H. unfold zigzag_dec32.
    assert (E0 : Z.land (2 * k + 1) 1 = 1).
    { change 1 with (Z.ones 1) at 2. rewrite Z.land_ones by lia.
      change (2 ^ 1) with 2.
      symmetry. apply Z.mod_unique with (q := k); lia. }
    rewrite E0. change (u32 (- (1))) with (2 ^ 32 - 1).
    rewrite Z.shiftr_div_pow2 by lia. change (2 ^ 1) with 2.
    assert (E1 : (2 * k + 1) / 2 = k).
    { symmetry. apply Z.div_unique with (r := 1); lia. }
    rewrite E1. rewrite lxor_ones_compl by lia.
    unfold to_i32. rewrite u32_small by lia.
    destruct (Z.ltb_spec (2 ^ 32 - 1 - k) (2 ^ 31)); lia.
  Qed.

  (** C8. Zigzag round trip: decoding the zigzag image of any signed
      32-bit integer gives the integer back. *)
Theorem zigzag_roundtrip (x : Z) :
    is_i32 x -> zigzag_dec32 (zigzag_enc32 x) = x.
  Proof.
    unfold is_i32. intros H.
    destruct (Z.lt_ge_cases x 0) as [Hneg | Hpos].
    - rewrite zigzag_enc32_neg by lia.
      replace (- 2 * x - 1) with (2 * (- x - 1) + 1) by lia.
      rewrite zigzag_dec32_odd; lia.
    - rewrite zigzag_enc32_nonneg by lia.
      apply zigzag_dec32_even; lia.
  Qed.

End Zigzag.

Lemma zigzag_roundtrip_witness :
  is_i32 (-5) /\ zigzag_dec32 (zigzag_enc32 (-5)) = -5.
Proof.
  split.
  - unfold is_i32. lia.
  - apply (zigzag_roundtrip (-5)). unfold is_i32. lia.
Defined.

Section LittleEndian.

Lemma length_le_bytes k v : length (le_bytes k v) = k.
Proof. revert v. induction k; intros; simpl; auto. Qed.

Lemma le_value_le_bytes k v :
  le_value (le_bytes k v) = v mod 2 ^ (8 * Z.of_nat k).
Proof.
  revert v. induction k as [|k IH]; intros v.
  - simpl. now rewrite Z.mod_1_r.
  - cbn [le_bytes le_value]. rewrite IH.
    replace (8 * Z.of_nat (S k)) with (8 * Z.of_nat k + 8) by lia.
    change 255 with (Z.ones 8).
    rewrite <- !Z.land_ones by lia.
    Z.bitblast.
Qed.

Lemma le_value_le_bytes_small k v :
  0 <= v < 2 ^ (8 * Z.of_nat k) -> le_value (le_bytes k v) = v.
Proof. intros. rewrite le_value_le_bytes. now apply Z.mod_small. Qed.

Lemma length_header_bytes h : length (header_bytes h) = 76%nat.
Proof.
  unfold header_bytes. rewrite !length_app, !length_le_bytes.
  rewrite length_firstn, length_app, repeat_length. lia.
Qed.

Lemma read_header_bytes h rest :
  header_ok h -> read_header (header_bytes h ++ rest) = Some h.
Proof.
  destruct h as [m v f n bt bp sc tb pb r0 ot lt op lp os ls osd lsd oty lty].
  unfold header_ok. cbn [magic version flags n_rows base_ts base_px ts_scale_ns ts_bw px_bw reserved0
    off_ts len_ts off_px len_px off_sz len_sz off_side len_side off_type len_type].
  intros (Hm & H).
  do 8 (destruct m as [|? m]; [discriminate Hm|]). destruct m; [|discriminate Hm].
  unfold read_header, load.
  assert (L : (Z.to_nat HDR_SIZE <=? length (header_bytes (mkHeader [z; z0; z1; z2; z3; z4; z5; z6] v f n bt bp sc tb pb r0 ot lt op lp os ls osd lsd oty lty) ++ rest))%nat = true).
  { apply Nat.leb_le. rewrite length_app, length_header_bytes. change (Z.to_nat HDR_SIZE) with 76%nat. lia. }
  rewrite L.
  change (Z.to_nat HDR_SIZE) with 76%nat.
  unfold field, header_bytes.
  cbn [magic version flags n_rows base_ts base_px ts_scale_ns ts_bw px_bw reserved0
    off_ts len_ts off_px len_px off_sz len_sz off_side len_side off_type len_type
    firstn skipn app repeat le_bytes].
  pose proof (fun x => le_value_le_bytes_small 1 x) as E1.
  pose proof (fun x => le_value_le_bytes_small 2 x) as E2.
  pose proof (fun x => le_value_le_bytes_small 4 x) as E4.
  pose proof (fun x => le_value_le_bytes_small 8 x) as E8.
  cbn [le_bytes] in E1, E2, E4, E8.
  change (8 * Z.of_nat 1) with 8 in E1. change (8 * Z.of_nat 2) with 16 in E2.
  change (8 * Z.of_nat 4) with 32 in E4. change (8 * Z.of_nat 8) with 64 in E8.
  rewrite !E8 by lia. rewrite !E4 by lia. rewrite !E2 by lia. rewrite !E1 by lia.
  reflexivity.
Qed.

End LittleEndian.

Section Widths.

Lemma fold_max_ge l a : a <= fold_left Z.max l a.
  Proof.
    revert a. induction l as [|x l IH]; intros a; simpl; [lia|].
    specialize (IH (Z.max a x)). lia.
  Qed.

Lemma fold_max_bound l a B :
    a < B -> Forall (fun x => x < B) l -> fold_left Z.max l a < B.
  Proof.
    revert a. induction l as [|x l IH]; intros a Ha Hl; simpl; [lia|].
    inversion Hl; subst. apply IH; [lia | assumption].
  Qed.

Lemma max_of_range l B :
    0 < B -> Forall (fun x => x < B) l -> 0 <= max_of l < B.
  Proof.
    intros HB Hl. unfold max_of. split.
    - apply fold_max_ge.
    - now apply fold_max_bound.
  Qed.

Lemma ceil_log2_u64_range x :
    0 <= x <= 2 ^ 32 -> 1 <= ceil_log2_u64 x <= 32.
  Proof.
    intros Hx. unfold ceil_log2_u64.
    destruct (Z.leb_spec x 1); [lia|].
    assert (Hl : 0 <= Z.log2 (x - 1) < 32).
    { split; [apply Z.log2_nonneg|]. apply Z.log2_lt_pow2; lia. }
    unfold clzll.
    rewrite (u32_small (63 - Z.log2 (x - 1))) by lia.
    rewrite u32_small by lia. rewrite u64_small by lia. lia.
  Qed.

Lemma width_of_range col :
    Forall (fun x => x < 2 ^ 32) col -> 1 <= width_of col <= 32.
  Proof.
    intros H. unfold width_of.
    pose proof (max_of_range col (2 ^ 32) ltac:(lia) H) as Hm.
    rewrite (u64_small (max_of col + 1)) by lia.
    pose proof (ceil_log2_u64_range (max_of col + 1) ltac:(lia)) as Hc.
    rewrite u8_small by lia. lia.
  Qed.

Lemma ts_deltas_u32 b rows : Forall (fun x => x < 2 ^ 32) (ts_deltas b rows).
  Proof.
    unfold ts_deltas. apply Forall_forall. intros x Hx.
    apply in_map_iff in Hx. destruct Hx as (r & <- & _).
    apply u32_range.
  Qed.

Lemma zigzag_enc32_range v : 0 <= zigzag_enc32 v < 2 ^ 32.
  Proof.
    unfold zigzag_enc32.
    pose proof (u32_range (Z.shiftl (u32 v) 1)) as Ha.
    pose proof (u32_range (Z.shiftr v 31)) as Hb.
    set (a := u32 (Z.shiftl (u32 v) 1)) in *.
    set (b := u32 (Z.shiftr v 31)) in *.
    split; [apply Z.lxor_nonneg; lia|].
    destruct (Z.eq_dec (Z.lxor a b) 0) as [-> | Hnz]; [lia|].
    apply Z.log2_lt_pow2.
    - assert (0 <= Z.lxor a b) by (apply Z.lxor_nonneg; lia). lia.
    - eapply Z.le_lt_trans; [apply Z.log2_lxor; lia|].
      apply Z.max_lub_lt.
      + destruct (Z.eq_dec a 0) as [-> | ?]; [simpl; lia|]. apply Z.log2_lt_pow2; lia.
      + destruct (Z.eq_dec b 0) as [-> | ?]; [simpl; lia|]. apply Z.log2_lt_pow2; lia.
  Qed.

Lemma px_zigzags_u32 b rows : Forall (fun x => x < 2 ^ 32) (px_zigzags b rows).
  Proof.
    unfold px_zigzags. apply Forall_forall. intros x Hx.
    apply in_map_iff in Hx. destruct Hx as (r & <- & _).
    apply zigzag_enc32_range.
  Qed.

End Widths.

Section PackLength.

Lemma drain_spec fuel acc bits :
    0 <= bits -> bits <= 8 * Z.of_nat fuel + 7 ->
    let '(bs, acc', bits') := drain fuel acc bits in
    0 <= bits' < 8 /\ bits = bits' + 8 * Z.of_nat (length bs).
  Proof.
    revert acc bits. induction fuel as [|f IH]; intros acc bits H0 H1.
    - simpl. lia.
    - cbn [drain]. destruct (Z.leb_spec 8 bits).
      + specialize (IH (Z.shiftr acc 8) (bits - 8) ltac:(lia) ltac:(lia)).
        destruct (drain f (Z.shiftr acc 8) (bits - 8)) as [[bs a'] b'].
        cbn [length]. lia.
      + cbn [length]. lia.
  Qed.

Lemma pack_loop_length bw mask vals acc bits :
    0 <= bw -> 0 <= bits < 8 ->
    bits + bw * Z.of_nat (length vals)
      <= 8 * Z.of_nat (length (pack_loop bw mask vals acc bits)).
  Proof.
    intros Hbw. revert acc bits.
    induction vals as [|x vals IH]; intros acc bits Hb.
    - cbn [pack_loop length]. destruct (Z.ltb_spec 0 bits); cbn [length]; lia.
    - cbn [pack_loop].
      pose proof (drain_spec (Z.to_nat (bits + bw))
                    (Z.lor acc (u64 (Z.shiftl (Z.land x mask) bits))) (bits + bw)
                    ltac:(lia) ltac:(lia)) as Hd.
      destruct (drain _ _ _) as [[bs a'] b'].
      destruct Hd as [Hb' Hlen].
      specialize (IH a' b' Hb').
      rewrite length_app. cbn [length]. lia.
  Qed.

Lemma refill_some fuel src acc bits bw :
    bw <= bits + 8 * Z.of_nat fuel ->
    bw <= bits + 8 * Z.of_nat (length src) ->
    exists src' acc' bits',
      refill fuel src acc bits bw = Some (src', acc', bits') /\
      bw <= bits' /\
      bits' + 8 * Z.of_nat (length src') = bits + 8 * Z.of_nat (length src).
  Proof.
    revert src acc bits. induction fuel as [|f IH]; intros src acc bits Hf Hs.
    - cbn [refill]. exists src, acc, bits. repeat split; lia.
    - cbn [refill]. destruct (Z.ltb_spec bits bw).
      + destruct src as [|b src]; [cbn [length] in Hs; lia|].
        destruct (IH src (Z.lor acc (u64 (Z.shiftl b bits))) (bits + 8))
          as (s' & a' & b' & E & H1 & H2).
        * lia.
        * cbn [length] in Hs. lia.
        * exists s', a', b'. repeat split; [exact E | lia |].
          cbn [length]. lia.
      + exists src, acc, bits. repeat split; lia.
  Qed.

Lemma unpack_loop_some cast n src acc bits bw mask :
    0 <= bw -> 0 <= bits ->
    bw * Z.of_nat n <= bits + 8 * Z.of_nat (length src) ->
    exists out, unpack_loop cast n src acc bits bw mask = Some out /\ length out = n.
  Proof.
    intros Hbw. revert src acc bits.
    induction n as [|n IH]; intros src acc bits Hb Hlen.
    - exists []. split; reflexivity.
    - cbn [unpack_loop].
      destruct (refill_some (Z.to_nat bw) src acc bits bw ltac:(lia) ltac:(nia))
        as (s' & a' & b' & E & H1 & H2).
      rewrite E.
      destruct (IH s' (Z.shiftr a' bw) (b' - bw) ltac:(lia) ltac:(nia))
        as (out & E' & Hout).
      rewrite E'. eexists. split; [reflexivity|]. cbn [length]. now rewrite Hout.
  Qed.

End PackLength.

Section BitStream.

Lemma testbit_high a k i :
    0 <= a < 2 ^ k -> 0 <= k <= i -> Z.testbit a i = false.
  Proof.
    intros Ha Hk. rewrite <- (Z.mod_small a (2 ^ k)) by lia.
    apply Z.mod_pow2_bits_high. lia.
  Qed.

Lemma lor_disjoint_add a b k :
    0 <= k -> 0 <= a < 2 ^ k -> Z.lor a (b * 2 ^ k) = a + b * 2 ^ k.
  Proof.
    intros Hk Ha. rewrite <- Z.shiftl_mul_pow2 by lia.
    assert (E : Z.land a (Z.shiftl b k) = 0).
    { apply Z.bits_inj'. intros i Hi. rewrite Z.land_spec, Z.bits_0.
      destruct (Z.ltb_spec i k).
      - rewrite Z.shiftl_spec_low by lia. apply andb_false_r.
      - rewrite (testbit_high a k i) by lia. reflexivity. }
    rewrite <- Z.lxor_lor by exact E.
    symmetry. apply Z.add_nocarry_lxor. exact E.
  Qed.

Lemma land_low_mask a k : 0 <= k -> Z.land a (2 ^ k - 1) = a mod 2 ^ k.
  Proof.
    intros Hk. replace (2 ^ k - 1) with (Z.ones k) by (rewrite Z.ones_equiv; lia).
    now apply Z.land_ones.
  Qed.

Lemma pow2_split a b : 0 <= a -> 0 <= b -> 2 ^ (a + b) = 2 ^ a * 2 ^ b.
  Proof. intros. now apply Z.pow_add_r. Qed.

Lemma le_value_cons b l :
    0 <= b < 256 -> le_value (b :: l) = b + 256 * le_value l.
  Proof.
    intros Hb. cbn [le_value]. rewrite Z.shiftl_mul_pow2 by lia.
    rewrite (lor_disjoint_add b (le_value l) 8) by lia. lia.
  Qed.

Lemma le_value_nonneg l : bytes_ok l -> 0 <= le_value l.
  Proof.
    induction 1 as [|b l Hb _ IH]; [cbn; lia|].
    rewrite le_value_cons by lia. lia.
  Qed.

Lemma le_value_app a b :
    bytes_ok a ->
    le_value (a ++ b) = le_value a + 2 ^ (8 * Z.of_nat (length a)) * le_value b.
  Proof.
    induction 1 as [|x a Hx _ IH].
    { cbn [app length le_value]. change (8 * Z.of_nat 0) with 0. rewrite Z.pow_0_r. lia. }
    cbn [app]. rewrite !le_value_cons by lia. rewrite IH.
    replace (8 * Z.of_nat (length (x :: a))) with (8 + 8 * Z.of_nat (length a))
      by (cbn [length]; lia).
    rewrite pow2_split by lia. change (2 ^ 8) with 256. ring.
  Qed.

Lemma land_255_range a : 0 <= Z.land a 255 < 256.
  Proof.
    change 255 with (2 ^ 8 - 1). rewrite land_low_mask by lia.
    apply Z.mod_pos_bound. lia.
  Qed.

  (** ** Packing *)

Lemma drain_value fuel : forall acc bits,
    0 <= bits <= 8 * Z.of_nat fuel + 7 -> 0 <= acc < 2 ^ bits ->
    let '(bs, acc', bits') := drain fuel acc bits in
    bytes_ok bs /\ 0 <= bits' < 8 /\ bits = bits' + 8 * Z.of_nat (length bs) /\
    0 <= acc' < 2 ^ bits' /\
    acc = le_value bs + 2 ^ (8 * Z.of_nat (length bs)) * acc'.
  Proof.
    induction fuel as [|f IH]; intros acc bits Hb Ha.
    - cbn [drain length le_value]. repeat split; try lia. constructor.
    - cbn [drain]. destruct (Z.leb_spec 8 bits).
      + assert (Hsh : 0 <= Z.shiftr acc 8 < 2 ^ (bits - 8)).
        { rewrite Z.shiftr_div_pow2 by lia. split; [apply Z.div_pos; lia|].
          apply Z.div_lt_upper_bound; [lia|].
          rewrite <- pow2_split by lia. replace (8 + (bits - 8)) with bits by lia. lia. }
        specialize (IH (Z.shiftr acc 8) (bits - 8) ltac:(lia) Hsh).
        destruct (drain f (Z.shiftr acc 8) (bits - 8)) as [[bs a'] b'].
        destruct IH as (Hbs & Hb' & Hlen & Ha' & Hval).
        pose proof (land_255_range acc) as Hlow.
        repeat split; try lia.
        * constructor; [lia | exact Hbs].
        * cbn [length]. lia.
        * rewrite le_value_cons by lia.
          replace (8 * Z.of_nat (length (Z.land acc 255 :: bs)))
            with (8 + 8 * Z.of_nat (length bs)) by (cbn [length]; lia).
          rewrite pow2_split by lia. change (2 ^ 8) with 256.
          assert (Hacc : acc = Z.land acc 255 + 256 * Z.shiftr acc 8).
          { change 255 with (2 ^ 8 - 1). rewrite land_low_mask by lia.
            rewrite Z.shiftr_div_pow2 by lia. change (2 ^ 8) with 256.
            pose proof (Z.div_mod acc 256 ltac:(lia)). lia. }
          rewrite Hval in Hacc. lia.
      + cbn [length le_value]. repeat split; try lia. constructor.
  Qed.

Lemma mask_of_64 bw : 0 <= bw <= 64 -> mask_of 64 bw = 2 ^ bw - 1.
  Proof.
    intros H. unfold mask_of. destruct (Z.eqb_spec bw 64) as [-> | Hne]; [reflexivity|].
    rewrite Z.shiftl_mul_pow2, Z.mul_1_l by lia.
    assert (0 < 2 ^ bw) by (apply Z.pow_pos_nonneg; lia).
    assert (2 ^ bw < 2 ^ 64) by (apply Z.pow_lt_mono_r; lia).
    rewrite (u64_small (2 ^ bw)) by lia. apply u64_small. lia.
  Qed.

Lemma mask_of_32 bw : 0 <= bw < 64 -> mask_of 32 bw = 2 ^ bw - 1.
  Proof.
    intros H. unfold mask_of. destruct (Z.eqb_spec bw 32) as [-> | Hne]; [reflexivity|].
    rewrite Z.shiftl_mul_pow2, Z.mul_1_l by lia.
    assert (0 < 2 ^ bw) by (apply Z.pow_pos_nonneg; lia).
    assert (2 ^ bw < 2 ^ 64) by (apply Z.pow_lt_mono_r; lia).
    rewrite (u64_small (2 ^ bw)) by lia. apply u64_small. lia.
  Qed.

Lemma next_phase k bw bits bits2 len :
    bits = (k * bw) mod 8 -> 0 <= bits2 < 8 -> bits + bw = bits2 + 8 * len ->
    bits2 = ((k + 1) * bw) mod 8.
  Proof.
    intros Hb H2 He.
    apply Z.mod_unique with (q := (k * bw) / 8 + len); [lia|].
    pose proof (Z.div_mod (k * bw) 8 ltac:(lia)). lia.
  Qed.

  Section Pack.

    Variables bw mask : Z.
    Hypothesis Hbw : 0 <= bw.
    Hypothesis Hmask : mask = 2 ^ bw - 1.
    Hypothesis Hfits : fits bw.

Lemma pack_loop_value vals : forall acc bits k,
      Forall (fun x => 0 <= x < 2 ^ bw) vals ->
      bits = (k * bw) mod 8 -> 0 <= acc < 2 ^ bits ->
      bytes_ok (pack_loop bw mask vals acc bits) /\
      le_value (pack_loop bw mask vals acc bits) = acc + 2 ^ bits * stream bw vals.
    Proof.
      induction vals as [|x vals IH]; intros acc bits k Hv Hph Hacc.
      - assert (Hb8 : 0 <= bits < 8) by (subst bits; apply Z.mod_pos_bound; lia).
        assert (2 ^ bits <= 2 ^ 8) by (apply Z.pow_le_mono_r; lia).
        cbn [pack_loop stream]. destruct (Z.ltb_spec 0 bits).
        + change 255 with (2 ^ 8 - 1). rewrite land_low_mask by lia.
          rewrite Z.mod_small by lia. split.
          * constructor; [change (2 ^ 8) with 256 in *; lia | constructor].
          * cbn [le_value]. rewrite Z.shiftl_0_l, Z.lor_0_r. lia.
        + assert (bits = 0) by lia. subst bits. rewrite H1 in *.
          split; [constructor|]. cbn [le_value]. change (2 ^ 0) with 1 in *. lia.
      - assert (Hb8 : 0 <= bits < 8) by (subst bits; apply Z.mod_pos_bound; lia).
        inversion Hv as [|? ? Hx Hv']; subst x0 l.
        pose proof (Hfits k) as Hfit. rewrite <- Hph in Hfit.
        cbn [pack_loop stream].
        replace (Z.land x mask) with x
          by (rewrite Hmask, land_low_mask, Z.mod_small; lia).
        rewrite Z.shiftl_mul_pow2 by lia.
        assert (Hpow : 2 ^ (bits + bw) = 2 ^ bits * 2 ^ bw) by (apply pow2_split; lia).
        assert (Hp64 : 2 ^ (bits + bw) <= 2 ^ 64) by (apply Z.pow_le_mono_r; lia).
        assert (Hpb : 0 < 2 ^ bits) by (apply Z.pow_pos_nonneg; lia).
        assert (Hxs : 0 <= x * 2 ^ bits < 2 ^ 64) by nia.
        rewrite u64_small by exact Hxs.
        rewrite lor_disjoint_add by lia.
        pose proof (drain_value (Z.to_nat (bits + bw)) (acc + x * 2 ^ bits) (bits + bw)
                      ltac:(lia) ltac:(nia)) as Hd.
        destruct (drain _ _ _) as [[bs a2] b2].
        destruct Hd as (Hbs & Hb2 & Hlen & Ha2 & Hval).
        destruct (IH a2 b2 (k + 1) Hv') as (Hok & Hle); [|exact Ha2|].
        { eapply next_phase; eauto. }
        split.
        + unfold bytes_ok in *. apply Forall_app. split; assumption.
        + rewrite le_value_app by exact Hbs. rewrite Hle.
          assert (Hpp : 2 ^ (8 * Z.of_nat (length bs)) * 2 ^ b2 = 2 ^ bits * 2 ^ bw).
          { rewrite <- pow2_split by lia. rewrite <- Hpow. f_equal. lia. }
          rewrite Z.mul_add_distr_l, Z.mul_assoc, Hpp. lia.
    Qed.

  End Pack.

  (** ** Unpacking *)

Lemma phase_shift a b : (a + 8 - b) mod 8 = (a - b) mod 8.
  Proof.
    replace (a + 8 - b) with (a - b + 1 * 8) by lia. apply Z.mod_add. lia.
  Qed.

Lemma refill_value bw fuel : forall src acc bits,
    bytes_ok src -> 0 <= bits -> 0 <= acc < 2 ^ bits ->
    bw + (bits - bw) mod 8 <= 64 ->
    bw <= bits + 8 * Z.of_nat fuel ->
    bw <= bits + 8 * Z.of_nat (length src) ->
    exists src' acc' bits',
      refill fuel src acc bits bw = Some (src', acc', bits') /\
      bytes_ok src' /\ bw <= bits' /\ 0 <= acc' < 2 ^ bits' /\
      (bits' - bw) mod 8 = (bits - bw) mod 8 /\
      bits' + 8 * Z.of_nat (length src') = bits + 8 * Z.of_nat (length src) /\
      acc' + 2 ^ bits' * le_value src' = acc + 2 ^ bits * le_value src.
  Proof.
    induction fuel as [|f IH]; intros src acc bits Hsrc Hb Hacc Hfit Hfuel Hlen.
    - cbn [refill]. exists src, acc, bits. repeat split; try lia; assumption.
    - cbn [refill]. destruct (Z.ltb_spec bits bw) as [Hlt | Hge].
      + destruct src as [|b src]; [cbn [length] in Hlen; lia|].
        inversion Hsrc as [|? ? Hbyte Hsrc']; subst.
        assert (H64 : bits + 8 <= 64).
        { pose proof (Z.mod_pos_bound (bits - bw) 8 ltac:(lia)) as Hm.
          pose proof (Z.div_mod (bits - bw) 8 ltac:(lia)) as Hdm.
          assert ((bits - bw) / 8 < 0) by (apply Z.div_lt_upper_bound; lia).
          lia. }
        assert (Hpb : 0 < 2 ^ bits) by (apply Z.pow_pos_nonneg; lia).
        assert (Hp8 : 2 ^ (bits + 8) = 2 ^ bits * 256)
          by (rewrite pow2_split by lia; reflexivity).
        assert (Hp64 : 2 ^ (bits + 8) <= 2 ^ 64) by (apply Z.pow_le_mono_r; lia).
        rewrite Z.shiftl_mul_pow2 by lia.
        rewrite u64_small by nia.
        rewrite lor_disjoint_add by lia.
        destruct (IH src (acc + b * 2 ^ bits) (bits + 8) Hsrc')
          as (s' & a' & b' & E & H1 & H2 & H3 & H4 & H5 & H6); try lia.
        * nia.
        * rewrite phase_shift. exact Hfit.
        * cbn [length] in Hlen. lia.
        * exists s', a', b'. repeat split; try assumption; try lia.
          -- rewrite H4. apply phase_shift.
          -- cbn [length]. lia.
          -- rewrite H6. rewrite le_value_cons by lia. rewrite Hp8. ring.
      + exists src, acc, bits. repeat split; try lia; assumption.
  Qed.

  Section Unpack.

    Variables bw mask : Z.
    Variable cast : Z -> Z.
    Hypothesis Hbw : 0 <= bw.
    Hypothesis Hmask : mask = 2 ^ bw - 1.
    Hypothesis Hfits : fits bw.

Lemma unpack_loop_value n : forall src acc bits k,
      bytes_ok src -> 0 <= bits -> 0 <= acc < 2 ^ bits ->
      bits mod 8 = (k * bw) mod 8 ->
      bw * Z.of_nat n <= bits + 8 * Z.of_nat (length src) ->
      unpack_loop cast n src acc bits bw mask
      = Some (map cast (digits bw n (acc + 2 ^ bits * le_value src))).
    Proof.
      induction n as [|n IH]; intros src acc bits k Hsrc Hb Hacc Hph Hlen; [reflexivity|].
      cbn [unpack_loop digits map].
      assert (Hph' : (bits - bw) mod 8 = ((k - 1) * bw) mod 8).
      { rewrite Zminus_mod, Hph, <- Zminus_mod. f_equal. ring. }
      destruct (refill_value bw (Z.to_nat bw) src acc bits Hsrc Hb Hacc)
        as (s' & a' & b' & E & H1 & H2 & H3 & H4 & H5 & H6); try lia.
      { rewrite Hph'. pose proof (Hfits (k - 1)). lia. }
      rewrite E.
      assert (Hpw : 0 < 2 ^ bw) by (apply Z.pow_pos_nonneg; lia).
      assert (Hsplit : 2 ^ b' = 2 ^ bw * 2 ^ (b' - bw)).
      { rewrite <- pow2_split by lia. f_equal. lia. }
      assert (Hpr : 0 < 2 ^ (b' - bw)) by (apply Z.pow_pos_nonneg; lia).
      set (P := acc + 2 ^ bits * le_value src) in *.
      assert (HP : P = a' + 2 ^ bw * (2 ^ (b' - bw) * le_value s')).
      { rewrite <- H6. rewrite Hsplit. ring. }
      assert (Hmod : P mod 2 ^ bw = Z.land a' mask).
      { rewrite Hmask, land_low_mask by lia. rewrite HP.
        rewrite (Z.mul_comm (2 ^ bw)). apply Z.mod_add. lia. }
      assert (Hdiv : P / 2 ^ bw = Z.shiftr a' bw + 2 ^ (b' - bw) * le_value s').
      { rewrite Z.shiftr_div_pow2 by lia. rewrite HP.
        rewrite (Z.mul_comm (2 ^ bw)). apply Z.div_add. lia. }
      rewrite (IH s' (Z.shiftr a' bw) (b' - bw) (k - 1)); try assumption; try lia.
      - rewrite Hmod, Hdiv. reflexivity.
      - rewrite Z.shiftr_div_pow2 by lia. split; [apply Z.div_pos; lia|].
        apply Z.div_lt_upper_bound; [lia|]. rewrite <- Hsplit. lia.
    Qed.

  End Unpack.

Lemma digits_stream bw vals r :
    0 <= bw -> Forall (fun x => 0 <= x < 2 ^ bw) vals ->
    digits bw (length vals) (stream bw vals + 2 ^ (bw * Z.of_nat (length vals)) * r) = vals.
  Proof.
    intros Hbw Hv. induction Hv as [|x vals Hx _ IH]; [reflexivity|].
    cbn [length digits stream].
    assert (Hpw : 0 < 2 ^ bw) by (apply Z.pow_pos_nonneg; lia).
    replace (bw * Z.of_nat (S (length vals))) with (bw + bw * Z.of_nat (length vals)) by lia.
    rewrite pow2_split by nia.
    set (q := stream bw vals + 2 ^ (bw * Z.of_nat (length vals)) * r) in *.
    replace (x + 2 ^ bw * stream bw vals + 2 ^ bw * 2 ^ (bw * Z.of_nat (length vals)) * r)
      with (x + q * 2 ^ bw) by (subst q; ring).
    rewrite Z.mod_add, Z.div_add by lia.
    rewrite Z.mod_small, Z.div_small by lia.
    cbn [Z.add]. rewrite IH. reflexivity.
  Qed.

Lemma fits_small bw : 0 <= bw <= 57 -> fits bw.
  Proof.
    intros H k. pose proof (Z.mod_pos_bound (k * bw) 8 ltac:(lia)). lia.
  Qed.

Lemma fits_58 : fits 58.
  Proof.
    intros k. pose proof (Z.mod_pos_bound (k * 58) 8 ltac:(lia)).
    pose proof (Z.div_mod (k * 58) 8 ltac:(lia)). lia.
  Qed.

Lemma fits_60 : fits 60.
  Proof.
    intros k. pose proof (Z.mod_pos_bound (k * 60) 8 ltac:(lia)).
    pose proof (Z.div_mod (k * 60) 8 ltac:(lia)). lia.
  Qed.

Lemma zero_width_vals xs :
    Forall (fun x => 0 <= x < 2 ^ 0) xs -> xs = repeat 0 (length xs).
  Proof.
    induction 1 as [|x xs Hx _ IH]; [reflexivity|].
    cbn [length repeat]. change (2 ^ 0) with 1 in Hx. f_equal; [lia | exact IH].
  Qed.

Lemma zero_width_stream xs :
    Forall (fun x => 0 <= x < 2 ^ 0) xs -> stream 0 xs = 0.
  Proof.
    induction 1 as [|x xs Hx _ IH]; [reflexivity|].
    cbn [stream]. rewrite IH. change (2 ^ 0) with 1 in *. lia.
  Qed.

  (** What a packer appends is the little-endian image of the bit
      stream of its values, and has room for all of it. *)
Lemma packed_value full bw xs :
    0 <= bw -> mask_of full bw = 2 ^ bw - 1 -> fits bw ->
    Forall (fun x => 0 <= x < 2 ^ bw) xs ->
    let out := if (bw =? 0) || (Z.of_nat (length xs) =? 0)
               then [] else pack_loop bw (mask_of full bw) xs 0 0 in
    bytes_ok out /\ le_value out = stream bw xs /\
    bw * Z.of_nat (length xs) <= 8 * Z.of_nat (length out).
  Proof.
    intros Hbw Hmask Hfits Hxs. cbv zeta.
    destruct (Z.eqb_spec bw 0) as [-> | Hnz]; cbn [orb].
    - rewrite zero_width_stream by exact Hxs. repeat split; [constructor | cbn; lia].
    - destruct (Z.eqb_spec (Z.of_nat (length xs)) 0) as [E | Hn].
      + destruct xs; [|cbn [length] in E; lia].
        repeat split; [constructor | cbn; lia].
      + destruct (pack_loop_value bw (mask_of full bw) Hbw Hmask Hfits xs 0 0 0 Hxs)
          as (Hok & Hval).
        * reflexivity.
        * cbn. lia.
        * repeat split; [exact Hok | rewrite Hval; change (2 ^ 0) with 1; lia |].
          pose proof (pack_loop_length bw (mask_of full bw) xs 0 0 Hbw ltac:(lia)). lia.
  Qed.

Lemma unpacked_value cast bw mask xs packed rest :
    0 <= bw -> mask = 2 ^ bw - 1 -> fits bw ->
    Forall (fun x => 0 <= x < 2 ^ bw) xs ->
    bytes_ok packed -> le_value packed = stream bw xs ->
    bw * Z.of_nat (length xs) <= 8 * Z.of_nat (length packed) ->
    bytes_ok rest ->
    unpack_loop cast (length xs) (packed ++ rest) 0 0 bw mask = Some (map cast xs).
  Proof.
    intros Hbw Hmask Hfits Hxs Hpk Hval Hlen Hrest.
    rewrite (unpack_loop_value bw mask cast Hbw Hmask Hfits (length xs) (packed ++ rest) 0 0 0).
    - do 2 f_equal. rewrite le_value_app by exact Hpk. rewrite Hval.
      change (2 ^ 0) with 1. rewrite Z.mul_1_l, Z.add_0_l.
      replace (8 * Z.of_nat (length packed))
        with (bw * Z.of_nat (length xs)
              + (8 * Z.of_nat (length packed) - bw * Z.of_nat (length xs))) by lia.
      rewrite pow2_split by nia. rewrite <- Z.mul_assoc.
      apply digits_stream; assumption.
    - unfold bytes_ok in *. apply Forall_app. split; assumption.
    - lia.
    - cbn. lia.
    - reflexivity.
    - rewrite length_app. lia.
  Qed.

  (** Bit-pack round trip, 64-bit values: at every width whose bits
      never leave the 64-bit accumulator, unpacking what was packed
      gives the values back, whatever bytes follow in the buffer. *)
Theorem bitpack_u64_roundtrip xs bw rest :
    0 <= bw < 64 -> fits bw ->
    Forall (fun x => 0 <= x < 2 ^ bw) xs -> bytes_ok rest ->
    bitunpack_u64 (bitpack_u64 xs bw [] ++ rest) (length xs) bw = Some xs.
  Proof.
    intros Hbw Hfits Hxs Hrest.
    pose proof (packed_value 64 bw xs ltac:(lia) (mask_of_64 bw ltac:(lia)) Hfits Hxs)
      as (Hok & Hval & Hlen).
    unfold bitunpack_u64, bitpack_u64. cbn [app].
    destruct ((bw =? 0) || (Z.of_nat (length xs) =? 0))%bool eqn:E.
    - f_equal. symmetry. apply orb_true_iff in E. destruct E as [E | E].
      + apply Z.eqb_eq in E. subst bw. now apply zero_width_vals.
      + apply Z.eqb_eq in E. destruct xs; [reflexivity | cbn [length] in E; lia].
    - destruct (Z.leb_spec 64 bw); [lia|].
      rewrite (unpacked_value (fun x => x) bw (mask_of 64 bw) xs); auto; try lia.
      + now rewrite map_id.
      + apply mask_of_64. lia.
  Qed.

  (** Bit-pack round trip, 32-bit values, at every width up to 32. *)
Theorem bitpack_u32_roundtrip xs bw rest :
    0 <= bw <= 32 ->
    Forall (fun x => 0 <= x < 2 ^ bw) xs -> bytes_ok rest ->
    bitunpack_u32 (bitpack_u32 xs bw [] ++ rest) (length xs) bw = Some xs.
  Proof.
    intros Hbw Hxs Hrest.
    assert (Hfits : fits bw) by (apply fits_small; lia).
    pose proof (packed_value 32 bw xs ltac:(lia) (mask_of_32 bw ltac:(lia)) Hfits Hxs)
      as (Hok & Hval & Hlen).
    unfold bitunpack_u32, bitpack_u32. cbn [app].
    destruct (Z.leb_spec 64 bw); [lia|].
    rewrite (unpacked_value u32 bw (mask_of 32 bw) xs); auto; try lia.
    - f_equal. rewrite <- (map_id xs) at 2. apply map_ext_in. intros x Hx.
      rewrite Forall_forall in Hxs. specialize (Hxs x Hx).
      assert (2 ^ bw <= 2 ^ 32) by (apply Z.pow_le_mono_r; lia).
      apply u32_small. lia.
    - apply mask_of_32. lia.
  Qed.

End BitStream.

Section OneBit.

Lemma low_bit_mod x : low_bit x = x mod 2.
  Proof. unfold low_bit. change 1 with (Z.ones 1). now rewrite Z.land_ones by lia. Qed.

Lemma low_bit_cases x : low_bit x = 0 \/ low_bit x = 1.
  Proof. rewrite low_bit_mod. pose proof (Z.mod_pos_bound x 2 ltac:(lia)). lia. Qed.

Ltac split_bits :=
    repeat match goal with
      | |- context [Z.land ?x 1] =>
          let E := fresh "E" in
          destruct (low_bit_cases x) as [E | E]; unfold low_bit in E; rewrite !E
      end.

Lemma full_byte_bits a0 a1 a2 a3 a4 a5 a6 a7 :
    byte_bits
      (u8 (Z.lor (Z.lor (Z.lor (Z.lor (Z.lor (Z.lor (Z.lor
              (Z.shiftl (Z.land a0 1) 0)
              (Z.shiftl (Z.land a1 1) 1))
              (Z.shiftl (Z.land a2 1) 2))
              (Z.shiftl (Z.land a3 1) 3))
              (Z.shiftl (Z.land a4 1) 4))
              (Z.shiftl (Z.land a5 1) 5))
              (Z.shiftl (Z.land a6 1) 6))
              (Z.shiftl (Z.land a7 1) 7))) 8
    = map low_bit [a0; a1; a2; a3; a4; a5; a6; a7].
  Proof.
    unfold low_bit. cbn [map].
    destruct (low_bit_cases a0) as [E0 | E0]; unfold low_bit in E0; rewrite !E0;
    destruct (low_bit_cases a1) as [E1 | E1]; unfold low_bit in E1; rewrite !E1;
    destruct (low_bit_cases a2) as [E2 | E2]; unfold low_bit in E2; rewrite !E2;
    destruct (low_bit_cases a3) as [E3 | E3]; unfold low_bit in E3; rewrite !E3;
    destruct (low_bit_cases a4) as [E4 | E4]; unfold low_bit in E4; rewrite !E4;
    destruct (low_bit_cases a5) as [E5 | E5]; unfold low_bit in E5; rewrite !E5;
    destruct (low_bit_cases a6) as [E6 | E6]; unfold low_bit in E6; rewrite !E6;
    destruct (low_bit_cases a7) as [E7 | E7]; unfold low_bit in E7; rewrite !E7;
    reflexivity.
  Qed.

Lemma tail_byte_bits l :
    (length l < 8)%nat ->
    byte_bits (pack_tail l 0 0) (length l) = map low_bit l.
  Proof.
    intros H.
    do 8 (destruct l as [|? l]; [ unfold low_bit; cbn [pack_tail length map]; split_bits; reflexivity |]).
    cbn [length] in H. lia.
  Qed.

Lemma bitunpack_u8_pack l : forall rest,
    bitunpack_u8 (bitpack_u8_bytes l ++ rest) (length l) = Some (map low_bit l).
  Proof.
    remember (length l) as k eqn:Hk. revert l Hk.
    induction k as [k IH] using lt_wf_ind. intros l Hk rest.
    destruct l as [|a0 [|a1 [|a2 [|a3 [|a4 [|a5 [|a6 [|a7 l']]]]]]]];
      try (subst k; cbn [bitpack_u8_bytes app length bitunpack_u8];
           first [ reflexivity
                 | f_equal; match goal with
                            | |- byte_bits (pack_tail ?l _ _) _ = _ =>
                                apply (tail_byte_bits l); cbn [length]; lia
                            end ]).
    subst k. cbn [bitpack_u8_bytes app length bitunpack_u8].
    rewrite (IH (length l')) by (cbn [length]; lia || reflexivity).
    rewrite full_byte_bits. reflexivity.
  Qed.

End OneBit.

Section Buffers.

Lemma length_size_bytes rows : length (size_bytes rows) = (4 * length rows)%nat.
  Proof.
    unfold size_bytes. induction rows as [|r rows IH]; [reflexivity|].
    cbn [flat_map]. rewrite length_app, length_le_bytes, IH. cbn [length]. lia.
  Qed.

Lemma store_app pre old post bs :
    length old = length bs ->
    store (pre ++ old ++ post) (length pre) bs = Some (pre ++ bs ++ post).
  Proof.
    intros Hl. unfold store.
    assert (E : (length pre + length bs <=? length (pre ++ old ++ post))%nat = true).
    { apply Nat.leb_le. rewrite !length_app. lia. }
    rewrite E. f_equal.
    rewrite firstn_app, firstn_all, Nat.sub_diag, firstn_O, app_nil_r.
    f_equal. f_equal.
    rewrite skipn_app.
    rewrite (skipn_all2 pre) by lia.
    replace (length pre + length bs - length pre)%nat with (length old) by lia.
    rewrite skipn_app, skipn_all, Nat.sub_diag. reflexivity.
  Qed.

Lemma store_length buf off bs buf' :
    store buf off bs = Some buf' ->
    (off + length bs <= length buf)%nat /\ length buf' = length buf.
  Proof.
    unfold store. destruct (Nat.leb_spec (off + length bs) (length buf)); [|discriminate].
    intros [= <-]. split; [assumption|].
    rewrite !length_app, length_firstn, length_skipn. lia.
  Qed.

Lemma store_sizes_zeros rows : forall pre post,
    store_sizes rows (pre ++ repeat 0 (4 * length rows) ++ post) (length pre)
    = Some (pre ++ size_bytes rows ++ post).
  Proof.
    induction rows as [|r rows IH]; intros pre post.
    - reflexivity.
    - cbn [store_sizes].
      replace (4 * length (r :: rows))%nat with (4 + 4 * length rows)%nat
        by (cbn [length]; lia).
      rewrite repeat_app, <- app_assoc.
      rewrite store_app by (now rewrite repeat_length, length_le_bytes).
      specialize (IH (pre ++ le_bytes 4 (size r)) post).
      rewrite length_app, length_le_bytes in IH.
      rewrite <- !app_assoc in IH. rewrite IH.
      unfold size_bytes. cbn [flat_map]. now rewrite <- !app_assoc.
  Qed.

Lemma store_sizes_length rows : forall buf at_ buf',
    store_sizes rows buf at_ = Some buf' ->
    (rows = [] \/ at_ + 4 * length rows <= length buf)%nat.
  Proof.
    induction rows as [|r rows IH]; intros buf at_ buf' H; [now left|right].
    cbn [store_sizes] in H.
    destruct (store buf at_ (le_bytes 4 (size r))) as [b1|] eqn:E; [|discriminate].
    apply store_length in E. rewrite length_le_bytes in E. destruct E as [E1 E2].
    apply IH in H. cbn [length]. destruct H as [-> | H]; cbn [length]; lia.
  Qed.

Lemma resize_extend buf k :
    resize buf (length buf + k) = buf ++ repeat 0 k.
  Proof.
    unfold resize. rewrite firstn_all2 by lia. f_equal. f_equal. lia.
  Qed.

Lemma length_resize buf k : length (resize buf k) = k.
  Proof.
    unfold resize. rewrite length_app, length_firstn, repeat_length. lia.
  Qed.

End Buffers.


Section EncodeShape.

Lemma bitpack_u64_app vals bw out :
    bitpack_u64 vals bw out = out ++ bitpack_u64 vals bw [].
  Proof.
    unfold bitpack_u64. destruct (_ || _)%bool; [now rewrite app_nil_r | reflexivity].
  Qed.

Lemma bitpack_u32_app vals bw out :
    bitpack_u32 vals bw out = out ++ bitpack_u32 vals bw [].
  Proof.
    unfold bitpack_u32. destruct (_ || _)%bool; [now rewrite app_nil_r | reflexivity].
  Qed.

Lemma length_diff (a b : list Z) :
    Z.of_nat (length (a ++ b)) - Z.of_nat (length a) = Z.of_nat (length b).
  Proof. rewrite length_app. lia. Qed.

Lemma encode_block_shape rows :
    rows <> [] -> 4 * Z.of_nat (length rows) < 2 ^ 32 ->
    encode_block rows [] = Ok (header_bytes (block_header rows) ++ block_body rows).
  Proof.
    intros Hne Hn. destruct rows as [|r0 rest]; [congruence|].
    unfold encode_block. cbv zeta.
    set (rows := r0 :: rest) in *.
    change (u32 (Z.of_nat (length (@nil Z)))) with 0.
    change (u32 (0 + HDR_SIZE)) with 76.
    change (Z.to_nat 0) with 0%nat.
    set (hole := resize [] (Z.to_nat 76)).
    rewrite (bitpack_u64_app _ _ hole).
    change (bitpack_u64 (ts_deltas (ts_ns r0) rows) (width_of (ts_deltas (ts_ns r0) rows)) [])
      with (ts_column rows).
    rewrite (bitpack_u32_app _ _ (hole ++ ts_column rows)).
    change (bitpack_u32 (px_zigzags (price r0) rows) (width_of (px_zigzags (price r0) rows)) [])
      with (px_column rows).
    rewrite !length_diff.
    fold (len32 (ts_column rows)). fold (len32 (px_column rows)).
    assert (E4 : Z.to_nat (u32 (Z.of_nat (length rows) * 4)) = (4 * length rows)%nat).
    { rewrite u32_small by lia. lia. }
    rewrite E4. rewrite resize_extend.
    pose proof (store_sizes_zeros rows ((hole ++ ts_column rows) ++ px_column rows) []) as Hs.
    rewrite app_nil_r in Hs. rewrite Hs. cbn [of_option bind].
    unfold bitpack_u8. rewrite !length_diff.
    fold (side_column rows). fold (type_column rows).
    fold (len32 (side_column rows)). fold (len32 (type_column rows)).
    match goal with
    | |- of_option (store _ 0 (header_bytes ?h)) = _ =>
        change h with (block_header rows)
    end.
    rewrite <- !app_assoc. rewrite app_nil_l.
    pose proof (store_app [] hole
                  (ts_column rows ++ px_column rows ++ size_bytes rows
                   ++ side_column rows ++ type_column rows)
                  (header_bytes (block_header rows))) as Hst.
    cbn [app length] in Hst. rewrite Hst.
    - reflexivity.
    - rewrite length_header_bytes. reflexivity.
  Qed.
End EncodeShape.

Section Columns.

Lemma fold_max_elem l : forall a x, In x l -> x <= fold_left Z.max l a.
  Proof.
    induction l as [|y l IH]; intros a x Hin; [contradiction|].
    cbn [fold_left]. destruct Hin as [-> | Hin].
    - pose proof (fold_max_ge l (Z.max a x)). lia.
    - now apply IH.
  Qed.

Lemma ceil_log2_u64_covers m :
    0 <= m < 2 ^ 32 -> m < 2 ^ ceil_log2_u64 (m + 1).
  Proof.
    intros Hm. unfold ceil_log2_u64.
    destruct (Z.leb_spec (m + 1) 1); [change (2 ^ 1) with 2; lia|].
    replace (m + 1 - 1) with m by lia.
    assert (Hl : 0 <= Z.log2 m < 32).
    { split; [apply Z.log2_nonneg|]. apply Z.log2_lt_pow2; lia. }
    unfold clzll. rewrite (u32_small (63 - Z.log2 m)) by lia.
    rewrite u32_small by lia. rewrite u64_small by lia.
    replace (64 - (63 - Z.log2 m)) with (Z.succ (Z.log2 m)) by lia.
    apply Z.log2_spec. lia.
  Qed.

Lemma width_of_covers col :
    Forall (fun x => 0 <= x < 2 ^ 32) col ->
    Forall (fun x => 0 <= x < 2 ^ width_of col) col.
  Proof.
    intros H.
    assert (H32 : Forall (fun x => x < 2 ^ 32) col)
      by (eapply Forall_impl; [|exact H]; cbv beta; intros; lia).
    pose proof (max_of_range col (2 ^ 32) ltac:(lia) H32) as Hm.
    pose proof (ceil_log2_u64_range (max_of col + 1) ltac:(lia)) as Hc.
    assert (Hw : width_of col = ceil_log2_u64 (max_of col + 1)).
    { unfold width_of. rewrite (u64_small (max_of col + 1)) by lia.
      apply u8_small. lia. }
    rewrite Hw. apply Forall_forall. intros x Hx.
    rewrite Forall_forall in H. specialize (H x Hx).
    pose proof (fold_max_elem col 0 x Hx) as Hle. fold (max_of col) in Hle.
    pose proof (ceil_log2_u64_covers (max_of col) Hm). lia.
  Qed.

Lemma ts_deltas_range b rows :
    Forall (fun x => 0 <= x < 2 ^ 32) (ts_deltas b rows).
  Proof.
    unfold ts_deltas. apply Forall_forall. intros x Hx.
    apply in_map_iff in Hx. destruct Hx as (r & <- & _). apply u32_range.
  Qed.

Lemma px_zigzags_range b rows :
    Forall (fun x => 0 <= x < 2 ^ 32) (px_zigzags b rows).
  Proof.
    unfold px_zigzags. apply Forall_forall. intros x Hx.
    apply in_map_iff in Hx. destruct Hx as (r & <- & _). apply zigzag_enc32_range.
  Qed.

Lemma bytes_ok_le_bytes k : forall v, bytes_ok (le_bytes k v).
  Proof.
    induction k as [|k IH]; intros v; cbn [le_bytes]; constructor.
    - apply land_255_range.
    - apply IH.
  Qed.

Lemma bytes_ok_app a b : bytes_ok a -> bytes_ok b -> bytes_ok (a ++ b).
  Proof. intros. unfold bytes_ok in *. apply Forall_app. now split. Qed.

Lemma bytes_ok_size_bytes rows : bytes_ok (size_bytes rows).
  Proof.
    unfold size_bytes. induction rows as [|r rows IH]; [constructor|].
    cbn [flat_map]. apply bytes_ok_app; [apply bytes_ok_le_bytes | exact IH].
  Qed.

Lemma u8_byte x : 0 <= u8 x < 256.
  Proof. unfold u8, wrap. apply Z.mod_pos_bound. lia. Qed.

Lemma pack_tail_byte src : forall bit b, 0 <= b < 256 -> 0 <= pack_tail src bit b < 256.
  Proof.
    induction src as [|x src IH]; intros bit b Hb; cbn [pack_tail]; [exact Hb|].
    apply IH. apply u8_byte.
  Qed.

Lemma bytes_ok_bitpack_u8 l : bytes_ok (bitpack_u8_bytes l).
  Proof.
    remember (length l) as k eqn:Hk. revert l Hk.
    induction k as [k IH] using lt_wf_ind. intros l Hk.
    destruct l as [|a0 [|a1 [|a2 [|a3 [|a4 [|a5 [|a6 [|a7 l']]]]]]]];
      cbn [bitpack_u8_bytes];
      try (constructor; [apply pack_tail_byte; lia | constructor]).
    - constructor.
    - constructor; [apply u8_byte|].
      apply (IH (length l')); [subst k; cbn [length]; lia | reflexivity].
  Qed.

Lemma size_words_bytes rows rest :
    Forall (fun r => is_u32 (size r)) rows ->
    size_words (length rows) (size_bytes rows ++ rest) = map size rows.
  Proof.
    induction 1 as [|r rows Hr _ IH]; [reflexivity|].
    cbn [length size_words map]. unfold size_bytes. cbn [flat_map].
    fold (size_bytes rows). rewrite <- app_assoc.
    rewrite firstn_app, length_le_bytes, Nat.sub_diag, firstn_O, app_nil_r.
    rewrite firstn_all2 by (rewrite length_le_bytes; lia).
    rewrite skipn_app, length_le_bytes, Nat.sub_diag.
    rewrite skipn_all2 by (rewrite length_le_bytes; lia).
    cbn [skipn app]. rewrite IH.
    rewrite le_value_le_bytes_small by (unfold is_u32 in Hr; cbn; lia).
    reflexivity.
  Qed.

End Columns.

Section DecodeRows.

  Variable h : BlockHeader.

  (** The guard [px < 0 || px > UINT32_MAX] of the row loop is dead:
      [px] is a 32-bit sum widened to 64 bits. *)
Lemma price_guard_dead z :
    let px := u64 (u32 (base_px h + zigzag_dec32 z)) in
    (px <? 0) || (UINT32_MAX <? px) = false.
  Proof.
    cbv zeta. pose proof (u32_range (base_px h + zigzag_dec32 z)) as Hr.
    rewrite u64_small by lia. unfold UINT32_MAX.
    apply orb_false_iff. split; apply Z.ltb_ge; lia.
  Qed.

Lemma decode_rows_never_throws rows : forall ts px sd ty p_sz e,
    decode_rows h ts px sd ty p_sz rows <> Throw e.
  Proof.
    induction rows as [|r rows IH]; intros ts px sd ty p_sz e.
    - cbn [decode_rows]. discriminate.
    - cbn [decode_rows].
      destruct ts as [|u ts]; [discriminate|].
      destruct px as [|z px]; [discriminate|].
      destruct sd as [|s sd]; [discriminate|].
      destruct ty as [|t ty]; [discriminate|].
      rewrite price_guard_dead.
      destruct (load p_sz 4) as [fsz|]; cbn [of_option bind]; [|discriminate].
      specialize (IH ts px sd ty (skipn 4 p_sz)).
      destruct (decode_rows h ts px sd ty (skipn 4 p_sz) rows) as [rs | e' | ];
        cbn [bind]; [discriminate | | discriminate].
      intros [= ->]. now apply (IH e).
  Qed.

Lemma decode_rows_ok rows : forall ts px sd ty p_sz,
    length ts = length rows -> length px = length rows ->
    length sd = length rows -> length ty = length rows ->
    (4 * length rows <= length p_sz)%nat ->
    exists rs,
      decode_rows h ts px sd ty p_sz rows = Ok rs /\
      map side rs = sd /\
      map type rs = map decoded_type ty /\
      map price rs = map price rows /\
      map ts_ns rs = map ts_ns rows /\
      map ts_ts rs = map (fun u => u64 (base_ts h + u64 (u * ts_scale_ns h))) ts /\
      map size rs = size_words (length rows) p_sz.
  Proof.
    induction rows as [|r rows IH]; intros ts px sd ty p_sz Hts Hpx Hsd Hty Hsz.
    - destruct ts; [|discriminate]. destruct sd; [|discriminate].
      destruct ty; [|discriminate].
      exists []. cbn. repeat split; reflexivity.
    - destruct ts as [|u ts]; [discriminate|].
      destruct px as [|z px]; [discriminate|].
      destruct sd as [|s sd]; [discriminate|].
      destruct ty as [|t ty]; [discriminate|].
      cbn [length] in *.
      cbn [decode_rows]. rewrite price_guard_dead.
      unfold load. destruct (Nat.leb_spec 4 (length p_sz)) as [_|]; [|lia].
      cbn [of_option bind].
      destruct (IH ts px sd ty (skipn 4 p_sz)) as (rs & E & H1 & H2 & H3 & H4 & H5 & H6);
        try lia.
      { rewrite length_skipn. lia. }
      rewrite E. cbn [bind]. eexists. split; [reflexivity|].
      cbn [map side type price ts_ns ts_ts size size_words].
      rewrite H1, H2, H3, H4, H5, H6. repeat split; reflexivity.
  Qed.

End DecodeRows.

Section NeverOverflow.

  Variable check_magic : BlockHeader -> bool.

Lemma of_option_not_throw {A} (o : option A) e : of_option o <> Throw e.
  Proof. destruct o; discriminate. Qed.

  (** C6 (the code departs from it).  [decode_block] never raises the
      price-overflow error, whatever the bytes and the rows: the sum
      [base_px + dx] is reduced modulo 2^32 before the guard sees it,
      so a reconstructed price below 0 or above 2^32 - 1 passes. *)
Theorem decode_block_never_price_overflow src src_len rows_out :
    decode_block check_magic src src_len rows_out <> Throw PriceOverflow.
  Proof.
    unfold decode_block.
    destruct (src_len <? HDR_SIZE); [discriminate|].
    destruct (read_header src) as [hdr|]; cbn [of_option bind]; [|discriminate].
    destruct (check_magic hdr); cbn [negb]; [|discriminate].
    destruct (n_rows hdr =? 0); [discriminate|].
    set (n := Z.to_nat (n_rows hdr)).
    destruct (if ts_bw hdr =? 0 then Ok (repeat 0 n)
              else of_option (bitunpack_u64 (advance src (off_ts hdr)) n (ts_bw hdr)))
      as [ts | e | ] eqn:Ets; cbn [bind].
    2: { destruct (ts_bw hdr =? 0); [discriminate|]. now apply of_option_not_throw in Ets. }
    2: discriminate.
    destruct (if px_bw hdr =? 0 then Ok (repeat 0 n)
              else of_option (bitunpack_u32 (advance src (len_px hdr)) n (px_bw hdr)))
      as [px | e | ] eqn:Epx; cbn [bind].
    2: { destruct (px_bw hdr =? 0); [discriminate|]. now apply of_option_not_throw in Epx. }
    2: discriminate.
    destruct (bitunpack_u8 (advance src (off_side hdr)) n) as [sd|];
      cbn [of_option bind]; [|discriminate].
    destruct (bitunpack_u8 (advance src (off_type hdr)) n) as [ty|];
      cbn [of_option bind]; [|discriminate].
    match goal with
    | |- bind ?d _ <> _ => destruct d as [rs | e | ] eqn:Ed
    end; cbn [bind]; [discriminate | | discriminate].
    now apply decode_rows_never_throws in Ed.
  Qed.

End NeverOverflow.

Section BlockRoundTrip.

Lemma advance_app a b off :
    off = Z.of_nat (length a) -> advance (a ++ b) off = b.
  Proof.
    intros ->. unfold advance. rewrite Nat2Z.id.
    rewrite skipn_app, skipn_all, Nat.sub_diag. reflexivity.
  Qed.

Lemma length_advance src off :
    0 <= off -> length (advance src off) = (length src - Z.to_nat off)%nat.
  Proof. intros. unfold advance. apply length_skipn. Qed.

Lemma u8_range x : 0 <= u8 x < 2 ^ 8.
  Proof. unfold u8, wrap. apply Z.mod_pos_bound. lia. Qed.

  (** A block comes out of [encode_block] only if the size column did
      fit the 32-bit length recorded for it. *)
Lemma encode_block_ok_rows rows blk :
    rows <> [] -> encode_block rows [] = Ok blk ->
    4 * Z.of_nat (length rows) < 2 ^ 32.
  Proof.
    intros Hne. destruct rows as [|r0 rest]; [congruence|].
    unfold encode_block. cbv zeta.
    set (rows := r0 :: rest) in *.
    match goal with
    | |- bind (of_option (store_sizes rows (resize ?b (length ?b' + ?k)) _)) _ = _ -> _ =>
        destruct (store_sizes rows (resize b (length b' + k)) (length b')) as [o5|] eqn:E;
        set (buf := b) in *; set (kk := k) in *
    end; cbn [of_option bind]; [intros _ | discriminate].
    apply store_sizes_length in E. destruct E as [E | E]; [discriminate E|].
    rewrite length_resize in E.
    pose proof (u32_range (Z.of_nat (length rows) * 4)) as Hr.
    subst kk. lia.
  Qed.

Lemma block_header_ok rows :
    rows <> [] -> Forall row_ok rows ->
    Z.of_nat (length rows) < 2 ^ 32 ->
    header_ok (block_header rows).
  Proof.
    intros Hne Hok Hn. destruct rows as [|r0 rest]; [congruence|].
    inversion Hok as [|? ? Hr0 _]; subst.
    destruct Hr0 as (Hts & _ & Hpx & _).
    unfold header_ok, block_header, len32.
    cbn [hd magic version flags n_rows base_ts base_px ts_scale_ns ts_bw px_bw reserved0
         off_ts len_ts off_px len_px off_sz len_sz off_side len_side off_type len_type].
    unfold is_u64, is_u32 in *. unfold width_of, TS_SCALE_NS, HDR_SIZE.
    repeat split; try apply u32_range; try apply u8_range; try lia;
      try (rewrite repeat_length; reflexivity).
  Qed.

Lemma map_eq_Forall {A B} (f g : A -> B) l :
    map f l = map g l <-> Forall (fun x => f x = g x) l.
  Proof.
    induction l as [|x l IH]; cbn [map].
    - split; constructor.
    - split.
      + intros [= H1 H2]. constructor; [assumption | now apply IH].
      + intros H. inversion H; subst. f_equal; [assumption | now apply IH].
  Qed.

Lemma bitpack_u64_length vals bw :
    0 <= bw ->
    bw * Z.of_nat (length vals) <= 8 * Z.of_nat (length (bitpack_u64 vals bw [])).
  Proof.
    intros Hbw. unfold bitpack_u64.
    destruct (Z.eqb_spec bw 0) as [-> | Hnz]; cbn [orb]; [cbn [length]; lia|].
    destruct (Z.eqb_spec (Z.of_nat (length vals)) 0) as [E | _]; [rewrite E; cbn [length]; lia|].
    cbn [app]. pose proof (pack_loop_length bw (mask_of 64 bw) vals 0 0 Hbw ltac:(lia)). lia.
  Qed.

Lemma bitpack_u32_length vals bw :
    0 <= bw ->
    bw * Z.of_nat (length vals) <= 8 * Z.of_nat (length (bitpack_u32 vals bw [])).
  Proof.
    intros Hbw. unfold bitpack_u32.
    destruct (Z.eqb_spec bw 0) as [-> | Hnz]; cbn [orb]; [cbn [length]; lia|].
    destruct (Z.eqb_spec (Z.of_nat (length vals)) 0) as [E | _]; [rewrite E; cbn [length]; lia|].
    cbn [app]. pose proof (pack_loop_length bw (mask_of 32 bw) vals 0 0 Hbw ltac:(lia)). lia.
  Qed.

Lemma bitunpack_u64_some src n bw :
    0 <= bw < 64 -> bw * Z.of_nat n <= 8 * Z.of_nat (length src) ->
    exists out, bitunpack_u64 src n bw = Some out /\ length out = n.
  Proof.
    intros Hbw Hlen. unfold bitunpack_u64.
    destruct ((bw =? 0) || (Z.of_nat n =? 0))%bool.
    - eexists. split; [reflexivity | apply repeat_length].
    - destruct (Z.leb_spec 64 bw); [lia|].
      apply unpack_loop_some; lia.
  Qed.

Lemma bitunpack_u32_some src n bw :
    0 <= bw < 64 -> bw * Z.of_nat n <= 8 * Z.of_nat (length src) ->
    exists out, bitunpack_u32 src n bw = Some out /\ length out = n.
  Proof.
    intros Hbw Hlen. unfold bitunpack_u32.
    destruct (Z.leb_spec 64 bw); [lia|].
    apply unpack_loop_some; lia.
  Qed.

Lemma type_bits_decoded rows :
    map decoded_type (map low_bit (type_bits rows))
    = map (fun r => if Ascii.eqb (type r) T_char then T_char else L_char) rows.
  Proof.
    unfold type_bits. rewrite !map_map. apply map_ext. intros r.
    destruct (Ascii.eqb (type r) T_char); reflexivity.
  Qed.

Lemma Ok_inj {A} (a b : A) : Ok a = Ok b -> a = b.
  Proof. intros H. now inversion H. Qed.

  Variable check_magic : BlockHeader -> bool.

  (** What [decode_block] makes of a block that [encode_block] wrote,
      member by member.  [price] and [ts_ns] are never assigned by the
      row loop: they keep what [rows_out] held after its [resize]. *)
Lemma decode_encode_block rows blk rows_out :
    rows <> [] ->
    Forall row_ok rows ->
    encode_block rows [] = Ok blk ->
    Z.of_nat (length blk) < 2 ^ 32 ->
    (forall h, read_header blk = Some h -> check_magic h = true) ->
    exists rows',
      decode_block check_magic blk (Z.of_nat (length blk)) rows_out
        = Ok (Z.of_nat (length blk), rows') /\
      map side rows' = map low_bit (side_bytes rows) /\
      map type rows' = map decoded_type (map low_bit (type_bits rows)) /\
      map price rows' = map price (resize_rows (length rows) rows_out) /\
      map ts_ns rows' = map ts_ns (resize_rows (length rows) rows_out) /\
      map ts_ts rows'
        = map (fun u => u64 (ts_ns (hd zero_row rows) + u64 (u * TS_SCALE_NS)))
              (ts_deltas (ts_ns (hd zero_row rows)) rows) /\
      map size rows' = map size rows.
  Proof.
    intros Hne Hok Henc Hlen Hmagic.
    pose proof (encode_block_ok_rows rows blk Hne Henc) as Hn4.
    rewrite (encode_block_shape rows Hne Hn4) in Henc.
    apply Ok_inj in Henc. subst blk.
    set (hdr := block_header rows) in *.
    set (n := length rows) in *.
    assert (Hn0 : (0 < n)%nat).
    { subst n. destruct rows; [congruence | cbn [length]; lia]. }
    (* lengths of the parts *)
    rewrite length_app, length_header_bytes in Hlen.
    unfold block_body in Hlen. rewrite !length_app, length_size_bytes in Hlen.
    fold n in Hlen.
    set (TS := ts_column rows) in *. set (PX := px_column rows) in *.
    set (SD := side_column rows) in *. set (TY := type_column rows) in *.
    assert (Hhok : header_ok hdr) by (apply block_header_ok; auto; lia).
    assert (Hrd : read_header (header_bytes hdr ++ block_body rows) = Some hdr)
      by (now apply read_header_bytes).
    specialize (Hmagic hdr Hrd).
    (* offsets *)
    assert (Lts : len_ts hdr = Z.of_nat (length TS))
      by (change (len_ts hdr) with (len32 TS); unfold len32; apply u32_small; lia).
    assert (Lpx : len_px hdr = Z.of_nat (length PX))
      by (change (len_px hdr) with (len32 PX); unfold len32; apply u32_small; lia).
    assert (Lsd : len_side hdr = Z.of_nat (length SD))
      by (change (len_side hdr) with (len32 SD); unfold len32; apply u32_small; lia).
    assert (Lty : len_type hdr = Z.of_nat (length TY))
      by (change (len_type hdr) with (len32 TY); unfold len32; apply u32_small; lia).
    assert (Lsz : len_sz hdr = 4 * Z.of_nat n)
      by (change (len_sz hdr) with (u32 (Z.of_nat n * 4)); rewrite u32_small; lia).
    assert (Ots : off_ts hdr = 76) by reflexivity.
    assert (Opx : off_px hdr = 76 + Z.of_nat (length TS)).
    { change (off_px hdr) with (u32 (off_ts hdr + len_ts hdr)).
      rewrite Ots, Lts. apply u32_small. lia. }
    assert (Osz : off_sz hdr = 76 + Z.of_nat (length TS) + Z.of_nat (length PX)).
    { change (off_sz hdr) with (u32 (off_px hdr + len_px hdr)).
      rewrite Opx, Lpx. apply u32_small. lia. }
    assert (Osd : off_side hdr
                  = 76 + Z.of_nat (length TS) + Z.of_nat (length PX) + 4 * Z.of_nat n).
    { change (off_side hdr) with (u32 (off_sz hdr + len_sz hdr)).
      rewrite Osz, Lsz. apply u32_small. lia. }
    assert (Oty : off_type hdr
                  = 76 + Z.of_nat (length TS) + Z.of_nat (length PX) + 4 * Z.of_nat n
                    + Z.of_nat (length SD)).
    { change (off_type hdr) with (u32 (off_side hdr + len_side hdr)).
      rewrite Osd, Lsd. apply u32_small. lia. }

    set (src := header_bytes hdr ++ block_body rows) in *.
    assert (Hsrc : Z.of_nat (length src)
                   = 76 + Z.of_nat (length TS) + Z.of_nat (length PX) + 4 * Z.of_nat n
                     + Z.of_nat (length SD) + Z.of_nat (length TY)).
    { subst src. rewrite length_app, length_header_bytes. unfold block_body.
      rewrite !length_app, length_size_bytes. fold TS PX SD TY n. lia. }
    assert (Wts : 1 <= ts_bw hdr <= 32) by (apply width_of_range, ts_deltas_u32).
    assert (Wpx : 1 <= px_bw hdr <= 32) by (apply width_of_range, px_zigzags_u32).
    assert (Hrows : n_rows hdr = Z.of_nat n) by reflexivity.
    assert (Bpx : bytes_ok PX /\ 8 * Z.of_nat (length PX) >= px_bw hdr * Z.of_nat n).
    { pose proof (packed_value 32 (px_bw hdr) (px_zigzags (price (hd zero_row rows)) rows)
                    ltac:(lia) (mask_of_32 (px_bw hdr) ltac:(lia))
                    (fits_small (px_bw hdr) ltac:(lia))
                    (width_of_covers _ (px_zigzags_range _ _))) as (H1 & _ & H3).
      change (bytes_ok PX) in H1.
      change (px_bw hdr * Z.of_nat (length (px_zigzags (price (hd zero_row rows)) rows))
              <= 8 * Z.of_nat (length PX)) in H3.
      unfold px_zigzags in H3. rewrite length_map in H3. fold n in H3.
      split; [exact H1 | lia]. }
    destruct Bpx as (Bpx & Hpxlen).
    (* the timestamp column *)
    assert (Ets : bitunpack_u64 (advance src (off_ts hdr)) n (ts_bw hdr)
                  = Some (ts_deltas (ts_ns (hd zero_row rows)) rows)).
    { subst src. rewrite (advance_app (header_bytes hdr) (block_body rows))
        by (rewrite length_header_bytes; exact Ots).
      unfold block_body. fold TS PX SD TY.
      replace n with (length (ts_deltas (ts_ns (hd zero_row rows)) rows))
        by (unfold ts_deltas; apply length_map).
      apply bitpack_u64_roundtrip.
      - lia.
      - apply fits_small. lia.
      - apply width_of_covers, ts_deltas_range.
      - repeat apply bytes_ok_app; try assumption;
          [apply bytes_ok_size_bytes | apply bytes_ok_bitpack_u8 | apply bytes_ok_bitpack_u8]. }
    (* the price column, read at [len_px] *)
    assert (Epx : exists px, bitunpack_u32 (advance src (len_px hdr)) n (px_bw hdr) = Some px
                             /\ length px = n).
    { apply bitunpack_u32_some; [lia|].
      rewrite length_advance by lia. rewrite Lpx, Nat2Z.id. nia. }
    destruct Epx as (px & Epx & Hlpx).
    (* the side and type columns *)
    assert (Esd : bitunpack_u8 (advance src (off_side hdr)) n
                  = Some (map low_bit (side_bytes rows))).
    { subst src. unfold block_body. fold TS PX SD TY.
      replace (header_bytes hdr ++ TS ++ PX ++ size_bytes rows ++ SD ++ TY)
        with ((header_bytes hdr ++ TS ++ PX ++ size_bytes rows) ++ SD ++ TY)
        by (now rewrite <- !app_assoc).
      rewrite advance_app
        by (rewrite !length_app, length_header_bytes, length_size_bytes; fold n; lia).
      replace n with (length (side_bytes rows)) by (unfold side_bytes; apply length_map).
      apply bitunpack_u8_pack. }
    assert (Ety : bitunpack_u8 (advance src (off_type hdr)) n
                  = Some (map low_bit (type_bits rows))).
    { subst src. unfold block_body. fold TS PX SD TY.
      replace (header_bytes hdr ++ TS ++ PX ++ size_bytes rows ++ SD ++ TY)
        with ((header_bytes hdr ++ TS ++ PX ++ size_bytes rows ++ SD) ++ TY ++ [])
        by (now rewrite <- !app_assoc, app_nil_r).
      rewrite advance_app
        by (rewrite !length_app, length_header_bytes, length_size_bytes; fold n; lia).
      replace n with (length (type_bits rows)) by (unfold type_bits; apply length_map).
      apply bitunpack_u8_pack. }
    (* the row loop *)
    set (rows1 := resize_rows n rows_out).
    assert (Hl1 : length rows1 = n).
    { subst rows1. unfold resize_rows. rewrite length_app, length_firstn, repeat_length. lia. }
    destruct (decode_rows_ok hdr rows1 (ts_deltas (ts_ns (hd zero_row rows)) rows) px
                (map low_bit (side_bytes rows)) (map low_bit (type_bits rows))
                (advance src (off_sz hdr)))
      as (rs & Ers & Hside & Htype & Hprice & Htsns & Htsts & Hsize); try congruence.
    { unfold ts_deltas. rewrite length_map, Hl1. reflexivity. }
    { rewrite length_map. unfold side_bytes. rewrite length_map, Hl1. reflexivity. }
    { rewrite length_map. unfold type_bits. rewrite length_map, Hl1. reflexivity. }
    { rewrite length_advance by lia. rewrite Hl1. lia. }
    exists rs. repeat split; try assumption.
    - unfold decode_block.
      destruct (Z.ltb_spec (Z.of_nat (length src)) HDR_SIZE) as [Hlt | _];
        [unfold HDR_SIZE in Hlt; lia|].
      rewrite Hrd. cbn [of_option bind]. rewrite Hmagic. cbn [negb].
      rewrite Hrows. destruct (Z.eqb_spec (Z.of_nat n) 0) as [|_]; [lia|].
      rewrite Nat2Z.id. fold rows1.
      destruct (Z.eqb_spec (ts_bw hdr) 0) as [|_]; [lia|].
      destruct (Z.eqb_spec (px_bw hdr) 0) as [|_]; [lia|].
      rewrite Ets, Epx, Esd, Ety. cbn [of_option bind].
      rewrite Ers. cbn [bind]. do 2 f_equal.
      unfold end_off. rewrite Ots, Lts, Opx, Lpx, Osz, Lsz, Osd, Lsd, Oty, Lty.
      rewrite !u32_small by lia. unfold HDR_SIZE. lia.
    - rewrite Hsize, Hl1. subst src. unfold block_body. fold TS PX SD TY.
      replace (header_bytes hdr ++ TS ++ PX ++ size_bytes rows ++ SD ++ TY)
        with ((header_bytes hdr ++ TS ++ PX) ++ size_bytes rows ++ SD ++ TY)
        by (now rewrite <- !app_assoc).
      rewrite advance_app
        by (rewrite !length_app, length_header_bytes; lia).
      apply size_words_bytes.
      eapply Forall_impl; [|exact Hok]. intros r Hr. apply Hr.
  Qed.

  (** C10, for blocks shorter than [2^32] bytes.  For non-empty rows
      whose fields fit their C++ types, encoded into a block of fewer
      than [2^32] bytes that [decode_block] accepts, decoding returns
      the whole block; each decoded side is the input side modulo 2,
      each decoded type is ['T'] exactly for an input ['T'] and ['L']
      otherwise, and the sides come back unchanged exactly when every
      input side is 0 or 1.  (From [2^32] bytes on the 32-bit header
      offsets wrap and the sides no longer come back.) *)
Theorem side_type_roundtrip rows blk rows_out :
    rows <> [] ->
    Forall row_ok rows ->
    encode_block rows [] = Ok blk ->
    Z.of_nat (length blk) < 2 ^ 32 ->
    (forall h, read_header blk = Some h -> check_magic h = true) ->
    exists rows',
      decode_block check_magic blk (Z.of_nat (length blk)) rows_out
        = Ok (Z.of_nat (length blk), rows') /\
      map side rows' = map (fun r => side r mod 2) rows /\
      map type rows'
        = map (fun r => if Ascii.eqb (type r) T_char then T_char else L_char) rows /\
      (map side rows' = map side rows
         <-> Forall (fun r => side r = 0 \/ side r = 1) rows).
  Proof.
    intros Hne Hok Henc Hlen Hmagic.
    destruct (decode_encode_block rows blk rows_out Hne Hok Henc Hlen Hmagic)
      as (rs & Hdec & Hside & Htype & _).
    exists rs. split; [exact Hdec | split; [| split]].
    - rewrite Hside. unfold side_bytes. rewrite map_map.
      apply map_ext. intros r. apply low_bit_mod.
    - rewrite Htype. apply type_bits_decoded.
    - rewrite Hside. unfold side_bytes. rewrite map_map.
      rewrite map_eq_Forall. split; intros HF; eapply Forall_impl; try exact HF;
        cbv beta; intros r; rewrite low_bit_mod;
        pose proof (Z.mod_pos_bound (side r) 2 ltac:(lia)); intros Hr.
      + lia.
      + destruct Hr as [-> | ->]; reflexivity.
  Qed.

  (** C1 (the code departs from it).  [decode_block] never assigns
      [price] (nor [ts_ns]): after a round trip into an empty
      [rows_out] every decoded price and [ts_ns] is 0, whatever the
      input rows held. *)
Theorem decode_block_leaves_price_unset rows blk :
    rows <> [] ->
    Forall row_ok rows ->
    encode_block rows [] = Ok blk ->
    Z.of_nat (length blk) < 2 ^ 32 ->
    (forall h, read_header blk = Some h -> check_magic h = true) ->
    exists rows',
      decode_block check_magic blk (Z.of_nat (length blk)) []
        = Ok (Z.of_nat (length blk), rows') /\
      map price rows' = map (fun _ => 0) rows /\
      map ts_ns rows' = map (fun _ => 0) rows.
  Proof.
    intros Hne Hok Henc Hlen Hmagic.
    destruct (decode_encode_block rows blk [] Hne Hok Henc Hlen Hmagic)
      as (rs & Hdec & _ & _ & Hprice & Htsns & _).
    exists rs. split; [exact Hdec|].
    assert (E : resize_rows (length rows) [] = map (fun _ => zero_row) rows).
    { unfold resize_rows. rewrite firstn_nil. cbn [app length].
      rewrite Nat.sub_0_r. clear. induction rows as [|r rows IH]; [reflexivity|].
      cbn [length repeat map]. now rewrite IH. }
    rewrite E, map_map in Hprice, Htsns. split; assumption.
  Qed.

  (** The part of the round trip that holds, for non-empty rows that
      fit their C++ types and a block shorter than [2^32] bytes that
      [check_magic] accepts: decoding returns the whole block, sizes
      come back bit for bit, and the quantized time stamp lands in
      [ts_ts]. *)
Theorem decode_block_restores_size_and_time rows blk rows_out :
    rows <> [] ->
    Forall row_ok rows ->
    encode_block rows [] = Ok blk ->
    Z.of_nat (length blk) < 2 ^ 32 ->
    (forall h, read_header blk = Some h -> check_magic h = true) ->
    exists rows',
      decode_block check_magic blk (Z.of_nat (length blk)) rows_out
        = Ok (Z.of_nat (length blk), rows') /\
      map size rows' = map size rows /\
      map ts_ts rows'
        = map (fun r =>
                 let b := ts_ns (hd zero_row rows) in
                 u64 (b + u64 (u32 (u64 (ts_ns r - b) / TS_SCALE_NS) * TS_SCALE_NS)))
              rows.
  Proof.
    intros Hne Hok Henc Hlen Hmagic.
    destruct (decode_encode_block rows blk rows_out Hne Hok Henc Hlen Hmagic)
      as (rs & Hdec & _ & _ & _ & _ & Htsts & Hsize).
    exists rs. repeat split; try assumption.
    rewrite Htsts. unfold ts_deltas. rewrite map_map. reflexivity.
  Qed.

End BlockRoundTrip.

Section Quantization.

  (** A time stamp at or after the base, less than 2^32 ms after it,
      is rounded down to the millisecond grid of the base. *)
Lemma quantized_ts b t :
    is_u64 b -> is_u64 t -> b <= t -> t - b < 2 ^ 32 * TS_SCALE_NS ->
    u64 (b + u64 (u32 (u64 (t - b) / TS_SCALE_NS) * TS_SCALE_NS))
    = t - (t - b) mod TS_SCALE_NS.
  Proof.
    unfold is_u64, TS_SCALE_NS. intros Hb Ht Hle Hd.
    rewrite (u64_small (t - b)) by lia.
    pose proof (Z.div_mod (t - b) 1000000 ltac:(lia)) as Hdm.
    pose proof (Z.mod_pos_bound (t - b) 1000000 ltac:(lia)) as Hm.
    assert (Hq : 0 <= (t - b) / 1000000 < 2 ^ 32).
    { split; [apply Z.div_pos; lia|]. apply Z.div_lt_upper_bound; lia. }
    rewrite u32_small by lia.
    rewrite (u64_small ((t - b) / 1000000 * 1000000)) by lia.
    rewrite u64_small by lia. lia.
  Qed.

End Quantization.

Section Samples.

Lemma sample_rows_ok : Forall row_ok sample_rows.
  Proof.
    repeat constructor; unfold is_u64, is_u32, is_u8; cbn; lia.
  Qed.

  (** On the sample block the price column sits at byte 77
      ([off_px]); [decode_block] unpacks from byte 1 ([len_px]), inside
      the header, and gets other deltas than the ones encoded. *)
Example decode_reads_price_at_len_px :
    exists h,
      read_header sample_block = Some h /\
      off_px h = 77 /\ len_px h = 1 /\
      bitunpack_u32 (advance sample_block (off_px h)) 2 (px_bw h)
        = Some (px_zigzags (base_px h) sample_rows) /\
      bitunpack_u32 (advance sample_block (len_px h)) 2 (px_bw h) = Some [0; 0] /\
      px_zigzags (base_px h) sample_rows = [0; 6].
  Proof. eexists. repeat split; vm_compute; reflexivity. Qed.

  (** C1 at a concrete input: whatever [check_magic] accepts, the
      sample rows do not come back with their prices. *)
Example sample_block_roundtrip_fails (cm : BlockHeader -> bool) :
    encode_block sample_rows [] = Ok sample_block /\
    forall k rows',
      decode_block cm sample_block (Z.of_nat (length sample_block)) [] = Ok (k, rows') ->
      map price rows' = [0; 0] /\ map price rows' <> map price sample_rows.
  Proof.
    split; [reflexivity|]. intros k rows'. unfold decode_block.
    change (Z.of_nat (length sample_block) <? HDR_SIZE) with false. cbv iota.
    destruct (read_header sample_block) as [h|] eqn:Eh; [|discriminate].
    vm_compute in Eh. injection Eh as <-.
    cbn [of_option bind]. destruct (cm _); cbn [negb]; [|discriminate].
    vm_compute. intros [= _ <-]. split; [reflexivity | discriminate].
  Qed.

  (** C6 at a concrete input: the price column of [underflow_block]
      holds the delta -1 over [base_px = 0], the reconstructed price
      is -1, and [decode_block] returns normally. *)
Example underflow_block_is_accepted :
    read_header underflow_block = Some underflow_header /\
    bitunpack_u32 (advance underflow_block (off_px underflow_header)) 1
                  (px_bw underflow_header) = Some [1] /\
    reconstructed_price underflow_header 1 = -1 /\
    exists rows',
      decode_block (fun _ => true) underflow_block
                   (Z.of_nat (length underflow_block)) [] = Ok (160, rows').
  Proof. repeat split; try reflexivity. eexists. vm_compute. reflexivity. Qed.

  (** C7 at a concrete input: two 63-bit values, width 63.  The second
      value loses its six top bits in the 64-bit accumulator. *)
Example bitpack_u64_width_63_loses_bits :
    let xs := [2 ^ 63 - 1; 2 ^ 63 - 1] in
    Forall (fun x => 0 <= x < 2 ^ 63) xs /\
    bitunpack_u64 (bitpack_u64 xs 63 []) (length xs) 63
      = Some [2 ^ 63 - 1; 2 ^ 57 - 1] /\
    bitunpack_u64 (bitpack_u64 xs 63 []) (length xs) 63 <> Some xs.
  Proof.
    cbv zeta. split; [repeat constructor; cbn; lia|].
    split; [vm_compute; reflexivity | vm_compute; discriminate].
  Qed.

  (** The other widths that overflow the accumulator, and width 64,
      where [bitunpack_u64] shifts by the full word. *)
Example bitpack_u64_unsafe_widths :
    bitunpack_u64 (bitpack_u64 [2 ^ 59 - 1; 2 ^ 59 - 1; 2 ^ 59 - 1] 59 []) 3 59
      <> Some [2 ^ 59 - 1; 2 ^ 59 - 1; 2 ^ 59 - 1] /\
    bitunpack_u64 (bitpack_u64 [2 ^ 61 - 1; 2 ^ 61 - 1] 61 []) 2 61
      <> Some [2 ^ 61 - 1; 2 ^ 61 - 1] /\
    bitunpack_u64 (bitpack_u64 [2 ^ 62 - 1; 2 ^ 62 - 1] 62 []) 2 62
      <> Some [2 ^ 62 - 1; 2 ^ 62 - 1] /\
    bitunpack_u64 (bitpack_u64 [1; 2] 64 []) 2 64 = None.
  Proof. repeat split; vm_compute; discriminate || reflexivity. Qed.

End Samples.

Lemma side_type_roundtrip_witness :
  exists rows',
    decode_block (fun _ => true) odd_block (Z.of_nat (length odd_block)) []
      = Ok (Z.of_nat (length odd_block), rows') /\
    map side rows' = map (fun r => side r mod 2) odd_rows /\
    map type rows'
      = map (fun r => if Ascii.eqb (type r) T_char then T_char else L_char) odd_rows /\
    (map side rows' = map side odd_rows
       <-> Forall (fun r => side r = 0 \/ side r = 1) odd_rows).
Proof.
  apply (side_type_roundtrip (fun _ => true) odd_rows odd_block []).
  - discriminate.
  - repeat constructor; unfold is_u64, is_u32, is_u8; cbn; lia.
  - reflexivity.
  - vm_compute. reflexivity.
  - intros h _. reflexivity.
Defined.

Lemma decode_block_leaves_price_unset_witness :
  exists rows',
    decode_block (fun _ => true) sample_block (Z.of_nat (length sample_block)) []
      = Ok (Z.of_nat (length sample_block), rows') /\
    map price rows' = map (fun _ => 0) sample_rows /\
    map ts_ns rows' = map (fun _ => 0) sample_rows.
Proof.
  apply (decode_block_leaves_price_unset (fun _ => true) sample_rows sample_block).
  - discriminate.
  - repeat constructor; unfold is_u64, is_u32, is_u8; cbn; lia.
  - reflexivity.
  - vm_compute. reflexivity.
  - intros h _. reflexivity.
Defined.

Lemma decode_block_restores_size_and_time_witness :
  exists rows',
    decode_block (fun _ => true) sample_block (Z.of_nat (length sample_block)) []
      = Ok (Z.of_nat (length sample_block), rows') /\
    map size rows' = map size sample_rows /\
    map ts_ts rows'
      = map (fun r =>
               let b := ts_ns (hd zero_row sample_rows) in
               u64 (b + u64 (u32 (u64 (ts_ns r - b) / TS_SCALE_NS) * TS_SCALE_NS)))
            sample_rows.
Proof.
  apply (decode_block_restores_size_and_time (fun _ => true) sample_rows sample_block []).
  - discriminate.
  - repeat constructor; unfold is_u64, is_u32, is_u8; cbn; lia.
  - reflexivity.
  - vm_compute. reflexivity.
  - intros h _. reflexivity.
Defined.

Lemma bitpack_u64_roundtrip_witness :
  bitunpack_u64 (bitpack_u64 [5; 3; 7; 1] 3 [] ++ [255]) 4 3 = Some [5; 3; 7; 1].
Proof.
  apply (bitpack_u64_roundtrip [5; 3; 7; 1] 3 [255]).
  - lia.
  - apply fits_small. lia.
  - repeat constructor; cbn; lia.
  - repeat constructor; lia.
Defined.

Lemma bitpack_u32_roundtrip_witness :
  bitunpack_u32 (bitpack_u32 [4294967295; 5] 32 [] ++ [7]) 2 32 = Some [4294967295; 5].
Proof.
  apply (bitpack_u32_roundtrip [4294967295; 5] 32 [7]).
  - lia.
  - repeat constructor; cbn; lia.
  - repeat constructor; lia.
Defined.

Lemma quantized_ts_witness :
  u64 (1000000000 + u64 (u32 (u64 (1005000123 - 1000000000) / TS_SCALE_NS) * TS_SCALE_NS))
  = 1005000123 - (1005000123 - 1000000000) mod TS_SCALE_NS.
Proof.
  apply (quantized_ts 1000000000 1005000123); unfold is_u64, TS_SCALE_NS; lia.
Defined.

(* ================================================================== *)
(** * More on the block codec *)
(* ================================================================== *)

Section PackedSizes.

  (** The bytes [drain] emits and the bits it leaves. *)
Lemma drain_count fuel acc bits :
    0 <= bits -> bits <= 8 * Z.of_nat fuel + 7 ->
    Z.of_nat (length (fst (fst (drain fuel acc bits)))) = bits / 8 /\
    snd (drain fuel acc bits) = bits mod 8.
  Proof.
    intros H0 H1. pose proof (drain_spec fuel acc bits H0 H1) as H.
    destruct (drain fuel acc bits) as [[bs a'] b']. cbn [fst snd].
    destruct H as [Hb Hl]. split.
    - apply (Z.div_unique bits 8 _ b'); lia.
    - apply (Z.mod_unique bits 8 (Z.of_nat (length bs)) b'); lia.
  Qed.

Lemma pack_loop_count bw mask vals : forall acc bits,
    0 <= bw -> 0 <= bits < 8 ->
    Z.of_nat (length (pack_loop bw mask vals acc bits))
    = (bits + bw * Z.of_nat (length vals) + 7) / 8.
  Proof.
    induction vals as [|x vals IH]; intros acc bits Hbw Hb.
    - cbn [pack_loop length]. rewrite Z.mul_0_r, Z.add_0_r.
      destruct (Z.ltb_spec 0 bits); cbn [length].
      + apply (Z.div_unique _ 8 1 (bits - 1)); lia.
      + apply (Z.div_unique _ 8 0 7); lia.
    - cbn [pack_loop].
      pose proof (drain_count (Z.to_nat (bits + bw))
                    (Z.lor acc (u64 (Z.shiftl (Z.land x mask) bits))) (bits + bw)
                    ltac:(lia) ltac:(lia)) as [Hn Hr].
      destruct (drain _ _ _) as [[bs a'] b']. cbn [fst snd] in Hn, Hr.
      rewrite length_app, Nat2Z.inj_add, Hn, IH; try lia.
      2: { rewrite Hr. apply Z.mod_pos_bound. lia. }
      rewrite Hr. cbn [length]. rewrite Nat2Z.inj_succ.
      pose proof (Z.div_mod (bits + bw) 8 ltac:(lia)) as Hdm.
      set (q := (bits + bw) / 8) in *. set (r := (bits + bw) mod 8) in *.
      replace (bits + bw * Z.succ (Z.of_nat (length vals)) + 7)
        with (r + bw * Z.of_nat (length vals) + 7 + q * 8) by lia.
      rewrite Z.div_add by lia. lia.
  Qed.

Lemma packed_bytes_count vals bw out :
    0 <= bw ->
    let n := Z.of_nat (length vals) in
    Z.of_nat (length (bitpack_u64 vals bw out))
      = Z.of_nat (length out) + (bw * n + 7) / 8 /\
    Z.of_nat (length (bitpack_u32 vals bw out))
      = Z.of_nat (length out) + (bw * n + 7) / 8.
  Proof.
    intros Hbw n. unfold bitpack_u64, bitpack_u32.
    destruct (Z.eqb_spec bw 0) as [-> | Hnz]; cbn [orb].
    { rewrite Z.mul_0_l. change ((0 + 7) / 8) with 0. lia. }
    destruct (Z.eqb_spec (Z.of_nat (length vals)) 0) as [E | _].
    { subst n. rewrite E, Z.mul_0_r. change ((0 + 7) / 8) with 0. lia. }
    rewrite !length_app, !Nat2Z.inj_add, !pack_loop_count by lia.
    subst n. rewrite Z.add_0_l. lia.
  Qed.


Lemma bitpack_u8_bytes_count : forall k l,
    (length l <= k)%nat ->
    Z.of_nat (length (bitpack_u8_bytes l)) = (Z.of_nat (length l) + 7) / 8.
  Proof.
    induction k as [k IH] using (well_founded_induction Wf_nat.lt_wf).
    intros l Hk.
    destruct l as [|a0 [|a1 [|a2 [|a3 [|a4 [|a5 [|a6 [|a7 rest]]]]]]]];
      try reflexivity.
    cbn [bitpack_u8_bytes length].
    rewrite !Nat2Z.inj_succ. rewrite (IH (length rest)); [ | cbn [length] in Hk; lia | lia].
    replace (Z.succ (Z.succ (Z.succ (Z.succ (Z.succ (Z.succ (Z.succ (Z.succ
               (Z.of_nat (length rest))))))))) + 7)
      with (Z.of_nat (length rest) + 7 + 1 * 8) by lia.
    rewrite Z.div_add by lia. lia.
  Qed.


End PackedSizes.

Section DecodeOutcomes.

  Variable check_magic : BlockHeader -> bool.

Lemma refill_length fuel : forall src acc bits bw src' acc' bits',
    refill fuel src acc bits bw = Some (src', acc', bits') ->
    (length src' <= length src)%nat.
  Proof.
    induction fuel as [|f IH]; intros src acc bits bw src' acc' bits'; cbn [refill].
    - intros H. apply Some_inj in H. apply pair_eq_inv in H. destruct H as [H _].
      apply pair_eq_inv in H. destruct H as [<- _]. lia.
    - destruct (bits <? bw).
      + destruct src as [|b src]; [discriminate|]. intros H. apply IH in H.
        cbn [length]. lia.
      + intros H. apply Some_inj in H. apply pair_eq_inv in H. destruct H as [H _].
        apply pair_eq_inv in H. destruct H as [<- _]. lia.
  Qed.

Lemma unpack_loop_length cast n : forall src acc bits bw mask out,
    unpack_loop cast n src acc bits bw mask = Some out -> length out = n.
  Proof.
    induction n as [|n IH]; intros src acc bits bw mask out; cbn [unpack_loop].
    - intros H. apply Some_inj in H. now subst.
    - destruct (refill (Z.to_nat bw) src acc bits bw) as [[[s' a'] b']|]; [|discriminate].
      destruct (unpack_loop cast n s' (Z.shiftr a' bw) (b' - bw) bw mask) as [o|] eqn:E;
        [|discriminate].
      intros H. apply Some_inj in H. subst out. cbn [length]. f_equal. eapply IH, E.
  Qed.

Lemma bitunpack_u64_length src n bw out :
    bitunpack_u64 src n bw = Some out -> length out = n.
  Proof.
    unfold bitunpack_u64. destruct ((bw =? 0) || (Z.of_nat n =? 0)).
    - intros H. apply Some_inj in H. subst. apply repeat_length.
    - destruct (64 <=? bw); [discriminate|]. apply unpack_loop_length.
  Qed.

Lemma bitunpack_u32_length src n bw out :
    bitunpack_u32 src n bw = Some out -> length out = n.
  Proof.
    unfold bitunpack_u32. destruct (64 <=? bw); [discriminate|]. apply unpack_loop_length.
  Qed.

Lemma length_byte_bits b k : length (byte_bits b k) = k.
  Proof. unfold byte_bits. now rewrite length_map, length_seq. Qed.

Lemma bitunpack_u8_length : forall k n src out,
    (n <= k)%nat -> bitunpack_u8 src n = Some out -> length out = n.
  Proof.
    induction k as [k IH] using (well_founded_induction Wf_nat.lt_wf).
    intros n src out Hk.
    destruct n as [|[|[|[|[|[|[|[|n']]]]]]]]; cbn [bitunpack_u8];
      try (destruct src as [|b src]; [discriminate|];
           intros H; apply Some_inj in H; subst out; apply length_byte_bits).
    - intros H. apply Some_inj in H. now subst.
    - destruct src as [|b src]; [discriminate|].
      destruct (bitunpack_u8 src n') as [o|] eqn:E; [|discriminate].
      intros H. apply Some_inj in H. subst out.
      rewrite length_app, length_byte_bits.
      rewrite (IH n' ltac:(lia) n' src o (Nat.le_refl _) E). reflexivity.
  Qed.

Lemma decode_rows_length h rows : forall ts px sd ty p_sz rs,
    length ts = length rows -> length px = length rows ->
    length sd = length rows -> length ty = length rows ->
    decode_rows h ts px sd ty p_sz rows = Ok rs -> length rs = length rows.
  Proof.
    induction rows as [|r rows IH]; intros ts px sd ty p_sz rs Hts Hpx Hsd Hty.
    - cbn [decode_rows]. intros H. apply Ok_inj in H. now subst.
    - destruct ts as [|u ts]; [discriminate|]. destruct px as [|z px]; [discriminate|].
      destruct sd as [|s sd]; [discriminate|]. destruct ty as [|t ty]; [discriminate|].
      cbn [decode_rows]. rewrite price_guard_dead.
      destruct (load p_sz 4) as [fsz|]; cbn [of_option bind]; [|discriminate].
      destruct (decode_rows h ts px sd ty (skipn 4 p_sz) rows) as [rs'| |] eqn:E;
        cbn [bind]; try discriminate.
      intros H. apply Ok_inj in H. subst rs. cbn [length] in *. f_equal.
      eapply IH; try exact E; lia.
  Qed.

Lemma length_resize_rows n rows_out : length (resize_rows n rows_out) = n.
  Proof.
    unfold resize_rows. rewrite length_app, length_firstn, repeat_length. lia.
  Qed.

Lemma end_off_range h : 0 <= end_off h < 2 ^ 32.
  Proof.
    unfold end_off.
    pose proof (u32_range (off_ts h + len_ts h)).
    pose proof (u32_range (off_px h + len_px h)).
    pose proof (u32_range (off_sz h + len_sz h)).
    pose proof (u32_range (off_side h + len_side h)).
    pose proof (u32_range (off_type h + len_type h)).
    lia.
  Qed.

  (** What a normal return of [decode_block] tells: the header was
      read and accepted, at least the 76 bytes of the header count as
      consumed (never 0), and [rows_out] holds [n_rows] rows, or is
      left as it was when the block has none. *)
Theorem decode_block_returns src src_len rows_out consumed rows' :
    decode_block check_magic src src_len rows_out = Ok (consumed, rows') ->
    HDR_SIZE <= src_len /\ HDR_SIZE <= consumed < 2 ^ 32 /\
    exists h,
      read_header src = Some h /\ check_magic h = true /\
      (n_rows h = 0 -> consumed = HDR_SIZE /\ rows' = rows_out) /\
      (n_rows h <> 0 ->
       consumed = Z.max (end_off h) HDR_SIZE /\ length rows' = Z.to_nat (n_rows h)).
  Proof.
    unfold decode_block.
    destruct (Z.ltb_spec src_len HDR_SIZE) as [|Hlen]; [discriminate|].
    destruct (read_header src) as [h|]; cbn [of_option bind]; [|discriminate].
    destruct (check_magic h) eqn:Hm; cbn [negb]; [|discriminate].
    destruct (Z.eqb_spec (n_rows h) 0) as [Hn | Hn].
    { intros H. apply Ok_inj in H. apply pair_eq_inv in H. destruct H as [<- <-].
      split; [exact Hlen|]. split; [unfold HDR_SIZE; lia|].
      exists h. split; [reflexivity|]. split; [exact Hm|].
      split; [intros _; split; reflexivity | intros; contradiction]. }
    set (n := Z.to_nat (n_rows h)).
    destruct (if ts_bw h =? 0 then Ok (repeat 0 n)
              else of_option (bitunpack_u64 (advance src (off_ts h)) n (ts_bw h)))
      as [ts | e | ] eqn:Ets; cbn [bind]; try discriminate.
    destruct (if px_bw h =? 0 then Ok (repeat 0 n)
              else of_option (bitunpack_u32 (advance src (len_px h)) n (px_bw h)))
      as [px | e | ] eqn:Epx; cbn [bind]; try discriminate.
    destruct (bitunpack_u8 (advance src (off_side h)) n) as [sd|] eqn:Esd;
      cbn [of_option bind]; [|discriminate].
    destruct (bitunpack_u8 (advance src (off_type h)) n) as [ty|] eqn:Ety;
      cbn [of_option bind]; [|discriminate].
    match goal with
    | |- bind ?d _ = _ -> _ => destruct d as [rs | e | ] eqn:Ed
    end; cbn [bind]; try discriminate.
    intros H. apply Ok_inj in H. apply pair_eq_inv in H. destruct H as [<- <-].
    pose proof (end_off_range h) as Hr.
    split; [exact Hlen|]. split; [unfold HDR_SIZE; lia|].
    exists h. split; [reflexivity|]. split; [exact Hm|].
    split; [intros; contradiction|].
    intros _. split; [reflexivity|]. apply decode_rows_length in Ed; rewrite ?length_resize_rows in *.
    - exact Ed.
    - destruct (ts_bw h =? 0).
      + apply Ok_inj in Ets. subst ts. apply repeat_length.
      + destruct (bitunpack_u64 _ _ _) as [o|] eqn:E; [|discriminate Ets].
        apply Ok_inj in Ets. subst o. eapply bitunpack_u64_length, E.
    - destruct (px_bw h =? 0).
      + apply Ok_inj in Epx. subst px. apply repeat_length.
      + destruct (bitunpack_u32 _ _ _) as [o|] eqn:E; [|discriminate Epx].
        apply Ok_inj in Epx. subst o. eapply bitunpack_u32_length, E.
    - eapply bitunpack_u8_length; [apply Nat.le_refl | exact Esd].
    - eapply bitunpack_u8_length; [apply Nat.le_refl | exact Ety].
  Qed.

Lemma decode_block_throw_cases src src_len rows_out e :
    decode_block check_magic src src_len rows_out = Throw e <->
    (e = BlockTooSmall /\ src_len < HDR_SIZE) \/
    (e = BadMagic /\ HDR_SIZE <= src_len /\
     exists h, read_header src = Some h /\ check_magic h = false).
  Proof.
    unfold decode_block.
    destruct (Z.ltb_spec src_len HDR_SIZE) as [Hlt | Hge].
    { split.
      - intros H. left. split; [congruence | exact Hlt].
      - intros [[-> _] | (_ & H & _)]; [reflexivity | lia]. }
    destruct (read_header src) as [h|]; cbn [of_option bind].
    2: { split; [discriminate|]. intros [[_ H] | (_ & _ & h & H & _)]; [lia | discriminate]. }
    destruct (check_magic h) eqn:Hm; cbn [negb].
    2: { split.
         - intros H. right. split; [congruence|]. split; [exact Hge|]. now exists h.
         - intros [[_ H] | (-> & _)]; [lia | reflexivity]. }
    assert (Hno : forall o : outcome (Z * list Row),
               (forall e', o <> Throw e') ->
               o = Throw e <->
               e = BlockTooSmall /\ src_len < HDR_SIZE \/
               e = BadMagic /\ HDR_SIZE <= src_len /\
               (exists h0, Some h = Some h0 /\ check_magic h0 = false)).
    { intros o Ho. split; [intros H; now apply Ho in H|].
      intros [[_ H] | (_ & _ & h0 & H & H')]; [lia|].
      apply Some_inj in H. subst h0. congruence. }
    apply Hno. intros e'.
    destruct (n_rows h =? 0); [discriminate|].
    set (n := Z.to_nat (n_rows h)).
    destruct (if ts_bw h =? 0 then Ok (repeat 0 n)
              else of_option (bitunpack_u64 (advance src (off_ts h)) n (ts_bw h)))
      as [ts | e1 | ] eqn:Ets; cbn [bind].
    2: { destruct (ts_bw h =? 0); [discriminate|]. now apply of_option_not_throw in Ets. }
    2: discriminate.
    destruct (if px_bw h =? 0 then Ok (repeat 0 n)
              else of_option (bitunpack_u32 (advance src (len_px h)) n (px_bw h)))
      as [px | e1 | ] eqn:Epx; cbn [bind].
    2: { destruct (px_bw h =? 0); [discriminate|]. now apply of_option_not_throw in Epx. }
    2: discriminate.
    destruct (bitunpack_u8 (advance src (off_side h)) n) as [sd|];
      cbn [of_option bind]; [|discriminate].
    destruct (bitunpack_u8 (advance src (off_type h)) n) as [ty|];
      cbn [of_option bind]; [|discriminate].
    match goal with
    | |- bind ?d _ <> _ => destruct d as [rs | e1 | ] eqn:Ed
    end; cbn [bind]; [discriminate | | discriminate].
    now apply decode_rows_never_throws in Ed.
  Qed.

  (** The errors of [decode_block]: "block too small" exactly for a
      length below 76, "block magic incorrect" exactly when
      [check_magic] rejects the header, and no other. *)
Theorem decode_block_throws src src_len rows_out e :
    decode_block check_magic src src_len rows_out = Throw e <->
    (e = BlockTooSmall /\ src_len < HDR_SIZE) \/
    (e = BadMagic /\ HDR_SIZE <= src_len /\
     exists h, read_header src = Some h /\ check_magic h = false).
  Proof. apply decode_block_throw_cases. Qed.

End DecodeOutcomes.

Section EncodedBlocks.

Lemma length_block_body rows :
    Z.of_nat (length (block_body rows))
    = (width_of (ts_deltas (ts_ns (hd zero_row rows)) rows) * Z.of_nat (length rows) + 7) / 8
      + (width_of (px_zigzags (price (hd zero_row rows)) rows) * Z.of_nat (length rows) + 7) / 8
      + 4 * Z.of_nat (length rows)
      + 2 * ((Z.of_nat (length rows) + 7) / 8).
  Proof.
    unfold block_body, ts_column, px_column, side_column, type_column. cbv zeta.
    rewrite !length_app, !Nat2Z.inj_add, length_size_bytes.
    pose proof (width_of_range _ (ts_deltas_u32 (ts_ns (hd zero_row rows)) rows)) as Ht.
    pose proof (width_of_range _ (px_zigzags_u32 (price (hd zero_row rows)) rows)) as Hp.
    destruct (packed_bytes_count (ts_deltas (ts_ns (hd zero_row rows)) rows)
                (width_of (ts_deltas (ts_ns (hd zero_row rows)) rows)) [] ltac:(lia))
      as [E1 _].
    destruct (packed_bytes_count (px_zigzags (price (hd zero_row rows)) rows)
                (width_of (px_zigzags (price (hd zero_row rows)) rows)) [] ltac:(lia))
      as [_ E2].
    rewrite E1, E2.
    rewrite (bitpack_u8_bytes_count _ _ (Nat.le_refl _)).
    rewrite (bitpack_u8_bytes_count _ _ (Nat.le_refl _)).
    unfold ts_deltas, px_zigzags, side_bytes, type_bits. rewrite !length_map.
    cbn [length]. lia.
  Qed.

Lemma encode_block_header_fields rows blk :
    rows <> [] -> Forall row_ok rows -> encode_block rows [] = Ok blk ->
    exists h,
      read_header blk = Some h /\
      magic h = repeat 0 8 /\ version h = 1 /\ flags h = 0 /\
      n_rows h = Z.of_nat (length rows) /\
      base_ts h = ts_ns (hd zero_row rows) /\
      base_px h = price (hd zero_row rows) /\
      ts_scale_ns h = 1000000 /\
      1 <= ts_bw h <= 32 /\ 1 <= px_bw h <= 32 /\
      off_ts h = HDR_SIZE.
  Proof.
    intros Hne Hok Henc.
    pose proof (encode_block_ok_rows rows blk Hne Henc) as Hn.
    rewrite encode_block_shape in Henc by assumption.
    apply Ok_inj in Henc. subst blk.
    exists (block_header rows). split.
    - apply read_header_bytes. apply block_header_ok; try assumption. lia.
    - unfold block_header. cbv zeta.
      cbn [magic version flags n_rows base_ts base_px ts_scale_ns ts_bw px_bw off_ts].
      do 7 (split; [reflexivity|]).
      split; [apply (width_of_range _ (ts_deltas_u32 _ rows))|].
      split; [apply (width_of_range _ (px_zigzags_u32 _ rows)) | reflexivity].
  Qed.

  (** The header [encode_block] writes: no magic (the eight bytes stay
      zero), version 1, the row count, the time and the price of the
      first row as bases, a scale of one millisecond, and column
      widths between 1 and 32 bits. *)
Theorem encode_block_header rows blk :
    rows <> [] -> Forall row_ok rows -> encode_block rows [] = Ok blk ->
    exists h,
      read_header blk = Some h /\
      magic h = repeat 0 8 /\ version h = 1 /\ flags h = 0 /\
      n_rows h = Z.of_nat (length rows) /\
      base_ts h = ts_ns (hd zero_row rows) /\
      base_px h = price (hd zero_row rows) /\
      ts_scale_ns h = 1000000 /\
      1 <= ts_bw h <= 32 /\ 1 <= px_bw h <= 32 /\
      off_ts h = HDR_SIZE.
  Proof. apply encode_block_header_fields. Qed.

  (** A [check_magic] that rejects the all-zero magic rejects every
      block [encode_block] produces. *)
Theorem unmarked_block_is_rejected check_magic rows blk rows_out :
    rows <> [] -> Forall row_ok rows -> encode_block rows [] = Ok blk ->
    (forall h, magic h = repeat 0 8 -> check_magic h = false) ->
    decode_block check_magic blk (Z.of_nat (length blk)) rows_out = Throw BadMagic.
  Proof.
    intros Hne Hok Henc Hcm.
    destruct (encode_block_header_fields rows blk Hne Hok Henc) as (h & Hh & Hm & _).
    apply decode_block_throw_cases. right. split; [reflexivity|]. split.
    - pose proof (encode_block_ok_rows rows blk Hne Henc) as Hn.
      rewrite encode_block_shape in Henc by assumption.
      apply Ok_inj in Henc. subst blk.
      rewrite length_app, length_header_bytes, Nat2Z.inj_add. unfold HDR_SIZE. lia.
    - exists h. split; [exact Hh | now apply Hcm].
  Qed.

  (** The size of an encoded block: the header, the two packed
      columns at their widths, four bytes of size per row, and two
      one-bit columns. *)
Theorem encode_block_size rows blk :
    rows <> [] -> encode_block rows [] = Ok blk ->
    let n := Z.of_nat (length rows) in
    let r0 := hd zero_row rows in
    Z.of_nat (length blk)
    = HDR_SIZE
      + (width_of (ts_deltas (ts_ns r0) rows) * n + 7) / 8
      + (width_of (px_zigzags (price r0) rows) * n + 7) / 8
      + 4 * n + 2 * ((n + 7) / 8) /\
    Z.of_nat (length blk) <= HDR_SIZE + 12 * n + 2 * ((n + 7) / 8).
  Proof.
    intros Hne Henc n r0.
    pose proof (encode_block_ok_rows rows blk Hne Henc) as Hn.
    rewrite encode_block_shape in Henc by assumption.
    apply Ok_inj in Henc. subst blk.
    rewrite length_app, length_header_bytes, Nat2Z.inj_add, length_block_body.
    fold n r0.
    pose proof (width_of_range _ (ts_deltas_u32 (ts_ns r0) rows)) as Ht.
    pose proof (width_of_range _ (px_zigzags_u32 (price r0) rows)) as Hp.
    set (tb := width_of (ts_deltas (ts_ns r0) rows)) in *.
    set (pb := width_of (px_zigzags (price r0) rows)) in *.
    split; [unfold HDR_SIZE; lia|].
    assert (Hnn : 0 <= n) by (subst n; lia).
    assert ((tb * n + 7) / 8 < 4 * n + 1) by (apply Z.div_lt_upper_bound; nia).
    assert ((pb * n + 7) / 8 < 4 * n + 1) by (apply Z.div_lt_upper_bound; nia).
    unfold HDR_SIZE. lia.
  Qed.

End EncodedBlocks.

Section CeilLog2.

  (** For a 64-bit [x], [ceil_log2_u64 x] lies between 1 and 64 and
      [x <= 2^c]; for 0 and 1 it is 1 (not 0); from 2 on it is the
      least such exponent, the ceiling of the binary logarithm. *)
Theorem ceil_log2_u64_least x :
    0 <= x < 2 ^ 64 ->
    let c := ceil_log2_u64 x in
    1 <= c <= 64 /\ x <= 2 ^ c /\ (x <= 1 -> c = 1) /\
    (2 <= x -> 2 ^ (c - 1) < x).
  Proof.
    intros Hx c. subst c. unfold ceil_log2_u64.
    destruct (Z.leb_spec x 1) as [Hle | Hgt].
    { change (2 ^ 1) with 2. lia. }
    assert (Hl : 0 <= Z.log2 (x - 1) < 64).
    { split; [apply Z.log2_nonneg|]. apply Z.log2_lt_pow2; lia. }
    unfold clzll.
    rewrite (u32_small (63 - Z.log2 (x - 1))) by lia.
    rewrite u32_small by lia. rewrite u64_small by lia.
    replace (64 - (63 - Z.log2 (x - 1))) with (Z.log2 (x - 1) + 1) by lia.
    pose proof (Z.log2_spec (x - 1) ltac:(lia)) as [Hlo Hhi].
    change (Z.succ (Z.log2 (x - 1))) with (Z.log2 (x - 1) + 1) in Hhi.
    split; [lia|]. split; [lia|]. split; [lia|].
    intros _. replace (Z.log2 (x - 1) + 1 - 1) with (Z.log2 (x - 1)) by lia. lia.
  Qed.

End CeilLog2.

Lemma ceil_log2_u64_least_witness :
  (1 <= ceil_log2_u64 1 <= 64 /\ 1 <= 2 ^ ceil_log2_u64 1 /\
   (1 <= 1 -> ceil_log2_u64 1 = 1) /\
   (2 <= 1 -> 2 ^ (ceil_log2_u64 1 - 1) < 1)) /\
  (1 <= ceil_log2_u64 1000 <= 64 /\ 1000 <= 2 ^ ceil_log2_u64 1000 /\
   (1000 <= 1 -> ceil_log2_u64 1000 = 1) /\
   (2 <= 1000 -> 2 ^ (ceil_log2_u64 1000 - 1) < 1000)).
Proof.
  split; [apply (ceil_log2_u64_least 1) | apply (ceil_log2_u64_least 1000)]; lia.
Defined.

Section SafeWidths.

  (** The widths at which [bitpack_u64] and [bitunpack_u64] are
      inverse: every width up to 58 bits, and 60.  (At 59, 61, 62 and
      63 the accumulator overflows; at 64 the unpacker shifts by the
      word size.) *)
Theorem bitpack_u64_roundtrip_safe_widths xs bw rest :
    0 <= bw <= 58 \/ bw = 60 ->
    Forall (fun x => 0 <= x < 2 ^ bw) xs -> bytes_ok rest ->
    bitunpack_u64 (bitpack_u64 xs bw [] ++ rest) (length xs) bw = Some xs.
  Proof.
    intros Hbw Hxs Hrest. apply bitpack_u64_roundtrip; try assumption; [lia|].
    destruct Hbw as [Hbw | ->]; [|apply fits_60].
    destruct (Z.eq_dec bw 58) as [-> | Hne]; [apply fits_58 | apply fits_small; lia].
  Qed.

  (** The one-bit columns: [bitunpack_u8] gives back the low bit of
      every value [bitpack_u8] was given, whatever follows the packed
      bytes. *)
Theorem bitpack_u8_roundtrip src rest :
    bitunpack_u8 (bitpack_u8 src [] ++ rest) (length src)
    = Some (map (fun x => x mod 2) src).
  Proof.
    unfold bitpack_u8. cbn [app]. rewrite bitunpack_u8_pack. f_equal.
    apply map_ext. intros x. apply low_bit_mod.
  Qed.

End SafeWidths.

Section DecodedTime.

  Variable check_magic : BlockHeader -> bool.

  (** The time stamps after a round trip, for non-empty rows that
      fit their C++ types and a block shorter than [2^32] bytes that
      [check_magic] accepts: when no row is earlier than the first one
      nor 2^32 ms or more after it, [ts_ts] of every decoded row is
      the row's [ts_ns] rounded down to the millisecond grid that
      starts at the first row. *)
Theorem decoded_time_is_floored rows blk rows_out :
    rows <> [] ->
    Forall row_ok rows ->
    encode_block rows [] = Ok blk ->
    Z.of_nat (length blk) < 2 ^ 32 ->
    (forall h, read_header blk = Some h -> check_magic h = true) ->
    Forall (fun r => ts_ns (hd zero_row rows) <= ts_ns r
                     /\ ts_ns r - ts_ns (hd zero_row rows) < 2 ^ 32 * TS_SCALE_NS) rows ->
    exists rows',
      decode_block check_magic blk (Z.of_nat (length blk)) rows_out
        = Ok (Z.of_nat (length blk), rows') /\
      map ts_ts rows'
        = map (fun r => ts_ns r - (ts_ns r - ts_ns (hd zero_row rows)) mod TS_SCALE_NS) rows.
  Proof.
    intros Hne Hok Henc Hlen Hmagic Hts.
    destruct (decode_encode_block check_magic rows blk rows_out Hne Hok Henc Hlen Hmagic)
      as (rs & Hdec & _ & _ & _ & _ & Htsts & _).
    exists rs. split; [exact Hdec|].
    rewrite Htsts. unfold ts_deltas. rewrite map_map.
    assert (Hb : is_u64 (ts_ns (hd zero_row rows))).
    { destruct rows as [|r0 rest]; [congruence|]. inversion Hok; subst.
      cbn [hd]. match goal with H : row_ok r0 |- _ => apply H end. }
    apply map_ext_in. intros r Hr.
    rewrite Forall_forall in Hok, Hts.
    destruct (Hok r Hr) as (Ht & _). destruct (Hts r Hr) as (H1 & H2).
    now apply quantized_ts.
  Qed.

End DecodedTime.

Lemma bitpack_u64_roundtrip_safe_widths_witness :
  bitunpack_u64 (bitpack_u64 [2 ^ 58 - 1; 1; 2 ^ 57] 58 [] ++ [255]) 3 58
  = Some [2 ^ 58 - 1; 1; 2 ^ 57].
Proof.
  apply (bitpack_u64_roundtrip_safe_widths [2 ^ 58 - 1; 1; 2 ^ 57] 58 [255]).
  - lia.
  - repeat constructor; cbn; lia.
  - repeat constructor; lia.
Defined.

Lemma decoded_time_is_floored_witness :
  exists rows',
    decode_block (fun _ => true) sample_block (Z.of_nat (length sample_block)) []
      = Ok (Z.of_nat (length sample_block), rows') /\
    map ts_ts rows'
      = map (fun r => ts_ns r - (ts_ns r - ts_ns (hd zero_row sample_rows)) mod TS_SCALE_NS)
            sample_rows.
Proof.
  apply (decoded_time_is_floored (fun _ => true) sample_rows sample_block []).
  - discriminate.
  - exact sample_rows_ok.
  - vm_compute. reflexivity.
  - vm_compute. reflexivity.
  - intros h _. reflexivity.
  - repeat constructor; cbn; lia.
Defined.


Lemma decode_block_returns_witness :
  HDR_SIZE <= 88 /\ HDR_SIZE <= 88 < 2 ^ 32 /\
  exists h,
    read_header sample_block = Some h /\ (fun _ : BlockHeader => true) h = true /\
    (n_rows h = 0 -> 88 = HDR_SIZE /\ sample_decoded = []) /\
    (n_rows h <> 0 ->
     88 = Z.max (end_off h) HDR_SIZE /\ length sample_decoded = Z.to_nat (n_rows h)).
Proof.
  apply (decode_block_returns (fun _ => true) sample_block 88 [] 88 sample_decoded).
  vm_compute. reflexivity.
Defined.

Lemma encode_block_header_witness :
  exists h,
    read_header sample_block = Some h /\
    magic h = repeat 0 8 /\ version h = 1 /\ flags h = 0 /\
    n_rows h = 2 /\ base_ts h = 1000000000 /\ base_px h = 10000 /\
    ts_scale_ns h = 1000000 /\
    1 <= ts_bw h <= 32 /\ 1 <= px_bw h <= 32 /\ off_ts h = HDR_SIZE.
Proof.
  apply (encode_block_header sample_rows sample_block).
  - discriminate.
  - exact sample_rows_ok.
  - vm_compute. reflexivity.
Defined.

Lemma unmarked_block_is_rejected_witness :
  decode_block (fun h => negb (forallb (Z.eqb 0) (magic h)))
               sample_block (Z.of_nat (length sample_block)) []
  = Throw BadMagic.
Proof.
  apply (unmarked_block_is_rejected _ sample_rows sample_block []).
  - discriminate.
  - exact sample_rows_ok.
  - vm_compute. reflexivity.
  - intros h Hm. rewrite Hm. reflexivity.
Defined.

Lemma encode_block_size_witness :
  Z.of_nat (length sample_block)
  = HDR_SIZE
    + (width_of (ts_deltas 1000000000 sample_rows) * 2 + 7) / 8
    + (width_of (px_zigzags 10000 sample_rows) * 2 + 7) / 8
    + 4 * 2 + 2 * ((2 + 7) / 8) /\
  Z.of_nat (length sample_block) <= HDR_SIZE + 12 * 2 + 2 * ((2 + 7) / 8).
Proof.
  apply (encode_block_size sample_rows sample_block).
  - discriminate.
  - vm_compute. reflexivity.
Defined.

(* ================================================================== *)
(** * Blocks of 4 GiB and more *)
(* ================================================================== *)

Section EqualRows.

Lemma repeat_head {A} (x : A) k : (0 < k)%nat -> repeat x k = x :: repeat x (k - 1).
  Proof.
    destruct k as [|k]; [lia|]. intros _. cbn [repeat Nat.sub]. now rewrite Nat.sub_0_r.
  Qed.

Lemma repeat_ok {A} (P : A -> Prop) x k : P x -> Forall P (repeat x k).
  Proof. intros H. apply Forall_forall. intros y Hy. apply repeat_spec in Hy. now subst. Qed.

Lemma wide_row_ok : row_ok wide_row.
  Proof. unfold row_ok, wide_row, is_u64, is_u32, is_u8. cbn. lia. Qed.

Lemma max_of_zeros k : max_of (repeat 0 k) = 0.
  Proof.
    unfold max_of. induction k as [|k IH]; [reflexivity|].
    cbn [repeat fold_left]. exact IH.
  Qed.

Lemma map_on_repeat {A B} (f : A -> B) x k : map f (repeat x k) = repeat (f x) k.
  Proof. induction k as [|k IH]; [reflexivity|]. cbn [repeat map]. now rewrite IH. Qed.

Lemma width_of_zeros n : width_of (repeat 0 n) = 1.
  Proof. unfold width_of. rewrite max_of_zeros. reflexivity. Qed.

Lemma ts_deltas_same r n : ts_deltas (ts_ns r) (repeat r n) = repeat 0 n.
  Proof.
    unfold ts_deltas. rewrite map_on_repeat. f_equal.
    rewrite Z.sub_diag. reflexivity.
  Qed.

Lemma px_zigzags_same r n : px_zigzags (price r) (repeat r n) = repeat 0 n.
  Proof.
    unfold px_zigzags. rewrite map_on_repeat. f_equal.
    rewrite Z.sub_diag. reflexivity.
  Qed.

  (** A block of [8 * m] equal rows has [76 + 36 * m] bytes: both
      packed columns take one bit a row. *)
Lemma encode_equal_rows r m :
    0 < m -> 32 * m < 2 ^ 32 ->
    exists blk,
      encode_block (repeat r (Z.to_nat (8 * m))) [] = Ok blk /\
      Z.of_nat (length blk) = 76 + 36 * m.
  Proof.
    intros Hm Hb.
    set (k := Z.to_nat (8 * m)).
    assert (Hk : Z.of_nat k = 8 * m) by (subst k; lia).
    assert (Hne : repeat r k <> []).
    { destruct k as [|k']; [lia|]. discriminate. }
    assert (Hhd : hd zero_row (repeat r k) = r).
    { destruct k as [|k']; [lia|]. reflexivity. }
    eexists. split.
    - apply encode_block_shape; [exact Hne|]. rewrite repeat_length. lia.
    - rewrite length_app, Nat2Z.inj_add, length_header_bytes, length_block_body.
      rewrite Hhd, ts_deltas_same, px_zigzags_same, !width_of_zeros, repeat_length, Hk.
      replace (1 * (8 * m) + 7) with (0 + 7 + m * 8) by lia.
      replace (8 * m + 7) with (7 + m * 8) by lia.
      rewrite !Z.div_add by lia.
      change ((0 + 7) / 8) with 0. change (7 / 8) with 0. lia.
  Qed.

Lemma four_bytes (l : list Z) :
    length l = 4%nat -> exists a b c d, l = [a; b; c; d].
  Proof.
    destruct l as [|a [|b [|c [|d [|e l]]]]]; try discriminate. intros _. now exists a, b, c, d.
  Qed.

Lemma bitunpack_u8_some : forall k m src,
    (m <= k)%nat -> (m <= 8 * length src)%nat ->
    exists out, bitunpack_u8 src m = Some out.
  Proof.
    induction k as [k IH] using lt_wf_ind. intros m src Hk Hs.
    destruct m as [|[|[|[|[|[|[|[|m']]]]]]]];
      try (destruct src as [|b0 src]; [cbn [length] in Hs; lia|];
           cbn [bitunpack_u8]; eauto; fail).
    - exists []. reflexivity.
    - destruct src as [|b0 src]; [cbn [length] in Hs; lia|].
      cbn [bitunpack_u8].
      destruct (IH m' ltac:(lia) m' src (Nat.le_refl _)) as (out & E).
      { cbn [length] in Hs. lia. }
      rewrite E. eauto.
  Qed.

  (** The 33rd bit that [bitunpack_u8] unpacks is the low bit of
      the fifth byte. *)
Lemma unpack_33rd a b c d e rest m out :
    bitunpack_u8 (a :: b :: c :: d :: e :: rest) (40 + m) = Some out ->
    nth 32 out 0 = Z.land e 1.
  Proof.
    cbn [Nat.add bitunpack_u8].
    destruct (bitunpack_u8 rest m) as [out'|]; [|discriminate].
    intros E. apply Some_inj in E. subst out.
    unfold byte_bits. cbn [seq map app nth Z.of_nat]. rewrite Z.shiftr_0_r. reflexivity.
  Qed.

End EqualRows.

Section OversizedBlock.

  (** The number of rows, kept abstract. *)
  Variable n : nat.
  Hypothesis Hn : Z.of_nat n = 2 ^ 30 - 1.

Lemma wide_deltas :
    ts_deltas (ts_ns (hd zero_row (repeat wide_row n))) (repeat wide_row n) = repeat 0 n /\
    px_zigzags (price (hd zero_row (repeat wide_row n))) (repeat wide_row n) = repeat 0 n.
  Proof.
    assert (Hhd : hd zero_row (repeat wide_row n) = wide_row).
    { rewrite repeat_head by lia. reflexivity. }
    rewrite Hhd. unfold ts_deltas, px_zigzags. rewrite !map_on_repeat. split; reflexivity.
  Qed.

  (** The two packed columns take 2^27 bytes each. *)
Lemma wide_columns :
    Z.of_nat (length (ts_column (repeat wide_row n))) = 2 ^ 27 /\
    Z.of_nat (length (px_column (repeat wide_row n))) = 2 ^ 27.
  Proof.
    destruct wide_deltas as [Et Ep].
    unfold ts_column, px_column. cbv zeta. rewrite Et, Ep.
    unfold width_of. rewrite max_of_zeros.
    change (u8 (ceil_log2_u64 (u64 (0 + 1)))) with 1.
    destruct (packed_bytes_count (repeat 0 n) 1 [] ltac:(lia)) as [E1 E2].
    cbv zeta in E1, E2. rewrite repeat_length, Hn in E1, E2.
    rewrite E1, E2. cbn [length]. split; reflexivity.
  Qed.

  (** The column offsets of the header: the sum that gives
      [off_side] leaves 32 bits. *)
Lemma wide_header :
    let h := block_header (repeat wide_row n) in
    n_rows h = 2 ^ 30 - 1 /\ ts_bw h = 1 /\ px_bw h = 1 /\
    off_ts h = 76 /\ len_px h = 2 ^ 27 /\
    off_sz h = 76 + 2 ^ 28 /\ off_side h = 72 + 2 ^ 28 /\
    off_type h = 72 + 2 ^ 28 + 2 ^ 27.
  Proof.
    destruct wide_columns as [Lt Lp]. destruct wide_deltas as [Et Ep].
    assert (Ls : Z.of_nat (length (side_column (repeat wide_row n))) = 2 ^ 27).
    { unfold side_column, side_bytes.
      rewrite (bitpack_u8_bytes_count _ _ (Nat.le_refl _)), length_map, repeat_length, Hn.
      reflexivity. }
    unfold block_header. cbv zeta.
    cbn [n_rows ts_bw px_bw off_ts len_px off_sz off_side off_type].
    unfold len32. rewrite Lt, Lp, Ls, Et, Ep, repeat_length, Hn.
    unfold width_of. rewrite max_of_zeros.
    repeat split; reflexivity.
  Qed.

  (** What lies at [off_side]: the last four bytes of the price
      column, then the size column, whose bytes are all 255. *)
Lemma wide_bytes_at_off_side :
    exists a b c d rest,
      advance (header_bytes (block_header (repeat wide_row n))
               ++ block_body (repeat wide_row n)) (72 + 2 ^ 28)
      = a :: b :: c :: d :: 255 :: rest.
  Proof.
    destruct wide_columns as [Lt Lp].
    assert (Hk : exists k : nat, Z.of_nat k = 2 ^ 27 - 4)
      by (exists (Z.to_nat (2 ^ 27 - 4)); apply Z2Nat.id; lia).
    destruct Hk as (k & Hk).
    set (rows := repeat wide_row n) in *.
    set (PX := px_column rows) in *.
    assert (Hlen4 : length (skipn k PX) = 4%nat) by (rewrite length_skipn; lia).
    destruct (four_bytes _ Hlen4) as (a & b & c & d & E4).
    assert (Esz : exists rest, size_bytes rows = 255 :: rest).
    { subst rows. rewrite repeat_head by lia. unfold size_bytes. cbn [flat_map].
      change (le_bytes 4 (size wide_row)) with [255; 255; 255; 255].
      cbn [app]. eauto. }
    destruct Esz as (rest & Esz).
    exists a, b, c, d, (rest ++ side_column rows ++ type_column rows).
    unfold block_body. fold PX. rewrite <- (firstn_skipn k PX) at 1.
    rewrite E4, Esz.
    replace (header_bytes (block_header rows)
             ++ ts_column rows ++ (firstn k PX ++ [a; b; c; d])
             ++ (255 :: rest) ++ side_column rows ++ type_column rows)
      with ((header_bytes (block_header rows) ++ ts_column rows ++ firstn k PX)
            ++ a :: b :: c :: d :: 255 :: rest ++ side_column rows ++ type_column rows)
      by (rewrite <- !app_assoc; reflexivity).
    apply advance_app.
    rewrite !length_app, length_header_bytes, length_firstn. lia.
  Qed.

  (** A block of [2^30 - 1] wide rows has more than 2^32 bytes;
      [decode_block] returns for it, and whatever it returns has as
      many rows, of which row 32 has side 1. *)
Lemma wide_block_side :
    exists blk,
      encode_block (repeat wide_row n) [] = Ok blk /\
      2 ^ 32 <= Z.of_nat (length blk) /\
      (exists consumed rows',
         decode_block (fun _ => true) blk (Z.of_nat (length blk)) [] = Ok (consumed, rows')) /\
      forall check_magic src_len rows_out consumed rows',
        decode_block check_magic blk src_len rows_out = Ok (consumed, rows') ->
        length rows' = n /\ side (nth 32 rows' zero_row) = 1.
  Proof.
    set (rows := repeat wide_row n).
    assert (Hne : rows <> []) by (subst rows; rewrite repeat_head by lia; discriminate).
    assert (Hlr : Z.of_nat (length rows) = 2 ^ 30 - 1)
      by (subst rows; rewrite repeat_length; exact Hn).
    assert (Hok : Forall row_ok rows) by (apply repeat_ok, wide_row_ok).
    destruct wide_columns as [Lt Lp]. fold rows in Lt, Lp.
    pose proof wide_header as Hh. cbv zeta in Hh. fold rows in Hh.
    destruct Hh as (Hnr & Htb & Hpb & Hot & Hlp & Hosz & Hosd & Hoty).
    destruct wide_bytes_at_off_side as (a & b & c & d & rest & Hbytes). fold rows in Hbytes.
    assert (Hbody : Z.of_nat (length (block_body rows)) = 2 ^ 32 + 2 ^ 29 - 4).
    { rewrite length_block_body, Hlr.
      destruct wide_deltas as [Et Ep]. fold rows in Et, Ep. rewrite Et, Ep.
      unfold width_of. rewrite max_of_zeros. reflexivity. }
    exists (header_bytes (block_header rows) ++ block_body rows).
    split; [apply encode_block_shape; [exact Hne | lia]|].
    split; [rewrite length_app, length_header_bytes; lia|].
    set (blk := header_bytes (block_header rows) ++ block_body rows) in *.
    set (h := block_header rows) in *.
    assert (Hlb : Z.of_nat (length blk) = 2 ^ 32 + 2 ^ 29 + 72)
      by (subst blk; rewrite length_app, length_header_bytes; lia).
    assert (Hrh : read_header blk = Some h).
    { apply read_header_bytes. apply block_header_ok; [exact Hne | exact Hok | lia]. }
    assert (Hz : Z.to_nat (n_rows h) = n).
    { apply Nat2Z.inj. rewrite Z2Nat.id by (rewrite Hnr; lia). now rewrite Hnr, Hn. }
    split.
    { unfold decode_block. rewrite Hlb.
      change (2 ^ 32 + 2 ^ 29 + 72 <? HDR_SIZE) with false. cbv iota.
      rewrite Hrh. cbn [of_option bind negb]. rewrite Hz.
      rewrite Hnr, Htb, Hpb, Hot, Hlp, Hosz, Hosd, Hoty.
      change (2 ^ 30 - 1 =? 0) with false. change (1 =? 0) with false. cbv iota.
      destruct (bitunpack_u64_some (advance blk 76) n 1 ltac:(lia)) as (ts & Ets & Lts).
      { rewrite length_advance by lia. lia. }
      destruct (bitunpack_u32_some (advance blk (2 ^ 27)) n 1 ltac:(lia)) as (px & Epx & Lpx).
      { rewrite length_advance by lia. lia. }
      destruct (bitunpack_u8_some n n (advance blk (72 + 2 ^ 28)) (Nat.le_refl _))
        as (sd & Esd).
      { rewrite length_advance by lia. lia. }
      destruct (bitunpack_u8_some n n (advance blk (72 + 2 ^ 28 + 2 ^ 27)) (Nat.le_refl _))
        as (ty & Ety).
      { rewrite length_advance by lia. lia. }
      rewrite Ets, Epx, Esd, Ety. cbn [of_option bind].
      destruct (decode_rows_ok h (resize_rows n []) ts px sd ty (advance blk (76 + 2 ^ 28)))
        as (rs & Ers & _).
      - rewrite length_resize_rows. exact Lts.
      - rewrite length_resize_rows. exact Lpx.
      - rewrite length_resize_rows.
        eapply bitunpack_u8_length; [apply Nat.le_refl | exact Esd].
      - rewrite length_resize_rows.
        eapply bitunpack_u8_length; [apply Nat.le_refl | exact Ety].
      - rewrite length_resize_rows, length_advance by lia. lia.
      - rewrite Ers. cbn [bind]. eauto. }
    intros cm src_len rows_out consumed rows' Hdec.
    unfold decode_block in Hdec.
    destruct (src_len <? HDR_SIZE); [discriminate Hdec|].
    rewrite Hrh in Hdec. cbn [of_option bind] in Hdec.
    destruct (cm h); [|discriminate Hdec]. cbn [negb] in Hdec.
    rewrite Hz in Hdec.
    rewrite Hnr, Htb, Hpb, Hot, Hlp, Hosz, Hosd, Hoty in Hdec.
    change (2 ^ 30 - 1 =? 0) with false in Hdec.
    change (1 =? 0) with false in Hdec. cbv iota in Hdec.
    destruct (bitunpack_u64 (advance blk 76) n 1) as [ts|] eqn:Ets;
      [|discriminate Hdec].
    cbn [of_option bind] in Hdec.
    destruct (bitunpack_u32 (advance blk (2 ^ 27)) n 1) as [px|] eqn:Epx;
      [|discriminate Hdec].
    cbn [of_option bind] in Hdec.
    destruct (bitunpack_u8 (advance blk (72 + 2 ^ 28)) n) as [sd|] eqn:Esd;
      [|discriminate Hdec].
    cbn [of_option bind] in Hdec.
    destruct (bitunpack_u8 (advance blk (72 + 2 ^ 28 + 2 ^ 27)) n) as [ty|] eqn:Ety;
      [|discriminate Hdec].
    cbn [of_option bind] in Hdec.
    destruct (decode_rows_ok h (resize_rows n rows_out) ts px sd ty
                (advance blk (76 + 2 ^ 28)))
      as (rs & Ers & Hside & _).
    - rewrite length_resize_rows. eapply bitunpack_u64_length, Ets.
    - rewrite length_resize_rows. eapply bitunpack_u32_length, Epx.
    - rewrite length_resize_rows.
      eapply bitunpack_u8_length; [apply Nat.le_refl | exact Esd].
    - rewrite length_resize_rows.
      eapply bitunpack_u8_length; [apply Nat.le_refl | exact Ety].
    - rewrite length_resize_rows, length_advance by lia. lia.
    - rewrite Ers in Hdec. cbn [bind] in Hdec. apply Ok_inj in Hdec.
      apply pair_eq_inv in Hdec. destruct Hdec as [_ <-].
      split.
      { rewrite <- (length_map side rs), Hside.
        eapply bitunpack_u8_length; [apply Nat.le_refl | exact Esd]. }
      rewrite Hbytes in Esd.
      replace n with (40 + (n - 40))%nat in Esd by lia.
      pose proof (unpack_33rd a b c d 255 rest (n - 40)%nat sd Esd) as H33.
      pose proof (map_nth side rs zero_row 32) as Hm.
      change (side zero_row) with 0 in Hm. rewrite Hside in Hm.
      rewrite <- Hm, H33. reflexivity.
  Qed.

End OversizedBlock.

  (** C10 fails on a block of 2^32 bytes or more.  The header keeps
      the column offsets in 32 bits: for the block of
      [oversized_rows] the sum that gives [off_side] wraps to
      72 + 2^28, which is inside the block, four bytes before the size
      column.  [decode_block] unpacks the sides from there: it
      returns, and whatever it returns has as many rows as were
      encoded, and the side of row 32 is the low bit of the first byte
      of the size column, 1, while the side that was encoded is 0. *)
Theorem oversized_block_changes_sides :
  exists blk,
    encode_block oversized_rows [] = Ok blk /\
    2 ^ 32 <= Z.of_nat (length blk) /\
    (exists consumed rows',
       decode_block (fun _ => true) blk (Z.of_nat (length blk)) [] = Ok (consumed, rows')) /\
    (32 < length oversized_rows)%nat /\
    side (nth 32 oversized_rows zero_row) mod 2 = 0 /\
    forall check_magic src_len rows_out consumed rows',
      decode_block check_magic blk src_len rows_out = Ok (consumed, rows') ->
      length rows' = length oversized_rows /\ side (nth 32 rows' zero_row) = 1.
Proof.
  assert (Hn : Z.of_nat (Z.to_nat (2 ^ 30 - 1)) = 2 ^ 30 - 1) by (apply Z2Nat.id; lia).
  destruct (wide_block_side (Z.to_nat (2 ^ 30 - 1)) Hn)
    as (blk & Henc & Hlen & Hret & Hdec).
  exists blk. split; [exact Henc|]. split; [exact Hlen|]. split; [exact Hret|].
  split.
  { unfold oversized_rows. rewrite repeat_length. apply Nat2Z.inj_lt.
    rewrite Hn. reflexivity. }
  split.
  2:{ intros cm src_len rows_out consumed rows' Hd.
      unfold oversized_rows. rewrite repeat_length.
      exact (Hdec cm src_len rows_out consumed rows' Hd). }
  unfold oversized_rows.
  destruct (nth_in_or_default 32 (repeat wide_row (Z.to_nat (2 ^ 30 - 1))) zero_row)
    as [Hin | ->]; [|reflexivity].
  apply repeat_spec in Hin. rewrite Hin. reflexivity.
Qed.

Import Schemas Writer.

Section HeaderLayout.

Lemma align_to_multiple k a : 0 < a -> align_to (k * a) a = k * a.
  Proof.
    intros Ha. unfold align_to.
    replace (k * a + a - 1) with (a - 1 + k * a) by lia.
    rewrite Z.div_add by lia. rewrite (Z.div_small (a - 1)) by lia. lia.
  Qed.

  (** The header is 256 bytes for every column count that leaves room
      for the pad array, with no padding inserted by the compiler. *)
Lemma header_size_256 cols :
    0 <= cols <= 12 ->
    place (header_members cols) 0 = 256 /\
    sizeof_struct 64 (header_members cols) = 256 /\
    0 < pad_len cols.
  Proof.
    intros Hc.
    assert (Hp : place (header_members cols) 0 = 256).
    { unfold header_members. cbn [place m_elem m_count].
      change (align_to 0 1 + 1 * 6) with 6.
      change (align_to 6 2 + 2 * 1) with 8.
      change (align_to 8 2 + 2 * 1) with 10.
      change (align_to 10 2 + 2 * 1) with 12.
      change (align_to 12 4 + 4 * 1) with 16.
      change (align_to 16 1 + 1 * 16) with 32.
      change (align_to 32 8 + 8 * 1) with 40.
      change (align_to 40 8 + 8 * 1) with 48.
      change (align_to 48 8 + 8 * 1) with 56.
      change 56 with (7 * 8) at 1. rewrite align_to_multiple by lia.
      replace (7 * 8 + 8 * cols) with ((7 + cols) * 8) by lia.
      rewrite align_to_multiple by lia.
      replace ((7 + cols) * 8 + 8 * cols) with ((56 + 16 * cols) * 1) by lia.
      rewrite align_to_multiple by lia. unfold pad_len. lia. }
    split; [exact Hp|]. split.
    - unfold sizeof_struct. rewrite Hp. reflexivity.
    - unfold pad_len. lia.
  Qed.

  (** C9. For every schema of the registry (4, 6, 2, 2 and 3 columns)
      the column-file header type occupies exactly 256 bytes; the
      trailing pad is what remains after the 56 fixed bytes and the
      16 bytes per column of offsets and sizes. *)
Theorem col_header_is_256_bytes :
    map COLS registry = [4; 6; 2; 2; 3]%nat /\
    Forall (fun S =>
              sizeof_header S = 256 /\
              pad_len (Z.of_nat (COLS S)) = 200 - 16 * Z.of_nat (COLS S) /\
              0 < pad_len (Z.of_nat (COLS S)) /\
              length (header_image (COLS S) (zero_header (COLS S))) = 256%nat)
           registry.
  Proof.
    split; [reflexivity|].
    repeat constructor; try reflexivity.
  Qed.

End HeaderLayout.

Section Sums.

Lemma sumZ_nonneg l : Forall (fun x => 0 <= x) l -> 0 <= sumZ l.
  Proof. induction 1; cbn [sumZ]; lia. Qed.

Lemma sumZ_app a b : sumZ (a ++ b) = sumZ a + sumZ b.
  Proof. induction a as [|x a IH]; cbn [app sumZ]; lia. Qed.

Lemma sumZ_firstn_le l k :
    Forall (fun x => 0 <= x) l -> sumZ (firstn k l) <= sumZ l.
  Proof.
    intros H. rewrite <- (firstn_skipn k l) at 2. rewrite sumZ_app.
    assert (0 <= sumZ (skipn k l)).
    { apply sumZ_nonneg. rewrite <- (firstn_skipn k l) in H.
      apply Forall_app in H. apply H. }
    lia.
  Qed.

Lemma fold_u64_small l : forall a,
    Forall (fun x => 0 <= x) l -> 0 <= a -> a + sumZ l < 2 ^ 64 ->
    fold_left (fun a x => u64 (a + x)) l a = a + sumZ l.
  Proof.
    induction l as [|x l IH]; intros a Hl Ha Hb; cbn [fold_left sumZ] in *; [lia|].
    inversion Hl; subst.
    pose proof (sumZ_nonneg l H2).
    rewrite u64_small by lia. rewrite IH; try assumption; lia.
  Qed.

Lemma sum_u64_small l :
    Forall (fun x => 0 <= x) l -> sumZ l < 2 ^ 64 -> sum_u64 l = sumZ l.
  Proof. intros. unfold sum_u64. rewrite fold_u64_small; auto; lia. Qed.

Lemma col_offsets_length szs : forall off, length (col_offsets off szs) = length szs.
  Proof. induction szs; intros; cbn [col_offsets length]; auto. Qed.

Lemma col_offsets_nth szs : forall off c d,
    Forall (fun x => 0 <= x) szs -> 0 <= off -> off + sumZ szs < 2 ^ 64 ->
    (c < length szs)%nat ->
    nth c (col_offsets off szs) d = off + sumZ (firstn c szs).
  Proof.
    induction szs as [|sz szs IH]; intros off c d Hs Ho Hb Hc; [cbn in Hc; lia|].
    inversion Hs; subst. cbn [sumZ] in Hb.
    pose proof (sumZ_nonneg szs H2).
    destruct c as [|c]; cbn [col_offsets nth firstn sumZ]; [lia|].
    rewrite u64_small by lia.
    rewrite IH; try assumption; try lia. cbn [length] in Hc. lia.
  Qed.

End Sums.

Section WriterFacts.

  Variable S : Schema.
  Variable base_dir product_name : string.
  Variable fsync_every_rows : Z.
  Variable date_string : Z -> string.
  Hypothesis HS : schema_ok S.

  Local Abbreviation State := (State S).
  Local Abbreviation step := (step S base_dir product_name fsync_every_rows date_string).
  Local Abbreviation append_row := (append_row S fsync_every_rows).
  Local Abbreviation rotate_to_day := (rotate_to_day S base_dir product_name date_string).
  Local Abbreviation open_day_file := (open_day_file S base_dir product_name date_string).
  Local Abbreviation day_path := (day_path base_dir product_name date_string).
  Local Abbreviation width_before := (Writer.width_before S).
  Local Abbreviation row_width := (Writer.row_width S).
  Local Abbreviation live_at := (Writer.live_at S).
  Local Abbreviation healthy := (Writer.healthy S).
  Local Abbreviation same_counters := (Writer.same_counters S).

Lemma elem_sizes_range : Forall (fun w => 0 <= w <= 8) (elem_sizes S).
  Proof.
    unfold elem_sizes, cols. apply Forall_forall. intros w Hw.
    apply in_map_iff in Hw. destruct Hw as (c & <- & Hc).
    apply in_seq in Hc. apply HS. lia.
  Qed.

Lemma length_elem_sizes : length (elem_sizes S) = COLS S.
  Proof. unfold elem_sizes, cols. now rewrite length_map, length_seq. Qed.

Lemma sumZ_bound l :
    Forall (fun w => 0 <= w <= 8) l -> 0 <= sumZ l <= 8 * Z.of_nat (length l).
  Proof. induction 1; cbn [sumZ length]; lia. Qed.

Lemma row_width_range : 0 <= row_width <= 96.
  Proof.
    pose proof (sumZ_bound _ elem_sizes_range) as H.
    rewrite length_elem_sizes in H. destruct HS as (Hc & _). unfold row_width. lia.
  Qed.

Lemma col_bytes_scaled cap :
    0 <= cap < 2 ^ 56 -> col_bytes S cap = map (fun w => cap * w) (elem_sizes S).
  Proof.
    intros Hcap. unfold col_bytes, elem_sizes. rewrite map_map.
    apply map_ext_in. intros c Hc. unfold cols in Hc. apply in_seq in Hc.
    destruct HS as (_ & Hw & _). specialize (Hw c ltac:(lia)).
    apply u64_small. split; [nia|].
    assert (cap * col_size S (Z.of_nat c) <= cap * 8) by nia.
    assert (2 ^ 56 * 8 < 2 ^ 64) by (cbn; lia). lia.
  Qed.

Lemma sumZ_scaled cap l : sumZ (map (fun w => cap * w) l) = cap * sumZ l.
  Proof. induction l as [|x l IH]; cbn [map sumZ]; lia. Qed.

Lemma firstn_scaled cap c l :
    firstn c (map (fun w => cap * w) l) = map (fun w => cap * w) (firstn c l).
  Proof. apply firstn_map. Qed.

Lemma scaled_nonneg cap l :
    0 <= cap -> Forall (fun w => 0 <= w <= 8) l ->
    Forall (fun x => 0 <= x) (map (fun w => cap * w) l).
  Proof.
    intros Hc H. apply Forall_forall. intros x Hx. apply in_map_iff in Hx.
    destruct Hx as (w & <- & Hw). rewrite Forall_forall in H. specialize (H w Hw). nia.
  Qed.

  (** Where column [c] starts in a file laid out for [cap] rows. *)
Lemma col_ptr_at cap c :
    0 <= cap < 2 ^ 56 -> (c < COLS S)%nat ->
    nth c (map Some (col_offsets HEADER_SZ (col_bytes S cap))) None
    = Some (HEADER_SZ + cap * width_before c).
  Proof.
    intros Hcap Hc.
    pose proof row_width_range as Hrw. unfold row_width in Hrw.
    rewrite col_bytes_scaled by exact Hcap.
    assert (Hlen : (c < length (col_offsets HEADER_SZ
                                  (map (fun w => (cap * w)%Z) (elem_sizes S))))%nat)
      by (rewrite col_offsets_length, length_map, length_elem_sizes; exact Hc).
    rewrite (nth_indep _ None (Some 0)) by (rewrite length_map; exact Hlen).
    rewrite map_nth. f_equal.
    rewrite col_offsets_nth.
    - rewrite firstn_scaled, sumZ_scaled. reflexivity.
    - apply scaled_nonneg; [lia | apply elem_sizes_range].
    - unfold HEADER_SZ. lia.
    - rewrite sumZ_scaled. unfold HEADER_SZ.
      assert (cap * sumZ (elem_sizes S) <= 2 ^ 56 * 96) by nia.
      assert (2 ^ 56 * 96 + 256 < 2 ^ 64) by (cbn; lia). lia.
    - rewrite length_map, length_elem_sizes. exact Hc.
  Qed.

Lemma file_bytes_at cap :
    0 <= cap < 2 ^ 56 ->
    u64 (HEADER_SZ + sum_u64 (col_bytes S cap)) = HEADER_SZ + cap * row_width.
  Proof.
    intros Hcap. pose proof row_width_range as Hrw. unfold row_width in *.
    assert (Hb : 2 ^ 56 * 96 + 256 < 2 ^ 64) by (cbn; lia).
    assert (cap * sumZ (elem_sizes S) <= 2 ^ 56 * 96) by nia.
    rewrite col_bytes_scaled by exact Hcap.
    rewrite sum_u64_small.
    - rewrite sumZ_scaled. apply u64_small. unfold HEADER_SZ. nia.
    - apply scaled_nonneg; [lia | apply elem_sizes_range].
    - rewrite sumZ_scaled. lia.
  Qed.

  (** Column [c] and the columns after it fill the rest of the file. *)
Lemma width_split c :
    (c < COLS S)%nat ->
    width_before c + col_size S (Z.of_nat c) <= row_width.
  Proof.
    intros Hc. unfold width_before, row_width.
    pose proof elem_sizes_range as Hr.
    rewrite <- (firstn_skipn c (elem_sizes S)) at 2. rewrite sumZ_app.
    assert (Hsk : skipn c (elem_sizes S)
                  = col_size S (Z.of_nat c) :: skipn (Datatypes.S c) (elem_sizes S)).
    { unfold elem_sizes, cols. rewrite !skipn_map.
      rewrite !skipn_seq. replace (COLS S - c)%nat with (Datatypes.S (COLS S - Datatypes.S c)) by lia.
      cbn [seq map]. do 3 f_equal; lia. }
    rewrite Hsk. cbn [sumZ].
    assert (0 <= sumZ (skipn (Datatypes.S c) (elem_sizes S))).
    { apply sumZ_nonneg. pose proof Hr as Hr'.
      rewrite <- (firstn_skipn (Datatypes.S c) (elem_sizes S)) in Hr'.
      apply Forall_app in Hr'. destruct Hr' as [_ Hr'].
      eapply Forall_impl; [|exact Hr']. cbv beta. intros; lia. }
    lia.
  Qed.

  (** ** The header image *)

Lemma length_fit k l : length (fit k l) = k.
  Proof. unfold fit. rewrite length_firstn, length_app, repeat_length. lia. Qed.

Lemma length_flat_le8 l : length (flat_map (le_bytes 8) l) = (8 * length l)%nat.
  Proof.
    induction l as [|x l IH]; [reflexivity|].
    cbn [flat_map]. rewrite length_app, length_le_bytes, IH. cbn [length]. lia.
  Qed.

Lemma length_header_image h : length (header_image (COLS S) h) = 256%nat.
  Proof.
    destruct HS as (Hc & _). unfold header_image.
    rewrite !length_app, !length_fit, !length_le_bytes, !length_flat_le8,
      !length_fit, repeat_length.
    unfold pad_len. lia.
  Qed.

  (** ** Stores through the mapping *)

Lemma mapped_store_ok st p f off bs :
    base_ st = Live -> fd_ st = Some p -> disk st p = Some f ->
    0 <= off -> off + Z.of_nat (length bs) <= map_bytes_ st ->
    mapped_store S st off bs
    = Done (set_disk S st (disk_put (disk st) p (poke f off bs))).
  Proof.
    intros Hb Hfd Hd Ho Hlen. unfold mapped_store. rewrite Hb, Hfd, Hd.
    destruct (Z.leb_spec 0 off); [|lia].
    destruct (Z.leb_spec (off + Z.of_nat (length bs)) (map_bytes_ st)); [|lia].
    reflexivity.
  Qed.

Lemma disk_put_same d p f : disk_put d p f p = Some f.
  Proof. unfold disk_put. now rewrite String.eqb_refl. Qed.

Lemma disk_put_other d p f q : q <> p -> disk_put d p f q = d q.
  Proof.
    intros Hq. unfold disk_put. destruct (String.eqb_spec q p); [contradiction | reflexivity].
  Qed.

Lemma live_at_set_disk st p cap d' f' :
    live_at st p cap -> d' p = Some f' -> live_at (set_disk S st d') p cap.
  Proof.
    intros (H1 & H2 & H3 & H4 & H5 & H6) Hd.
    unfold live_at. cbn. repeat split; try assumption. now exists f'.
  Qed.

Lemma mapped_store_live st p cap off bs :
    live_at st p cap -> 0 <= off -> off + Z.of_nat (length bs) <= map_bytes_ st ->
    exists f,
      disk st p = Some f /\
      mapped_store S st off bs
      = Done (set_disk S st (disk_put (disk st) p (poke f off bs))) /\
      live_at (set_disk S st (disk_put (disk st) p (poke f off bs))) p cap.
  Proof.
    intros Hl Ho Hlen. pose proof Hl as (H1 & H2 & (f & H3) & _).
    exists f. split; [exact H3|]. split.
    - now apply mapped_store_ok.
    - eapply live_at_set_disk; [exact Hl | apply disk_put_same].
  Qed.

  (** [write_row_to_cols] at an index below the capacity stays inside
      the mapping, and touches the open file only. *)
Lemma write_stores_live stores : forall st p cap idx,
    live_at st p cap -> 0 <= cap < 2 ^ 56 -> 0 <= idx < cap ->
    (forall c bs, In (c, bs) stores ->
       (c < COLS S)%nat /\ Z.of_nat (length bs) = col_size S (Z.of_nat c)) ->
    exists d',
      write_stores S stores idx st = Done (set_disk S st d') /\
      live_at (set_disk S st d') p cap /\
      (forall q, q <> p -> d' q = disk st q).
  Proof.
    induction stores as [|[c bs] stores IH]; intros st p cap idx Hl Hcap Hidx Hs.
    - exists (disk st). cbn [write_stores]. split; [|split].
      + destruct st; reflexivity.
      + pose proof Hl as (_ & _ & (f & H3) & _).
        eapply live_at_set_disk; [exact Hl | exact H3].
      + reflexivity.
    - cbn [write_stores].
      destruct (Hs c bs (or_introl eq_refl)) as (Hc & Hw).
      pose proof Hl as (H1 & H2 & _ & H4 & H5 & H6).
      rewrite H6, (col_ptr_at cap c Hcap Hc).
      pose proof (width_split c Hc) as Hsplit.
      assert (Hwb : 0 <= width_before c).
      { unfold width_before. apply sumZ_nonneg.
        pose proof elem_sizes_range as Hr.
        rewrite <- (firstn_skipn c (elem_sizes S)) in Hr.
        apply Forall_app in Hr. destruct Hr as [Hr _].
        eapply Forall_impl; [|exact Hr]. cbv beta; intros; lia. }
      destruct (mapped_store_live st p cap
                  (HEADER_SZ + cap * width_before c + idx * Z.of_nat (length bs)) bs Hl)
        as (f & Hf & Hst & Hl').
      { unfold HEADER_SZ. nia. }
      { rewrite H5, Hw. unfold HEADER_SZ. destruct HS as (_ & Hcs & _).
        specialize (Hcs c Hc). nia. }
      rewrite Hst.
      destruct (IH _ p cap idx Hl' Hcap Hidx) as (d' & Hw' & Hl'' & Hoth).
      { intros c' bs' Hin. apply Hs. now right. }
      exists d'. split; [exact Hw' | split; [exact Hl''|]].
      intros q Hq. rewrite (Hoth q Hq). cbn. now apply disk_put_other.
  Qed.

  (** ** The operations on a healthy state *)

Lemma header_bound cap : 0 <= cap < 2 ^ 56 -> 256 <= HEADER_SZ + cap * row_width.
  Proof. intros. pose proof row_width_range. unfold HEADER_SZ. nia. Qed.

Lemma update_rows_live st p cap :
    live_at st p cap -> 0 <= cap < 2 ^ 56 ->
    exists st',
      update_rows_in_header S st = Done st' /\ live_at st' p cap /\
      same_counters st st' /\ col_ptrs_ st' = col_ptrs_ st /\
      rows (hdr_ st') = rows_ st /\
      (forall q, q <> p -> disk st' q = disk st q).
  Proof.
    intros Hl Hcap. pose proof Hl as (H1 & H2 & (f & H3) & H4 & H5 & H6).
    unfold update_rows_in_header. rewrite H1.
    match goal with
    | |- exists st', mapped_store S ?s1 0 ?img = _ /\ _ =>
        assert (Hl1 : live_at s1 p cap)
          by (unfold live_at; cbn; repeat split; try assumption; now exists f);
        destruct (mapped_store_live s1 p cap 0 img Hl1) as (f1 & Hf1 & Hst & Hl2)
    end.
    - lia.
    - rewrite length_header_image. cbn [map_bytes_]. rewrite H5.
      pose proof (header_bound cap Hcap). lia.
    - eexists. split; [exact Hst|]. split; [exact Hl2|].
      repeat split; try reflexivity.
      intros q Hq. cbn. now apply disk_put_other.
  Qed.

Lemma update_rows_healthy st :
    healthy st -> (forall p cap, live_at st p cap -> 0 <= cap < 2 ^ 56) ->
    exists st',
      update_rows_in_header S st = Done st' /\ healthy st' /\
      same_counters st st' /\ base_ st' = base_ st.
  Proof.
    intros [Hn | (p & cap & Hl)] Hcap.
    - exists st. unfold update_rows_in_header. rewrite Hn.
      repeat split; try reflexivity. now left.
    - destruct (update_rows_live st p cap Hl (Hcap p cap Hl))
        as (st' & E & Hl' & Hc & _).
      exists st'. repeat split; try apply Hc; try exact E.
      + right. now exists p, cap.
      + destruct Hl as (-> & _). destruct Hl' as (-> & _). reflexivity.
  Qed.

Lemma close_file_fields st :
    base_ (close_file S st) = Null /\
    dropped_ (close_file S st) = dropped_ st /\
    day_start_ (close_file S st) = day_start_ st /\
    since_fsync (close_file S st) = since_fsync st /\
    disk (close_file S st) = disk st.
  Proof.
    unfold close_file. destruct (base_ st) eqn:E; cbn; repeat split; try reflexivity.
    exact E.
  Qed.

Lemma first_capacity_range : 0 < first_capacity < 2 ^ 56.
  Proof. unfold first_capacity, rows_per_hr. cbn. lia. Qed.

  (** [open_day_file] with working system calls, from any state. *)
Lemma open_day_file_ok st day_s :
    exists st',
      open_day_file all_ok st day_s = Done (st', true) /\
      live_at st' (day_path day_s) first_capacity /\
      rows_ st' = 0 /\ dropped_ st' = dropped_ st /\
      day_start_ st' = day_start_ st /\ since_fsync st' = since_fsync st /\
      hour_epoch_start (hdr_ st') = day_start_ st /\
      (forall q, q <> day_path day_s -> disk st' q = disk st q).
  Proof.
    pose proof first_capacity_range as Hcap.
    unfold Writer.open_day_file. cbn [all_ok mkdir_ok open_ok prealloc_ok mmap_ok negb].
    cbv zeta.
    assert (Ecap : u64 (rows_per_hr * 2) = first_capacity) by reflexivity.
    rewrite Ecap. rewrite (file_bytes_at first_capacity) by lia.
    match goal with
    | |- exists st', match mapped_store S ?s2 0 ?img with _ => _ end = _ /\ _ =>
        assert (Hl2 : live_at s2 (day_path day_s) first_capacity)
    end.
    { unfold live_at. cbn. repeat split; try reflexivity.
      eexists. apply disk_put_same. }
    match goal with
    | |- exists st', match mapped_store S ?s2 0 ?img with _ => _ end = _ /\ _ =>
        destruct (mapped_store_live s2 (day_path day_s) first_capacity 0 img Hl2)
          as (f1 & Hf1 & Hst & Hl3)
    end.
    - lia.
    - rewrite length_header_image. cbn [map_bytes_].
      pose proof (header_bound first_capacity ltac:(lia)). lia.
    - rewrite Hst. eexists. split; [reflexivity|]. split; [exact Hl3|].
      repeat split; try reflexivity.
      intros q Hq. cbn. rewrite !disk_put_other by exact Hq. reflexivity.
  Qed.

  (** [rotate_to_day] to another day, with working system calls. *)
Lemma rotate_to_day_ok st day_s :
    healthy st -> (forall p cap, live_at st p cap -> 0 <= cap < 2 ^ 56) ->
    day_start_ st <> day_s ->
    exists st',
      rotate_to_day all_ok st day_s = Done (st', true) /\
      live_at st' (day_path day_s) first_capacity /\
      rows_ st' = 0 /\ dropped_ st' = dropped_ st /\
      day_start_ st' = day_s /\ since_fsync st' = since_fsync st.
  Proof.
    intros Hh Hcap Hd. unfold Writer.rotate_to_day.
    destruct (Z.eqb_spec (day_start_ st) day_s) as [|_]; [contradiction|].
    destruct (update_rows_healthy st Hh Hcap) as (st1 & E & _ & (Hr & Hdr & Hds & Hsf) & _).
    rewrite E.
    destruct (close_file_fields st1) as (_ & Cd & _ & Csf & _).
    destruct (open_day_file_ok (set_day_start S (close_file S st1) day_s) day_s)
      as (st' & E' & Hl & H0 & Hdrop & Hday & Hsfs & _).
    exists st'. split; [exact E'|]. split; [exact Hl|].
    cbn in Hdrop, Hday, Hsfs. repeat split; try assumption; congruence.
  Qed.

  (** Appending below the capacity: the row goes to index [rows_],
      nothing is dropped and the file stays open. *)
Lemma append_row_ok sys st p cap row :
    live_at st p cap -> 0 <= cap < 2 ^ 56 -> 0 <= rows_ st < cap ->
    exists st',
      append_row sys st row = Done st' /\ live_at st' p cap /\
      rows_ st' = rows_ st + 1 /\ dropped_ st' = dropped_ st /\
      day_start_ st' = day_start_ st /\
      (forall q, q <> p -> disk st' q = disk st q).
  Proof.
    intros Hl Hcap Hr. unfold Writer.append_row. cbv zeta.
    set (st1 := set_counters S st (u64 (rows_ st + 1)) (dropped_ st) (since_fsync st)).
    assert (Hl1 : live_at st1 p cap).
    { destruct Hl as (H1 & H2 & H3 & H4 & H5 & H6). unfold live_at. cbn.
      repeat split; assumption. }
    assert (Hc1 : capacity_ st1 = cap) by (destruct Hl as (_ & _ & _ & H4 & _); exact H4).
    rewrite Hc1. destruct (Z.leb_spec cap (rows_ st)); [lia|].
    destruct HS as (_ & _ & Hst).
    destruct (write_stores_live (row_stores S row) st1 p cap (rows_ st) Hl1 Hcap Hr
                (Hst row)) as (d' & Ew & Hl2 & Hoth).
    unfold write_row_to_cols. rewrite Ew.
    assert (Hrows : u64 (rows_ st + 1) = rows_ st + 1)
      by (apply u64_small; assert (2 ^ 56 < 2 ^ 64) by (cbn; lia); lia).
    destruct (Z.eqb_spec fsync_every_rows 0) as [_ | _].
    - eexists. split; [reflexivity|]. split; [exact Hl2|].
      cbn. repeat split; try reflexivity; try exact Hrows. exact Hoth.
    - destruct (Z.leb_spec fsync_every_rows (u32 (since_fsync (set_disk S st1 d') + 1))).
      + destruct (update_rows_live _ p cap Hl2 Hcap)
          as (st4 & E4 & Hl4 & (R4 & D4 & Y4 & _) & _ & _ & Hoth4).
        rewrite E4. eexists. split; [reflexivity|]. split.
        * destruct Hl4 as (H1 & H2 & H3 & H4 & H5 & H6). unfold live_at. cbn.
          repeat split; assumption.
        * cbn. cbn in R4, D4, Y4. rewrite R4, D4, Y4.
          repeat split; try reflexivity; try exact Hrows.
          intros q Hq. rewrite (Hoth4 q Hq). cbn. now apply Hoth.
      + eexists. split; [reflexivity|]. split.
        * destruct Hl2 as (H1 & H2 & H3 & H4 & H5 & H6). unfold live_at. cbn.
          repeat split; assumption.
        * cbn. repeat split; try reflexivity; try exact Hrows. exact Hoth.
  Qed.

  (** The counters after a rotation: a row whose partition day
      differs from [day_start_], be it earlier or later, makes the
      writer rotate, from a writer with no file open or a live one. *)
Lemma step_rotation_counters st row :
    healthy st -> (forall p cap, live_at st p cap -> 0 <= cap < 2 ^ 56) ->
    day_from_hour (hour_from_row S row) <> day_start_ st ->
    exists st',
      step all_ok st row = Done st' /\
      day_start_ st' = day_from_hour (hour_from_row S row) /\
      fd_ st' = Some (day_path (day_from_hour (hour_from_row S row))) /\
      rows_ st' = 1 /\ dropped_ st' = dropped_ st.
  Proof.
    intros Hh Hcap Hd. unfold Writer.step. cbv zeta.
    set (d := day_from_hour (hour_from_row S row)) in *.
    destruct (Z.eqb_spec d (day_start_ st)) as [|_]; [contradiction|]. cbn [negb].
    destruct (rotate_to_day_ok st d Hh Hcap ltac:(congruence))
      as (st1 & E & Hl & H0 & Hdrop & Hday & _).
    rewrite E.
    pose proof first_capacity_range as Hfc.
    destruct (append_row_ok all_ok st1 (day_path d) first_capacity row Hl ltac:(lia) ltac:(lia))
      as (st2 & E2 & Hl2 & Hr2 & Hd2 & Hy2 & _).
    exists st2. split; [exact E2|].
    destruct Hl2 as (_ & Hfd & _). repeat split; try assumption; congruence || lia.
  Qed.

  (** A row of the open day never rotates. *)
Lemma step_same_day sys st row :
    day_from_hour (hour_from_row S row) = day_start_ st ->
    step sys st row = append_row sys st row.
  Proof.
    intros Hd. unfold Writer.step. cbv zeta. rewrite Hd, Z.eqb_refl. reflexivity.
  Qed.

  (** ** A rotation that fails *)

Lemma open_day_file_fails sys st day_s :
    some_call_fails sys -> base_ st = Null ->
    exists st',
      open_day_file sys st day_s = Done (st', false) /\
      base_ st' = Null /\ rows_ st' = rows_ st /\ dropped_ st' = dropped_ st /\
      day_start_ st' = day_start_ st /\ capacity_ st' = first_capacity.
  Proof.
    intros Hf Hb. unfold some_call_fails in Hf. unfold Writer.open_day_file. cbv zeta.
    destruct (mkdir_ok sys); cbn [negb].
    2: { eexists. split; [reflexivity|]. cbn. repeat split; try reflexivity. exact Hb. }
    destruct (open_ok sys); cbn [negb].
    2: { eexists. split; [reflexivity|]. cbn. repeat split; try reflexivity. exact Hb. }
    destruct (prealloc_ok sys); cbn [negb].
    2: { eexists. split; [reflexivity|]. cbn. repeat split; try reflexivity. exact Hb. }
    destruct (mmap_ok sys); cbn [negb]; [discriminate Hf|].
    eexists. split; [reflexivity|]. cbn. repeat split; reflexivity.
  Qed.

Lemma write_stores_not_live stores idx st :
    stores <> [] -> base_ st <> Live -> write_stores S stores idx st = Fault.
  Proof.
    intros Hne Hb. destruct stores as [|[c bs] stores]; [congruence|].
    cbn [write_stores]. destruct (nth c (col_ptrs_ st) None); [|reflexivity].
    unfold mapped_store. destruct (base_ st); try reflexivity. congruence.
  Qed.

  (** C4 (the code departs from it).  When a rotation fails, the row
      that caused it is dropped and counted, but the day is recorded
      as open all the same: the next row of that day skips the
      rotation and is stored through the null column pointers, which
      is undefined behaviour, whatever the system calls would return
      by then. *)
Theorem failed_rotation_then_fault st sys1 sys2 row1 row2 :
    healthy st -> (forall p cap, live_at st p cap -> 0 <= cap < 2 ^ 56) ->
    0 <= rows_ st < first_capacity ->
    day_from_hour (hour_from_row S row1) <> day_start_ st ->
    some_call_fails sys1 ->
    day_from_hour (hour_from_row S row2) = day_from_hour (hour_from_row S row1) ->
    row_stores S row2 <> [] ->
    exists st1,
      step sys1 st row1 = Done st1 /\
      dropped_ st1 = u64 (dropped_ st + 1) /\
      day_start_ st1 = day_from_hour (hour_from_row S row1) /\
      step sys2 st1 row2 = Fault.
  Proof.
    intros Hh Hcap Hrows Hd Hfail Hsame Hst.
    set (d := day_from_hour (hour_from_row S row1)) in *.
    unfold Writer.step at 1. cbv zeta. fold d.
    destruct (Z.eqb_spec d (day_start_ st)) as [|_]; [contradiction|]. cbn [negb].
    unfold Writer.rotate_to_day.
    destruct (Z.eqb_spec (day_start_ st) d) as [|_]; [congruence|].
    destruct (update_rows_healthy st Hh Hcap) as (st0 & E & _ & (Hr & Hdr & _) & Hb0).
    rewrite E.
    destruct (close_file_fields st0) as (Cb & Cd & _).
    destruct (open_day_file_fails sys1 (set_day_start S (close_file S st0) d) d Hfail)
      as (st1 & E1 & Hb1 & Hr1 & Hd1 & Hy1 & Hc1).
    { cbn. exact Cb. }
    rewrite E1. exists (drop_row S st1). split; [reflexivity|].
    cbn in Hr1, Hd1, Hy1.
    split; [cbn; congruence|]. split; [cbn; congruence|].
    rewrite step_same_day by (cbn; congruence).
    unfold Writer.append_row. cbv zeta.
    assert (Hrw : 0 <= rows_ st1 < first_capacity).
    { rewrite Hr1. pose proof first_capacity_range.
      unfold close_file. destruct (base_ st0); cbn -[first_capacity]; lia. }
    cbn [drop_row set_counters capacity_ rows_ dropped_ since_fsync]. rewrite Hc1.
    destruct (Z.leb_spec first_capacity (rows_ st1)); [lia|].
    unfold write_row_to_cols. rewrite write_stores_not_live; [reflexivity | exact Hst |].
    cbn. rewrite Hb1. discriminate.
  Qed.

  (** ** grow_file *)

  (** [grow_file] changes neither the row counter nor the dropped
      counter, whatever it returns. *)
Lemma mapped_store_inv st off bs st' :
    mapped_store S st off bs = Done st' -> exists d, st' = set_disk S st d.
  Proof.
    unfold mapped_store. destruct (base_ st); try discriminate.
    destruct (fd_ st) as [p|]; [|discriminate].
    destruct (disk st p) as [f|]; [|discriminate].
    destruct ((0 <=? off) && (off + Z.of_nat (length bs) <=? map_bytes_ st));
      [|discriminate].
    intros [= <-]. eexists. reflexivity.
  Qed.

Lemma grow_file_keeps_counters sys st st' b :
    grow_file S sys st = Done (st', b) ->
    rows_ st' = rows_ st /\ dropped_ st' = dropped_ st /\ day_start_ st' = day_start_ st.
  Proof.
    unfold grow_file. cbv zeta.
    destruct (if prealloc_ok sys then open_file S st else None) as [f|];
      [destruct (fd_ st) as [path|] | ].
    - destruct (mmap_ok sys); cbn [negb].
      + match goal with
        | |- match mapped_store S ?s ?o ?i with _ => _ end = _ -> _ =>
            destruct (mapped_store S s o i) as [st3|] eqn:E; [|discriminate]
        end.
        apply mapped_store_inv in E. destruct E as (d & ->).
        intros [= <- <-]. cbn. repeat split; reflexivity.
      + intros [= <- <-]. cbn. repeat split; reflexivity.
    - intros [= <- <-]. cbn. repeat split; reflexivity.
    - intros [= <- <-]. cbn. repeat split; reflexivity.
  Qed.

End WriterFacts.

Section WriterSamplesFacts.

  Import WriterSamples.

Ltac schema_ok_tac :=
  split; [apply Nat.leb_le; reflexivity|]; split;
  [ intros c Hc; apply Nat.ltb_lt in Hc;
    do 6 (destruct c as [|c]; [vm_compute; split; discriminate|]);
    vm_compute in Hc; discriminate Hc
  | intros r c bs Hin; cbn [row_stores In] in Hin;
    repeat (destruct Hin as [Hin | Hin];
            [apply pair_eq_inv in Hin; destruct Hin as [<- <-];
             split; [apply Nat.ltb_lt; reflexivity | rewrite length_le_bytes; reflexivity]|]);
    contradiction ].

Lemma l2_schema_ok : schema_ok L2.schema.
Proof. unfold schema_ok, L2.schema. schema_ok_tac. Qed.

Lemma registry_schema_ok : Forall schema_ok registry.
Proof.
  unfold registry, schema_ok, L2.schema, L3.schema, Imbalance.schema, Vwap.schema, Voi.schema.
  do 5 (apply Forall_cons; [cbv beta; schema_ok_tac|]). apply Forall_nil.
Qed.

  (** C5 at a concrete input: with the file of 1970-01-02 open, a row
      of 1970-01-01 closes it and opens 19700101.bin, where the row
      becomes row 0. *)
Lemma writer_rotates_to_earlier_day :
    match l2_step all_ok fresh late_row with
    | Done st1 =>
        fd_ st1 = Some "/data/BTC/19700102.bin"%string /\
        day_start_ st1 = 86400 /\
        Writer.day_from_hour (hour_from_row L2.schema early_row) < day_start_ st1 /\
        match l2_step all_ok st1 early_row with
        | Done st2 =>
            fd_ st2 = Some "/data/BTC/19700101.bin"%string /\
            day_start_ st2 = 0 /\ rows_ st2 = 1 /\
            read_row_from_cols L2.schema st2 0 = Some early_row
        | Fault => False
        end
    | Fault => False
    end.
  Proof. vm_compute. repeat split; reflexivity. Qed.

  (** C3 at a concrete input: one row is written, then [grow_file]
      succeeds.  The row counter is unchanged, but the price column
      now starts where the side column was and the row reads back
      with price 1 (the old side byte), quantity 0 and side 0. *)
Example grow_file_moves_the_columns :
    match l2_step all_ok fresh late_row with
    | Done st1 =>
        read_row_from_cols L2.schema st1 0 = Some late_row /\
        match grow_file L2.schema all_ok st1 with
        | Done (st2, grown) =>
            grown = true /\ rows_ st2 = rows_ st1 /\
            capacity_ st2 = 2 * capacity_ st1 /\
            read_row_from_cols L2.schema st2 0
              = Some (L2.mkRow (L2.ts_ns late_row) 1 0 0) /\
            read_row_from_cols L2.schema st2 0 <> Some late_row
        | Fault => False
        end
    | Fault => False
    end.
  Proof. vm_compute. repeat split; try reflexivity. discriminate. Qed.

End WriterSamplesFacts.

Lemma failed_rotation_then_fault_witness :
  exists st1,
    WriterSamples.l2_step WriterSamples.open_fails WriterSamples.fresh WriterSamples.late_row
      = Done st1 /\
    dropped_ st1 = 1 /\ day_start_ st1 = 86400 /\
    WriterSamples.l2_step all_ok st1 WriterSamples.late_row = Fault.
Proof.
  apply (failed_rotation_then_fault L2.schema "/data" "BTC" 0 Dates.utc_date_string
           l2_schema_ok WriterSamples.fresh WriterSamples.open_fails all_ok
           WriterSamples.late_row WriterSamples.late_row).
  - left. reflexivity.
  - intros p cap (Hb & _). discriminate Hb.
  - vm_compute. split; [discriminate | reflexivity].
  - vm_compute. discriminate.
  - reflexivity.
  - reflexivity.
  - discriminate.
Defined.

(* ================================================================== *)
(** * The columnar day file: header, rows, writer and reader *)
(* ================================================================== *)

Section HeaderImage.

Lemma skipn_drop {A} k n (a b : list A) :
    length a = k -> (k <= n)%nat -> skipn n (a ++ b) = skipn (n - k) b.
  Proof.
    intros <- Hn. rewrite skipn_app.
    rewrite skipn_all2 by lia. reflexivity.
  Qed.

Lemma firstn_take {A} k (a b : list A) : length a = k -> firstn k (a ++ b) = a.
  Proof.
    intros <-. rewrite firstn_app, firstn_all, Nat.sub_diag. cbn [firstn]. apply app_nil_r.
  Qed.

Lemma fit_exact k l : length l = k -> fit k l = l.
  Proof. intros H. unfold fit. now apply firstn_take. Qed.

Lemma words64_flat l : forall rest,
    Forall is_u64 l -> words64 (length l) (flat_map (le_bytes 8) l ++ rest) = l.
  Proof.
    induction l as [|x l IH]; intros rest Hl; [reflexivity|].
    inversion Hl as [|? ? Hx Hl']; subst.
    cbn [length words64 flat_map]. rewrite <- app_assoc.
    rewrite (firstn_take 8) by apply length_le_bytes.
    rewrite (skipn_drop 8 8) by (apply length_le_bytes || lia).
    cbn [Nat.sub skipn]. rewrite IH by assumption.
    rewrite le_value_le_bytes_small by (unfold is_u64 in Hx; cbn; lia).
    reflexivity.
  Qed.

Lemma header_image_inv cols h :
    header_wf cols h ->
    header_of_image cols (header_image cols h) = h.
  Proof.
    intros (Hm & Hhs & Hv & Hp16 & Hp32 & Hpr & Hh & Hr & Hcap & Hlo & Ho & Hls & Hs).
    destruct h as [m hs v p16 p32 pr he r cap co cs].
    cbn [magic header_size version pad16 _pad32 product hour_epoch_start rows capacity
         col_off col_sz] in *.
    unfold header_of_image, header_image, field.
    cbn [magic header_size version pad16 _pad32 product hour_epoch_start rows capacity
         col_off col_sz].
    rewrite (fit_exact 6 m Hm), (fit_exact 16 pr Hpr), (fit_exact cols co Hlo),
      (fit_exact cols cs Hls).
    set (tail := repeat 0 (Z.to_nat (pad_len (Z.of_nat cols)))).
    set (B2 := flat_map (le_bytes 8) cs ++ tail).
    set (B1 := flat_map (le_bytes 8) co ++ B2).
    set (Bc := le_bytes 8 cap ++ B1).
    set (Br := le_bytes 8 r ++ Bc).
    set (Bh := le_bytes 8 he ++ Br).
    set (Bp := pr ++ Bh).
    set (B32 := le_bytes 4 p32 ++ Bp).
    set (B16 := le_bytes 2 p16 ++ B32).
    set (Bv := le_bytes 2 v ++ B16).
    set (Bhs := le_bytes 2 hs ++ Bv).
    assert (S6 : skipn 6 (m ++ Bhs) = Bhs) by (rewrite (skipn_drop 6 6) by (assumption || lia); reflexivity).
    assert (S8 : skipn 8 (m ++ Bhs) = Bv).
    { rewrite (skipn_drop 6 8) by (assumption || lia). cbn [Nat.sub]. unfold Bhs.
      rewrite (skipn_drop 2 2) by (apply length_le_bytes || lia). reflexivity. }
    assert (S10 : skipn 10 (m ++ Bhs) = B16).
    { replace 10%nat with (2 + 8)%nat by reflexivity. rewrite <- skipn_skipn, S8. unfold Bv.
      rewrite (skipn_drop 2 2) by (apply length_le_bytes || lia). reflexivity. }
    assert (S12 : skipn 12 (m ++ Bhs) = B32).
    { replace 12%nat with (2 + 10)%nat by reflexivity. rewrite <- skipn_skipn, S10. unfold B16.
      rewrite (skipn_drop 2 2) by (apply length_le_bytes || lia). reflexivity. }
    assert (S16 : skipn 16 (m ++ Bhs) = Bp).
    { replace 16%nat with (4 + 12)%nat by reflexivity. rewrite <- skipn_skipn, S12. unfold B32.
      rewrite (skipn_drop 4 4) by (apply length_le_bytes || lia). reflexivity. }
    assert (S32 : skipn 32 (m ++ Bhs) = Bh).
    { replace 32%nat with (16 + 16)%nat by reflexivity. rewrite <- skipn_skipn, S16. unfold Bp.
      rewrite (skipn_drop 16 16) by (assumption || lia). reflexivity. }
    assert (S40 : skipn 40 (m ++ Bhs) = Br).
    { replace 40%nat with (8 + 32)%nat by reflexivity. rewrite <- skipn_skipn, S32. unfold Bh.
      rewrite (skipn_drop 8 8) by (apply length_le_bytes || lia). reflexivity. }
    assert (S48 : skipn 48 (m ++ Bhs) = Bc).
    { replace 48%nat with (8 + 40)%nat by reflexivity. rewrite <- skipn_skipn, S40. unfold Br.
      rewrite (skipn_drop 8 8) by (apply length_le_bytes || lia). reflexivity. }
    assert (S56 : skipn 56 (m ++ Bhs) = B1).
    { replace 56%nat with (8 + 48)%nat by reflexivity. rewrite <- skipn_skipn, S48. unfold Bc.
      rewrite (skipn_drop 8 8) by (apply length_le_bytes || lia). reflexivity. }
    assert (S2 : skipn (56 + 8 * cols) (m ++ Bhs) = B2).
    { replace (56 + 8 * cols)%nat with (8 * cols + 56)%nat by lia.
      rewrite <- skipn_skipn, S56. unfold B1.
      rewrite (skipn_drop (8 * cols) (8 * cols)); [now rewrite Nat.sub_diag | | lia].
      rewrite length_flat_le8. lia. }
    rewrite S6, S8, S10, S12, S16, S32, S40, S48, S56, S2.
    rewrite (firstn_take 6 m Bhs Hm).
    unfold Bhs, Bv, B16, B32, Bp, Bh, Br, Bc, B1, B2.
    rewrite !(firstn_take 2) by apply length_le_bytes.
    rewrite !(firstn_take 4) by apply length_le_bytes.
    rewrite !(firstn_take 8) by apply length_le_bytes.
    rewrite (firstn_take 16) by exact Hpr.
    rewrite <- Hlo at 1. rewrite words64_flat by exact Ho.
    rewrite <- Hls at 1. rewrite words64_flat by exact Hs.
    rewrite !le_value_le_bytes_small; try reflexivity;
      unfold is_u64 in *; cbn; lia.
  Qed.

  (** [memcpy] of a header into the file and back: every member
      comes back, for every header whose members are within the
      ranges of their types. *)
Theorem header_image_roundtrip cols h :
    header_wf cols h ->
    header_of_image cols (header_image cols h) = h.
  Proof. apply header_image_inv. Qed.

End HeaderImage.

Ltac unfold_cols :=
  unfold L2.COL_TS, L2.COL_PX, L2.COL_QTY, L2.COL_SIDE,
    L3.COL_ID, L3.COL_TS, L3.COL_PX, L3.COL_SZ, L3.COL_ACT, L3.COL_SIDE,
    Voi.COL_MID, Voi.COL_VOI, Voi.COL_TS, Voi.COL_COUNT in *.

Ltac columnwise_tac :=
  split;
  [ intros r; cbn [row_stores map fst]; unfold_cols;
    repeat (apply NoDup_cons; [cbn [In]; intuition discriminate|]); apply NoDup_nil |];
  split;
  [ intros r c Hc; cbn [row_stores map fst COLS] in Hc |- *; unfold_cols;
    do 6 (destruct c as [|c]; [first [solve [cbn [In]; auto 10] | exfalso; lia]|]);
    exfalso; lia
  | intros f g H; cbn [row_loads COLS col_size] in H |- *; unfold_cols;
    repeat match goal with
           | |- context [f ?c ?w] => rewrite (H c ltac:(lia) : f c w = g c w)
           end; reflexivity ].

Ltac marshals_tac H :=
  unfold marshals;
  cbn [row_loads L2.schema L3.schema Imbalance.schema Vwap.schema Voi.schema
       stored_bytes row_stores find fst Nat.eqb
       L2.COL_TS L2.COL_PX L2.COL_QTY L2.COL_SIDE
       L3.COL_ID L3.COL_TS L3.COL_PX L3.COL_SZ L3.COL_ACT L3.COL_SIDE
       Voi.COL_MID Voi.COL_VOI Voi.COL_TS];
  unfold L2.in_range, L3.in_range, Imbalance.in_range, Vwap.in_range, Voi.in_range,
    is_u64, is_u32, is_u8 in H; cbn in H;
  rewrite !le_value_le_bytes_small by (cbn; lia); reflexivity.

Section Marshalling.

Lemma registry_columnwise : Forall columnwise registry.
  Proof.
    unfold registry. repeat apply Forall_cons; try apply Forall_nil.
    - unfold columnwise, L2.schema. columnwise_tac.
    - unfold columnwise, L3.schema. columnwise_tac.
    - unfold columnwise, Imbalance.schema. columnwise_tac.
    - unfold columnwise, Vwap.schema. columnwise_tac.
    - unfold columnwise, Voi.schema. columnwise_tac.
  Qed.

Lemma l2_columnwise : columnwise L2.schema.
  Proof. pose proof registry_columnwise as H. now apply Forall_cons_iff in H. Qed.

Lemma l2_marshals r : L2.in_range r -> marshals L2.schema r.
  Proof. destruct r. intros H. marshals_tac H. Qed.

Lemma l3_marshals r : L3.in_range r -> marshals L3.schema r.
  Proof. destruct r. intros H. marshals_tac H. Qed.

Lemma imbalance_marshals r : Imbalance.in_range r -> marshals Imbalance.schema r.
  Proof. destruct r. intros H. marshals_tac H. Qed.

Lemma vwap_marshals r : Vwap.in_range r -> marshals Vwap.schema r.
  Proof. destruct r. intros H. marshals_tac H. Qed.

Lemma voi_marshals r : Voi.in_range r -> marshals Voi.schema r.
  Proof. destruct r. intros H. marshals_tac H. Qed.

  (** For the five schemas of [schemas.h]: [write_row_to_cols] stores
      one element into each column, [read_row_from_cols] reads one
      element of each column at its declared size, and a row whose
      members are within the ranges of their types is read back
      unchanged from the bytes that were stored. *)
Theorem registry_marshals :
    Forall columnwise registry /\
    (forall r, L2.in_range r -> marshals L2.schema r) /\
    (forall r, L3.in_range r -> marshals L3.schema r) /\
    (forall r, Imbalance.in_range r -> marshals Imbalance.schema r) /\
    (forall r, Vwap.in_range r -> marshals Vwap.schema r) /\
    (forall r, Voi.in_range r -> marshals Voi.schema r).
  Proof.
    split; [exact registry_columnwise|].
    split; [exact l2_marshals|]. split; [exact l3_marshals|].
    split; [exact imbalance_marshals|]. split; [exact vwap_marshals | exact voi_marshals].
  Qed.

End Marshalling.

Section Files.

Lemma map_nth_seq {A} (l : list A) d : map (fun k => nth k l d) (seq 0 (length l)) = l.
  Proof.
    apply (nth_ext _ _ d d).
    - now rewrite length_map, length_seq.
    - intros n Hn. rewrite length_map, length_seq in Hn.
      rewrite (nth_indep _ d (nth 0 l d)) by (rewrite length_map, length_seq; exact Hn).
      rewrite (map_nth (fun k => nth k l d) (seq 0 (length l)) 0%nat n).
      rewrite seq_nth by exact Hn. reflexivity.
  Qed.

Lemma peek_poke_same f off bs : peek (poke f off bs) off (length bs) = bs.
  Proof.
    unfold peek, poke. cbn [f_data].
    etransitivity; [|apply (map_nth_seq bs 0)]. apply map_ext_in. intros k Hk.
    apply in_seq in Hk.
    destruct (Z.leb_spec off (off + Z.of_nat k)); [|lia].
    destruct (Z.ltb_spec (off + Z.of_nat k) (off + Z.of_nat (length bs))); [|lia].
    cbn [andb]. f_equal. lia.
  Qed.

Lemma peek_poke_other f off bs off' n :
    off' + Z.of_nat n <= off \/ off + Z.of_nat (length bs) <= off' ->
    peek (poke f off bs) off' n = peek f off' n.
  Proof.
    intros H. unfold peek, poke. cbn [f_data]. apply map_ext_in. intros k Hk.
    apply in_seq in Hk.
    destruct (Z.leb_spec off (off' + Z.of_nat k));
      destruct (Z.ltb_spec (off' + Z.of_nat k) (off + Z.of_nat (length bs)));
      cbn [andb]; try reflexivity; lia.
  Qed.

Lemma peek_ext f g off n :
    (forall o, off <= o < off + Z.of_nat n -> f_data f o = f_data g o) ->
    peek f off n = peek g off n.
  Proof.
    intros H. unfold peek. apply map_ext_in. intros k Hk. apply in_seq in Hk.
    apply H. lia.
  Qed.

End Files.

Section WriterContents.

  Variable S : Schema.
  Variable base_dir product_name : string.
  Variable fsync_every_rows : Z.
  Variable date_string : Z -> string.
  Hypothesis HS : schema_ok S.
  Hypothesis HC : columnwise S.

  Local Abbreviation width_before := (Writer.width_before S).
  Local Abbreviation live_at := (Writer.live_at S).
  Local Abbreviation cell := (Writer.cell S).
  Local Abbreviation cell_bytes := (Writer.cell_bytes S).
  Local Abbreviation row_at := (Writer.row_at S).
  Local Abbreviation poke_all := (Writer.poke_all S).
  Local Abbreviation size_of := (fun c : nat => col_size S (Z.of_nat c)).

Lemma size_of_range c : (c < COLS S)%nat -> 0 <= size_of c <= 8.
  Proof. intros Hc. now apply HS. Qed.

Lemma firstn_seq_min n : forall a m, firstn n (seq a m) = seq a (Nat.min n m).
  Proof.
    induction n as [|n IH]; intros a m; [reflexivity|].
    destruct m as [|m]; [reflexivity|]. cbn [seq firstn Nat.min]. now rewrite IH.
  Qed.

Lemma elem_sizes_firstn_succ c :
    (c < COLS S)%nat ->
    firstn (Datatypes.S c) (elem_sizes S) = firstn c (elem_sizes S) ++ [size_of c].
  Proof.
    intros Hc. unfold elem_sizes, cols. rewrite !firstn_map, !firstn_seq_min.
    replace (Nat.min (Datatypes.S c) (COLS S)) with (Datatypes.S c) by lia.
    replace (Nat.min c (COLS S)) with c by lia.
    rewrite seq_S, map_app. reflexivity.
  Qed.

Lemma width_before_succ c :
    (c < COLS S)%nat -> width_before (Datatypes.S c) = width_before c + size_of c.
  Proof.
    intros Hc. unfold Writer.width_before. rewrite elem_sizes_firstn_succ by exact Hc.
    rewrite sumZ_app. cbn [sumZ]. lia.
  Qed.

Lemma width_before_nonneg c : (c <= COLS S)%nat -> 0 <= width_before c.
  Proof.
    induction c as [|c IH]; intros Hc; [unfold Writer.width_before; cbn; lia|].
    rewrite width_before_succ by lia. pose proof (size_of_range c ltac:(lia)). lia.
  Qed.

Lemma width_before_mono c c' :
    (c < c')%nat -> (c' <= COLS S)%nat -> width_before c + size_of c <= width_before c'.
  Proof.
    intros Hlt. induction c' as [|c' IH]; intros Hc'; [lia|].
    rewrite width_before_succ by lia.
    destruct (Nat.eq_dec c c') as [<- | Hne]; [lia|].
    pose proof (size_of_range c' ltac:(lia)). specialize (IH ltac:(lia) ltac:(lia)). lia.
  Qed.

  (** Distinct elements of a file laid out for [cap] rows do not
      overlap, and none reaches into the header. *)
Lemma cell_above_header cap c j :
    0 <= cap -> (c < COLS S)%nat -> 0 <= j -> HEADER_SZ <= cell cap c j.
  Proof.
    intros Hcap Hc Hj. unfold Writer.cell.
    pose proof (width_before_nonneg c ltac:(lia)). pose proof (size_of_range c Hc).
    cbv beta in *.
    pose proof (Z.mul_nonneg_nonneg cap (width_before c) Hcap ltac:(lia)).
    pose proof (Z.mul_nonneg_nonneg j (col_size S (Z.of_nat c)) Hj ltac:(lia)).
    lia.
  Qed.

Lemma cell_disjoint cap c j c' j' :
    0 <= cap -> (c < COLS S)%nat -> (c' < COLS S)%nat ->
    0 <= j < cap -> 0 <= j' < cap -> (c, j) <> (c', j') ->
    cell cap c j + size_of c <= cell cap c' j' \/
    cell cap c' j' + size_of c' <= cell cap c j.
  Proof.
    intros Hcap Hc Hc' Hj Hj' Hne. unfold Writer.cell.
    pose proof (size_of_range c Hc) as Hw. pose proof (size_of_range c' Hc') as Hw'.
    pose proof (width_before_nonneg c ltac:(lia)) as Hb.
    pose proof (width_before_nonneg c' ltac:(lia)) as Hb'.
    cbv beta in *.
    set (w := col_size S (Z.of_nat c)) in *. set (w' := col_size S (Z.of_nat c')) in *.
    assert (Hjw : (j + 1) * w <= cap * w) by (apply Z.mul_le_mono_nonneg_r; lia).
    assert (Hjw' : (j' + 1) * w' <= cap * w') by (apply Z.mul_le_mono_nonneg_r; lia).
    assert (H0 : 0 <= j * w) by (apply Z.mul_nonneg_nonneg; lia).
    assert (H0' : 0 <= j' * w') by (apply Z.mul_nonneg_nonneg; lia).
    destruct (Nat.lt_trichotomy c c') as [Hlt | [E | Hgt]].
    - left. pose proof (width_before_mono c c' Hlt ltac:(lia)) as Hm. cbv beta in Hm. fold w in Hm.
      assert (cap * (width_before c + w) <= cap * width_before c')
        by (apply Z.mul_le_mono_nonneg_l; lia).
      lia.
    - subst c'. subst w'. fold w in Hjw', H0', Hw'. fold w.
      assert (Hj_ne : j <> j') by congruence.
      destruct (Z.lt_trichotomy j j') as [Hl | [? | Hl]]; [left | contradiction | right].
      + assert ((j + 1) * w <= j' * w) by (apply Z.mul_le_mono_nonneg_r; lia). lia.
      + assert ((j' + 1) * w <= j * w) by (apply Z.mul_le_mono_nonneg_r; lia). lia.
    - right. pose proof (width_before_mono c' c Hgt ltac:(lia)) as Hm. cbv beta in Hm. fold w' in Hm.
      assert (cap * (width_before c' + w') <= cap * width_before c)
        by (apply Z.mul_le_mono_nonneg_l; lia).
      lia.
  Qed.

Lemma cell_within cap c j :
    0 <= cap -> (c < COLS S)%nat -> 0 <= j < cap ->
    cell cap c j + size_of c <= HEADER_SZ + cap * Writer.row_width S.
  Proof.
    intros Hcap Hc Hj. unfold Writer.cell.
    pose proof (width_split S HS c Hc) as Hs. pose proof (size_of_range c Hc) as Hw.
    pose proof (width_before_nonneg c ltac:(lia)) as Hb. cbv beta in *.
    set (w := col_size S (Z.of_nat c)) in *.
    assert ((j + 1) * w <= cap * w) by (apply Z.mul_le_mono_nonneg_r; lia).
    assert (cap * (width_before c + w) <= cap * Writer.row_width S)
      by (apply Z.mul_le_mono_nonneg_l; lia).
    lia.
  Qed.

  (** ** What [write_row_to_cols] leaves in the file *)

Lemma write_stores_file stores : forall st p cap idx f,
    live_at st p cap -> disk st p = Some f -> 0 <= cap < 2 ^ 56 -> 0 <= idx < cap ->
    (forall c bs, In (c, bs) stores ->
       (c < COLS S)%nat /\ Z.of_nat (length bs) = col_size S (Z.of_nat c)) ->
    exists d',
      write_stores S stores idx st = Done (set_disk S st d') /\
      live_at (set_disk S st d') p cap /\
      d' p = Some (poke_all f cap idx stores) /\
      (forall q, q <> p -> d' q = disk st q).
  Proof.
    induction stores as [|[c bs] stores IH]; intros st p cap idx f Hl Hf Hcap Hidx Hs.
    - exists (disk st). cbn [write_stores poke_all]. split; [|split; [|split]].
      + destruct st; reflexivity.
      + eapply live_at_set_disk; [exact Hl | exact Hf].
      + exact Hf.
      + reflexivity.
    - cbn [write_stores poke_all].
      destruct (Hs c bs (or_introl eq_refl)) as (Hc & Hw).
      pose proof Hl as (H1 & H2 & _ & H4 & H5 & H6).
      rewrite H6, (col_ptr_at S HS cap c Hcap Hc). rewrite Hw.
      change (HEADER_SZ + cap * width_before c + idx * col_size S (Z.of_nat c))
        with (cell cap c idx).
      pose proof (cell_above_header cap c idx ltac:(lia) Hc ltac:(lia)) as Hlo.
      pose proof (cell_within cap c idx ltac:(lia) Hc Hidx) as Hhi.
      rewrite (mapped_store_ok S st p f (cell cap c idx) bs H1 H2 Hf)
        by (unfold HEADER_SZ in *; lia).
      set (st1 := set_disk S st (disk_put (disk st) p (poke f (cell cap c idx) bs))).
      assert (Hl1 : live_at st1 p cap)
        by (eapply live_at_set_disk; [exact Hl | apply disk_put_same]).
      destruct (IH st1 p cap idx (poke f (cell cap c idx) bs) Hl1 (disk_put_same _ _ _)
                  Hcap Hidx) as (d' & Hw' & Hl' & Hp' & Hoth).
      { intros c' bs' Hin. apply Hs. now right. }
      exists d'. split; [exact Hw' | split; [exact Hl' | split; [exact Hp'|]]].
      intros q Hq. rewrite (Hoth q Hq). cbn. now apply disk_put_other.
  Qed.

  (** Bytes outside the stored elements are left alone. *)
Lemma poke_all_other stores : forall f cap idx off n,
    (forall c bs, In (c, bs) stores ->
       off + Z.of_nat n <= cell cap c idx \/
       cell cap c idx + Z.of_nat (length bs) <= off) ->
    peek (poke_all f cap idx stores) off n = peek f off n.
  Proof.
    induction stores as [|[c bs] stores IH]; intros f cap idx off n H; [reflexivity|].
    cbn [poke_all]. rewrite IH by (intros; apply H; now right).
    apply peek_poke_other. apply (H c bs). now left.
  Qed.

  (** Each stored element is there afterwards, when no column is
      stored twice. *)
Lemma poke_all_same stores : forall f cap idx c bs,
    0 <= cap -> 0 <= idx < cap ->
    NoDup (map fst stores) ->
    (forall c' bs', In (c', bs') stores ->
       (c' < COLS S)%nat /\ Z.of_nat (length bs') = col_size S (Z.of_nat c')) ->
    In (c, bs) stores ->
    peek (poke_all f cap idx stores) (cell cap c idx) (length bs) = bs.
  Proof.
    induction stores as [|[c0 bs0] stores IH]; intros f cap idx c bs Hcap Hidx Hnd Hs Hin;
      [contradiction|].
    cbn [poke_all]. cbn [map fst] in Hnd. inversion Hnd as [|? ? Hnot Hnd']; subst.
    destruct Hin as [E | Hin].
    - apply pair_eq_inv in E. destruct E as [-> ->].
      rewrite poke_all_other; [apply peek_poke_same|].
      intros c' bs' Hin'.
      destruct (Hs c' bs' (or_intror Hin')) as (Hc' & Hw').
      destruct (Hs c bs (or_introl eq_refl)) as (Hc & Hw).
      assert (Hne : (c, idx) <> (c', idx)).
      { intros E. apply pair_eq_inv in E. destruct E as [-> _].
        apply Hnot. apply in_map_iff. exists (c', bs'). now split. }
      rewrite Hw, Hw'.
      destruct (cell_disjoint cap c idx c' idx Hcap Hc Hc' Hidx Hidx Hne); [left | right]; lia.
    - apply IH; try assumption. intros; apply Hs; now right.
  Qed.

Lemma poke_all_size stores : forall f cap idx,
    f_size (poke_all f cap idx stores) = f_size f.
  Proof.
    induction stores as [|[c bs] stores IH]; intros f cap idx; [reflexivity|].
    cbn [Writer.poke_all]. now rewrite IH.
  Qed.

End WriterContents.

Section WriterRows.

  Variable S : Schema.
  Variable base_dir product_name : string.
  Variable fsync_every_rows : Z.
  Variable date_string : Z -> string.
  Hypothesis HS : schema_ok S.
  Hypothesis HC : columnwise S.

  Local Abbreviation width_before := (Writer.width_before S).
  Local Abbreviation live_at := (Writer.live_at S).
  Local Abbreviation cell := (Writer.cell S).
  Local Abbreviation cell_bytes := (Writer.cell_bytes S).
  Local Abbreviation row_at := (Writer.row_at S).
  Local Abbreviation poke_all := (Writer.poke_all S).
  Local Abbreviation append_row := (Writer.append_row S fsync_every_rows).

Lemma find_stored (l : list (nat * list Z)) c bs :
    NoDup (map fst l) -> In (c, bs) l ->
    find (fun p => Nat.eqb (fst p) c) l = Some (c, bs).
  Proof.
    induction l as [|[c0 b0] l IH]; intros Hnd Hin; [contradiction|].
    cbn [map fst] in Hnd. inversion Hnd as [|? ? Hnot Hnd']; subst.
    cbn [find fst]. destruct Hin as [E | Hin].
    - apply pair_eq_inv in E. destruct E as [-> ->]. now rewrite Nat.eqb_refl.
    - destruct (Nat.eqb_spec c0 c) as [-> | _]; [|now apply IH].
      exfalso. apply Hnot. apply in_map_iff. exists (c, bs). now split.
  Qed.

Lemma stored_bytes_in r c :
    (c < COLS S)%nat ->
    In (c, stored_bytes S r c) (row_stores S r) /\
    Z.of_nat (length (stored_bytes S r c)) = col_size S (Z.of_nat c).
  Proof.
    intros Hc. destruct HC as (Hnd & Hall & _). destruct HS as (_ & _ & Hst).
    specialize (Hall r c Hc). apply in_map_iff in Hall.
    destruct Hall as ([c' bs] & E & Hin). cbn [fst] in E. subst c'.
    unfold stored_bytes. rewrite (find_stored _ c bs (Hnd r) Hin).
    split; [exact Hin | apply (Hst r c bs Hin)].
  Qed.

  (** Reading a row through the column pointers of a live state is
      reading the elements at its index in the open file. *)
Lemma read_row_live st p cap f j :
    live_at st p cap -> disk st p = Some f -> 0 <= cap < 2 ^ 56 ->
    read_row_from_cols S st j = Some (row_at f cap j).
  Proof.
    intros (H1 & H2 & _ & H4 & H5 & H6) Hf Hcap.
    unfold read_row_from_cols, open_file. rewrite H2, Hf, H1.
    assert (Hall : forallb (fun c => match nth c (col_ptrs_ st) None with
                                     | Some _ => true | None => false end) (Writer.cols S)
                   = true).
    { apply forallb_forall. intros c Hc. unfold Writer.cols in Hc. apply in_seq in Hc.
      rewrite H6, (col_ptr_at S HS cap c Hcap) by lia. reflexivity. }
    rewrite Hall. f_equal. unfold Writer.row_at.
    destruct HC as (_ & _ & Hloc). apply Hloc. intros c Hc.
    rewrite H6, (col_ptr_at S HS cap c Hcap Hc).
    unfold Writer.cell_bytes, Writer.cell.
    destruct HS as (_ & Hsz & _). specialize (Hsz c Hc).
    rewrite Z2Nat.id by lia. reflexivity.
  Qed.

  (** The file after [write_row_to_cols(row, col_ptrs_, idx)]: the
      row is at [idx], every other row and the header are as before. *)
Lemma poke_all_row f cap idx row :
    0 <= cap -> 0 <= idx < cap -> marshals S row ->
    row_at (poke_all f cap idx (row_stores S row)) cap idx = row.
  Proof.
    intros Hcap Hidx Hm. unfold Writer.row_at.
    etransitivity; [|exact Hm]. unfold marshals in Hm.
    destruct HC as (Hnd & Hall & Hloc). apply Hloc. intros c Hc.
    destruct (stored_bytes_in row c Hc) as (Hin & Hlen).
    unfold Writer.cell_bytes. rewrite <- Hlen, Nat2Z.id.
    apply (poke_all_same S HS); try assumption.
    - apply Hnd.
    - intros c' bs' Hin'. destruct HS as (_ & _ & Hst). apply (Hst row c' bs' Hin').
  Qed.

Lemma poke_all_other_rows f cap idx row j :
    0 <= cap -> 0 <= idx < cap -> 0 <= j < cap -> j <> idx ->
    row_at (poke_all f cap idx (row_stores S row)) cap j = row_at f cap j.
  Proof.
    intros Hcap Hidx Hj Hne. unfold Writer.row_at.
    destruct HC as (_ & _ & Hloc). apply Hloc. intros c Hc.
    unfold Writer.cell_bytes. apply poke_all_other. intros c' bs' Hin'.
    destruct HS as (Hcols & Hsz & Hst). destruct (Hst row c' bs' Hin') as (Hc' & Hw').
    rewrite Hw'. rewrite Z2Nat.id by (apply Hsz; exact Hc).
    assert (Hpair : (c, j) <> (c', idx)).
    { intros E. apply pair_eq_inv in E. destruct E as [_ E]. contradiction. }
    destruct (cell_disjoint S (conj Hcols (conj Hsz Hst)) cap c j c' idx
                Hcap Hc Hc' Hj Hidx Hpair); [left | right]; assumption.
  Qed.

Lemma poke_all_header f cap idx row :
    0 <= cap -> 0 <= idx < cap ->
    peek (poke_all f cap idx (row_stores S row)) 0 256 = peek f 0 256.
  Proof.
    intros Hcap Hidx. apply poke_all_other. intros c bs Hin. left.
    destruct HS as (Hcols & Hsz & Hst). destruct (Hst row c bs Hin) as (Hc & _).
    pose proof (cell_above_header S (conj Hcols (conj Hsz Hst)) cap c idx
                  Hcap Hc ltac:(lia)) as H.
    unfold HEADER_SZ in H. lia.
  Qed.

  (** A store of the header leaves every row as it was. *)
Lemma poke_header_rows f cap img j :
    0 <= cap -> 0 <= j -> length img = 256%nat ->
    row_at (poke f 0 img) cap j = row_at f cap j.
  Proof.
    intros Hcap Hj Hlen. unfold Writer.row_at.
    destruct HC as (_ & _ & Hloc). apply Hloc. intros c Hc.
    unfold Writer.cell_bytes. apply peek_poke_other. right.
    pose proof (cell_above_header S HS cap c j Hcap Hc Hj) as H.
    unfold HEADER_SZ in H. rewrite Hlen. lia.
  Qed.

End WriterRows.

Ltac simpl_state :=
    cbn [set_counters set_disk set_day_start fd_ base_ map_bytes_ hdr_ col_off_ col_sz_
         col_ptrs_ rows_ dropped_ capacity_ day_start_ since_fsync disk] in *.

Section WriterRun.

  Variable S : Schema.
  Variable base_dir product_name : string.
  Variable fsync_every_rows : Z.
  Variable date_string : Z -> string.
  Hypothesis HS : schema_ok S.
  Hypothesis HC : columnwise S.

  Local Abbreviation State := (State S).
  Local Abbreviation live_at := (Writer.live_at S).
  Local Abbreviation row_at := (Writer.row_at S).
  Local Abbreviation poke_all := (Writer.poke_all S).
  Local Abbreviation day_header := (Writer.day_header S product_name).
  Local Abbreviation day_path := (Writer.day_path base_dir product_name date_string).
  Local Abbreviation step := (Writer.step S base_dir product_name fsync_every_rows date_string).
  Local Abbreviation append_row := (Writer.append_row S fsync_every_rows).
  Local Abbreviation run_loop :=
    (Writer.run_loop S base_dir product_name fsync_every_rows date_string).
  Local Abbreviation run := (Writer.run S base_dir product_name fsync_every_rows date_string).
  Local Abbreviation open_day_file :=
    (Writer.open_day_file S base_dir product_name date_string).
  Local Abbreviation rotate_to_day :=
    (Writer.rotate_to_day S base_dir product_name date_string).

  (** [update_rows_in_header] with a live mapping: the header with
      the current row count goes to the start of the file. *)
Lemma update_rows_file st p cap f :
    live_at st p cap -> disk st p = Some f -> 0 <= cap < 2 ^ 56 ->
    exists st',
      update_rows_in_header S st = Done st' /\ live_at st' p cap /\
      disk st' p = Some (poke f 0 (header_image (COLS S) (with_rows (hdr_ st) (rows_ st)))) /\
      hdr_ st' = with_rows (hdr_ st) (rows_ st) /\
      rows_ st' = rows_ st /\ dropped_ st' = dropped_ st /\
      day_start_ st' = day_start_ st /\ since_fsync st' = since_fsync st /\
      (forall q, q <> p -> disk st' q = disk st q).
  Proof.
    intros Hl Hf Hcap. pose proof Hl as (H1 & H2 & H3 & H4 & H5 & H6).
    unfold update_rows_in_header. rewrite H1.
    fold (with_rows (hdr_ st) (rows_ st)).
    match goal with
    | |- exists st', mapped_store S ?s1 0 ?img = _ /\ _ =>
        assert (Hl1 : live_at s1 p cap)
          by (unfold Writer.live_at; simpl_state; repeat split; assumption);
        rewrite (mapped_store_ok S s1 p f 0 img eq_refl H2 Hf)
    end.
    - eexists. split; [reflexivity|]. split.
      + eapply live_at_set_disk; [exact Hl1 | apply disk_put_same].
      + simpl_state. rewrite disk_put_same. repeat split; try reflexivity.
        intros q Hq. now apply disk_put_other.
    - lia.
    - rewrite (length_header_image S HS). cbn [map_bytes_]. rewrite H5.
      pose proof (header_bound S HS cap Hcap). lia.
  Qed.

  (** Appending a row below the capacity. *)
Lemma append_row_file sys st p cap f row :
    live_at st p cap -> disk st p = Some f -> 0 <= cap < 2 ^ 56 ->
    0 <= rows_ st < cap -> marshals S row ->
    exists st' f' r',
      append_row sys st row = Done st' /\ live_at st' p cap /\ disk st' p = Some f' /\
      hdr_ st' = with_rows (hdr_ st) r' /\
      rows_ st' = rows_ st + 1 /\ dropped_ st' = dropped_ st /\
      day_start_ st' = day_start_ st /\
      row_at f' cap (rows_ st) = row /\
      (forall j, 0 <= j < cap -> j <> rows_ st -> row_at f' cap j = row_at f cap j) /\
      (forall q, q <> p -> disk st' q = disk st q) /\
      f_size f' = f_size f.
  Proof.
    intros Hl Hf Hcap Hr Hm. unfold Writer.append_row. cbv zeta.
    set (st1 := set_counters S st (u64 (rows_ st + 1)) (dropped_ st) (since_fsync st)).
    assert (Hl1 : live_at st1 p cap).
    { destruct Hl as (H1 & H2 & H3 & H4 & H5 & H6). unfold Writer.live_at.
      subst st1. simpl_state. repeat split; assumption. }
    assert (Hc1 : capacity_ st1 = cap) by (destruct Hl as (_ & _ & _ & H4 & _); exact H4).
    rewrite Hc1. destruct (Z.leb_spec cap (rows_ st)); [lia|].
    pose proof HS as (_ & _ & Hst).
    destruct (write_stores_file S HS (row_stores S row) st1 p cap (rows_ st) f Hl1 Hf Hcap Hr
                (Hst row)) as (d' & Ew & Hl2 & Hd' & Hoth).
    unfold write_row_to_cols. rewrite Ew.
    set (f1 := poke_all f cap (rows_ st) (row_stores S row)) in *.
    assert (Hrows : u64 (rows_ st + 1) = rows_ st + 1)
      by (apply u64_small; assert (2 ^ 56 < 2 ^ 64) by (cbn; lia); lia).
    assert (Hrow : row_at f1 cap (rows_ st) = row)
      by (apply (poke_all_row S HS HC); assumption || lia).
    assert (Hothers : forall j, 0 <= j < cap -> j <> rows_ st ->
                                row_at f1 cap j = row_at f cap j)
      by (intros; apply (poke_all_other_rows S HS HC); assumption || lia).
    destruct (Z.eqb_spec fsync_every_rows 0) as [_ | _].
    - exists (set_disk S st1 d'), f1, (rows (hdr_ st)). split; [reflexivity|].
      split; [exact Hl2|].
      subst st1. simpl_state. repeat split; try reflexivity; try assumption.
      + destruct (hdr_ st); reflexivity.
      + apply (poke_all_size S).
    - destruct (Z.leb_spec fsync_every_rows (u32 (since_fsync (set_disk S st1 d') + 1))).
      + destruct (update_rows_file (set_disk S st1 d') p cap f1 Hl2 Hd' Hcap)
          as (st4 & E4 & Hl4 & Hd4 & Hh4 & R4 & D4 & Y4 & _ & Hoth4).
        rewrite E4.
        exists (set_counters S st4 (rows_ st4) (dropped_ st4) 0),
          (poke f1 0 (header_image (COLS S)
                        (with_rows (hdr_ (set_disk S st1 d')) (rows_ (set_disk S st1 d'))))),
          (rows_ (set_disk S st1 d')).
        split; [reflexivity|]. split.
        * destruct Hl4 as (H1 & H2 & H3 & H4 & H5 & H6). unfold Writer.live_at.
          simpl_state. repeat split; assumption.
        * subst st1. simpl_state. rewrite R4, D4, Y4.
          split; [exact Hd4|]. split; [exact Hh4|].
          split; [exact Hrows|]. split; [reflexivity|]. split; [reflexivity|].
          split; [|split].
          -- rewrite (poke_header_rows S HS HC); try lia; [exact Hrow|].
             apply (length_header_image S HS).
          -- intros j Hj Hne. rewrite (poke_header_rows S HS HC); try lia; [now apply Hothers|].
             apply (length_header_image S HS).
          -- split; [|apply (poke_all_size S)].
             intros q Hq. rewrite (Hoth4 q Hq). now apply Hoth.
      + exists (set_counters S (set_disk S st1 d') (rows_ (set_disk S st1 d'))
                  (dropped_ (set_disk S st1 d')) (u32 (since_fsync (set_disk S st1 d') + 1))),
          f1, (rows (hdr_ st)).
        split; [reflexivity|]. split.
        * destruct Hl2 as (H1 & H2 & H3 & H4 & H5 & H6). unfold Writer.live_at.
          subst st1. simpl_state. repeat split; assumption.
        * subst st1. simpl_state. repeat split; try reflexivity; try assumption.
          -- destruct (hdr_ st); reflexivity.
          -- apply (poke_all_size S).
  Qed.

End WriterRun.

Section WriterDay.

  Variable S : Schema.
  Variable base_dir product_name : string.
  Variable fsync_every_rows : Z.
  Variable date_string : Z -> string.
  Hypothesis HS : schema_ok S.
  Hypothesis HC : columnwise S.

  Local Abbreviation State := (State S).
  Local Abbreviation live_at := (Writer.live_at S).
  Local Abbreviation row_at := (Writer.row_at S).
  Local Abbreviation day_header := (Writer.day_header S product_name).
  Local Abbreviation day_path := (Writer.day_path base_dir product_name date_string).
  Local Abbreviation step := (Writer.step S base_dir product_name fsync_every_rows date_string).
  Local Abbreviation append_row := (Writer.append_row S fsync_every_rows).
  Local Abbreviation run_loop :=
    (Writer.run_loop S base_dir product_name fsync_every_rows date_string).
  Local Abbreviation run := (Writer.run S base_dir product_name fsync_every_rows date_string).
  Local Abbreviation open_day_file :=
    (Writer.open_day_file S base_dir product_name date_string).
  Local Abbreviation rotate_to_day :=
    (Writer.rotate_to_day S base_dir product_name date_string).

  (** No day is the initial value [~0ull] of [day_start_]: the first
      row always rotates. *)
Lemma day_from_hour_not_init h : day_from_hour h <> 2 ^ 64 - 1.
  Proof.
    unfold day_from_hour, u64, wrap. intros E.
    pose proof (Z.div_mod h 86400 ltac:(lia)) as Hdm.
    pose proof (Z.div_mod (h - h mod 86400) (2 ^ 64) ltac:(lia)) as Hdm2.
    rewrite E in Hdm2.
    set (q := h / 86400) in *. set (k := (h - h mod 86400) / 2 ^ 64) in *.
    change (2 ^ 64) with 18446744073709551616 in Hdm2. lia.
  Qed.

  (** [open_day_file] with working system calls: the state and the
      file it leaves. *)
Lemma open_day_file_file st day_s :
    exists st' f',
      open_day_file all_ok st day_s = Done (st', true) /\
      live_at st' (day_path day_s) first_capacity /\
      disk st' (day_path day_s) = Some f' /\
      hdr_ st' = day_header (day_start_ st) first_capacity 0 /\
      peek f' 0 256
        = header_image (COLS S) (day_header (day_start_ st) first_capacity 0) /\
      rows_ st' = 0 /\ dropped_ st' = dropped_ st /\
      day_start_ st' = day_start_ st /\ since_fsync st' = since_fsync st /\
      (forall q, q <> day_path day_s -> disk st' q = disk st q) /\
      HEADER_SZ + first_capacity * row_width S <= f_size f'.
  Proof.
    pose proof first_capacity_range as Hcap.
    unfold Writer.open_day_file. cbn [all_ok mkdir_ok open_ok prealloc_ok mmap_ok negb].
    cbv zeta.
    assert (Ecap : u64 (rows_per_hr * 2) = first_capacity) by reflexivity.
    rewrite Ecap. rewrite (file_bytes_at S HS first_capacity) by lia.
    fold (day_header (day_start_ st) first_capacity 0).
    set (f1 := fallocate match disk st (day_path day_s) with
                         | Some f => f | None => empty_file end
                         (HEADER_SZ + first_capacity * row_width S)).
    match goal with
    | |- exists st' f', match mapped_store S ?s2 0 ?img with _ => _ end = _ /\ _ =>
        rewrite (mapped_store_ok S s2 (day_path day_s) f1 0 img eq_refl eq_refl)
    end.
    - eexists. eexists. split; [reflexivity|]. split.
      + unfold Writer.live_at. simpl_state. repeat split; try reflexivity.
        eexists. apply disk_put_same.
      + simpl_state. rewrite disk_put_same. split; [reflexivity|]. split; [reflexivity|].
        split.
        * rewrite <- (length_header_image S HS
                        (day_header (day_start_ st) first_capacity 0)) at 1.
          apply peek_poke_same.
        * repeat split; try reflexivity.
          -- intros q Hq. rewrite !disk_put_other by exact Hq. reflexivity.
          -- subst f1. cbn [poke fallocate f_size]. lia.
    - simpl_state. apply disk_put_same.
    - lia.
    - rewrite (length_header_image S HS). simpl_state.
      pose proof (header_bound S HS first_capacity ltac:(lia)). lia.
  Qed.

  (** The loop of [run] over rows of the open day, while the file
      has room: every row is appended, none is dropped. *)
Lemma run_loop_same_day input : forall st p cap f d r,
    live_at st p cap -> disk st p = Some f -> 0 <= cap < 2 ^ 56 ->
    hdr_ st = day_header d cap r -> day_start_ st = d ->
    0 <= rows_ st -> rows_ st + Z.of_nat (length input) <= cap ->
    Forall (fun x => day_from_hour (hour_from_row S (snd x)) = d /\ marshals S (snd x))
           input ->
    exists st' f' r',
      run_loop input st = Done st' /\ live_at st' p cap /\ disk st' p = Some f' /\
      hdr_ st' = day_header d cap r' /\
      rows_ st' = rows_ st + Z.of_nat (length input) /\
      dropped_ st' = dropped_ st /\ day_start_ st' = d /\
      (forall j, 0 <= j < rows_ st -> row_at f' cap j = row_at f cap j) /\
      (forall i x, nth_error input i = Some x ->
                   row_at f' cap (rows_ st + Z.of_nat i) = snd x) /\
      (forall q, q <> p -> disk st' q = disk st q) /\
      f_size f' = f_size f.
  Proof.
    induction input as [|[sys row] input IH]; intros st p cap f d r Hl Hf Hcap Hh Hd H0 Hn Hin.
    - exists st, f, r. cbn [Writer.run_loop length].
      split; [reflexivity|]. split; [exact Hl|]. split; [exact Hf|]. split; [exact Hh|].
      split; [lia|]. split; [reflexivity|]. split; [exact Hd|].
      split; [reflexivity|]. split; [|split; reflexivity].
      intros [|i] x E; discriminate E.
    - cbn [Writer.run_loop]. inversion Hin as [|? ? [Hday Hm] Hin']; subst.
      cbn [snd] in Hday, Hm. cbn [length] in Hn.
      rewrite (step_same_day S base_dir product_name fsync_every_rows date_string sys st row)
        by exact Hday.
      destruct (append_row_file S fsync_every_rows HS HC sys st p cap f row
                  Hl Hf Hcap ltac:(lia) Hm)
        as (st1 & f1 & r1 & E1 & Hl1 & Hf1 & Hh1 & Hr1 & Hd1 & Hy1 & Hrow & Hoth & Hdisk & Hsz).
      rewrite E1. rewrite Hh in Hh1.
      change (with_rows (day_header (day_start_ st) cap r) r1)
        with (day_header (day_start_ st) cap r1) in Hh1.
      destruct (IH st1 p cap f1 (day_start_ st) r1 Hl1 Hf1 Hcap Hh1 Hy1 ltac:(lia) ltac:(lia))
        as (st2 & f2 & r2 & E2 & Hl2 & Hf2 & Hh2 & Hr2 & Hd2 & Hy2 & Hold & Hnew & Hdisk2 & Hsz2).
      { exact Hin'. }
      exists st2, f2, r2. split; [exact E2|]. split; [exact Hl2|]. split; [exact Hf2|].
      split; [exact Hh2|]. split; [cbn [length]; lia|]. split; [congruence|]. split; [exact Hy2|].
      split; [|split; [|split]].
      + intros j Hj. rewrite Hold by lia. apply Hoth; lia.
      + intros [|i] x E.
        * cbn [nth_error] in E. apply Some_inj in E. subst x. cbn [snd].
          rewrite Z.add_0_r. rewrite Hold by lia. exact Hrow.
        * cbn [nth_error] in E. rewrite <- (Hnew i x E). f_equal. lia.
      + intros q Hq. rewrite Hdisk2 by exact Hq. now apply Hdisk.
      + congruence.
  Qed.

Lemma run_day_outcome input sys0 row0 d disk0 :
    hd_error input = Some (sys0, row0) -> sys0 = all_ok ->
    Forall (fun x => day_from_hour (hour_from_row S (snd x)) = d /\ marshals S (snd x))
           input ->
    Z.of_nat (length input) <= first_capacity ->
    exists st f,
      run input (init S disk0) = Done st /\
      fd_ st = Some (day_path d) /\
      rows_ st = Z.of_nat (length input) /\ dropped_ st = 0 /\
      disk st (day_path d) = Some f /\
      peek f 0 256
        = header_image (COLS S) (day_header d first_capacity (Z.of_nat (length input))) /\
      (forall i x, nth_error input i = Some x ->
                   row_at f first_capacity (Z.of_nat i) = snd x
                   /\ read_row_from_cols S st (Z.of_nat i) = Some (snd x)) /\
      (forall q, q <> day_path d -> disk st q = disk0 q) /\
      HEADER_SZ + first_capacity * row_width S <= f_size f.
  Proof.
    intros Hhd -> Hin Hn. destruct input as [|[s r0] input]; [discriminate Hhd|].
    cbn [hd_error] in Hhd. apply Some_inj in Hhd. apply pair_eq_inv in Hhd.
    destruct Hhd as [-> ->].
    apply Forall_cons_iff in Hin. destruct Hin as [[Hday Hm] Hin']. cbn [snd] in Hday, Hm.
    cbn [length] in Hn. pose proof first_capacity_range as Hcap.
    unfold Writer.run. cbn [Writer.run_loop].
    unfold Writer.step at 1. cbv zeta. rewrite Hday.
    assert (Hne : d <> 2 ^ 64 - 1) by (rewrite <- Hday; apply day_from_hour_not_init).
    change (day_start_ (init S disk0)) with (2 ^ 64 - 1).
    destruct (Z.eqb_spec d (2 ^ 64 - 1)) as [|_]; [contradiction|]. cbn [negb].
    unfold Writer.rotate_to_day.
    change (day_start_ (init S disk0)) with (2 ^ 64 - 1).
    destruct (Z.eqb_spec (2 ^ 64 - 1) d) as [|_]; [congruence|].
    change (update_rows_in_header S (init S disk0)) with (Done (init S disk0)).
    cbv beta iota.
    change (close_file S (init S disk0)) with (init S disk0).
    destruct (open_day_file_file (set_day_start S (init S disk0) d) d)
      as (st1 & f1 & E1 & Hl1 & Hf1 & Hh1 & Hp1 & Hr1 & Hd1 & Hy1 & _ & Hdisk1 & Hsz1).
    rewrite E1. simpl_state.
    destruct (append_row_file S fsync_every_rows HS HC all_ok st1 (day_path d)
                first_capacity f1 row0 Hl1 Hf1 ltac:(lia) ltac:(lia) Hm)
      as (st2 & f2 & r2 & E2 & Hl2 & Hf2 & Hh2 & Hr2 & Hd2 & Hy2 & Hrow & Hoth & Hdisk2 & Hsz2).
    rewrite E2. rewrite Hh1 in Hh2.
    change (with_rows (day_header d first_capacity 0) r2)
      with (day_header d first_capacity r2) in Hh2.
    destruct (run_loop_same_day input st2 (day_path d) first_capacity f2 d r2
                Hl2 Hf2 ltac:(lia) Hh2 ltac:(congruence) ltac:(lia) ltac:(lia) Hin')
      as (st3 & f3 & r3 & E3 & Hl3 & Hf3 & Hh3 & Hr3 & Hd3 & Hy3 & Hold & Hnew & Hdisk3 & Hsz3).
    rewrite E3.
    destruct (update_rows_file S HS st3 (day_path d) first_capacity f3
                Hl3 Hf3 ltac:(lia))
      as (st4 & E4 & Hl4 & Hf4 & Hh4 & R4 & D4 & Y4 & _ & Hdisk4).
    rewrite E4. rewrite Hh3 in Hf4, Hh4.
    change (with_rows (day_header d first_capacity r3) (rows_ st3))
      with (day_header d first_capacity (rows_ st3)) in Hf4, Hh4. eexists. eexists. split; [reflexivity|].
    assert (Hrows : rows_ st3 = Z.of_nat (Datatypes.S (length input))) by lia.
    split; [apply Hl4|]. split; [cbn [length]; congruence|].
    assert (Hd0 : dropped_ st1 = 0) by (rewrite Hd1; reflexivity).
    split; [congruence|].
    split; [exact Hf4|]. cbn [length]. split; [|split; [|split]].
    - rewrite Hrows.
      rewrite <- (length_header_image S HS
                    (day_header d first_capacity (Z.of_nat (Datatypes.S (length input))))) at 1.
      apply peek_poke_same.
    - intros i x E.
      rewrite (read_row_live S HS HC st4 (day_path d) first_capacity _
                 (Z.of_nat i) Hl4 Hf4 ltac:(lia)).
      rewrite (poke_header_rows S HS HC) by (lia || apply (length_header_image S HS)).
      assert (Hrowi : row_at f3 first_capacity (Z.of_nat i) = snd x).
      { destruct i as [|i]; cbn [nth_error] in E.
        - apply Some_inj in E. subst x. cbn [snd]. rewrite Hold by lia.
          rewrite Hr1 in Hrow. exact Hrow.
        - rewrite <- (Hnew i x E). f_equal. lia. }
      rewrite Hrowi. split; reflexivity.
    - intros q Hq. rewrite Hdisk4, Hdisk3, Hdisk2, Hdisk1 by exact Hq. reflexivity.
    - cbn [poke f_size]. lia.
  Qed.

  (** One day written from a fresh writer, with working system calls
      for the first row and a file that does not have to grow: every
      row is in the day's file at its index, the header the final
      [update_rows_in_header] left counts them all, nothing was
      dropped, and no other file was touched. *)
Theorem run_one_day input sys0 row0 d disk0 :
    hd_error input = Some (sys0, row0) -> sys0 = all_ok ->
    Forall (fun x => day_from_hour (hour_from_row S (snd x)) = d /\ marshals S (snd x))
           input ->
    Z.of_nat (length input) <= first_capacity ->
    exists st f,
      run input (init S disk0) = Done st /\
      fd_ st = Some (day_path d) /\
      rows_ st = Z.of_nat (length input) /\ dropped_ st = 0 /\
      disk st (day_path d) = Some f /\
      peek f 0 256
        = header_image (COLS S) (day_header d first_capacity (Z.of_nat (length input))) /\
      (forall i x, nth_error input i = Some x ->
                   row_at f first_capacity (Z.of_nat i) = snd x
                   /\ read_row_from_cols S st (Z.of_nat i) = Some (snd x)) /\
      (forall q, q <> day_path d -> disk st q = disk0 q) /\
      HEADER_SZ + first_capacity * row_width S <= f_size f.
  Proof. apply run_day_outcome. Qed.

End WriterDay.

Section ReaderMaps.

  Variable S : Schema.
  Variable base_dir product_name : string.
  Variable fsync_every_rows : Z.
  Variable date_string : Z -> string.
  Hypothesis HS : schema_ok S.
  Hypothesis HC : columnwise S.
  Hypothesis HM : (6 <= length (MAGIC S))%nat.
  Hypothesis HV : 0 <= VERSION S < 2 ^ 16.

  Local Abbreviation row_at := (Writer.row_at S).
  Local Abbreviation day_header := (Writer.day_header S product_name).
  Local Abbreviation day_path := (Writer.day_path base_dir product_name date_string).
  Local Abbreviation run := (Writer.run S base_dir product_name fsync_every_rows date_string).

Lemma bytes_eqb_refl l : Reader.bytes_eqb l l = true.
  Proof. induction l as [|x l IH]; [reflexivity|]. cbn. now rewrite Z.eqb_refl. Qed.

Lemma header_bytes_of_peek f :
    256 <= f_size f -> Reader.header_bytes_of f = peek f 0 256.
  Proof.
    intros Hsz. unfold Reader.header_bytes_of, peek. apply map_ext_in. intros k Hk.
    apply in_seq in Hk. unfold Reader.page_byte.
    destruct (Z.ltb_spec (Z.of_nat k) (f_size f)); [reflexivity | lia].
  Qed.

Lemma col_offsets_u64 szs : forall off,
    is_u64 off -> Forall is_u64 (col_offsets off szs).
  Proof.
    induction szs as [|sz szs IH]; intros off Ho; cbn [col_offsets]; constructor.
    - exact Ho.
    - apply IH. apply u64_range.
  Qed.

Lemma day_header_wf d cap r :
    is_u64 d -> is_u64 cap -> is_u64 r -> header_wf (COLS S) (day_header d cap r).
  Proof.
    intros Hd Hcap Hr. unfold header_wf, Writer.day_header.
    cbn [magic header_size version pad16 _pad32 product hour_epoch_start rows capacity
         col_off col_sz].
    split; [rewrite length_firstn; lia|].
    split; [unfold u16, wrap, HEADER_SZ; cbn; lia|].
    split; [exact HV|]. split; [lia|]. split; [lia|].
    split; [unfold product_field; apply length_fit|].
    split; [exact Hd|]. split; [exact Hr|]. split; [exact Hcap|].
    split.
    { rewrite col_offsets_length. unfold col_bytes, Writer.cols.
      now rewrite length_map, length_seq. }
    split; [apply col_offsets_u64; unfold is_u64, HEADER_SZ; lia|].
    split; [apply length_elem_sizes|].
    eapply Forall_impl; [|apply (elem_sizes_range S HS)].
    cbv beta. unfold is_u64. intros; lia.
  Qed.

  (** [map_file] on a file that starts with the image of a day's
      header: the reader takes the row count and the column offsets
      from it. *)
Lemma map_file_of_day f d cap r :
    256 <= f_size f -> is_u64 d -> is_u64 cap -> is_u64 r ->
    peek f 0 256 = header_image (COLS S) (day_header d cap r) ->
    Reader.map_file S true true (Some f)
    = Some (Reader.mkMapped (f_size f) (day_header d cap r) r
              (col_offsets HEADER_SZ (col_bytes S cap)) (elem_sizes S)).
  Proof.
    intros Hsz Hd Hcap Hr Hp. unfold Reader.map_file. cbn [negb].
    destruct (Z.leb_spec (f_size f) 0); [lia|].
    rewrite (header_bytes_of_peek f Hsz), Hp.
    rewrite (header_image_inv (COLS S) _ (day_header_wf d cap r Hd Hcap Hr)).
    cbn [magic Writer.day_header]. rewrite bytes_eqb_refl. reflexivity.
  Qed.

  (** Reading row [j] through a mapping laid out for [cap] rows. *)
Lemma read_row_of_day f hdr r cap j :
    0 <= cap < 2 ^ 56 -> 0 <= j < cap ->
    HEADER_SZ + cap * row_width S <= f_size f ->
    Reader.read_row S f
      (Reader.mkMapped (f_size f) hdr r (col_offsets HEADER_SZ (col_bytes S cap))
                       (elem_sizes S)) j
    = Some (row_at f cap j).
  Proof.
    intros Hcap Hj Hsz. unfold Reader.read_row.
    cbn [Reader.col_ptrs_ Reader.map_bytes_].
    assert (Hptr : forall c, (c < COLS S)%nat ->
                     nth c (col_offsets HEADER_SZ (col_bytes S cap)) 0
                     = HEADER_SZ + cap * Writer.width_before S c).
    { intros c Hc. pose proof (col_ptr_at S HS cap c Hcap Hc) as H.
      rewrite (nth_indep _ None (Some 0)) in H.
      - rewrite map_nth in H. now apply Some_inj in H.
      - rewrite length_map, col_offsets_length. unfold col_bytes, Writer.cols.
        rewrite length_map, length_seq. exact Hc. }
    match goal with
    | |- (if ?b then _ else _) = _ => assert (Hall : b = true)
    end.
    { apply forallb_forall. intros c Hc. apply in_seq in Hc. cbv zeta.
      rewrite Hptr by lia.
      pose proof (cell_above_header S HS cap c j ltac:(lia) ltac:(lia) ltac:(lia)) as Hlo.
      pose proof (cell_within S HS cap c j ltac:(lia) ltac:(lia) Hj) as Hhi.
      unfold Writer.cell in Hlo, Hhi. cbv beta in Hhi. unfold HEADER_SZ in *.
      apply andb_true_iff. split; [apply Z.leb_le | apply Z.leb_le]; lia. }
    rewrite Hall. f_equal. unfold Writer.row_at.
    destruct HC as (_ & _ & Hloc). apply Hloc. intros c Hc.
    rewrite Hptr by exact Hc. unfold Writer.cell_bytes, Writer.cell.
    destruct HS as (_ & Hw & _). rewrite Z2Nat.id by (apply Hw; exact Hc). reflexivity.
  Qed.

  (** What the columnar writer wrote, the columnar reader reads: after
      one day written from a fresh writer (working system calls for
      the first row, no growth), [map_file] accepts the day's file,
      takes from its header the number of rows written, and row [i]
      read through the segment is the [i]-th row that was enqueued. *)
Theorem reader_reads_the_day input sys0 row0 d disk0 :
    hd_error input = Some (sys0, row0) -> sys0 = all_ok ->
    Forall (fun x => day_from_hour (hour_from_row S (snd x)) = d /\ marshals S (snd x))
           input ->
    Z.of_nat (length input) <= first_capacity ->
    exists st f m,
      run input (init S disk0) = Done st /\
      disk st (day_path d) = Some f /\
      Reader.map_file S true true (Some f) = Some m /\
      Reader.rows_ m = Z.of_nat (length input) /\
      forall i x, nth_error input i = Some x ->
                  Reader.read_row S f m (Z.of_nat i) = Some (snd x).
  Proof.
    intros Hhd Hsys Hin Hn.
    destruct (run_day_outcome S base_dir product_name fsync_every_rows date_string HS HC
                input sys0 row0 d disk0 Hhd Hsys Hin Hn)
      as (st & f & Erun & Hfd & Hrows & Hdrop & Hf & Hp & Hread & Hdisk & Hsz).
    pose proof first_capacity_range as Hcap.
    pose proof (header_bound S HS first_capacity ltac:(lia)) as Hb.
    assert (Hd : is_u64 d).
    { destruct input as [|[s r] input]; [discriminate Hhd|].
      apply Forall_cons_iff in Hin. destruct Hin as [[<- _] _].
      unfold day_from_hour. apply u64_range. }
    assert (H56 : 2 ^ 56 < 2 ^ 64) by (cbn; lia).
    eexists st, f, _. split; [exact Erun|]. split; [exact Hf|]. split.
    - apply (map_file_of_day f d first_capacity (Z.of_nat (length input)));
        try assumption; unfold is_u64; lia.
    - cbn [Reader.rows_]. split; [reflexivity|]. intros i x E.
      rewrite read_row_of_day.
      + f_equal. apply (Hread i x E).
      + lia.
      + assert (i < length input)%nat by (apply nth_error_Some; congruence). lia.
      + exact Hsz.
  Qed.

End ReaderMaps.

Section WriterExtras.

  Variable S : Schema.
  Variable base_dir product_name : string.
  Variable fsync_every_rows : Z.
  Variable date_string : Z -> string.
  Hypothesis HS : schema_ok S.
  Hypothesis HC : columnwise S.

  Local Abbreviation live_at := (Writer.live_at S).
  Local Abbreviation append_row := (Writer.append_row S fsync_every_rows).

  (** A row appended below the capacity is read back from its index
      as it was given, and every other row of the file reads as
      before. *)
Theorem append_row_reads_back sys st p cap row :
    live_at st p cap -> 0 <= cap < 2 ^ 56 -> 0 <= rows_ st < cap -> marshals S row ->
    exists st',
      append_row sys st row = Done st' /\
      rows_ st' = rows_ st + 1 /\ dropped_ st' = dropped_ st /\
      read_row_from_cols S st' (rows_ st) = Some row /\
      forall j, 0 <= j < cap -> j <> rows_ st ->
                read_row_from_cols S st' j = read_row_from_cols S st j.
  Proof.
    intros Hl Hcap Hr Hm. pose proof Hl as (_ & _ & (f & Hf) & _).
    destruct (append_row_file S fsync_every_rows HS HC sys st p cap f row Hl Hf Hcap Hr Hm)
      as (st' & f' & r' & E & Hl' & Hf' & _ & Hrows & Hdrop & _ & Hrow & Hoth & _).
    exists st'. split; [exact E|]. split; [exact Hrows|]. split; [exact Hdrop|]. split.
    - rewrite (read_row_live S HS HC st' p cap f' _ Hl' Hf' Hcap). now rewrite Hrow.
    - intros j Hj Hne.
      rewrite (read_row_live S HS HC st' p cap f' _ Hl' Hf' Hcap).
      rewrite (read_row_live S HS HC st p cap f _ Hl Hf Hcap).
      now rewrite Hoth.
  Qed.

  (** When the file is full and [posix_fallocate] fails in
      [grow_file], the row is dropped and counted and [rows_] is set
      back to the capacity; but the mapping was removed before the
      call, so [base_] dangles: the next [update_rows_in_header] (at
      the next rotation, or when [run] ends) stores through it, which
      is undefined. *)
Theorem failed_grow_leaves_a_dangling_base sys st p cap row :
    live_at st p cap -> rows_ st = cap -> prealloc_ok sys = false ->
    exists st',
      append_row sys st row = Done st' /\
      rows_ st' = cap /\ dropped_ st' = u64 (dropped_ st + 1) /\
      base_ st' = Stale /\
      update_rows_in_header S st' = Fault.
  Proof.
    intros (H1 & H2 & H3 & H4 & H5 & H6) Hr Hp.
    unfold Writer.append_row. cbv zeta. simpl_state. rewrite H4, Hr.
    destruct (Z.leb_spec cap cap); [|lia].
    unfold grow_file. cbv zeta. simpl_state. rewrite Hp, H1, H2.
    eexists. split; [reflexivity|]. unfold drop_row. simpl_state.
    split; [exact H4|]. split; [reflexivity|]. split; [reflexivity|].
    unfold update_rows_in_header. simpl_state. unfold mapped_store. simpl_state.
    reflexivity.
  Qed.

End WriterExtras.

Section Partition.

  (** The partition of the rows: [hour_from_row] is the start of the
      hour of [ts_ns] and [day_from_hour] of it the start of the day,
      both in seconds; two time stamps fall into the same file
      exactly when they are of the same day. *)
Theorem day_partition ts ts' :
    is_u64 ts -> is_u64 ts' ->
    hour_of_ts ts = 3600 * (ts / 3600000000000) /\
    day_from_hour (hour_of_ts ts) = 86400 * (ts / 86400000000000) /\
    (day_from_hour (hour_of_ts ts) = day_from_hour (hour_of_ts ts')
     <-> ts / 86400000000000 = ts' / 86400000000000).
  Proof.
    assert (Hh : forall t, is_u64 t -> hour_of_ts t = 3600 * (t / 3600000000000)).
    { intros t Ht. unfold hour_of_ts, is_u64 in *. cbv zeta.
      rewrite Z.div_div by lia. change (1000000000 * 3600) with 3600000000000.
      assert (0 <= t / 3600000000000) by (apply Z.div_pos; lia).
      pose proof (Z.mul_div_le t 3600000000000 ltac:(lia)).
      rewrite u64_small by lia. lia. }
    assert (Hd : forall t, is_u64 t ->
                 day_from_hour (hour_of_ts t) = 86400 * (t / 86400000000000)).
    { intros t Ht. rewrite (Hh t Ht). unfold day_from_hour, is_u64 in *.
      assert (Hq : 0 <= t / 3600000000000) by (apply Z.div_pos; lia).
      pose proof (Z.mul_div_le t 3600000000000 ltac:(lia)) as Hq'.
      set (q := t / 3600000000000) in *.
      assert (E : t / 86400000000000 = q / 24).
      { subst q. rewrite Z.div_div by lia. reflexivity. }
      rewrite E.
      assert (Em : (3600 * q) mod 86400 = 3600 * (q mod 24)).
      { change 86400 with (3600 * 24). rewrite Z.mul_mod_distr_l by lia. reflexivity. }
      rewrite Em. pose proof (Z.div_mod q 24 ltac:(lia)) as Hdm.
      pose proof (Z.mod_pos_bound q 24 ltac:(lia)).
      rewrite u64_small by lia. lia. }
    intros Ht Ht'. split; [now apply Hh|]. split; [now apply Hd|].
    rewrite (Hd ts Ht), (Hd ts' Ht'). lia.
  Qed.

End Partition.

Section HugeBuffFacts.

Lemma land_page_mask x :
    0 <= x < 2 ^ 64 ->
    Z.land x (u64 (Z.lnot (Reader.two_mb - 1))) = x - x mod Reader.two_mb.
  Proof.
    intros Hx. unfold Reader.two_mb, u64, wrap.
    change (2 * 1024 * 1024) with (2 ^ 21).
    change (Z.lnot (2 ^ 21 - 1) mod 2 ^ 64) with (2 ^ 64 - 2 ^ 21).
    assert (E : 2 ^ 64 - 2 ^ 21 = Z.ldiff (Z.ones 64) (Z.ones 21)) by reflexivity.
    rewrite E.
    assert (Hx' : x = Z.land x (Z.ones 64))
      by (rewrite Z.land_ones by lia; symmetry; apply Z.mod_small; lia).
    assert (G : forall y, Z.land (Z.land y (Z.ones 64)) (Z.ldiff (Z.ones 64) (Z.ones 21))
                          = Z.ldiff (Z.land y (Z.ones 64)) (Z.ones 21))
      by (intros y; Z.bitblast).
    specialize (G x). rewrite <- Hx' in G. rewrite G.
    rewrite Z.ldiff_ones_r by lia.
    rewrite Z.shiftl_mul_pow2, Z.shiftr_div_pow2 by lia.
    pose proof (Z.div_mod x (2 ^ 21) ltac:(lia)). lia.
  Qed.

Lemma alloc_want bytes :
    0 <= bytes <= 2 ^ 64 - Reader.two_mb ->
    Z.land (u64 (bytes + (Reader.two_mb - 1))) (u64 (Z.lnot (Reader.two_mb - 1)))
    = Reader.two_mb * ((bytes + Reader.two_mb - 1) / Reader.two_mb).
  Proof.
    intros Hb. assert (Htm : Reader.two_mb = 2097152) by reflexivity.
    rewrite (u64_small (bytes + (Reader.two_mb - 1))) by (rewrite Htm in *; lia).
    rewrite land_page_mask by (rewrite Htm in *; lia).
    pose proof (Z.div_mod (bytes + (Reader.two_mb - 1)) Reader.two_mb
                  ltac:(rewrite Htm; lia)) as Hdm.
    replace (bytes + Reader.two_mb - 1) with (bytes + (Reader.two_mb - 1)) by lia. lia.
  Qed.


  (** [HugeBuff::alloc]: a null buffer exactly when both calls of
      [mmap] fail; otherwise a buffer of at least [bytes] bytes: the
      least multiple of 2 MiB when the huge-page mapping succeeds
      (less than 2 MiB more than asked for), and [bytes] itself when
      only the second one does. *)
Theorem alloc_length huge_ok plain_ok bytes :
    0 <= bytes <= 2 ^ 64 - Reader.two_mb ->
    let b := Reader.alloc huge_ok plain_ok bytes in
    (Reader.ptr b = huge_ok || plain_ok) /\
    (Reader.ptr b = true -> bytes <= Reader.len b < bytes + Reader.two_mb) /\
    (huge_ok = true ->
     Reader.len b = Reader.two_mb * ((bytes + Reader.two_mb - 1) / Reader.two_mb)) /\
    (huge_ok = false -> plain_ok = true -> Reader.len b = bytes).
  Proof.
    intros Hb b. subst b. unfold Reader.alloc. cbv zeta.
    assert (Htm : Reader.two_mb = 2097152) by reflexivity.
    pose proof (alloc_want bytes Hb) as Hw.
    pose proof (Z.div_mod (bytes + Reader.two_mb - 1) Reader.two_mb
                  ltac:(rewrite Htm; lia)) as Hdm.
    pose proof (Z.mod_pos_bound (bytes + Reader.two_mb - 1) Reader.two_mb
                  ltac:(rewrite Htm; lia)) as Hmod.
    destruct huge_ok, plain_ok; cbn [Reader.ptr Reader.len Reader.null_buff orb];
      rewrite ?Hw; repeat split; intros; try discriminate; try reflexivity; try lia.
  Qed.

End HugeBuffFacts.

Lemma alloc_length_witness :
  (Reader.ptr (Reader.alloc true false 17) = true || false) /\
  (Reader.ptr (Reader.alloc true false 17) = true ->
   17 <= Reader.len (Reader.alloc true false 17) < 17 + Reader.two_mb) /\
  (true = true ->
   Reader.len (Reader.alloc true false 17)
   = Reader.two_mb * ((17 + Reader.two_mb - 1) / Reader.two_mb)) /\
  (true = false -> false = true -> Reader.len (Reader.alloc true false 17) = 17).
Proof. apply (alloc_length true false 17). vm_compute. split; discriminate. Defined.

Section StageFacts.

  Variable S : Schema.
  Hypothesis HS : schema_ok S.
  Hypothesis HC : columnwise S.

  Local Abbreviation width_before := (Writer.width_before S).
  Local Abbreviation size_of := (fun c : nat => col_size S (Z.of_nat c)).
  Local Abbreviation copy_all := (Reader.copy_all S).
  Local Abbreviation laid_out := (Reader.laid_out S).
  Local Abbreviation columns_mapped := (Reader.columns_mapped S).

  (** Where column [c] starts in a slab laid out for [R] rows. *)
Lemma stage_col_at R c :
    0 <= R < 2 ^ 56 -> (c < COLS S)%nat ->
    nth c (col_offsets 0 (col_bytes S R)) 0 = R * width_before c.
  Proof.
    intros HR Hc. rewrite (col_bytes_scaled S HS R HR).
    pose proof (row_width_range S HS) as Hrw. unfold row_width in Hrw.
    rewrite col_offsets_nth.
    - rewrite firstn_scaled, sumZ_scaled. unfold Writer.width_before. lia.
    - apply scaled_nonneg; [lia | apply (elem_sizes_range S HS)].
    - lia.
    - rewrite sumZ_scaled.
      assert (R * sumZ (elem_sizes S) <= 2 ^ 56 * 96)
        by (transitivity (2 ^ 56 * sumZ (elem_sizes S));
            [apply Z.mul_le_mono_nonneg_r | apply Z.mul_le_mono_nonneg_l]; lia).
      assert (2 ^ 56 * 96 < 2 ^ 64) by (cbn; lia). lia.
    - rewrite length_map, length_elem_sizes. exact Hc.
  Qed.

Lemma need_bytes_at R :
    0 <= R < 2 ^ 56 -> sum_u64 (col_bytes S R) = R * row_width S.
  Proof.
    intros HR. pose proof (row_width_range S HS) as Hrw. unfold row_width in *.
    assert (R * sumZ (elem_sizes S) <= 2 ^ 56 * 96)
      by (transitivity (2 ^ 56 * sumZ (elem_sizes S));
          [apply Z.mul_le_mono_nonneg_r | apply Z.mul_le_mono_nonneg_l]; lia).
    assert (2 ^ 56 * 96 < 2 ^ 64) by (cbn; lia).
    rewrite (col_bytes_scaled S HS R HR), sum_u64_small.
    - apply sumZ_scaled.
    - apply scaled_nonneg; [lia | apply (elem_sizes_range S HS)].
    - rewrite sumZ_scaled. lia.
  Qed.

Lemma stage_cols_done f m R cs : forall st,
    Reader.ptr (Reader.slab st) = true ->
    Reader.cols st = col_offsets 0 (col_bytes S R) ->
    0 <= R < 2 ^ 56 -> 0 <= Reader.rows_ m < 2 ^ 56 ->
    (forall c, In c cs -> (c < COLS S)%nat) ->
    (forall c, (c < COLS S)%nat ->
       R * width_before c + Reader.rows_ m * size_of c <= Reader.len (Reader.slab st)) ->
    (forall c, (c < COLS S)%nat ->
       0 <= nth c (Reader.col_ptrs_ m) 0 /\
       nth c (Reader.col_ptrs_ m) 0 + Reader.rows_ m * size_of c <= Reader.map_bytes_ m) ->
    Reader.stage_cols S f m cs st
    = Done (Reader.mkStage (Reader.slab st) (Reader.cols st) (Reader.capacity_rows st)
              (copy_all f m (Reader.cols st) cs (Reader.mem st))).
  Proof.
    induction cs as [|c cs IH]; intros st Hp Hcols HR Hrows Hcs Hdst Hsrc.
    - cbn [Reader.stage_cols copy_all]. destruct st; reflexivity.
    - cbn [Reader.stage_cols copy_all].
      assert (Hc : (c < COLS S)%nat) by (apply Hcs; now left).
      pose proof HS as (_ & Hw & _). specialize (Hw c Hc).
      assert (H56 : 2 ^ 56 * 8 < 2 ^ 64) by (cbn; lia).
      rewrite (u64_small (col_size S (Z.of_nat c))) by lia.
      assert (Hb : 0 <= Reader.rows_ m * col_size S (Z.of_nat c) <= 2 ^ 56 * 8).
      { split; [apply Z.mul_nonneg_nonneg; lia|].
        transitivity (2 ^ 56 * col_size S (Z.of_nat c));
          [apply Z.mul_le_mono_nonneg_r | apply Z.mul_le_mono_nonneg_l]; lia. }
      rewrite u64_small by lia.
      destruct (Hsrc c Hc) as [Hs0 Hs1]. cbv beta in Hs1.
      pose proof (Hdst c Hc) as Hd. cbv beta in Hd.
      rewrite Hp, Hcols, (stage_col_at R c HR Hc).
      destruct (Z.leb_spec (R * width_before c + Reader.rows_ m * col_size S (Z.of_nat c))
                  (Reader.len (Reader.slab st))); [|lia].
      destruct (Z.leb_spec 0 (nth c (Reader.col_ptrs_ m) 0)); [|lia].
      destruct (Z.leb_spec (nth c (Reader.col_ptrs_ m) 0
                            + Reader.rows_ m * col_size S (Z.of_nat c))
                  (Reader.map_bytes_ m)); [|lia].
      cbn [andb].
      rewrite IH; cbn [Reader.slab Reader.cols Reader.capacity_rows Reader.mem];
        try assumption; try reflexivity.
      intros c' Hc'. apply Hcs. now right.
  Qed.

  (** The column copied last over an offset is the one read there. *)
Lemma copy_all_last f m dsts pre c post : forall mem o,
    nth c dsts 0 <= o < nth c dsts 0 + Reader.rows_ m * size_of c ->
    (forall c', In c' post ->
       o < nth c' dsts 0 \/ nth c' dsts 0 + Reader.rows_ m * size_of c' <= o) ->
    copy_all f m dsts (pre ++ c :: post) mem o
    = f_data f (nth c (Reader.col_ptrs_ m) 0 + (o - nth c dsts 0)).
  Proof.
    induction pre as [|c0 pre IH]; intros mem o Ho Hpost.
    - cbn [app copy_all]. revert mem.
      induction post as [|c1 post IHp]; intros mem.
      + cbn [copy_all]. unfold Reader.copy_in. cbv beta in Ho.
        destruct (Z.leb_spec (nth c dsts 0) o); [|lia].
        destruct (Z.ltb_spec o (nth c dsts 0 + Reader.rows_ m * col_size S (Z.of_nat c)));
          [|lia].
        reflexivity.
      + cbn [copy_all].
        assert (Hpost' : forall c', In c' post ->
                  o < nth c' dsts 0 \/ nth c' dsts 0 + Reader.rows_ m * size_of c' <= o)
          by (intros c' Hc'; apply Hpost; now right).
        specialize (IHp Hpost').
        cbn [copy_all] in IHp.
        pose proof (Hpost c1 (or_introl eq_refl)) as H1. cbv beta in H1.
        (* the copy of c1 leaves [o] alone: commute it below the others *)
        assert (G : forall cs mem1 mem2, mem1 o = mem2 o ->
                  (forall c', In c' cs ->
                     o < nth c' dsts 0 \/ nth c' dsts 0 + Reader.rows_ m * size_of c' <= o) ->
                  copy_all f m dsts cs mem1 o = copy_all f m dsts cs mem2 o).
        { induction cs as [|c2 cs IHc]; intros mem1 mem2 E Hcs; [exact E|].
          cbn [copy_all]. apply IHc; [|intros; apply Hcs; now right].
          unfold Reader.copy_in.
          destruct ((nth c2 dsts 0 <=? o)
                    && (o <? nth c2 dsts 0 + Reader.rows_ m * col_size S (Z.of_nat c2)));
            [reflexivity | exact E]. }
        rewrite <- (IHp mem). apply G; [|exact Hpost'].
        unfold Reader.copy_in at 1.
        destruct (Z.leb_spec (nth c1 dsts 0) o);
          destruct (Z.ltb_spec o (nth c1 dsts 0 + Reader.rows_ m * col_size S (Z.of_nat c1)));
          cbn [andb]; try reflexivity; lia.
    - cbn [app copy_all]. apply IH; assumption.
  Qed.

Lemma seq_split_at n c :
    (c < n)%nat -> seq 0 n = seq 0 c ++ c :: seq (Datatypes.S c) (n - Datatypes.S c).
  Proof.
    intros Hc. replace n with (c + Datatypes.S (n - Datatypes.S c))%nat at 1 by lia.
    rewrite seq_app. reflexivity.
  Qed.

Lemma fresh_stage_laid_out : laid_out (Reader.fresh_stage S).
  Proof. intros H. discriminate H. Qed.

Lemma scaled_le a b w : 0 <= a <= b -> 0 <= w -> a * w <= b * w.
  Proof. intros. apply Z.mul_le_mono_nonneg_r; lia. Qed.



  (** A slab that is reused for more rows than it was laid out for:
      [ensure] keeps the column pointers of the smaller layout, the
      copies overlap, and where the rows from [capacity_rows] on of
      the first column should be the segment holds the second
      column of the file. *)
Theorem stage_reuse_overlaps huge_ok plain_ok f m st :
    (2 <= COLS S)%nat ->
    Reader.ptr (Reader.slab st) = true -> laid_out st -> columns_mapped m ->
    0 < Reader.capacity_rows st < Reader.rows_ m -> Reader.rows_ m < 2 ^ 56 ->
    Reader.rows_ m * row_width S <= Reader.len (Reader.slab st) ->
    exists st2 seg,
      Reader.stage_curr_file S huge_ok plain_ok f (Some m) st = Done (st2, Some seg) /\
      Reader.seg_rows seg = Reader.rows_ m /\
      Reader.seg_cols seg = Reader.cols st /\
      forall k, 0 <= k < Reader.capacity_rows st * size_of 1%nat ->
        Reader.mem st2 (nth 0 (Reader.seg_cols seg) 0
                        + Reader.capacity_rows st * size_of 0%nat + k)
        = f_data f (nth 1 (Reader.col_ptrs_ m) 0 + k).
  Proof.
    intros H2 Hp Hlay Hmap HR Hr Hlen.
    destruct (Hlay Hp) as (Hcols & HR56 & HRlen).
    set (R := Reader.capacity_rows st) in *.
    assert (Hsz : forall c, (c < COLS S)%nat -> 0 <= col_size S (Z.of_nat c) <= 8)
      by (destruct HS as (_ & Hw & _); exact Hw).
    assert (Hens : Reader.ensure S huge_ok plain_ok st (Reader.rows_ m) = st).
    { unfold Reader.ensure. cbv zeta. rewrite (need_bytes_at (Reader.rows_ m)) by lia.
      rewrite Hp. cbn [negb orb].
      destruct (Z.ltb_spec (Reader.len (Reader.slab st)) (Reader.rows_ m * row_width S));
        [lia | reflexivity]. }
    assert (Hdst : forall c, (c < COLS S)%nat ->
              R * width_before c + Reader.rows_ m * size_of c <= Reader.len (Reader.slab st)).
    { intros c Hc. cbv beta. pose proof (width_split S HS c Hc) as Hsplit.
      pose proof (Hsz c Hc) as Hw.
      pose proof (width_before_nonneg S HS c ltac:(lia)) as Hwb.
      pose proof (scaled_le R (Reader.rows_ m) (width_before c) ltac:(lia) Hwb).
      assert (Reader.rows_ m * (width_before c + col_size S (Z.of_nat c))
              <= Reader.rows_ m * row_width S)
        by (apply Z.mul_le_mono_nonneg_l; lia).
      lia. }
    unfold Reader.stage_curr_file.
    destruct (Z.eqb_spec (Reader.rows_ m) 0); [lia|]. rewrite Hens.
    rewrite (stage_cols_done f m R (seq 0 (COLS S)) st Hp Hcols HR56 ltac:(lia)
               ltac:(intros c Hc; apply in_seq in Hc; lia) Hdst Hmap).
    eexists _, _. split; [reflexivity|]. cbn [Reader.seg_rows Reader.seg_cols Reader.cols].
    split; [reflexivity|]. split; [reflexivity|].
    intros k Hk. cbn [Reader.mem]. rewrite Hcols.
    rewrite (seq_split_at (COLS S) 1 ltac:(lia)).
    pose proof (width_before_succ S 0 ltac:(lia)) as Hw1.
    change (width_before 0) with 0 in Hw1.
    pose proof (Hsz 0%nat ltac:(lia)) as Hs0. pose proof (Hsz 1%nat ltac:(lia)) as Hs1.
    cbv beta in Hk.
    pose proof (scaled_le R (Reader.rows_ m) (col_size S (Z.of_nat 1)) ltac:(lia) ltac:(lia)).
    rewrite copy_all_last.
    - rewrite (stage_col_at R 0 HR56 ltac:(lia)), (stage_col_at R 1 HR56 ltac:(lia)).
      change (width_before 0) with 0. rewrite Hw1. f_equal. lia.
    - rewrite (stage_col_at R 0 HR56 ltac:(lia)), (stage_col_at R 1 HR56 ltac:(lia)).
      change (width_before 0) with 0. rewrite Hw1. cbv beta. lia.
    - intros c' Hc'. apply in_seq in Hc'. left.
      rewrite (stage_col_at R 0 HR56 ltac:(lia)), (stage_col_at R c' HR56 ltac:(lia)).
      change (width_before 0) with 0.
      pose proof (width_before_mono S HS 1 c' ltac:(lia) ltac:(lia)) as Hm. cbv beta in Hm.
      rewrite Hw1 in Hm.
      assert (R * (0 + col_size S (Z.of_nat 0) + col_size S (Z.of_nat 1))
              <= R * width_before c')
        by (apply Z.mul_le_mono_nonneg_l; lia).
      lia.
  Qed.

End StageFacts.

Section DaySamplesFacts.
Import WriterSamples DaySamples.

Lemma l2_magic_version :
    (6 <= length (MAGIC L2.schema))%nat /\ 0 <= VERSION L2.schema < 2 ^ 16.
  Proof. split; [cbn; lia | cbn; lia]. Qed.

Lemma one_day_rows :
    Forall (fun x => day_from_hour (hour_from_row L2.schema (snd x)) = 86400
                     /\ marshals L2.schema (snd x)) one_day.
  Proof.
    unfold one_day. repeat apply Forall_cons; try apply Forall_nil;
      (split; [vm_compute; reflexivity|]); apply l2_marshals;
      unfold L2.in_range, is_u64, is_u32, is_u8; cbn; lia.
  Qed.

Lemma small_state_live r : live_at L2.schema (small_state r) small_path 4.
  Proof.
    unfold live_at, small_state. cbn [base_ fd_ disk capacity_ map_bytes_ col_ptrs_].
    split; [reflexivity|]. split; [reflexivity|]. split.
    - exists small_file. unfold small_path. now rewrite String.eqb_refl.
    - split; [reflexivity|]. split; reflexivity.
  Qed.

Lemma two_row_map_columns : Reader.columns_mapped L2.schema two_row_map.
  Proof.
    intros c Hc. cbn [COLS L2.schema] in Hc.
    do 4 (destruct c as [|c]; [vm_compute; split; discriminate|]). lia.
  Qed.

Lemma one_row_stage_laid_out : Reader.laid_out L2.schema one_row_stage.
  Proof.
    intros _. split; [reflexivity|]. vm_compute. repeat split; discriminate.
  Qed.


Lemma header_image_roundtrip_witness :
  header_of_image 4 (header_image 4 (day_header L2.schema "BTC" 86400 4 2))
  = day_header L2.schema "BTC" 86400 4 2.
Proof.
  apply (header_image_roundtrip 4 (day_header L2.schema "BTC" 86400 4 2)).
  apply (day_header_wf L2.schema "BTC" l2_schema_ok (proj1 l2_magic_version)
           (proj2 l2_magic_version)); unfold is_u64; lia.
Defined.

Lemma run_one_day_witness :
  exists st f,
    l2_run one_day fresh = Done st /\
    fd_ st = Some (day_path "/data" "BTC" Dates.utc_date_string 86400) /\
    rows_ st = Z.of_nat (length one_day) /\
    dropped_ st = 0 /\
    disk st (day_path "/data" "BTC" Dates.utc_date_string 86400) = Some f /\
    peek f 0 256 =
    header_image (COLS L2.schema)
      (day_header L2.schema "BTC" 86400 first_capacity (Z.of_nat (length one_day))) /\
    (forall i x, nth_error one_day i = Some x ->
       row_at L2.schema f first_capacity (Z.of_nat i) = snd x /\
       read_row_from_cols L2.schema st (Z.of_nat i) = Some (snd x)) /\
    (forall q, q <> day_path "/data" "BTC" Dates.utc_date_string 86400 ->
       disk st q = None) /\
    HEADER_SZ + first_capacity * row_width L2.schema <= f_size f.
Proof.
  apply (run_one_day L2.schema "/data" "BTC" 0 Dates.utc_date_string l2_schema_ok
           l2_columnwise one_day all_ok late_row 86400 (fun _ => None)).
  - reflexivity.
  - reflexivity.
  - exact one_day_rows.
  - vm_compute. discriminate.
Defined.

Lemma reader_reads_the_day_witness :
  exists st f m,
    l2_run one_day fresh = Done st /\
    disk st (day_path "/data" "BTC" Dates.utc_date_string 86400) = Some f /\
    Reader.map_file L2.schema true true (Some f) = Some m /\
    Reader.rows_ m = Z.of_nat (length one_day) /\
    forall i x, nth_error one_day i = Some x ->
                Reader.read_row L2.schema f m (Z.of_nat i) = Some (snd x).
Proof.
  apply (reader_reads_the_day L2.schema "/data" "BTC" 0 Dates.utc_date_string l2_schema_ok
           l2_columnwise (proj1 l2_magic_version) (proj2 l2_magic_version)
           one_day all_ok late_row 86400 (fun _ => None)).
  - reflexivity.
  - reflexivity.
  - exact one_day_rows.
  - vm_compute. discriminate.
Defined.

Lemma append_row_reads_back_witness :
  exists st',
    append_row L2.schema 0 all_ok (small_state 1) later_row = Done st' /\
    rows_ st' = rows_ (small_state 1) + 1 /\
    dropped_ st' = dropped_ (small_state 1) /\
    read_row_from_cols L2.schema st' (rows_ (small_state 1)) = Some later_row /\
    forall j, 0 <= j < 4 -> j <> rows_ (small_state 1) ->
              read_row_from_cols L2.schema st' j
              = read_row_from_cols L2.schema (small_state 1) j.
Proof.
  apply (append_row_reads_back L2.schema 0 l2_schema_ok l2_columnwise all_ok
           (small_state 1) small_path 4 later_row).
  - apply small_state_live.
  - lia.
  - cbn. lia.
  - apply l2_marshals. unfold L2.in_range, is_u64, is_u32, is_u8. cbn. lia.
Defined.

Lemma failed_grow_leaves_a_dangling_base_witness :
  exists st',
    append_row L2.schema 0 prealloc_fails (small_state 4) later_row = Done st' /\
    rows_ st' = 4 /\ dropped_ st' = u64 (dropped_ (small_state 4) + 1) /\
    base_ st' = Stale /\ update_rows_in_header L2.schema st' = Fault.
Proof.
  apply (failed_grow_leaves_a_dangling_base L2.schema 0 prealloc_fails (small_state 4)
           small_path 4 later_row).
  - apply small_state_live.
  - reflexivity.
  - reflexivity.
Defined.

Lemma day_partition_witness :
  hour_of_ts 86400000000005 = 3600 * (86400000000005 / 3600000000000) /\
  day_from_hour (hour_of_ts 86400000000005) = 86400 * (86400000000005 / 86400000000000) /\
  (day_from_hour (hour_of_ts 86400000000005) = day_from_hour (hour_of_ts 7)
   <-> 86400000000005 / 86400000000000 = 7 / 86400000000000).
Proof.
  apply (day_partition 86400000000005 7); unfold is_u64; lia.
Defined.


Lemma stage_reuse_overlaps_witness :
  exists st2 seg,
    Reader.stage_curr_file L2.schema false false two_row_file (Some two_row_map)
                           one_row_stage
    = Done (st2, Some seg) /\
    Reader.seg_rows seg = Reader.rows_ two_row_map /\
    Reader.seg_cols seg = Reader.cols one_row_stage /\
    forall k, 0 <= k < Reader.capacity_rows one_row_stage * col_size L2.schema (Z.of_nat 1) ->
      Reader.mem st2 (nth 0 (Reader.seg_cols seg) 0
                      + Reader.capacity_rows one_row_stage * col_size L2.schema (Z.of_nat 0)
                      + k)
      = f_data two_row_file (nth 1 (Reader.col_ptrs_ two_row_map) 0 + k).
Proof.
  apply (stage_reuse_overlaps L2.schema l2_schema_ok false false two_row_file two_row_map
           one_row_stage).
  - cbn. lia.
  - reflexivity.
  - exact one_row_stage_laid_out.
  - exact two_row_map_columns.
  - cbn. lia.
  - cbn. lia.
  - vm_compute. discriminate.
Defined.

End DaySamplesFacts.

(* ================================================================== *)
(** * The columnar writer: rotation to another day *)
(* ================================================================== *)

Section WriterRotation.

  Variable S : Schema.
  Variable base_dir product_name : string.
  Variable fsync_every_rows : Z.
  Variable date_string : Z -> string.
  Hypothesis HS : schema_ok S.
  Hypothesis HC : columnwise S.

  Local Abbreviation live_at := (Writer.live_at S).
  Local Abbreviation row_at := (Writer.row_at S).
  Local Abbreviation day_path := (Writer.day_path base_dir product_name date_string).
  Local Abbreviation step := (Writer.step S base_dir product_name fsync_every_rows date_string).

  (** C5 as the code has it.  A row whose partition day differs from
      the day of the open file, be it earlier or later, makes the
      writer rotate.  With working system calls the header of the
      open file is written with the current row count, and nothing
      else in that file changes: its rows read as before and the new
      row is not stored there.  The file is closed, the file of the
      row's day is opened and mapped, and the row is stored at index
      0 of it, from where it is read back. *)
Theorem step_rotates_on_any_other_day st p cap f row :
    live_at st p cap -> disk st p = Some f -> 0 <= cap < 2 ^ 56 ->
    marshals S row ->
    day_from_hour (hour_from_row S row) <> day_start_ st ->
    day_path (day_from_hour (hour_from_row S row)) <> p ->
    exists st' f_new,
      step all_ok st row = Done st' /\
      day_start_ st' = day_from_hour (hour_from_row S row) /\
      live_at st' (day_path (day_from_hour (hour_from_row S row))) first_capacity /\
      rows_ st' = 1 /\ dropped_ st' = dropped_ st /\
      disk st' (day_path (day_from_hour (hour_from_row S row))) = Some f_new /\
      row_at f_new first_capacity 0 = row /\
      read_row_from_cols S st' 0 = Some row /\
      disk st' p
      = Some (poke f 0 (header_image (COLS S) (with_rows (hdr_ st) (rows_ st)))) /\
      (forall j, 0 <= j ->
         row_at (poke f 0 (header_image (COLS S) (with_rows (hdr_ st) (rows_ st)))) cap j
         = row_at f cap j) /\
      (forall q, q <> p -> q <> day_path (day_from_hour (hour_from_row S row)) ->
                 disk st' q = disk st q).
  Proof.
    intros Hl Hf Hcap Hm Hd Hp.
    set (d := day_from_hour (hour_from_row S row)) in *.
    pose proof first_capacity_range as Hfc.
    unfold Writer.step. cbv zeta. fold d.
    destruct (Z.eqb_spec d (day_start_ st)) as [|_]; [contradiction|]. cbn [negb].
    unfold Writer.rotate_to_day.
    destruct (Z.eqb_spec (day_start_ st) d) as [E|_]; [congruence|].
    destruct (update_rows_file S HS st p cap f Hl Hf Hcap)
      as (st1 & E1 & Hl1 & Hd1 & _ & _ & Hdr1 & _ & _ & Hoth1).
    rewrite E1.
    destruct (close_file_fields S st1) as (_ & Cd & _ & _ & Cdisk).
    set (st2 := set_day_start S (close_file S st1) d).
    destruct (open_day_file_file S base_dir product_name date_string HS st2 d)
      as (st3 & f3 & E3 & Hl3 & Hd3 & _ & _ & Hr3 & Hdr3 & Hday3 & _ & Hoth3 & _).
    rewrite E3.
    destruct (append_row_file S fsync_every_rows HS HC all_ok st3 (day_path d) first_capacity
                f3 row Hl3 Hd3 ltac:(lia) ltac:(lia) Hm)
      as (st4 & f4 & r4 & E4 & Hl4 & Hd4 & _ & Hr4 & Hdr4 & Hday4 & Hrow4 & _ & Hoth4 & _).
    rewrite E4. exists st4, f4. split; [reflexivity|].
    assert (Hdisk2 : disk st2 = disk st1) by (subst st2; cbn [set_day_start disk]; exact Cdisk).
    split; [rewrite Hday4, Hday3; reflexivity|].
    split; [exact Hl4|].
    split; [rewrite Hr4, Hr3; reflexivity|].
    split.
    { rewrite Hdr4, Hdr3. subst st2. cbn [set_day_start dropped_]. rewrite Cd, Hdr1.
      reflexivity. }
    split; [exact Hd4|].
    split; [rewrite <- Hr3; exact Hrow4|].
    split.
    { rewrite (read_row_live S HS HC st4 (day_path d) first_capacity f4 0 Hl4 Hd4 ltac:(lia)).
      rewrite <- Hr3. now rewrite Hrow4. }
    split.
    { rewrite (Hoth4 p ltac:(congruence)), (Hoth3 p ltac:(congruence)), Hdisk2. exact Hd1. }
    split.
    { intros j Hj. apply (poke_header_rows S HS HC); [lia | exact Hj|].
      apply (length_header_image S HS). }
    intros q Hq Hq'. rewrite (Hoth4 q Hq'), (Hoth3 q Hq'), Hdisk2. now apply Hoth1.
  Qed.

End WriterRotation.

Section RotationSample.
Import WriterSamples DaySamples.

Lemma step_rotates_on_any_other_day_witness :
  exists st' f_new,
    l2_step all_ok (small_state 1) early_row = Done st' /\
    day_start_ st' = day_from_hour (hour_from_row L2.schema early_row) /\
    Writer.live_at L2.schema st'
      (Writer.day_path "/data" "BTC" Dates.utc_date_string
         (day_from_hour (hour_from_row L2.schema early_row))) first_capacity /\
    rows_ st' = 1 /\ dropped_ st' = dropped_ (small_state 1) /\
    disk st' (Writer.day_path "/data" "BTC" Dates.utc_date_string
                (day_from_hour (hour_from_row L2.schema early_row))) = Some f_new /\
    Writer.row_at L2.schema f_new first_capacity 0 = early_row /\
    read_row_from_cols L2.schema st' 0 = Some early_row /\
    disk st' small_path
    = Some (poke small_file 0
              (header_image (COLS L2.schema)
                 (with_rows (hdr_ (small_state 1)) (rows_ (small_state 1))))) /\
    (forall j, 0 <= j ->
       Writer.row_at L2.schema
         (poke small_file 0
            (header_image (COLS L2.schema)
               (with_rows (hdr_ (small_state 1)) (rows_ (small_state 1))))) 4 j
       = Writer.row_at L2.schema small_file 4 j) /\
    (forall q, q <> small_path ->
       q <> Writer.day_path "/data" "BTC" Dates.utc_date_string
              (day_from_hour (hour_from_row L2.schema early_row)) ->
       disk st' q = disk (small_state 1) q).
Proof.
  apply (step_rotates_on_any_other_day L2.schema "/data" "BTC" 0 Dates.utc_date_string
           l2_schema_ok l2_columnwise (small_state 1) small_path 4 small_file early_row).
  - apply small_state_live.
  - reflexivity.
  - lia.
  - apply l2_marshals. unfold L2.in_range, is_u64, is_u32, is_u8. cbn. lia.
  - vm_compute. discriminate.
  - vm_compute. discriminate.
Defined.

End RotationSample.

(* ================================================================== *)
(** * The block writer: BlockWriterT *)
(* ================================================================== *)

Ltac bw_state :=
  cbn [BlockWriter.fd_ BlockWriter.path_ BlockWriter.allocated_bytes_ BlockWriter.curr_day_
       BlockWriter.header_ BlockWriter.rows_total_ BlockWriter.bytes_total_
       BlockWriter.bytes_since_sync_ BlockWriter.map_base_ BlockWriter.map_len_
       BlockWriter.file_off_ BlockWriter.buf_ BlockWriter.block_buf_ BlockWriter.disk
       BlockWriter.set_fd BlockWriter.set_path BlockWriter.set_allocated
       BlockWriter.set_curr_day BlockWriter.set_header BlockWriter.set_map
       BlockWriter.set_buf BlockWriter.set_block_buf BlockWriter.set_disk
       BlockWriter.and_then BlockWriter.is_open BlockWriter.init
       BlockWriter.rows_total BlockWriter.bytes_total BlockWriter.yyyymmdd
       BlockWriter.blocks_total] in *.

Section BlockWriterFaults.
Import BlockWriter.

  Variable page : Z.
  Hypothesis Hpage : 0 < page.

Lemma length_day_header_bytes h : length (day_header_bytes h) = 24%nat.
  Proof. unfold day_header_bytes. rewrite !length_app, !length_le_bytes. reflexivity. Qed.

Lemma pages_end_ge f : Writer.f_size f <= pages_end page f.
  Proof.
    unfold pages_end.
    pose proof (Z.div_mod (Writer.f_size f + page - 1) page ltac:(lia)) as Hdm.
    pose proof (Z.mod_pos_bound (Writer.f_size f + page - 1) page Hpage) as Hm.
    lia.
  Qed.

Lemma pages_end_aligned f :
    Writer.f_size f mod page = 0 -> pages_end page f = Writer.f_size f.
  Proof.
    intros Hal. unfold pages_end.
    pose proof (Z.div_mod (Writer.f_size f) page ltac:(lia)) as Hdm. rewrite Hal in Hdm.
    replace (Writer.f_size f + page - 1)
      with (page - 1 + (Writer.f_size f / page) * page) by lia.
    rewrite Z.div_add by lia. rewrite (Z.div_small (page - 1) page) by lia. lia.
  Qed.

Lemma encoded_block_nonempty rows blk :
    rows <> [] -> encode_block rows [] = Ok blk -> 76 <= Z.of_nat (length blk).
  Proof.
    intros Hne Henc. pose proof (encode_block_ok_rows rows blk Hne Henc) as Hn.
    rewrite encode_block_shape in Henc by assumption. apply Ok_inj in Henc. subst blk.
    rewrite length_app, length_header_bytes. lia.
  Qed.

Lemma append_past_file_end sys st p f rows blk :
    Writer.f_size f mod page = 0 ->
    fd_ st = Some p -> map_base_ st = true -> disk st p = Some f ->
    rows <> [] -> encode_block rows [] = Ok blk ->
    0 <= file_off_ st -> file_off_ st + Z.of_nat (length blk) < 2 ^ 64 ->
    Writer.f_size f < file_off_ st + Z.of_nat (length blk) <= map_len_ st ->
    append_rows_as_block page sys st rows = Undefined.
  Proof.
    intros Hal Hfd Hmap Hdisk Hne Henc Hoff Hend Hgap.
    pose proof (encoded_block_nonempty rows blk Hne Henc) as Hlen.
    unfold append_rows_as_block. rewrite Henc. cbv zeta.
    unfold ensure_chunk. bw_state. rewrite Hmap.
    rewrite u64_small by lia.
    destruct (Z.leb_spec (file_off_ st + Z.of_nat (length blk)) (map_len_ st)); [|lia].
    cbn [andb and_then]. bw_state. rewrite Hfd, Hmap.
    unfold file_of. bw_state. rewrite Hdisk.
    unfold store_mapped. cbv zeta.
    destruct (Z.eqb_spec (Z.of_nat (length blk)) 0); [lia|].
    rewrite (pages_end_aligned f Hal).
    destruct (Z.leb_spec (file_off_ st + Z.of_nat (length blk)) (Writer.f_size f)); [lia|].
    rewrite !andb_false_r. reflexivity.
  Qed.


  (** A store that lies in the mapping and in the file. *)
Lemma store_mapped_some f map_len off bs :
    0 <= off -> off + Z.of_nat (length bs) <= map_len ->
    off + Z.of_nat (length bs) <= Writer.f_size f ->
    exists f',
      store_mapped page f map_len off bs = Some f' /\
      Writer.f_size f' = Writer.f_size f /\
      Writer.peek f' off (length bs) = bs /\
      (forall off' n, off' + Z.of_nat n <= off \/ off + Z.of_nat (length bs) <= off' ->
                      Writer.peek f' off' n = Writer.peek f off' n).
  Proof.
    intros Hoff Hmap Hfile. unfold store_mapped. cbv zeta.
    destruct (Z.eqb_spec (Z.of_nat (length bs)) 0) as [E|Hn].
    { exists f. split; [reflexivity|]. split; [reflexivity|].
      destruct bs; [|cbn [length] in E; lia]. split; reflexivity. }
    pose proof (pages_end_ge f) as Hpe.
    destruct (Z.leb_spec 0 off); [|lia].
    destruct (Z.leb_spec (off + Z.of_nat (length bs)) map_len); [|lia].
    destruct (Z.leb_spec (off + Z.of_nat (length bs)) (pages_end page f)); [|lia].
    cbn [andb]. eexists. split; [reflexivity|]. cbn [Writer.f_size].
    split; [reflexivity|]. split.
    - rewrite <- (peek_poke_same f off bs) at 2. unfold Writer.peek. cbn [Writer.f_data].
      apply map_ext_in. intros k Hk. apply in_seq in Hk.
      destruct (Z.ltb_spec (off + Z.of_nat k) (Writer.f_size f)); [reflexivity | lia].
    - intros off' n Hdis. rewrite <- (peek_poke_other f off bs off' n Hdis).
      unfold Writer.peek. cbn [Writer.f_data]. apply map_ext_in. intros k Hk.
      destruct (Z.ltb_spec (off' + Z.of_nat k) (Writer.f_size f)); [reflexivity|].
      unfold Writer.poke. cbn [Writer.f_data].
      destruct ((off <=? off' + Z.of_nat k)
                && (off' + Z.of_nat k <? off + Z.of_nat (length bs))) eqn:Eb; [|reflexivity].
      apply andb_true_iff in Eb. destruct Eb as [E1 E2].
      apply Z.leb_le in E1. apply Z.ltb_lt in E2. lia.
  Qed.

  (** [ensure_chunk] looks at the length of the mapping only.  On an
      open and mapped writer whose file ends on a page boundary, a
      block of rows (not empty, within their C++ types) that ends
      within the mapping but beyond the end of the file is copied
      without a call of [ensure_allocated]: the [memcpy] of
      [append_rows_as_block] stores on a page beyond the end of the
      file, whatever the system calls return. *)
Theorem append_beyond_the_file sys st p f rows blk :
    Writer.f_size f mod page = 0 ->
    fd_ st = Some p -> map_base_ st = true -> disk st p = Some f ->
    rows <> [] -> Forall row_ok rows -> encode_block rows [] = Ok blk ->
    0 <= file_off_ st -> file_off_ st + Z.of_nat (length blk) < 2 ^ 64 ->
    Writer.f_size f < file_off_ st + Z.of_nat (length blk) <= map_len_ st ->
    append_rows_as_block page sys st rows = Undefined.
  Proof.
    intros Hal Hfd Hmap Hdisk Hne _. now apply (append_past_file_end sys st p f rows blk).
  Qed.

End BlockWriterFaults.

Section BlockWriterSteps.
Import BlockWriter.

  Variable base_dir product : string.
  Variable block_rows : Z.
  Variable page : Z.
  Hypothesis Hpage : 0 < page <= 2 ^ 32.

  Local Abbreviation day_path := (BlockWriter.day_path base_dir product).

Lemma grow_len_ge fuel : forall a m n, grow_len fuel a m = Some n -> m <= n.
  Proof.
    induction fuel as [|fuel IH]; intros a m n; cbn [grow_len];
      destruct (Z.ltb_spec a m); try discriminate.
    - intros E. apply Some_inj in E. lia.
    - destruct (2 ^ 64 <=? a + MAP_WINDOW); [discriminate|]. apply IH.
    - intros E. apply Some_inj in E. lia.
  Qed.

Lemma first_map_len_range : DAY_HEADER_SZ + MAP_WINDOW <= first_map_len page.
  Proof.
    unfold first_map_len.
    pose proof (Z.div_mod (DAY_HEADER_SZ + MAP_WINDOW + page - 1) page ltac:(lia)) as Hdm.
    pose proof (Z.mod_pos_bound (DAY_HEADER_SZ + MAP_WINDOW + page - 1) page ltac:(lia)).
    lia.
  Qed.

  (** [open_day_file] with working system calls. *)
Lemma open_block_file_ok st d :
    exists st' f',
      open_day_file base_dir product page all_ok st d = Returns st' /\
      fd_ st' = Some (day_path d) /\ map_base_ st' = true /\
      map_len_ st' = first_map_len page /\ allocated_bytes_ st' = 2 ^ 30 /\
      file_off_ st' = DAY_HEADER_SZ /\ header_ st' = mkDayHeader 0 0 d 0 /\
      curr_day_ st' = curr_day_ st /\ rows_total_ st' = rows_total_ st /\
      bytes_total_ st' = bytes_total_ st /\ buf_ st' = buf_ st /\
      disk st' = Writer.disk_put (disk st) (day_path d) f' /\
      Writer.f_size f' = Z.max (Writer.f_size (file_of st (day_path d))) (2 ^ 30) /\
      Writer.peek f' 0 24 = day_header_bytes (mkDayHeader 0 0 d 0).
  Proof.
    unfold open_day_file. cbn [mkdir_ok open_ok fallocate_ok mmap_ok all_ok negb]. bw_state.
    change (align_up (u64 (DAY_HEADER_SZ + MAP_WINDOW)) FALLOCATE_CHUNK) with (Some (2 ^ 30)).
    cbv iota beta.
    assert (H32 : 2 ^ 32 < 2 ^ 64) by (cbn; lia).
    assert (Hal : align_up (u64 (DAY_HEADER_SZ + MAP_WINDOW)) (u64 page)
                  = Some ((DAY_HEADER_SZ + MAP_WINDOW + page - 1) / page * page)).
    { unfold align_up. rewrite (u64_small page) by lia.
      destruct (Z.eqb_spec page 0); [lia|].
      change (u64 (DAY_HEADER_SZ + MAP_WINDOW)) with (DAY_HEADER_SZ + MAP_WINDOW).
      assert (Hw : DAY_HEADER_SZ + MAP_WINDOW = 268435480) by reflexivity.
      rewrite (u64_small (page - 1)) by lia.
      rewrite (u64_small (DAY_HEADER_SZ + MAP_WINDOW + (page - 1))) by lia.
      replace (DAY_HEADER_SZ + MAP_WINDOW + (page - 1))
        with (DAY_HEADER_SZ + MAP_WINDOW + page - 1) by lia.
      pose proof (Z.mul_div_le (DAY_HEADER_SZ + MAP_WINDOW + page - 1) page ltac:(lia)).
      assert (0 <= (DAY_HEADER_SZ + MAP_WINDOW + page - 1) / page)
        by (apply Z.div_pos; lia).
      rewrite u64_small; [reflexivity|].
      split; [apply Z.mul_nonneg_nonneg; lia | lia]. }
    rewrite Hal. fold (first_map_len page).
    pose proof first_map_len_range as Hml.
    set (f1 := Writer.fallocate (file_of st (day_path d)) (2 ^ 30)).
    assert (Hs1 : Writer.f_size f1 = Z.max (Writer.f_size (file_of st (day_path d))) (2 ^ 30))
      by reflexivity.
    destruct (store_mapped_some page ltac:(lia) f1 (first_map_len page) 0
                (day_header_bytes (mkDayHeader 0 0 d 0)))
      as (f2 & Es & Hs2 & Hp2 & _).
    { lia. }
    { rewrite length_day_header_bytes. unfold DAY_HEADER_SZ, MAP_WINDOW in Hml. lia. }
    { rewrite length_day_header_bytes, Hs1. lia. }
    rewrite Es. eexists _, f2. split; [reflexivity|]. bw_state.
    rewrite length_day_header_bytes in Hp2.
    repeat (split; [reflexivity|]). split; [congruence | exact Hp2].
  Qed.

  (** [begin_day] on a writer that has no file open and no day. *)
Lemma begin_day_closed st d :
    fd_ st = None -> curr_day_ st <> d ->
    begin_day base_dir product page all_ok st d
    = and_then (open_day_file base_dir product page all_ok st d)
               (fun st3 => Returns (set_curr_day st3 d)).
  Proof.
    intros Hfd Hd. unfold begin_day.
    destruct (Z.eqb_spec (curr_day_ st) d); [contradiction|].
    assert (Hfl : flush_block page all_ok st = Returns st).
    { unfold flush_block, is_open. rewrite Hfd. now destruct (buf_ st). }
    rewrite Hfl. cbn [and_then]. unfold close. rewrite Hfd. reflexivity.
  Qed.

  (** [append_rows_as_block] on an open writer when the block ends
      within the file: either the mapping has room for it, or
      [ensure_chunk] extends the mapping, without a call of
      [posix_fallocate] when the end is within [allocated_bytes_]. *)
Lemma append_rows_ok sys st p f rows blk new_len :
    fd_ st = Some p -> map_base_ st = true -> disk st p = Some f ->
    encode_block rows [] = Ok blk ->
    0 <= file_off_ st -> file_off_ st + Z.of_nat (length blk) < 2 ^ 64 ->
    file_off_ st + Z.of_nat (length blk) <= Writer.f_size f ->
    (file_off_ st + Z.of_nat (length blk) <= map_len_ st /\ new_len = map_len_ st) \/
    (map_len_ st < file_off_ st + Z.of_nat (length blk) <= allocated_bytes_ st /\
     mremap_ok sys = true /\
     grow_len (Z.to_nat ((file_off_ st + Z.of_nat (length blk) - map_len_ st) / MAP_WINDOW + 1))
              (map_len_ st) (file_off_ st + Z.of_nat (length blk)) = Some new_len) ->
    exists st' f',
      append_rows_as_block page sys st rows = Returns st' /\
      fd_ st' = Some p /\ map_base_ st' = true /\ map_len_ st' = new_len /\
      allocated_bytes_ st' = allocated_bytes_ st /\
      file_off_ st' = file_off_ st + Z.of_nat (length blk) /\
      rows_total_ st' = u64 (rows_total_ st + Z.of_nat (length rows)) /\
      bytes_total_ st' = u64 (bytes_total_ st + Z.of_nat (length blk)) /\
      header_ st' = mkDayHeader (rows_total (header_ st)) (bytes_total (header_ st))
                                (yyyymmdd (header_ st))
                                (u32 (blocks_total (header_ st) + 1)) /\
      curr_day_ st' = curr_day_ st /\ buf_ st' = buf_ st /\
      disk st' = Writer.disk_put (disk st) p f' /\
      Writer.f_size f' = Writer.f_size f /\
      Writer.peek f' (file_off_ st) (length blk) = blk /\
      (forall off n, off + Z.of_nat n <= file_off_ st ->
                     Writer.peek f' off n = Writer.peek f off n).
  Proof.
    intros Hfd Hmap Hdisk Henc Hoff Hend Hfile Hgrow.
    unfold append_rows_as_block. rewrite Henc. cbv zeta.
    assert (Hchunk : exists st1,
              ensure_chunk sys (set_block_buf st blk) (Z.of_nat (length blk)) = Returns st1 /\
              st1 = set_map (set_block_buf st blk) true new_len /\
              file_off_ st + Z.of_nat (length blk) <= new_len).
    { unfold ensure_chunk. bw_state. rewrite Hmap. rewrite u64_small by lia.
      destruct Hgrow as [[Hfit ->] | (Hgap & Hre & Hg)].
      - destruct (Z.leb_spec (file_off_ st + Z.of_nat (length blk)) (map_len_ st)); [|lia].
        cbn [andb]. eexists. split; [reflexivity|]. split; [|lia].
        unfold set_map, set_block_buf. bw_state. now rewrite Hmap.
      - destruct (Z.leb_spec (file_off_ st + Z.of_nat (length blk)) (map_len_ st)); [lia|].
        cbn [andb]. unfold ensure_allocated. bw_state.
        destruct (Z.leb_spec (file_off_ st + Z.of_nat (length blk)) (allocated_bytes_ st));
          [|lia].
        cbn [and_then]. bw_state. rewrite Hg, Hre, Hmap. cbn [andb].
        eexists. split; [reflexivity|]. split; [reflexivity|].
        apply (grow_len_ge _ _ _ _ Hg). }
    destruct Hchunk as (st1 & Ec & -> & Hnew). rewrite Ec. cbn [and_then]. bw_state.
    rewrite Hfd. unfold file_of. bw_state. rewrite Hdisk.
    destruct (store_mapped_some page ltac:(lia) f new_len (file_off_ st) blk Hoff Hnew Hfile)
      as (f' & Es & Hs & Hp & Ho).
    rewrite Es. eexists _, f'. split; [reflexivity|]. bw_state.
    rewrite (u64_small (file_off_ st + Z.of_nat (length blk))) by lia.
    repeat (split; [reflexivity|]). split; [exact Hs|]. split; [exact Hp|].
    intros off n Hd. apply Ho. now left.
  Qed.

Lemma write_block_open sys st p rows :
    rows <> [] -> fd_ st = Some p -> buf_ st = [] ->
    write_block page sys st rows = append_rows_as_block page sys st rows.
  Proof.
    intros Hne Hfd Hbuf. unfold write_block, is_open. rewrite Hfd, Hbuf.
    destruct rows; [congruence | reflexivity].
  Qed.

End BlockWriterSteps.

Section BlockWriterBoundary.
Import BlockWriter.

  Variable base_dir product : string.
  Variable block_rows : Z.

Lemma encoded_nothing blk : encode_block [] [] = Ok blk -> blk = [].
  Proof. cbn. intros E. apply Ok_inj in E. now subst. Qed.

Lemma grow_len_to_the_chunk e :
    3 * 2 ^ 28 + 4096 < e <= 2 ^ 30 ->
    grow_len (Z.to_nat ((e - (2 ^ 28 + 4096)) / MAP_WINDOW + 1)) (2 ^ 28 + 4096) e
    = Some (2 ^ 30 + 4096).
  Proof.
    intros He.
    assert (Hq : (e - (2 ^ 28 + 4096)) / MAP_WINDOW = 2).
    { symmetry. apply (Z.div_unique _ _ 2 (e - (2 ^ 28 + 4096) - 2 * MAP_WINDOW));
        unfold MAP_WINDOW; lia. }
    rewrite Hq. change (Z.to_nat (2 + 1)) with 3%nat.
    cbn [grow_len].
    destruct (Z.ltb_spec (2 ^ 28 + 4096) e); [|lia].
    change (2 ^ 64 <=? 2 ^ 28 + 4096 + MAP_WINDOW) with false. cbv iota.
    destruct (Z.ltb_spec (2 ^ 28 + 4096 + MAP_WINDOW) e); [|unfold MAP_WINDOW in *; lia].
    change (2 ^ 64 <=? 2 ^ 28 + 4096 + MAP_WINDOW + MAP_WINDOW) with false. cbv iota.
    destruct (Z.ltb_spec (2 ^ 28 + 4096 + MAP_WINDOW + MAP_WINDOW) e);
      [|unfold MAP_WINDOW in *; lia].
    change (2 ^ 64 <=? 2 ^ 28 + 4096 + MAP_WINDOW + MAP_WINDOW + MAP_WINDOW) with false.
    cbv iota.
    destruct (Z.ltb_spec (2 ^ 28 + 4096 + MAP_WINDOW + MAP_WINDOW + MAP_WINDOW) e);
      [unfold MAP_WINDOW in *; lia | reflexivity].
  Qed.

  (** The fault is within reach of the public calls, on a new
      writer with working system calls and pages of 4096 bytes, for a
      day other than 0 whose file does not exist or has at most 2^30
      bytes.  [begin_day] makes the file 2^30 bytes long and maps
      2^28 + 4096 of them.  A first [write_block] whose block ends in
      the file beyond byte 3 * 2^28 + 4096 makes [ensure_chunk] extend
      the mapping to 2^30 + 4096 bytes, 4096 more than the file has;
      a second [write_block] whose block ends in these 4096 bytes is
      then copied beyond the end of the file. *)
Theorem block_writer_faults_past_the_first_chunk rows1 rows2 blk1 blk2 d disk0 :
    0 < d < 2 ^ 32 ->
    (forall f, disk0 (day_path base_dir product d) = Some f -> Writer.f_size f <= 2 ^ 30) ->
    Forall row_ok rows1 -> Forall row_ok rows2 ->
    encode_block rows1 [] = Ok blk1 -> encode_block rows2 [] = Ok blk2 ->
    3 * 2 ^ 28 + 4096 < DAY_HEADER_SZ + Z.of_nat (length blk1) <= 2 ^ 30 ->
    2 ^ 30 < DAY_HEADER_SZ + Z.of_nat (length blk1) + Z.of_nat (length blk2)
      <= 2 ^ 30 + 4096 ->
    calls base_dir product block_rows 4096
      [(all_ok, BeginDay d); (all_ok, WriteBlock rows1); (all_ok, WriteBlock rows2)]
      (init disk0) = Undefined.
  Proof.
    intros Hd0 Hold _ _ E1 E2 L1 L2. unfold DAY_HEADER_SZ in L1, L2.
    assert (Hd : d <> 0) by lia.
    assert (Hne1 : rows1 <> []).
    { intros ->. apply encoded_nothing in E1. subst blk1. change (Z.of_nat (length (@nil Z))) with 0 in L1. lia. }
    assert (Hne2 : rows2 <> []).
    { intros ->. apply encoded_nothing in E2. subst blk2. change (Z.of_nat (length (@nil Z))) with 0 in L2. lia. }
    set (path := day_path base_dir product d).
    cbn [calls call].
    rewrite begin_day_closed by (cbn; congruence).
    destruct (open_block_file_ok base_dir product 4096 ltac:(lia) (init disk0) d)
      as (st1 & f1 & Eo & Hfd1 & Hmb1 & Hml1 & Hal1 & Hfo1 & _ & _ & _ & _ & Hbuf1
          & Hdk1 & Hsz1 & _).
    rewrite Eo. cbn [and_then].
    assert (Hsz1' : Writer.f_size f1 = 2 ^ 30).
    { rewrite Hsz1. unfold file_of. cbn [disk init].
      destruct (disk0 (day_path base_dir product d)) as [f|] eqn:Ef.
      - pose proof (Hold f eq_refl). lia.
      - cbn. lia. }
    change (first_map_len 4096) with (2 ^ 28 + 4096) in Hml1.
    set (stA := set_curr_day st1 d).
    assert (HfdA : fd_ stA = Some path) by exact Hfd1.
    assert (HfoA : file_off_ stA = 24) by exact Hfo1.
    assert (HmlA : map_len_ stA = 2 ^ 28 + 4096) by exact Hml1.
    assert (HalA : allocated_bytes_ stA = 2 ^ 30) by exact Hal1.
    assert (HmbA : map_base_ stA = true) by exact Hmb1.
    assert (HbufA : buf_ stA = []) by exact Hbuf1.
    assert (HdkA : disk stA path = Some f1).
    { unfold stA. bw_state. rewrite Hdk1. apply disk_put_same. }
    clearbody stA.
    rewrite (write_block_open 4096 all_ok stA path rows1 Hne1 HfdA HbufA).
    destruct (append_rows_ok 4096 ltac:(lia) all_ok stA path f1 rows1 blk1 (2 ^ 30 + 4096)
                HfdA HmbA HdkA E1)
      as (stB & fB & EB & HfdB & HmbB & HmlB & _ & HfoB & _ & _ & _ & _ & HbufB
          & HdkB & HszB & _).
    { lia. }
    { lia. }
    { lia. }
    { right. rewrite HfoA, HmlA, HalA. split; [lia|]. split; [reflexivity|].
      apply grow_len_to_the_chunk. lia. }
    rewrite EB. cbn [and_then].
    assert (HbufB' : buf_ stB = []) by congruence.
    rewrite (write_block_open 4096 all_ok stB path rows2 Hne2 HfdB HbufB').
    rewrite (append_past_file_end 4096 ltac:(lia) all_ok stB path fB rows2 blk2);
      [reflexivity | .. ].
    - rewrite HszB, Hsz1'. reflexivity.
    - exact HfdB.
    - exact HmbB.
    - rewrite HdkB. apply disk_put_same.
    - exact Hne2.
    - exact E2.
    - lia.
    - lia.
    - lia.
  Qed.

End BlockWriterBoundary.

Section PeekFacts.

Lemma map_seq_from {B} n : forall (g : nat -> B) a,
    map g (seq a n) = map (fun k => g (a + k)%nat) (seq 0 n).
  Proof.
    induction n as [|n IH]; intros g a; [reflexivity|].
    cbn [seq map]. rewrite Nat.add_0_r. f_equal.
    rewrite (IH g (Datatypes.S a)), (IH (fun k => g (a + k)%nat) 1%nat).
    apply map_ext. intros k. f_equal. lia.
  Qed.

Lemma peek_app f off n1 n2 :
    Writer.peek f off (n1 + n2)
    = Writer.peek f off n1 ++ Writer.peek f (off + Z.of_nat n1) n2.
  Proof.
    unfold Writer.peek. rewrite seq_app, map_app. f_equal.
    rewrite map_seq_from. apply map_ext. intros k. f_equal. lia.
  Qed.

Lemma peek_truncate f n off k :
    off + Z.of_nat k <= n ->
    Writer.peek (BlockWriter.truncate f n) off k = Writer.peek f off k.
  Proof.
    intros H. unfold Writer.peek, BlockWriter.truncate. cbn [Writer.f_data].
    apply map_ext_in. intros i Hi. apply in_seq in Hi.
    destruct (Z.ltb_spec (off + Z.of_nat i) n); [reflexivity | lia].
  Qed.

Lemma peek_pwrite_header f h :
    Writer.peek (BlockWriter.pwrite f 0 (BlockWriter.day_header_bytes h)) 0 24
    = BlockWriter.day_header_bytes h.
  Proof.
    pose proof (peek_poke_same f 0 (BlockWriter.day_header_bytes h)) as H.
    rewrite length_day_header_bytes in H. exact H.
  Qed.

Lemma peek_pwrite_after f bs off k :
    Z.of_nat (length bs) <= off ->
    Writer.peek (BlockWriter.pwrite f 0 bs) off k = Writer.peek f off k.
  Proof.
    intros H. apply (peek_poke_other f 0 bs off k). right. lia.
  Qed.

End PeekFacts.

Section BlockWriterDay.
Import BlockWriter.

  Variable base_dir product : string.
  Variable block_rows : Z.
  Variable page : Z.
  Hypothesis Hpage : 0 < page <= 2 ^ 32.
  Hypothesis Hrows : 0 < block_rows < 2 ^ 32.

  Local Abbreviation day_path := (BlockWriter.day_path base_dir product).
  Local Abbreviation calls := (BlockWriter.calls base_dir product block_rows page).

  (** A group of rows is encoded into a block of no more than 91
      bytes a row. *)
Lemma encoded_ok g :
    g <> [] -> 4 * Z.of_nat (length g) < 2 ^ 32 ->
    encode_block g [] = Ok (encoded g) /\
    76 <= Z.of_nat (length (encoded g)) <= 91 * Z.of_nat (length g).
  Proof.
    intros Hne Hn. pose proof (encode_block_shape g Hne Hn) as E.
    unfold encoded. rewrite E. split; [reflexivity|].
    rewrite length_app, Nat2Z.inj_add, length_header_bytes, length_block_body.
    pose proof (width_of_range _ (ts_deltas_u32 (Codec.ts_ns (hd zero_row g)) g)) as Ht.
    pose proof (width_of_range _ (px_zigzags_u32 (Codec.price (hd zero_row g)) g)) as Hp.
    set (wt := width_of (ts_deltas _ _)) in *. set (wp := width_of (px_zigzags _ _)) in *.
    set (n := Z.of_nat (length g)) in *.
    assert (Hn1 : 1 <= n) by (subst n; destruct g; [congruence | cbn [length]; lia]).
    assert (Hw : forall w, 1 <= w <= 32 -> 0 <= (w * n + 7) / 8 <= 4 * n).
    { intros w Hw. split; [apply Z.div_pos; nia|].
      transitivity ((32 * n + 7) / 8); [apply Z.div_le_mono; nia|].
      replace (32 * n + 7) with (7 + 4 * n * 8) by lia.
      rewrite Z.div_add by lia. change (7 / 8) with 0. lia. }
    pose proof (Hw wt Ht). pose proof (Hw wp Hp).
    assert (0 <= (n + 7) / 8 <= n).
    { split; [apply Z.div_pos; lia|]. apply Z.div_le_upper_bound; lia. }
    lia.
  Qed.

  (** [begin_day] on a new writer. *)
Lemma begin_day_fresh disk0 d :
    d <> 0 ->
    exists st,
      begin_day base_dir product page all_ok (init disk0) d = Returns st /\
      writing st (day_path d) d [] 0 /\ buf_ st = [] /\
      forall q, q <> day_path d -> disk st q = disk0 q.
  Proof.
    intros Hd. rewrite begin_day_closed by (cbn; congruence).
    destruct (open_block_file_ok base_dir product page Hpage (init disk0) d)
      as (st1 & f1 & Eo & Hfd1 & Hmb1 & Hml1 & Hal1 & Hfo1 & Hh1 & _ & Hrt1 & Hbt1 & Hbuf1
          & Hdk1 & Hsz1 & _).
    rewrite Eo. cbn [and_then]. eexists. split; [reflexivity|].
    split; [|split].
    - unfold writing, set_curr_day. bw_state. cbn [concat length].
      split; [exact Hfd1|]. split; [exact Hmb1|]. split; [reflexivity|].
      split; [rewrite Hml1; apply (first_map_len_range page Hpage)|].
      split; [exact Hh1|]. split; [exact Hrt1|]. split; [exact Hbt1|].
      split; [rewrite Hfo1; unfold DAY_HEADER_SZ; lia|].
      exists f1. split; [rewrite Hdk1; apply disk_put_same|].
      split; [rewrite Hsz1; unfold FALLOCATE_CHUNK; lia | reflexivity].
    - exact Hbuf1.
    - intros q Hq. unfold set_curr_day. bw_state. rewrite Hdk1.
      now apply disk_put_other.
  Qed.

  (** A block appended within the first window of the mapping. *)
Lemma append_writing sys st p d blks n g :
    writing st p d blks n -> g <> [] -> 4 * Z.of_nat (length g) < 2 ^ 32 ->
    DAY_HEADER_SZ + Z.of_nat (length (concat blks)) + Z.of_nat (length (encoded g))
      <= MAP_WINDOW ->
    0 <= n -> n + Z.of_nat (length g) < 2 ^ 64 ->
    Z.of_nat (length blks) + 1 < 2 ^ 32 ->
    exists st',
      append_rows_as_block page sys st g = Returns st' /\
      writing st' p d (blks ++ [encoded g]) (n + Z.of_nat (length g)) /\
      buf_ st' = buf_ st /\
      forall q, q <> p -> disk st' q = disk st q.
  Proof.
    intros (Hfd & Hmb & Hcd & Hml & Hh & Hrt & Hbt & Hfo & f & Hdk & Hsz & Hpk)
           Hne H4 Hfit Hn Hn64 Hnb.
    destruct (encoded_ok g Hne H4) as [Eenc Hlen].
    assert (HW : MAP_WINDOW = 2 ^ 28) by reflexivity.
    assert (HC : FALLOCATE_CHUNK = 2 ^ 30) by reflexivity.
    assert (HD : DAY_HEADER_SZ = 24) by reflexivity.
    destruct (append_rows_ok page Hpage sys st p f g (encoded g) (map_len_ st)
                Hfd Hmb Hdk Eenc)
      as (st' & f' & Ea & Hfd' & Hmb' & Hml' & _ & Hfo' & Hrt' & Hbt' & Hh' & Hcd' & Hbuf'
          & Hdk' & Hsz' & Hpk' & Hold).
    { lia. }
    { lia. }
    { lia. }
    { left. split; [lia | reflexivity]. }
    exists st'. split; [exact Ea|]. split; [|split].
    - unfold writing. rewrite concat_app, !length_app. cbn [concat length].
      rewrite app_nil_r, Nat2Z.inj_add.
      split; [exact Hfd'|]. split; [exact Hmb'|]. split; [congruence|].
      split; [lia|]. split.
      { rewrite Hh', Hh. cbn [rows_total bytes_total yyyymmdd blocks_total].
        rewrite u32_small by lia. f_equal; lia. }
      split; [rewrite Hrt', Hrt, u64_small by lia; lia|].
      split; [rewrite Hbt', Hbt, u64_small by lia; lia|].
      split; [lia|].
      exists f'. split; [rewrite Hdk'; apply disk_put_same|]. split; [lia|].
      rewrite peek_app. f_equal.
      + rewrite Hold by lia. exact Hpk.
      + rewrite <- Hfo. exact Hpk'.
    - exact Hbuf'.
    - intros q Hq. rewrite Hdk'. now apply disk_put_other.
  Qed.

Lemma flush_writing sys st p d blks n :
    writing st p d blks n -> buf_ st <> [] -> 4 * Z.of_nat (length (buf_ st)) < 2 ^ 32 ->
    DAY_HEADER_SZ + Z.of_nat (length (concat blks)) + Z.of_nat (length (encoded (buf_ st)))
      <= MAP_WINDOW ->
    0 <= n -> n + Z.of_nat (length (buf_ st)) < 2 ^ 64 ->
    Z.of_nat (length blks) + 1 < 2 ^ 32 ->
    exists st',
      flush_block page sys st = Returns st' /\
      writing st' p d (blks ++ [encoded (buf_ st)]) (n + Z.of_nat (length (buf_ st))) /\
      buf_ st' = [] /\
      forall q, q <> p -> disk st' q = disk st q.
  Proof.
    intros Hw Hne H4 Hfit Hn Hn64 Hnb.
    destruct (append_writing sys st p d blks n (buf_ st) Hw Hne H4 Hfit Hn Hn64 Hnb)
      as (st' & Ea & Hw' & _ & Hdk').
    unfold flush_block, is_open. destruct Hw as (Hfd & _). rewrite Hfd.
    destruct (buf_ st) as [|r0 rest] eqn:Eb; [congruence|]. cbn [negb].
    rewrite u32_small by lia. rewrite Nat2Z.id, firstn_all, Ea. cbn [and_then].
    eexists. split; [reflexivity|]. split; [|split].
    - destruct Hw' as (H1 & H2 & H3 & H4' & H5 & H6 & H7 & H8 & H9).
      unfold writing, set_buf. bw_state. auto 10.
    - reflexivity.
    - intros q Hq. unfold set_buf. bw_state. now apply Hdk'.
  Qed.

Lemma calls_app cs1 : forall cs2 st,
    calls (cs1 ++ cs2) st = and_then (calls cs1 st) (calls cs2).
  Proof.
    induction cs1 as [|[sys c] cs1 IH]; intros cs2 st; [reflexivity|].
    cbn [app BlockWriter.calls].
    destruct (call base_dir product block_rows page sys st c); cbn [and_then];
      [apply IH | reflexivity | reflexivity].
  Qed.

  (** The loop of the client over the rows of a day. *)
Lemma write_rows_writing p d rows : forall st blks n,
    writing st p d blks n ->
    Z.of_nat (length (buf_ st)) < block_rows ->
    Z.of_nat (length blks) <= n -> 0 <= n ->
    n + Z.of_nat (length (buf_ st)) + Z.of_nat (length rows) <= 2 ^ 28 ->
    DAY_HEADER_SZ + Z.of_nat (length (concat blks))
      + 91 * (Z.of_nat (length (buf_ st)) + Z.of_nat (length rows)) <= MAP_WINDOW ->
    exists st' gs,
      calls (map (fun r => (all_ok, WriteRow r)) rows) st = Returns st' /\
      writing st' p d (blks ++ map encoded gs) (n + Z.of_nat (length (concat gs))) /\
      concat gs ++ buf_ st' = buf_ st ++ rows /\
      Forall (fun g => Z.of_nat (length g) = block_rows) gs /\
      Z.of_nat (length (buf_ st')) < block_rows /\
      (forall q, q <> p -> disk st' q = disk st q) /\
      Z.of_nat (length (blks ++ map encoded gs)) <= n + Z.of_nat (length (concat gs)) /\
      n + Z.of_nat (length (concat gs)) + Z.of_nat (length (buf_ st')) <= 2 ^ 28 /\
      DAY_HEADER_SZ + Z.of_nat (length (concat (blks ++ map encoded gs)))
        + 91 * Z.of_nat (length (buf_ st')) <= MAP_WINDOW.
  Proof.
    induction rows as [|r rows IH]; intros st blks n Hw Hbuf Hnb Hn Hcnt Hfit.
    - exists st, []. cbn [map BlockWriter.calls concat length] in *.
      rewrite !app_nil_r, !Z.add_0_r in *.
      split; [reflexivity|]. split; [exact Hw|]. split; [reflexivity|].
      split; [constructor|]. split; [exact Hbuf|]. split; [reflexivity|].
      split; [exact Hnb|]. split; [exact Hcnt | exact Hfit].
    - cbn [map BlockWriter.calls call]. cbn [length] in Hcnt, Hfit.
      rewrite Nat2Z.inj_succ in Hcnt, Hfit.
      unfold write_row. cbv zeta. bw_state.
      set (buf1 := buf_ st ++ [r]).
      assert (Hl1 : Z.of_nat (length buf1) = Z.of_nat (length (buf_ st)) + 1)
        by (subst buf1; rewrite length_app; cbn [length]; lia).
      destruct (Z.leb_spec block_rows (Z.of_nat (length buf1))) as [Hfull|Hroom].
      + assert (Hw1 : writing (set_buf st buf1) p d blks n).
        { destruct Hw as (H1 & H2 & H3 & H4 & H5 & H6 & H7 & H8 & H9).
          unfold writing, set_buf. bw_state. auto 10. }
        assert (Hne : buf1 <> []) by (subst buf1; destruct (buf_ st); discriminate).
        assert (Hb1 : buf_ (set_buf st buf1) = buf1) by reflexivity.
        destruct (encoded_ok buf1 Hne ltac:(lia)) as [_ Hlen].
        destruct (flush_writing all_ok (set_buf st buf1) p d blks n Hw1)
          as (st1 & Ef & Hw1' & Hbuf1 & Hdk1); rewrite ?Hb1; try assumption; try lia.
        rewrite Hb1 in Hw1'. rewrite Ef. cbn [and_then].
        assert (Hcat : Z.of_nat (length (concat (blks ++ [encoded buf1])))
                       = Z.of_nat (length (concat blks)) + Z.of_nat (length (encoded buf1))).
        { rewrite concat_app, length_app. cbn [concat]. rewrite app_nil_r. lia. }
        destruct (IH st1 (blks ++ [encoded buf1]) (n + Z.of_nat (length buf1)) Hw1')
          as (st2 & gs & Ec & Hw2 & Hcc & Hall & Hb2 & Hdk2 & Hnb2 & Hcnt2 & Hfit2).
        { rewrite Hbuf1. cbn [length]. lia. }
        { rewrite length_app. cbn [length]. lia. }
        { lia. }
        { rewrite Hbuf1. cbn [length]. lia. }
        { rewrite Hbuf1, Hcat. cbn [length]. lia. }
        rewrite <- app_assoc in Hw2, Hnb2, Hfit2. cbn [app] in Hw2, Hnb2, Hfit2.
        exists st2, (buf1 :: gs). cbn [map concat]. rewrite length_app, Nat2Z.inj_add.
        replace (n + (Z.of_nat (length buf1) + Z.of_nat (length (concat gs))))
          with (n + Z.of_nat (length buf1) + Z.of_nat (length (concat gs))) by lia.
        split; [exact Ec|]. split; [|split; [|split; [|split; [|split]]]].
        * exact Hw2.
        * rewrite <- app_assoc, Hcc, Hbuf1. subst buf1.
          rewrite <- app_assoc. reflexivity.
        * constructor; [lia | exact Hall].
        * exact Hb2.
        * intros q Hq. rewrite (Hdk2 q Hq). rewrite (Hdk1 q Hq). reflexivity.
        * auto.
      + assert (Hw1 : writing (set_buf st buf1) p d blks n).
        { destruct Hw as (H1 & H2 & H3 & H4 & H5 & H6 & H7 & H8 & H9).
          unfold writing, set_buf. bw_state. auto 10. }
        cbn [and_then].
        destruct (IH (set_buf st buf1) blks n Hw1)
          as (st2 & gs & Ec & Hw2 & Hcc & Hall & Hb2 & Hdk2 & Hrest).
        { unfold set_buf. bw_state. lia. }
        { lia. }
        { lia. }
        { unfold set_buf. bw_state. lia. }
        { unfold set_buf. bw_state. lia. }
        exists st2, gs. split; [exact Ec|]. split; [exact Hw2|].
        split; [|split; [exact Hall | split; [exact Hb2 | split; [exact Hdk2 | exact Hrest]]]].
        rewrite Hcc. unfold set_buf. bw_state. subst buf1. now rewrite <- app_assoc.
  Qed.

Lemma groups_encoded gs :
    Forall (fun g => 0 < Z.of_nat (length g) <= block_rows) gs ->
    4 * Z.of_nat (length (concat gs)) < 2 ^ 32 ->
    Forall (fun g => encode_block g [] = Ok (encoded g)) gs.
  Proof.
    induction gs as [|g gs IH]; intros Hall Hlen; [constructor|].
    inversion Hall as [|? ? Hg Hgs]; subst.
    cbn [concat] in Hlen. rewrite length_app, Nat2Z.inj_add in Hlen.
    constructor.
    - apply encoded_ok; [destruct g; [cbn [length] in Hg; lia | discriminate] | lia].
    - apply IH; [exact Hgs | lia].
  Qed.

  (** [close] on an open day: the last rows are flushed, the file is
      cut after the last block and the header gets the totals. *)
Lemma close_writing st p d blks n :
    writing st p d blks n -> buf_ st = [] ->
    0 <= n < 2 ^ 64 ->
    DAY_HEADER_SZ + Z.of_nat (length (concat blks)) <= MAP_WINDOW ->
    exists st' f,
      close page all_ok st = Returns st' /\
      fd_ st' = None /\ buf_ st' = [] /\ curr_day_ st' = 0 /\
      disk st' p = Some f /\
      Writer.f_size f = DAY_HEADER_SZ + Z.of_nat (length (concat blks)) /\
      Writer.peek f 0 (24 + length (concat blks))
      = day_header_bytes (mkDayHeader n (Z.of_nat (length (concat blks))) d
                                      (Z.of_nat (length blks)))
        ++ concat blks /\
      forall q, q <> p -> disk st' q = disk st q.
  Proof.
    intros (Hfd & Hmb & Hcd & Hml & Hh & Hrt & Hbt & Hfo & f & Hdk & Hsz & Hpk) Hbuf Hn Hfit.
    assert (HW : MAP_WINDOW = 2 ^ 28) by reflexivity.
    assert (HD : DAY_HEADER_SZ = 24) by reflexivity.
    unfold close. rewrite Hfd. unfold flush_block. rewrite Hbuf. cbn [and_then].
    rewrite Hfd, Hmb. cbn [all_ok ftruncate_ok pwrite_ok negb andb]. bw_state.
    unfold file_of. bw_state. rewrite Hdk, Hfo, Hh, Hrt, Hbt.
    cbn [rows_total bytes_total yyyymmdd blocks_total].
    destruct (Z.ltb_spec (DAY_HEADER_SZ + Z.of_nat (length (concat blks))) (2 ^ 63)); [|lia].
    eexists _, _. split; [reflexivity|]. bw_state.
    split; [reflexivity|]. split; [reflexivity|]. split; [reflexivity|].
    split; [apply disk_put_same|]. split; [|split].
    - unfold pwrite, truncate. cbn [Writer.f_size]. rewrite length_day_header_bytes. lia.
    - rewrite peek_app, peek_pwrite_header.
      rewrite peek_pwrite_after by (rewrite length_day_header_bytes; lia).
      rewrite peek_truncate by lia. change (0 + Z.of_nat 24) with DAY_HEADER_SZ.
      now rewrite Hpk.
    - intros q Hq. now apply disk_put_other.
  Qed.

Lemma close_after_flush sys st st1 p :
    fd_ st = Some p -> fd_ st1 = Some p -> buf_ st1 = [] ->
    flush_block page sys st = Returns st1 ->
    close page sys st = close page sys st1.
  Proof.
    intros Hfd Hfd1 Hb1 Ef. unfold close. rewrite Hfd, Hfd1, Ef. cbn [and_then].
    unfold flush_block. rewrite Hb1. reflexivity.
  Qed.

  (** A day written row by row and closed, on a new writer with
      working system calls, for a day other than 0 and rows within
      their C++ types, few enough for the first window of the mapping
      (24 + 91 bytes a row within 2^28): the calls return, the writer
      is closed again, and the file of the day holds the header with
      the totals (rows, bytes of blocks, date, blocks) followed by
      the encoded groups of rows and nothing else.  The groups are the
      rows in their order, cut every [block_rows] rows; only the last
      group can be shorter.  No other file is touched. *)
Theorem block_writer_writes_the_day rows d disk0 :
    0 < d < 2 ^ 32 ->
    Forall row_ok rows ->
    DAY_HEADER_SZ + 91 * Z.of_nat (length rows) <= MAP_WINDOW ->
    exists st groups f,
      calls ((all_ok, BeginDay d) :: map (fun r => (all_ok, WriteRow r)) rows
             ++ [(all_ok, Close)]) (init disk0) = Returns st /\
      fd_ st = None /\ buf_ st = [] /\ curr_day_ st = 0 /\
      concat groups = rows /\
      Forall (fun g => Z.of_nat (length g) = block_rows) (removelast groups) /\
      Forall (fun g => 0 < Z.of_nat (length g) <= block_rows) groups /\
      Forall (fun g => encode_block g [] = Ok (encoded g)) groups /\
      disk st (day_path d) = Some f /\
      Writer.f_size f = DAY_HEADER_SZ + Z.of_nat (length (concat (map encoded groups))) /\
      Writer.peek f 0 (24 + length (concat (map encoded groups)))
      = day_header_bytes
          (mkDayHeader (Z.of_nat (length rows))
                       (Z.of_nat (length (concat (map encoded groups)))) d
                       (Z.of_nat (length groups)))
        ++ concat (map encoded groups) /\
      forall q, q <> day_path d -> disk st q = disk0 q.
  Proof.
    intros Hd0 _ Hfit.
    assert (Hd : d <> 0) by lia.
    assert (HW : MAP_WINDOW = 2 ^ 28) by reflexivity.
    assert (HD : DAY_HEADER_SZ = 24) by reflexivity.
    destruct (begin_day_fresh disk0 d Hd) as (st0 & E0 & Hw0 & Hb0 & Hdk0).
    destruct (write_rows_writing (day_path d) d rows st0 [] 0 Hw0)
      as (st1 & gs & E1 & Hw1 & Hcc & Hall & Hb1 & Hdk1 & Hnb1 & Hcnt1 & Hfit1).
    { rewrite Hb0. cbn [length]. lia. }
    { cbn [length]. lia. }
    { lia. }
    { rewrite Hb0. cbn [length]. lia. }
    { rewrite Hb0. cbn [length concat]. lia. }
    cbn [app] in Hw1, Hnb1, Hfit1. rewrite Z.add_0_l in Hw1, Hnb1, Hcnt1.
    rewrite Hb0 in Hcc. cbn [app] in Hcc.
    assert (Hgs : Forall (fun g => 0 < Z.of_nat (length g) <= block_rows) gs).
    { eapply Forall_impl; [|exact Hall]. cbv beta. intros g Hg. lia. }
    assert (Hlen : Z.of_nat (length rows)
                   = Z.of_nat (length (concat gs)) + Z.of_nat (length (buf_ st1))).
    { rewrite <- Hcc, length_app. lia. }
    change ((all_ok, BeginDay d) :: map (fun r => (all_ok, WriteRow r)) rows
            ++ [(all_ok, Close)])
      with ([(all_ok, BeginDay d)] ++ map (fun r => (all_ok, WriteRow r)) rows
            ++ [(all_ok, Close)]).
    rewrite !calls_app. cbn [BlockWriter.calls call and_then].
    rewrite E0. cbn [and_then]. rewrite calls_app, E1. cbn [and_then BlockWriter.calls call].
    assert (Hdone : forall o, and_then o (fun st => Returns st) = o)
      by (intros []; reflexivity).
    rewrite Hdone.
    destruct (buf_ st1) as [|r0 rest] eqn:Eb.
    - destruct (close_writing st1 (day_path d) d (map encoded gs) _ Hw1 Eb)
        as (st2 & f & Ec & Hfd2 & Hb2 & Hcd2 & Hdk2 & Hsz2 & Hpk2 & Hoth2).
      { cbn [length] in Hcnt1. lia. }
      { cbn [length] in Hfit1. lia. }
      exists st2, gs, f. split; [exact Ec|].
      rewrite app_nil_r in Hcc. cbn [length] in Hlen. rewrite Z.add_0_r in Hlen.
      rewrite length_map in Hpk2. rewrite Hlen.
      split; [exact Hfd2|]. split; [exact Hb2|]. split; [exact Hcd2|].
      split; [exact Hcc|]. split.
      { destruct gs as [|g0 gs'] using rev_ind; [constructor|].
        rewrite removelast_last. apply Forall_app in Hall. apply Hall. }
      split; [exact Hgs|].
      split; [apply groups_encoded; [exact Hgs | rewrite Hcc; lia]|].
      split; [exact Hdk2|]. split; [exact Hsz2|].
      split; [exact Hpk2|]. intros q Hq. rewrite (Hoth2 q Hq), (Hdk1 q Hq). now apply Hdk0.
    - assert (Hne : buf_ st1 <> []) by (rewrite Eb; discriminate).
      assert (Hl : 0 < Z.of_nat (length (buf_ st1))) by (rewrite Eb; cbn [length]; lia).
      rewrite <- Eb in *.
      destruct (encoded_ok (buf_ st1) Hne ltac:(lia)) as [_ Hel].
      destruct (flush_writing all_ok st1 (day_path d) d (map encoded gs) _ Hw1 Hne)
        as (st2 & Ef & Hw2 & Hb2 & Hdk2); try lia.
      pose proof Hw1 as (Hfd1 & _). pose proof Hw2 as (Hfd2 & _).
      rewrite (close_after_flush all_ok st1 st2 (day_path d) Hfd1 Hfd2 Hb2 Ef).
      assert (Hcat : Z.of_nat (length (concat (map encoded gs ++ [encoded (buf_ st1)])))
                     = Z.of_nat (length (concat (map encoded gs)))
                       + Z.of_nat (length (encoded (buf_ st1)))).
      { rewrite concat_app, length_app. cbn [concat]. rewrite app_nil_r. lia. }
      destruct (close_writing st2 (day_path d) d _ _ Hw2 Hb2)
        as (st3 & f & Ec & Hfd3 & Hb3 & Hcd3 & Hdk3 & Hsz3 & Hpk3 & Hoth3).
      { lia. }
      { rewrite Hcat. lia. }
      exists st3, (gs ++ [buf_ st1]), f. split; [exact Ec|].
      rewrite map_app. cbn [map]. rewrite !length_app, length_map in *. cbn [length] in *.
      split; [exact Hfd3|]. split; [exact Hb3|]. split; [exact Hcd3|].
      split; [rewrite concat_app; cbn [concat]; rewrite app_nil_r; exact Hcc|].
      split; [rewrite removelast_last; exact Hall|].
      split; [apply Forall_app; split; [exact Hgs | constructor; [lia | constructor]]|].
      split.
      { apply groups_encoded.
        - apply Forall_app; split; [exact Hgs | constructor; [lia | constructor]].
        - rewrite concat_app, length_app, Nat2Z.inj_add. cbn [concat].
          rewrite app_nil_r. lia. }
      split; [exact Hdk3|]. split; [exact Hsz3|]. split.
      { rewrite Hpk3, Hlen. reflexivity. }
      intros q Hq. rewrite (Hoth3 q Hq), (Hdk2 q Hq), (Hdk1 q Hq). now apply Hdk0.
  Qed.

End BlockWriterDay.

Section BlockSamplesFacts.
Import BlockWriter BlockSamples.

Lemma odd_rows_ok : Forall row_ok odd_rows.
Proof. repeat constructor; unfold is_u64, is_u32, is_u8; cbn; lia. Qed.

Lemma append_beyond_the_file_witness :
  append_rows_as_block 4096 all_ok chunk_state odd_rows = Undefined.
Proof.
  apply (append_beyond_the_file 4096 ltac:(lia) all_ok chunk_state chunk_path chunk_file
           odd_rows odd_block).
  - reflexivity.
  - reflexivity.
  - reflexivity.
  - reflexivity.
  - discriminate.
  - exact odd_rows_ok.
  - reflexivity.
  - vm_compute. discriminate.
  - vm_compute. reflexivity.
  - vm_compute. split; [reflexivity | discriminate].
Defined.

Lemma block_writer_faults_past_the_first_chunk_witness :
  calls "/data" "BTC" 8192 4096
    [(all_ok, BeginDay 20240102); (all_ok, WriteBlock long_run);
     (all_ok, WriteBlock short_run)]
    (init (fun _ => None)) = Undefined.
Proof.
  destruct (encode_equal_rows wide_row 29000000 ltac:(lia) ltac:(lia)) as (blk1 & E1 & L1).
  destruct (encode_equal_rows wide_row 826200 ltac:(lia) ltac:(lia)) as (blk2 & E2 & L2).
  apply (block_writer_faults_past_the_first_chunk "/data" "BTC" 8192
           long_run short_run blk1 blk2 20240102 (fun _ => None)).
  - lia.
  - intros f Hf. discriminate Hf.
  - apply repeat_ok, wide_row_ok.
  - apply repeat_ok, wide_row_ok.
  - exact E1.
  - exact E2.
  - clear E1 E2. rewrite L1. unfold DAY_HEADER_SZ. lia.
  - clear E1 E2. rewrite L1, L2. unfold DAY_HEADER_SZ. lia.
Defined.

Lemma block_writer_writes_the_day_witness :
  exists st groups f,
    calls "/data" "BTC" 2 4096
      ((all_ok, BeginDay 20240102) :: map (fun r => (all_ok, WriteRow r)) odd_rows
       ++ [(all_ok, Close)]) (init (fun _ => None)) = Returns st /\
    fd_ st = None /\ buf_ st = [] /\ curr_day_ st = 0 /\
    concat groups = odd_rows /\
    Forall (fun g => Z.of_nat (length g) = 2) (removelast groups) /\
    Forall (fun g => 0 < Z.of_nat (length g) <= 2) groups /\
    Forall (fun g => encode_block g [] = Ok (encoded g)) groups /\
    disk st (day_path "/data" "BTC" 20240102) = Some f /\
    Writer.f_size f = DAY_HEADER_SZ + Z.of_nat (length (concat (map encoded groups))) /\
    Writer.peek f 0 (24 + length (concat (map encoded groups)))
    = day_header_bytes
        (mkDayHeader (Z.of_nat (length odd_rows))
                     (Z.of_nat (length (concat (map encoded groups)))) 20240102
                     (Z.of_nat (length groups)))
      ++ concat (map encoded groups) /\
    forall q, q <> day_path "/data" "BTC" 20240102 -> disk st q = (fun _ => None) q.
Proof.
  apply (block_writer_writes_the_day "/data" "BTC" 2 4096 ltac:(lia) ltac:(lia)
           odd_rows 20240102 (fun _ => None)).
  - lia.
  - exact odd_rows_ok.
  - vm_compute. discriminate.
Defined.

End BlockSamplesFacts.

(* ================================================================== *)
(** * The day-file lists *)
(* ================================================================== *)

Import Listing.

Section SortDays.

Lemma insert_day_perm f l : Permutation (insert_day f l) (f :: l).
  Proof.
    induction l as [|g l IH]; cbn [insert_day]; [reflexivity|].
    destruct (yyyymmdd f <? yyyymmdd g); [reflexivity|].
    rewrite IH. apply perm_swap.
  Qed.

Lemma sort_days_perm l : Permutation (sort_days l) l.
  Proof.
    induction l as [|f l IH]; cbn [sort_days]; [reflexivity|].
    rewrite insert_day_perm. now constructor.
  Qed.

Lemma insert_day_sorted f l :
    StronglySorted day_le l -> StronglySorted day_le (insert_day f l).
  Proof.
    induction 1 as [|g l Hs IH Hg]; cbn [insert_day].
    - constructor; constructor.
    - destruct (Z.ltb_spec (yyyymmdd f) (yyyymmdd g)).
      + constructor; [constructor; assumption|].
        constructor; [unfold day_le; lia|].
        eapply Forall_impl; [|exact Hg]. unfold day_le. intros; lia.
      + constructor; [exact IH|].
        eapply Permutation_Forall; [symmetry; apply insert_day_perm|].
        constructor; [unfold day_le; lia | exact Hg].
  Qed.

Lemma sort_days_sorted l : StronglySorted day_le (sort_days l).
  Proof.
    induction l as [|f l IH]; cbn [sort_days]; [constructor|].
    now apply insert_day_sorted.
  Qed.

Lemma sort_days_in f l : In f (sort_days l) <-> In f l.
  Proof.
    split; apply Permutation_in; [apply sort_days_perm | symmetry; apply sort_days_perm].
  Qed.

End SortDays.

Section FromChars.

Lemma take_digits_all ds : forallb is_digit ds = true -> take_digits ds = ds.
  Proof.
    induction ds as [|c ds IH]; cbn [forallb take_digits]; [reflexivity|].
    intros H. apply andb_true_iff in H. destruct H as [Hc Hds].
    rewrite Hc, IH by exact Hds. reflexivity.
  Qed.

Lemma take_digits_digits l : forallb is_digit (take_digits l) = true.
  Proof.
    induction l as [|c l IH]; cbn [take_digits]; [reflexivity|].
    destruct (is_digit c) eqn:E; [|reflexivity]. cbn [forallb]. now rewrite E, IH.
  Qed.

Lemma take_digits_prefix l : exists t, l = take_digits l ++ t.
  Proof.
    induction l as [|c l (t & IH)]; cbn [take_digits]; [now exists []|].
    destruct (is_digit c); [|now exists (c :: l)].
    exists t. cbn [app]. now rewrite <- IH.
  Qed.

Lemma take_digits_whole l :
    length (take_digits l) = length l -> take_digits l = l.
  Proof.
    intros H. destruct (take_digits_prefix l) as (t & E).
    assert (Ht : length t = 0%nat).
    { apply (f_equal (@length _)) in E. rewrite length_app in E. lia. }
    destruct t; [|discriminate Ht]. now rewrite app_nil_r in E.
  Qed.

Lemma is_digit_code c : is_digit c = true -> 0 <= code c - 48 <= 9.
  Proof. unfold is_digit. intros H. apply andb_true_iff in H. lia. Qed.

Lemma digits_value_acc ds : forall acc,
    fold_left (fun a c => a * 10 + (code c - 48)) ds acc
    = acc * 10 ^ Z.of_nat (length ds) + digits_value ds.
  Proof.
    unfold digits_value.
    induction ds as [|c ds IH]; intros acc; cbn [fold_left length].
    - change (10 ^ Z.of_nat 0) with 1. lia.
    - rewrite IH, (IH (0 * 10 + (code c - 48))).
      rewrite Nat2Z.inj_succ, Z.pow_succ_r by lia. lia.
  Qed.

Lemma digits_value_range ds :
    forallb is_digit ds = true -> 0 <= digits_value ds < 10 ^ Z.of_nat (length ds).
  Proof.
    induction ds as [|c ds IH]; intros H.
    - cbn. lia.
    - cbn [forallb] in H. apply andb_true_iff in H. destruct H as [Hc Hds].
      specialize (IH Hds). apply is_digit_code in Hc.
      unfold digits_value in *. cbn [fold_left length].
      rewrite digits_value_acc. unfold digits_value.
      rewrite Nat2Z.inj_succ, Z.pow_succ_r by lia. nia.
  Qed.

  (** [from_chars] on eight digits: all are consumed, no error, and
      the value is below 10^8. *)
Lemma from_chars_u32_digits8 ds old :
    length ds = 8%nat -> forallb is_digit ds = true ->
    from_chars_u32 ds old = (8%nat, errc_ok, digits_value ds).
  Proof.
    intros Hl Hd. unfold from_chars_u32. rewrite take_digits_all by exact Hd.
    destruct ds as [|c ds]; [discriminate Hl|].
    pose proof (digits_value_range (c :: ds) Hd) as Hr. rewrite Hl in Hr.
    change (10 ^ Z.of_nat 8) with 100000000 in Hr.
    destruct (Z.ltb_spec UINT32_MAX (digits_value (c :: ds))) as [Hgt|_].
    - unfold UINT32_MAX in Hgt. lia.
    - now rewrite Hl.
  Qed.

Lemma from_chars_u32_ok l old p v :
    from_chars_u32 l old = (p, errc_ok, v) ->
    p = length (take_digits l) /\ v = digits_value (take_digits l) /\ p <> 0%nat.
  Proof.
    unfold from_chars_u32. destruct (take_digits l) as [|c ds] eqn:E; [discriminate|].
    destruct (UINT32_MAX <? digits_value (c :: ds)); [discriminate|].
    intros H. apply pair_equal_spec in H. destruct H as [H Hv].
    apply pair_equal_spec in H. destruct H as [Hp _].
    subst. repeat split. discriminate.
  Qed.

End FromChars.

Section Extension.

Lemma from_last_dot_suffix l e : from_last_dot l = Some e -> exists pre, l = pre ++ e.
  Proof.
    revert e. induction l as [|c l IH]; intros e; cbn [from_last_dot]; [discriminate|].
    destruct (from_last_dot l) as [e'|].
    - intros [= <-]. destruct (IH e' eq_refl) as (pre & ->). now exists (c :: pre).
    - destruct (Ascii.eqb c dot); [|discriminate]. intros [= <-]. now exists [].
  Qed.

Lemma from_last_dot_app pre l e :
    from_last_dot l = Some e -> from_last_dot (pre ++ l) = Some e.
  Proof.
    intros H. induction pre as [|c pre IH]; [exact H|].
    cbn [app from_last_dot]. now rewrite IH.
  Qed.

Lemma chars_inj s t : chars s = chars t -> s = t.
  Proof.
    unfold chars. intros H.
    rewrite <- (string_of_list_ascii_of_string s), <- (string_of_list_ascii_of_string t).
    now rewrite H.
  Qed.

  (** [extension() == ".bin"]: the name ends with ".bin" and has at
      least one character before it. *)
Lemma extension_bin name :
    extension name = ".bin"%string <->
    exists c pre, chars name = c :: pre ++ bin_suffix.
  Proof.
    unfold extension. split.
    - destruct (chars name) as [|c l] eqn:E; [discriminate|].
      destruct (String.eqb name ".."); [discriminate|].
      destruct (from_last_dot l) as [e|] eqn:El; [|discriminate].
      intros H. apply from_last_dot_suffix in El. destruct El as (pre & ->).
      exists c, pre. do 2 f_equal.
      apply (f_equal list_ascii_of_string) in H.
      rewrite list_ascii_of_string_of_list_ascii in H. exact H.
    - intros (c & pre & E). rewrite E.
      destruct (String.eqb_spec name "..") as [-> | _].
      { apply (f_equal (@length _)) in E. cbn in E. rewrite length_app in E.
        cbn in E. lia. }
      rewrite (from_last_dot_app pre bin_suffix bin_suffix) by reflexivity.
      reflexivity.
  Qed.

End Extension.

Section ParseNames.

Lemma app_length_inj {A} (a a' b b' : list A) :
    a ++ b = a' ++ b' -> length b = length b' -> a = a' /\ b = b'.
  Proof.
    intros H Hl.
    assert (Hla : length a = length a').
    { apply (f_equal (@length _)) in H. rewrite !length_app in H. lia. }
    revert a' H Hla. induction a as [|x a IH]; intros [|x' a'] H Hla; try discriminate Hla.
    - now split.
    - cbn [app] in H. injection H as -> H. cbn [length] in Hla.
      destruct (IH a' H ltac:(lia)) as [-> ->]. now split.
  Qed.

Lemma firstn_exact {A} n (a b : list A) : length a = n -> firstn n (a ++ b) = a.
  Proof.
    intros <-. rewrite firstn_app, firstn_all, Nat.sub_diag. cbn [firstn]. apply app_nil_r.
  Qed.

Lemma skipn_exact {A} n (a b : list A) : length a = n -> skipn n (a ++ b) = b.
  Proof. intros <-. rewrite skipn_app, skipn_all, Nat.sub_diag. reflexivity. Qed.

  (** The names [ReaderT::parse_yyyymmdd] accepts: eight digits
      followed by ".bin", and nothing else. *)
Lemma reader_parse_spec fname d :
    Reader.parse_yyyymmdd fname = Some d <->
    exists ds, chars fname = ds ++ bin_suffix /\ length ds = 8%nat /\
               forallb is_digit ds = true /\ d = digits_value ds.
  Proof.
    unfold Reader.parse_yyyymmdd. cbv zeta. split.
    - destruct (Nat.eqb_spec (length (chars fname)) 12) as [Hl|]; [|discriminate].
      cbn [negb].
      destruct (String.eqb_spec (string_of_list_ascii (skipn 8 (chars fname))) ".bin")
        as [Hs|]; [|discriminate]. cbn [negb].
      destruct (forallb is_digit (firstn 8 (chars fname))) eqn:Hd; [|discriminate].
      cbn [negb].
      assert (Hl8 : length (firstn 8 (chars fname)) = 8%nat)
        by (rewrite length_firstn; lia).
      rewrite (from_chars_u32_digits8 _ 0 Hl8 Hd). intros [= <-].
      exists (firstn 8 (chars fname)). repeat split; try assumption.
      apply (f_equal list_ascii_of_string) in Hs.
      rewrite list_ascii_of_string_of_list_ascii in Hs.
      change (list_ascii_of_string ".bin") with bin_suffix in Hs.
      rewrite <- Hs. symmetry. apply firstn_skipn.
    - intros (ds & E & Hl & Hd & ->). rewrite E.
      rewrite length_app, Hl, (firstn_exact 8 ds _ Hl), (skipn_exact 8 ds _ Hl). cbn [length bin_suffix chars list_ascii_of_string Nat.add Nat.eqb negb].
      change (string_of_list_ascii _) with ".bin"%string.
      cbn [String.eqb Ascii.eqb Bool.eqb negb].
      rewrite Hd. cbn [negb].
      now rewrite (from_chars_u32_digits8 _ 0 Hl Hd).
  Qed.

  (** The names [BlockReaderT::parse_yyyymmdd] accepts: eight digits
      that end four characters before the end of the name, whatever
      comes before and after them. *)
Lemma block_reader_parse_spec name d :
    BlockReader.parse_yyyymmdd name = Some d <->
    exists pre ds suf, chars name = pre ++ ds ++ suf /\ length ds = 8%nat /\
                       length suf = 4%nat /\
                       forallb is_digit ds = true /\ d = digits_value ds.
  Proof.
    unfold BlockReader.parse_yyyymmdd, substr. cbv zeta. split.
    - destruct (Nat.ltb_spec (length (chars name)) 12) as [|Hl]; [discriminate|].
      set (l := chars name) in *. set (k := (length l - 12)%nat).
      destruct (from_chars_u32 (firstn 8 (skipn k l)) 0) as [[p ec] v] eqn:E.
      destruct ec; try discriminate.
      destruct (Nat.eqb_spec p 8) as [->|]; [|discriminate]. intros [= <-].
      apply from_chars_u32_ok in E. destruct E as (Hp & Hv & _).
      assert (Hst : length (firstn 8 (skipn k l)) = 8%nat)
        by (rewrite length_firstn, length_skipn; unfold k; lia).
      assert (Hw : take_digits (firstn 8 (skipn k l)) = firstn 8 (skipn k l))
        by (apply take_digits_whole; lia).
      exists (firstn k l), (firstn 8 (skipn k l)), (skipn 8 (skipn k l)).
      repeat split.
      + now rewrite !firstn_skipn.
      + exact Hst.
      + rewrite !length_skipn. unfold k. lia.
      + rewrite <- Hw. apply take_digits_digits.
      + now rewrite <- Hw.
    - intros (pre & ds & suf & E & Hl & Hs & Hd & ->). rewrite E.
      rewrite !length_app, Hl, Hs.
      destruct (Nat.ltb_spec (length pre + (8 + 4)) 12) as [|_]; [lia|].
      replace (length pre + (8 + 4) - 12)%nat with (length pre) by lia.
      rewrite (skipn_exact _ pre _ eq_refl), (firstn_exact 8 ds _ Hl).
      rewrite (from_chars_u32_digits8 _ 0 Hl Hd). reflexivity.
  Qed.

  (** A name with the extension ".bin" that [BlockReaderT::parse_yyyymmdd]
      accepts: eight digits right before ".bin". *)
Lemma block_reader_name_spec name d :
    extension name = ".bin"%string /\ BlockReader.parse_yyyymmdd name = Some d <->
    exists pre ds, chars name = pre ++ ds ++ bin_suffix /\ length ds = 8%nat /\
                   forallb is_digit ds = true /\ d = digits_value ds.
  Proof.
    rewrite extension_bin, block_reader_parse_spec. split.
    - intros ((c & pre' & E') & (pre & ds & suf & E & Hl & Hs & Hd & Hv)).
      exists pre, ds. repeat split; try assumption.
      assert (Es : bin_suffix = suf).
      { rewrite E' in E.
        change (c :: pre' ++ bin_suffix) with ((c :: pre') ++ bin_suffix) in E.
        rewrite (app_assoc pre ds suf) in E.
        apply app_length_inj in E; [apply E | now rewrite Hs]. }
      now rewrite Es.
    - intros (pre & ds & E & Hl & Hd & Hv). split.
      + destruct (pre ++ ds) as [|c l] eqn:Epd.
        { apply (f_equal (@length _)) in Epd. rewrite length_app in Epd. cbn in Epd. lia. }
        exists c, l. rewrite E, app_assoc, Epd. reflexivity.
      + exists pre, ds, bin_suffix. repeat split; assumption.
  Qed.

End ParseNames.

Section ReaderFacts.

Lemma reader_keep_entry_spec opt dir e f :
    In f (Reader.keep_entry opt dir e) <->
    e_regular e = true /\
    Reader.parse_yyyymmdd (e_name e) = Some (yyyymmdd f) /\
    date_from opt <= yyyymmdd f <= date_to opt /\
    path f = path_join dir (e_name e).
  Proof.
    unfold Reader.keep_entry.
    destruct (e_regular e); cbn [negb].
    2: { split; [contradiction | intros (H & _); discriminate]. }
    destruct (Reader.parse_yyyymmdd (e_name e)) as [d|].
    2: { split; [contradiction | intros (_ & H & _); discriminate]. }
    destruct (Z.ltb_spec d (date_from opt)); cbn [orb].
    { split; [contradiction | intros (_ & [= <-] & H1 & _); lia]. }
    destruct (Z.ltb_spec (date_to opt) d).
    { split; [contradiction | intros (_ & [= <-] & H1 & _); lia]. }
    split.
    - intros [<- | []]. cbn. repeat split; try assumption; lia.
    - intros (_ & [= Hd] & _ & Hp). left. destruct f as [fd fp]. cbn in *. congruence.
  Qed.

End ReaderFacts.

Section Paths.

Lemma chars_append a b : chars (a ++ b) = chars a ++ chars b.
  Proof.
    unfold chars. induction a as [|c a IH]; [reflexivity|].
    cbn [append list_ascii_of_string app]. now rewrite IH.
  Qed.

Lemma last_app_nonempty {A} (a b : list A) d : b <> [] -> last (a ++ b) d = last b d.
  Proof.
    intros Hb. induction a as [|x a IH]; [reflexivity|].
    cbn [app]. destruct (a ++ b) eqn:E; [|exact IH].
    apply app_eq_nil in E. destruct E as [_ E]. contradiction.
  Qed.

Lemma last_char_append a b : chars b <> [] -> last_char (a ++ b) = last_char b.
  Proof.
    intros Hb. unfold last_char. rewrite chars_append, map_app.
    apply last_app_nonempty. destruct (chars b); [congruence | discriminate].
  Qed.

  (** [a / b] ends as [b] does, when [b] is not empty. *)
Lemma path_join_last a b c :
    chars b <> [] -> last_char b = Some c -> last_char (path_join a b) = Some c.
  Proof.
    intros Hb Hc. unfold path_join.
    destruct (chars b) as [|c0 l] eqn:E; [congruence|].
    assert (Hb' : chars b <> []) by (rewrite E; discriminate).
    destruct (Ascii.eqb c0 slash); [exact Hc|].
    destruct (last_char a) as [la|]; [|exact Hc].
    destruct (Ascii.eqb la slash).
    - rewrite last_char_append by exact Hb'. exact Hc.
    - rewrite (last_char_append a) by (rewrite chars_append; discriminate).
      rewrite last_char_append by exact Hb'. exact Hc.
  Qed.

End Paths.

Section BlockReaderFacts.

  Import BlockReader.

Lemma keep_entry_spec opt dir e f :
    In f (keep_entry opt dir e) <->
    e_regular e = true /\ extension (e_name e) = ".bin"%string /\
    parse_yyyymmdd (e_name e) = Some (yyyymmdd f) /\
    date_from opt <= yyyymmdd f <= date_to opt /\
    path f = path_join dir (e_name e).
  Proof.
    unfold keep_entry.
    destruct (e_regular e); cbn [negb].
    2: { split; [contradiction | intros (H & _); discriminate]. }
    destruct (String.eqb_spec (extension (e_name e)) ".bin") as [Hext | Hext]; cbn [negb].
    2: { split; [contradiction | intros (_ & H & _); contradiction]. }
    destruct (parse_yyyymmdd (e_name e)) as [d|].
    2: { split; [contradiction | intros (_ & _ & H & _); discriminate]. }
    destruct (Z.ltb_spec d (date_from opt)); cbn [orb].
    { split; [contradiction | intros (_ & _ & [= <-] & H1 & _); lia]. }
    destruct (Z.ltb_spec (date_to opt) d).
    { split; [contradiction | intros (_ & _ & [= <-] & H1 & _); lia]. }
    split.
    - intros [<- | []]. cbn. repeat split; try assumption; lia.
    - intros (_ & _ & [= Hd] & _ & Hp). left. destruct f as [fd fp]. cbn in *. congruence.
  Qed.

Lemma block_reader_files tree opt :
    let dir := path_join (base_dir opt) (product opt) in
    let files := build_day_file_list tree opt in
    StronglySorted day_le files /\
    forall f,
      In f files <->
      exists entries e pre ds,
        tree dir = Some entries /\ In e entries /\ e_regular e = true /\
        chars (e_name e) = pre ++ ds ++ bin_suffix /\
        length ds = 8%nat /\ forallb is_digit ds = true /\
        yyyymmdd f = digits_value ds /\
        date_from opt <= yyyymmdd f <= date_to opt /\
        path f = path_join dir (e_name e).
  Proof.
    cbv zeta. unfold build_day_file_list.
    destruct (tree (path_join (base_dir opt) (product opt))) as [entries|].
    - split; [apply sort_days_sorted|]. intros f.
      rewrite sort_days_in, in_flat_map. split.
      + intros (e & He & Hk). apply keep_entry_spec in Hk.
        destruct Hk as (Hr & Hext & Hp & Hd & Hpath).
        destruct (proj1 (block_reader_name_spec _ _) (conj Hext Hp))
          as (pre & ds & E & Hl & Hdg & Hv).
        exists entries, e, pre, ds. repeat split; try assumption; apply Hd.
      + intros (en & e & pre & ds & Ht & He & Hr & E & Hl & Hdg & Hv & Hd & Hpath).
        apply Some_inj in Ht. subst en.
        exists e. split; [exact He|]. apply keep_entry_spec.
        destruct (proj2 (block_reader_name_spec (e_name e) (yyyymmdd f)))
          as (Hext & Hp); [now exists pre, ds|].
        repeat split; try assumption; apply Hd.
    - split; [constructor|]. intros f. split; [contradiction|].
      intros (en & e & pre & ds & H & _). discriminate.
  Qed.

  (** What [BlockReaderT::build_day_file_list] leaves in [files_]: the
      regular files of [base_dir / product] named by eight digits and
      ".bin", with anything before the digits, whose date is in the
      inclusive range; in ascending order of the date. *)
Theorem block_reader_listing tree opt :
    let dir := path_join (base_dir opt) (product opt) in
    let files := build_day_file_list tree opt in
    StronglySorted day_le files /\
    forall f,
      In f files <->
      exists entries e pre ds,
        tree dir = Some entries /\ In e entries /\ e_regular e = true /\
        chars (e_name e) = pre ++ ds ++ bin_suffix /\
        length ds = 8%nat /\ forallb is_digit ds = true /\
        yyyymmdd f = digits_value ds /\
        date_from opt <= yyyymmdd f <= date_to opt /\
        path f = path_join dir (e_name e).
  Proof. apply block_reader_files. Qed.

  (** C2 (the code departs from it).  Every path of the block
      reader's list ends with ".bin", and every path the block writer
      creates ends with ".blocks": whatever the directory tree and
      the options, no file of the block writer is in the list. *)
Theorem block_reader_never_lists_block_files tree opt base prod day :
    ~ In (BlockWriter.day_path base prod day)
         (paths_only_ (build_day_file_list tree opt)).
  Proof.
    unfold paths_only_. intros Hin. apply in_map_iff in Hin.
    destruct Hin as (f & Hp & Hf).
    apply (proj2 (block_reader_files tree opt)) in Hf.
    destruct Hf as (en & e & pre & ds & _ & _ & _ & E & _ & _ & _ & _ & Hpath).
    assert (Hlast : last_char (path f) = Some "n"%char).
    { rewrite Hpath. apply path_join_last.
      - rewrite E. intros H. apply app_eq_nil in H. destruct H as [_ H].
        apply app_eq_nil in H. destruct H as [_ H]. discriminate H.
      - unfold last_char. rewrite E, app_assoc, map_app.
        rewrite last_app_nonempty by (vm_compute; discriminate). reflexivity. }
    rewrite Hp in Hlast. unfold BlockWriter.day_path, last_char in Hlast.
    rewrite !chars_append, !app_assoc, map_app in Hlast.
    rewrite last_app_nonempty in Hlast by (vm_compute; discriminate).
    discriminate Hlast.
  Qed.

  (** C2 at a concrete input.  The block writer puts the day 20240102
      of product BTC into /data/BTC-BLOCKS/20240102.blocks; the block
      reader for the same base directory and product lists nothing,
      nor does it when its product is set to the writer's directory. *)
Example block_reader_misses_the_writers_file :
    let tree : Tree := fun d =>
      if String.eqb d (BlockWriter.day_dir "/data" "BTC")
      then Some [mkEntry (BlockWriter.date_string 20240102 ++ ".blocks") true]
      else None in
    BlockWriter.day_path "/data" "BTC" 20240102
      = "/data/BTC-BLOCKS/20240102.blocks"%string /\
    build_day_file_list tree (mkOpt "/data" "BTC" 0 99999999) = [] /\
    build_day_file_list tree (mkOpt "/data" "BTC-BLOCKS" 0 99999999) = [].
  Proof. cbv zeta. repeat split; vm_compute; reflexivity. Qed.

End BlockReaderFacts.


Section ReaderListing.

Lemma reader_files tree opt :
    let root := Reader.product_dir opt in
    let files := Reader.build_day_file_list tree opt in
    StronglySorted day_le files /\
    forall f,
      In f files <->
      exists entries e ds,
        tree root = Some entries /\ In e entries /\ e_regular e = true /\
        chars (e_name e) = ds ++ bin_suffix /\
        length ds = 8%nat /\ forallb is_digit ds = true /\
        yyyymmdd f = digits_value ds /\
        date_from opt <= yyyymmdd f <= date_to opt /\
        path f = path_join root (e_name e).
  Proof.
    cbv zeta. unfold Reader.build_day_file_list.
    destruct (tree (Reader.product_dir opt)) as [entries|].
    - split; [apply sort_days_sorted|]. intros f.
      rewrite sort_days_in, in_flat_map. split.
      + intros (e & He & Hk). apply reader_keep_entry_spec in Hk.
        destruct Hk as (Hr & Hp & Hd & Hpath).
        apply reader_parse_spec in Hp. destruct Hp as (ds & E & Hl & Hdg & Hv).
        exists entries, e, ds. repeat split; try assumption; apply Hd.
      + intros (en & e & ds & Ht & He & Hr & E & Hl & Hdg & Hv & Hd & Hpath).
        apply Some_inj in Ht. subst en.
        exists e. split; [exact He|]. apply reader_keep_entry_spec.
        repeat split; try assumption; try apply Hd.
        apply reader_parse_spec. now exists ds.
    - split; [constructor|]. intros f. split; [contradiction|].
      intros (en & e & ds & H & _). discriminate.
  Qed.

  (** What [ReaderT::build_day_file_list] leaves in [files_]: the
      regular files of the product directory whose whole name is
      eight digits and ".bin", with the date in the inclusive range;
      in ascending order of the date. *)
Theorem reader_listing tree opt :
    let root := Reader.product_dir opt in
    let files := Reader.build_day_file_list tree opt in
    StronglySorted day_le files /\
    forall f,
      In f files <->
      exists entries e ds,
        tree root = Some entries /\ In e entries /\ e_regular e = true /\
        chars (e_name e) = ds ++ bin_suffix /\
        length ds = 8%nat /\ forallb is_digit ds = true /\
        yyyymmdd f = digits_value ds /\
        date_from opt <= yyyymmdd f <= date_to opt /\
        path f = path_join root (e_name e).
  Proof. apply reader_files. Qed.

Lemma last_is_some {A} (l : list A) : forall c d,
    exists c', last (map Some (c :: l)) d = Some c'.
  Proof.
    induction l as [|x l IH]; intros c d; [now exists c|].
    destruct (IH x d) as (c' & E). exists c'. exact E.
  Qed.

  (** [a / b] for a relative [b] after a non-empty directory name
      without trailing separator. *)
Lemma path_join_plain a b :
    a <> EmptyString -> last_char a <> Some slash ->
    (forall l, chars b <> slash :: l) ->
    path_join a b = (a ++ "/" ++ b)%string.
  Proof.
    intros Ha Hl Hb. unfold path_join.
    assert (Hla : exists c, last_char a = Some c /\ Ascii.eqb c slash = false).
    { unfold last_char in *. destruct a as [|c a]; [congruence|].
      cbn [chars list_ascii_of_string map] in *.
      destruct (last_is_some (list_ascii_of_string a) c None) as (c' & E).
      cbn [map] in E. exists c'. split; [exact E|].
      destruct (Ascii.eqb_spec c' slash) as [-> | ]; [|reflexivity].
      rewrite E in Hl. congruence. }
    destruct Hla as (c & -> & Hc). rewrite Hc.
    destruct (chars b) as [|c0 l] eqn:E.
    - apply (chars_inj b EmptyString) in E. subst b. reflexivity.
    - destruct (Ascii.eqb_spec c0 slash) as [-> | _]; [|reflexivity].
      exfalso. exact (Hb l eq_refl).
  Qed.

End ReaderListing.

Section WriterMeetsReader.

  (** The columnar writer and the columnar reader agree on names: a
      day file the writer created under [base_dir] and [product] is in
      the list of a reader with the same two options, under the path
      the writer used, whenever [date_string] gave eight digits and
      the date is in the reader's range.  The two directory names are
      plain: not empty, no trailing separator, the product relative. *)
Theorem writer_day_file_is_listed tree opt date_string day ds entries :
    base_dir opt <> EmptyString -> last_char (base_dir opt) <> Some slash ->
    product opt <> EmptyString -> last_char (product opt) <> Some slash ->
    (forall l, chars (product opt) <> slash :: l) ->
    chars (date_string day) = ds -> length ds = 8%nat -> forallb is_digit ds = true ->
    date_from opt <= digits_value ds <= date_to opt ->
    tree (base_dir opt ++ "/" ++ product opt)%string = Some entries ->
    In (mkEntry (date_string day ++ ".bin") true) entries ->
    In (mkDayFile (digits_value ds)
                  (Writer.day_path (base_dir opt) (product opt) date_string day))
       (Reader.build_day_file_list tree opt).
  Proof.
    intros Hb Hbl Hp Hpl Hps Hds Hl Hdg Hrange Htree Hin.
    assert (Hroot : Reader.product_dir opt = (base_dir opt ++ "/" ++ product opt)%string).
    { unfold Reader.product_dir.
      destruct (String.eqb_spec (product opt) "") as [E|_]; [contradiction|].
      now apply path_join_plain. }
    apply (proj2 (reader_files tree opt)).
    exists entries, (mkEntry (date_string day ++ ".bin") true), ds.
    cbn [e_name e_regular yyyymmdd path].
    assert (Hname : chars (date_string day ++ ".bin") = ds ++ bin_suffix)
      by (rewrite chars_append, Hds; reflexivity).
    rewrite Hroot. repeat split; try assumption; try apply Hrange.
    unfold Writer.day_path. symmetry. apply path_join_plain.
    - intros E. apply (f_equal chars) in E. rewrite !chars_append in E.
      apply app_eq_nil in E. destruct E as [_ E]. discriminate E.
    - rewrite last_char_append.
      + rewrite last_char_append; [exact Hpl|].
        intros E. apply (chars_inj (product opt) EmptyString) in E. contradiction.
      + rewrite chars_append. discriminate.
    - intros l. rewrite Hname.
      destruct ds as [|d0 ds']; [discriminate Hl|].
      cbn [forallb] in Hdg. apply andb_true_iff in Hdg. destruct Hdg as [Hd0 _].
      cbn [app]. intros E. apply (f_equal (fun x => hd d0 x)) in E. cbn [hd] in E.
      subst d0. discriminate Hd0.
  Qed.

End WriterMeetsReader.

Lemma writer_day_file_is_listed_witness :
  In (mkDayFile 19700102 "/data/BTC/19700102.bin")
     (Reader.build_day_file_list
        (fun d => if String.eqb d "/data/BTC"
                  then Some [mkEntry "19700102.bin" true]
                  else None)
        (mkOpt "/data" "BTC" 0 99999999)).
Proof.
  apply (writer_day_file_is_listed
           (fun d => if String.eqb d "/data/BTC"
                     then Some [mkEntry "19700102.bin" true]
                     else None)
           (mkOpt "/data" "BTC" 0 99999999) Dates.utc_date_string 86400
           (chars "19700102") [mkEntry "19700102.bin" true]).
  - discriminate.
  - vm_compute. discriminate.
  - discriminate.
  - vm_compute. discriminate.
  - intros l. vm_compute. discriminate.
  - reflexivity.
  - reflexivity.
  - reflexivity.
  - vm_compute. split; discriminate.
  - reflexivity.
  - left. reflexivity.
Defined.
